(** * Nuspell: flag sets, affix index, word index, conditions, break
    recursion, affix stripping and the suggestor, as a shallow embedding.

    Conventions of the embedding:
    - a [std::basic_string<CharT>] is a [list Z] of code units (wide
      characters and 16-bit flags alike; only equality and [traits_type::lt]
      are ever used on them);
    - an iterator into a vector or string is the [nat] index it points at,
      and a pair of iterators is a pair of indices;
    - a function that takes [std::wstring&] and mutates it returns the new
      contents of the string next to its result;
    - a loop whose trip count is not structurally evident carries a [fuel]
      argument, and each such loop comes with a lemma that a stated amount
      of fuel is enough. *)

From Stdlib Require Strings.Byte.
From stdpp Require Import base numbers list sorting.

(** ** Algorithms of the C++ standard library used by the sources *)

Module Std.

(** [std::partition_point] over the index range [first, first + count): the
    binary search loop shared by [std::lower_bound] and [std::upper_bound]
    ([count] is halved until it is zero). [p i] is the test on the element
    at index [i]. *)
Fixpoint partition_point_loop (p : nat → bool) (fuel first count : nat) : nat :=
  match fuel with
  | 0 => first
  | S fuel' =>
      if count =? 0 then first
      else
        let step := count / 2 in
        let it := first + step in
        if p it
        then partition_point_loop p fuel' (it + 1) (count - (step + 1))
        else partition_point_loop p fuel' first step
  end.

Definition partition_point (p : nat → bool) (first last : nat) : nat :=
  partition_point_loop p (last - first) first (last - first).

(** [std::unique] followed by the erase of the tail: of every run of
    consecutive equal elements the first one is kept. *)
Fixpoint unique_from (prev : Z) (l : list Z) : list Z :=
  match l with
  | [] => []
  | y :: l' =>
      if (prev =? y)%Z then unique_from prev l' else y :: unique_from y l'
  end.

Definition unique (l : list Z) : list Z :=
  match l with
  | [] => []
  | x :: l' => x :: unique_from x l'
  end.

(** [std::sort] with [traits_type::lt] on code units. The order is total and
    two code units that compare equivalent are equal, so every sorting
    algorithm returns the same string; merge sort stands for it. *)
Definition sort (l : list Z) : list Z := merge_sort Z.le l.

(** [basic_string::find(c)]: index of the first occurrence. *)
Fixpoint find_char (c : Z) (l : list Z) : option nat :=
  match l with
  | [] => None
  | y :: l' => if (y =? c)%Z then Some 0 else S <$> find_char c l'
  end.

(** [basic_string::insert(it, c)] and [basic_string::erase(pos, n)]. *)
Definition insert_at {A} (i : nat) (x : A) (l : list A) : list A :=
  take i l ++ x :: drop i l.

Definition erase_range {A} (pos n : nat) (l : list A) : list A :=
  take pos l ++ drop (pos + n) l.

(** The elements of the iterator range [first, last) of [l]. *)
Definition slice_range {A} (first last : nat) (l : list A) : list A :=
  take (last - first) (drop first l).

(** [std::find_if] over a range given as a list: the index of the first
    element that satisfies [p]. *)
Fixpoint find_index {A} (p : A → bool) (l : list A) : option nat :=
  match l with
  | [] => None
  | y :: l' => if p y then Some 0 else S <$> find_index p l'
  end.

Lemma find_index_app_hit {A} (p : A → bool) l1 y l2 :
  Forall (λ x, p x = false) l1 → p y = true →
  find_index p (l1 ++ y :: l2) = Some (length l1).
Proof.
  intros Hl Hy. induction Hl as [|x l1 Hx Hl IH]; simpl.
  - by rewrite Hy.
  - by rewrite Hx, IH.
Qed.

Lemma find_index_miss {A} (p : A → bool) l :
  Forall (λ x, p x = false) l → find_index p l = None.
Proof.
  induction 1 as [|x l Hx Hl IH]; simpl; [done|]. by rewrite Hx, IH.
Qed.

Lemma find_index_Some {A} (p : A → bool) l k :
  find_index p l = Some k →
  ∃ l1 y l2, l = l1 ++ y :: l2 ∧ length l1 = k ∧
             Forall (λ x, p x = false) l1 ∧ p y = true.
Proof.
  revert k. induction l as [|x l IH]; intros k; simpl; [done|].
  destruct (p x) eqn:Hx.
  - intros [= <-]. by exists [], x, l.
  - destruct (find_index p l) as [k'|]; simpl; [|done].
    intros [= <-]. destruct (IH k' eq_refl) as (l1 & y & l2 & -> & <- & Hl1 & Hy).
    exists (x :: l1), y, l2. repeat split; auto.
Qed.

Lemma find_index_None {A} (p : A → bool) l :
  find_index p l = None → Forall (λ x, p x = false) l.
Proof.
  induction l as [|x l IH]; simpl; [constructor|].
  destruct (p x) eqn:Hx; [done|].
  destruct (find_index p l); simpl; [done|]. intros _. constructor; auto.
Qed.

Lemma drop_S_tail {A} (c : list A) i x tl :
  drop i c = x :: tl → drop (S i) c = tl ∧ c !! i = Some x ∧ i < length c.
Proof.
  intros Hd. split; [|split].
  - replace (S i) with (i + 1) by lia. by rewrite <- drop_drop, Hd.
  - by rewrite <- (Nat.add_0_r i), <- lookup_drop, Hd.
  - apply lookup_lt_is_Some. exists x.
    by rewrite <- (Nat.add_0_r i), <- lookup_drop, Hd.
Qed.

Lemma drop_app_tail {A} (c : list A) i l1 l2 :
  drop i c = l1 ++ l2 → drop (i + length l1) c = l2.
Proof.
  intros Hd. by rewrite <- drop_drop, Hd, drop_app_length.
Qed.

Lemma lookup_of_drop {A} (c : list A) i l k :
  drop i c = l → c !! (i + k) = l !! k.
Proof. intros <-. by rewrite lookup_drop. Qed.

(** [s.find(pat)]: the first position at which [pat] occurs in [s]. *)
Fixpoint find_sub (pat s : list Z) : option nat :=
  if decide (take (length pat) s = pat) then Some 0
  else
    match s with
    | [] => None
    | _ :: s' => S <$> find_sub pat s'
    end.

(** [s.find(pat, pos)] and [s.find(c, pos)] *)
Definition find_sub_from (pat : list Z) (pos : nat) (s : list Z) : option nat :=
  if length s <? pos then None
  else (λ k, pos + k) <$> find_sub pat (drop pos s).

Definition find_char_from (c : Z) (pos : nat) (s : list Z) : option nat :=
  (λ k, pos + k) <$> find_char c (drop pos s).

(** [s.substr(pos, count)] for [pos <= s.size()] *)
Definition substr (pos count : nat) (s : list Z) : list Z :=
  take count (drop pos s).

(** [a - b] on [size_t], for the sizes of two strings. When [b] is the larger
    one the difference wraps around to a value above the size of every
    string; [None] stands for such a value. *)
Definition size_sub (a b : nat) : option nat :=
  if b <=? a then Some (a - b) else None.

(** [s.replace(pos, count, str)] of [std::basic_string]: the characters from
    [pos] on, [count] of them or as many as there are, give way to [str].
    The answer [None] is [std::out_of_range], thrown when [pos > s.size()]. *)
Definition replace (pos : option nat) (count : nat) (str s : list Z) : option (list Z) :=
  match pos with
  | None => None
  | Some pos =>
      if length s <? pos then None
      else Some (take pos s ++ str ++ drop (pos + count) s)
  end.

Lemma replace_at_begin (a b rest : list Z) :
  replace (Some 0) (length a) b (a ++ rest) = Some (b ++ rest).
Proof. unfold replace. simpl. by rewrite drop_app_length. Qed.

Lemma replace_at_end (a b rest : list Z) :
  replace (size_sub (length (rest ++ a)) (length a)) (length a) b (rest ++ a)
  = Some (rest ++ b).
Proof.
  unfold replace, size_sub. rewrite length_app.
  destruct (Nat.leb_spec (length a) (length rest + length a)); [|lia].
  replace (length rest + length a - length a) with (length rest) by lia.
  destruct (Nat.ltb_spec (length rest + length a) (length rest)); [lia|].
  rewrite take_app_length, drop_ge by (rewrite length_app; lia).
  by rewrite app_nil_r.
Qed.

Lemma find_char_Some c l i : find_char c l = Some i → l !! i = Some c.
Proof.
  revert i. induction l as [|y l IH]; intros i; simpl; [done|].
  destruct (Z.eqb_spec y c) as [->|].
  - by intros [= <-].
  - destruct (find_char c l) as [k|]; simpl; [|done].
    intros [= <-]. by apply IH.
Qed.

Lemma find_char_None_not_in c l : find_char c l = None → c ∉ l.
Proof.
  induction l as [|y l IH]; simpl; [intros _; apply not_elem_of_nil|].
  destruct (Z.eqb_spec y c) as [->|]; [done|].
  destruct (find_char c l); simpl; [done|].
  intros _. apply not_elem_of_cons. split; [done|by apply IH].
Qed.

(** The range [first, last) of [p] is partitioned: once the test fails it
    keeps failing. *)
Definition partitioned (p : nat → bool) (first last : nat) : Prop :=
  ∀ i j, first ≤ i → i ≤ j → j < last → p j = true → p i = true.

Lemma partition_point_loop_spec p fuel first count :
  count ≤ fuel →
  partitioned p first (first + count) →
  let r := partition_point_loop p fuel first count in
  first ≤ r ≤ first + count ∧
  (∀ i, first ≤ i → i < r → p i = true) ∧
  (∀ i, r ≤ i → i < first + count → p i = false).
Proof.
  unfold partitioned.
  revert first count. induction fuel as [|fuel IH]; intros first count Hf Hp.
  - assert (count = 0) by lia. subst. simpl. repeat split; intros; lia.
  - cbn [partition_point_loop]. destruct (Nat.eqb_spec count 0) as [->|Hc].
    + repeat split; intros; lia.
    + set (step := count / 2).
      assert (Hstep : step < count) by (apply Nat.div_lt; lia).
      fold step. destruct (p (first + step)) eqn:Hit.
      * destruct (IH (first + step + 1) (count - (step + 1))) as (Hr & Hlo & Hhi).
        { lia. }
        { intros i j ? ? ? ?. apply (Hp i j); auto; lia. }
        repeat split; try lia.
        -- intros i ? ?. destruct (decide (i < first + step + 1)).
           ++ apply (Hp i (first + step)); auto; lia.
           ++ apply Hlo; lia.
        -- intros i ? ?. apply Hhi; lia.
      * destruct (IH first step) as (Hr & Hlo & Hhi).
        { lia. }
        { intros i j ? ? ? ?. apply (Hp i j); auto; lia. }
        repeat split; try lia.
        -- intros i ? ?. apply Hlo; lia.
        -- intros i ? ?. destruct (decide (i < first + step)).
           ++ apply Hhi; lia.
           ++ destruct (p i) eqn:Hpi; [|done].
              rewrite <- Hit. symmetry. apply (Hp (first + step) i); auto; lia.
Qed.

Lemma partition_point_spec p first last :
  first ≤ last →
  partitioned p first last →
  let r := partition_point p first last in
  first ≤ r ≤ last ∧
  (∀ i, first ≤ i → i < r → p i = true) ∧
  (∀ i, r ≤ i → i < last → p i = false).
Proof.
  intros Hle Hp. unfold partition_point.
  pose proof (partition_point_loop_spec p (last - first) first (last - first)) as H.
  replace (first + (last - first)) with last in H by lia.
  apply H; [lia | done].
Qed.

(** Without any assumption on the range the search still lands inside it. *)
Lemma partition_point_loop_bounds p fuel first count :
  first ≤ partition_point_loop p fuel first count ≤ first + count.
Proof.
  revert first count.
  induction fuel as [|fuel IH]; intros first count; cbn [partition_point_loop].
  - lia.
  - destruct (Nat.eqb_spec count 0); [lia|].
    assert (count / 2 < count) by (apply Nat.div_lt; lia).
    destruct (p (first + count / 2)).
    + specialize (IH (first + count / 2 + 1) (count - (count / 2 + 1))). lia.
    + specialize (IH first (count / 2)). lia.
Qed.

Lemma partition_point_bounds p first last :
  first ≤ last → first ≤ partition_point p first last ≤ last.
Proof.
  intros. unfold partition_point.
  pose proof (partition_point_loop_bounds p (last - first) first (last - first)).
  lia.
Qed.

(** Membership in [List.filter] and [map]. *)
Lemma elem_of_filter_list {A} (p : A → bool) (l : list A) x :
  x ∈ List.filter p l ↔ x ∈ l ∧ p x = true.
Proof. rewrite !list_elem_of_In. apply filter_In. Qed.

Lemma elem_of_map_list {A B} (f : A → B) (l : list A) y :
  y ∈ map f l ↔ ∃ x, f x = y ∧ x ∈ l.
Proof.
  rewrite list_elem_of_In, in_map_iff.
  split; intros (x & Hx & Hin); exists x; by rewrite list_elem_of_In in *.
Qed.

End Std.

(** ** Flag sets: [String_Set<CharT>] of structures.hxx *)

Module String_Set.
Import Std.

(** The class has the single data member [d], the backing string. *)
Record String_Set := mk { d : list Z }.

(** [String_Set::sort_uniq]: [sort], then [d.erase(unique(first, last), last)]. *)
Definition sort_uniq (s : list Z) : list Z := unique (sort s).

(** The constructors and assignment operators from a string, an iterator
    range or an initializer list: copy, then [sort_uniq]. *)
Definition of_str (s : list Z) : String_Set := mk (sort_uniq s).

(** [lower_bound(x)] is [std::lower_bound(begin(), end(), x, traits_type::lt)]. *)
Definition lower_bound (x : Z) (s : String_Set) : nat :=
  partition_point (λ i, (d s !!! i <? x)%Z) 0 (length (d s)).

(** [insert(value_type x)], returning the set and the pair (iterator, inserted). *)
Definition insert (x : Z) (s : String_Set) : String_Set * (nat * bool) :=
  let it := lower_bound x s in
  if (negb (it =? length (d s))) && (d s !!! it =? x)%Z
  then (s, (it, false))
  else (mk (insert_at it x (d s)), (it, true)).

(** [insert(iterator hint, value_type x)]. *)
Definition insert_hint (hint : nat) (x : Z) (s : String_Set) : String_Set * nat :=
  if ((hint =? length (d s)) || (x <? d s !!! hint)%Z) &&
     ((hint =? 0) || (d s !!! (hint - 1)%nat <? x)%Z)
  then (mk (insert_at hint x (d s)), hint)
  else let r := insert x s in (r.1, r.2.1).

(** [insert(const Str& s)], which [operator+=] forwards to, and the range and
    initializer-list overloads: append, then [sort_uniq]. *)
Definition insert_str (str : list Z) (s : String_Set) : String_Set :=
  mk (sort_uniq (d s ++ str)).

(** [erase(key_type x)], returning the set and the count of erased flags. *)
Definition erase (x : Z) (s : String_Set) : String_Set * bool :=
  match find_char x (d s) with
  | Some i => (mk (erase_range i 1 (d s)), true)
  | None => (s, false)
  end.

(** [erase(iterator position)] and [erase(iterator first, iterator last)]. *)
Definition erase_at (position : nat) (s : String_Set) : String_Set :=
  mk (erase_range position 1 (d s)).

Definition erase_iters (first last : nat) (s : String_Set) : String_Set :=
  mk (erase_range first (last - first) (d s)).

(** [count], [contains]: [d.find(x) != d.npos]. *)
Definition contains (x : Z) (s : String_Set) : bool :=
  match find_char x (d s) with Some _ => true | None => false end.

(** The modifying operations of the class. Iterators are indices; an index
    that is no iterator of the set is undefined behaviour in the source and
    makes [apply_op] answer [None]. *)
Inductive op :=
| Op_insert (x : Z)
| Op_insert_hint (hint : nat) (x : Z)
| Op_insert_str (str : list Z)
| Op_assign (str : list Z)
| Op_erase (x : Z)
| Op_erase_at (position : nat)
| Op_erase_iters (first last : nat)
| Op_clear.

Definition apply_op (o : op) (s : String_Set) : option String_Set :=
  match o with
  | Op_insert x => Some (insert x s).1
  | Op_insert_hint hint x =>
      if hint <=? length (d s) then Some (insert_hint hint x s).1 else None
  | Op_insert_str str => Some (insert_str str s)
  | Op_assign str => Some (of_str str)
  | Op_erase x => Some (erase x s).1
  | Op_erase_at position =>
      if position <? length (d s) then Some (erase_at position s) else None
  | Op_erase_iters first last =>
      if (first <=? last) && (last <=? length (d s))
      then Some (erase_iters first last s) else None
  | Op_clear => Some (mk [])
  end.

Fixpoint run (ops : list op) (s : String_Set) : option String_Set :=
  match ops with
  | [] => Some s
  | o :: ops' =>
      match apply_op o s with
      | Some s' => run ops' s'
      | None => None
      end
  end.

(** The class invariant: strictly ascending storage. *)
Definition ascending (l : list Z) : Prop := StronglySorted Z.lt l.

Lemma ascending_sorted_nodup l :
  ascending l ↔ Sorted Z.le l ∧ NoDup l.
Proof.
  unfold ascending. split.
  - induction 1 as [|x l Hl [IH1 IH2] Hx].
    + split; constructor.
    + split.
      * constructor; [done|]. destruct Hx; constructor. lia.
      * constructor; [|done]. intros Hin.
        rewrite Forall_forall in Hx. specialize (Hx _ Hin). lia.
  - intros [Hs Hn]. apply (Sorted_StronglySorted _) in Hs.
    induction Hs as [|x l Hl IH Hx].
    + constructor.
    + apply NoDup_cons in Hn as [Hx' Hn]. constructor; [auto|].
      rewrite Forall_forall in Hx |- *. intros y Hy.
      specialize (Hx y Hy).
      assert (x ≠ y) by (intros ->; done). lia.
Qed.

Lemma ascending_sublist l k : ascending l → k `sublist_of` l → ascending k.
Proof.
  unfold ascending. intros Hl Hk. induction Hk as [|x k l Hk IH|x k l Hk IH].
  - constructor.
  - apply StronglySorted_inv in Hl as [Hl Hx]. constructor; [auto|].
    rewrite Forall_forall in Hx |- *. intros y Hy. apply Hx.
    by eapply elem_of_sublist.
  - apply StronglySorted_inv in Hl as [Hl _]. auto.
Qed.

Lemma erase_range_sublist {A} pos n (l : list A) :
  erase_range pos n l `sublist_of` l.
Proof.
  unfold erase_range. rewrite <- (take_drop pos l) at 3.
  apply sublist_app; [done|]. rewrite <- drop_drop. apply sublist_drop.
Qed.

Lemma unique_from_ascending prev l :
  StronglySorted Z.le l → Forall (Z.le prev) l →
  StronglySorted Z.lt (unique_from prev l) ∧ Forall (Z.lt prev) (unique_from prev l).
Proof.
  intros Hl. revert prev. induction Hl as [|y l Hl IH Hy]; intros prev Hprev; simpl.
  - split; constructor.
  - apply Forall_cons in Hprev as [Hpy Hprev].
    destruct (Z.eqb_spec prev y) as [->|Hne].
    + apply IH. done.
    + destruct (IH y Hy) as [IH1 IH2]. split.
      * constructor; done.
      * constructor; [lia|]. eapply Forall_impl; [exact IH2|]. simpl. lia.
Qed.

Lemma sort_uniq_ascending l : ascending (sort_uniq l).
Proof.
  unfold ascending, sort_uniq, sort.
  pose proof (StronglySorted_merge_sort Z.le l) as Hs.
  destruct (merge_sort Z.le l) as [|x l']; simpl.
  - constructor.
  - apply StronglySorted_inv in Hs as [Hl Hx].
    destruct (unique_from_ascending x l' Hl Hx). by constructor.
Qed.

Lemma insert_at_ascending i x l :
  ascending l → i ≤ length l →
  (∀ j, j < i → (l !!! j < x)%Z) →
  (∀ j, i ≤ j → j < length l → (x < l !!! j)%Z) →
  ascending (insert_at i x l).
Proof.
  unfold ascending, insert_at. intros Hl Hi Hlo Hhi.
  rewrite <- (take_drop i l) in Hl.
  apply StronglySorted_app in Hl as (H12 & H1 & H2).
  assert (Hx2 : Forall (Z.lt x) (drop i l)).
  { apply Forall_lookup. intros j y Hj. rewrite lookup_drop in Hj.
    pose proof (lookup_lt_Some _ _ _ Hj).
    apply list_lookup_total_correct in Hj as <-. apply Hhi; lia. }
  apply StronglySorted_app_2; [|done|by constructor].
  intros x1 x2 Hx1 Hx2'.
  assert (x1 < x)%Z.
  { apply list_elem_of_lookup in Hx1 as [j Hj].
    pose proof (lookup_lt_Some _ _ _ Hj) as Hlt. rewrite length_take in Hlt.
    rewrite lookup_take_lt in Hj by lia.
    apply list_lookup_total_correct in Hj as <-. apply Hlo; lia. }
  apply elem_of_cons in Hx2' as [->|Hx2']; [done|].
  rewrite Forall_forall in Hx2. specialize (Hx2 _ Hx2'). lia.
Qed.

Lemma ascending_lookup_lt l i j :
  ascending l → i < j → j < length l → (l !!! i < l !!! j)%Z.
Proof.
  unfold ascending. intros Hl. revert i j.
  induction Hl as [|x l Hl IH Hx]; intros i j Hij Hj; simpl in *; [lia|].
  destruct j as [|j]; [lia|]. destruct i as [|i]; simpl.
  - rewrite Forall_lookup in Hx. apply (Hx j).
    apply list_lookup_lookup_total_lt. lia.
  - apply IH; lia.
Qed.

Lemma lower_bound_spec x s :
  ascending (d s) →
  let it := lower_bound x s in
  it ≤ length (d s) ∧
  (∀ j, j < it → (d s !!! j < x)%Z) ∧
  (∀ j, it ≤ j → j < length (d s) → (x ≤ d s !!! j)%Z).
Proof.
  intros Hs. unfold lower_bound.
  destruct (partition_point_spec (λ i, (d s !!! i <? x)%Z) 0 (length (d s)))
    as (Hr & Hlo & Hhi); [lia| |].
  - intros i j _ Hij Hj Hp. apply Z.ltb_lt in Hp. apply Z.ltb_lt.
    destruct (decide (i = j)) as [->|]; [done|].
    pose proof (ascending_lookup_lt (d s) i j Hs). lia.
  - repeat split; [lia| |].
    + intros j Hj. apply Z.ltb_lt. apply Hlo; lia.
    + intros j Hj Hj'. apply Z.ltb_ge. apply Hhi; lia.
Qed.

Lemma insert_ascending x s : ascending (d s) → ascending (d (insert x s).1).
Proof.
  intros Hs. destruct (lower_bound_spec x s Hs) as (Hle & Hlo & Hhi).
  unfold insert.
  destruct (Nat.eqb_spec (lower_bound x s) (length (d s))) as [Heq|Hne]; simpl.
  - apply insert_at_ascending; auto. intros; lia.
  - destruct (Z.eqb_spec (d s !!! lower_bound x s) x) as [Hx|Hx]; simpl; [done|].
    apply insert_at_ascending; auto.
    intros j Hj Hj'. destruct (decide (j = lower_bound x s)) as [->|].
    + specialize (Hhi (lower_bound x s)). lia.
    + pose proof (ascending_lookup_lt (d s) (lower_bound x s) j Hs).
      specialize (Hhi (lower_bound x s)). lia.
Qed.

Lemma insert_hint_ascending hint x s :
  ascending (d s) → hint ≤ length (d s) → ascending (d (insert_hint hint x s).1).
Proof.
  intros Hs Hh. unfold insert_hint.
  destruct (_ && _) eqn:Hc; simpl; [|by apply insert_ascending].
  apply andb_true_iff in Hc as [H1 H2].
  apply insert_at_ascending; auto.
  - intros j Hj. apply orb_true_iff in H2 as [H2|H2].
    + apply Nat.eqb_eq in H2. lia.
    + apply Z.ltb_lt in H2. destruct (decide (j = hint - 1)) as [->|]; [done|].
      pose proof (ascending_lookup_lt (d s) j (hint - 1) Hs). lia.
  - intros j Hj Hj'. apply orb_true_iff in H1 as [H1|H1].
    + apply Nat.eqb_eq in H1. lia.
    + apply Z.ltb_lt in H1. destruct (decide (j = hint)) as [->|]; [done|].
      pose proof (ascending_lookup_lt (d s) hint j Hs). lia.
Qed.

Lemma erase_ascending x s : ascending (d s) → ascending (d (erase x s).1).
Proof.
  intros Hs. unfold erase. destruct (find_char x (d s)); simpl; [|done].
  eapply ascending_sublist; [exact Hs|apply erase_range_sublist].
Qed.

Lemma apply_op_ascending o s s' :
  ascending (d s) → apply_op o s = Some s' → ascending (d s').
Proof.
  intros Hs. destruct o; simpl.
  - intros [= <-]. by apply insert_ascending.
  - destruct (Nat.leb_spec hint (length (d s))); [|done].
    intros [= <-]. by apply insert_hint_ascending.
  - intros [= <-]. apply sort_uniq_ascending.
  - intros [= <-]. apply sort_uniq_ascending.
  - intros [= <-]. by apply erase_ascending.
  - destruct (_ <? _); [|done]. intros [= <-].
    eapply ascending_sublist; [exact Hs|apply erase_range_sublist].
  - destruct (_ && _); [|done]. intros [= <-].
    eapply ascending_sublist; [exact Hs|apply erase_range_sublist].
  - intros [= <-]. constructor.
Qed.

Lemma run_ascending ops s s' :
  ascending (d s) → run ops s = Some s' → ascending (d s').
Proof.
  revert s. induction ops as [|o ops IH]; intros s Hs; simpl.
  - by intros [= <-].
  - destruct (apply_op o s) as [s1|] eqn:Ho; [|done].
    apply IH. by eapply apply_op_ascending.
Qed.

(** Lemmas for insert-then-erase. *)
Lemma find_char_app_fresh x l1 l2 :
  x ∉ l1 → find_char x (l1 ++ x :: l2) = Some (length l1).
Proof.
  induction l1 as [|y l1 IH]; intros Hx; simpl.
  - by rewrite Z.eqb_refl.
  - apply not_elem_of_cons in Hx as [Hxy Hx].
    destruct (Z.eqb_spec y x); [congruence|]. by rewrite IH.
Qed.

Lemma find_char_None x l : find_char x l = None ↔ x ∉ l.
Proof.
  induction l as [|y l IH]; simpl.
  - split; [intros _; apply not_elem_of_nil|done].
  - destruct (Z.eqb_spec y x) as [->|Hne].
    + split; [done|]. intros H. exfalso. apply H. left.
    + rewrite not_elem_of_cons, <- IH.
      destruct (find_char x l); simpl; split; try done; intros [? ?]; done.
Qed.

Lemma erase_insert_at i x l :
  i ≤ length l → x ∉ l →
  erase x (mk (insert_at i x l)) = (mk l, true).
Proof.
  intros Hi Hx. unfold erase, insert_at. simpl.
  rewrite find_char_app_fresh.
  2:{ intros Hin. apply Hx. eapply elem_of_sublist; [exact Hin|apply sublist_take]. }
  rewrite length_take, Nat.min_l by lia. unfold erase_range.
  rewrite take_app_length' by (rewrite length_take; lia).
  rewrite drop_app_add' by (rewrite length_take; lia).
  simpl. rewrite drop_0. by rewrite take_drop.
Qed.

Lemma lower_bound_le x s : lower_bound x s ≤ length (d s).
Proof.
  unfold lower_bound.
  pose proof (partition_point_bounds (λ i, (d s !!! i <? x)%Z) 0 (length (d s))).
  lia.
Qed.

Lemma contains_false x s : contains x s = false ↔ x ∉ d s.
Proof.
  unfold contains. rewrite <- find_char_None.
  destruct (find_char x (d s)); split; done.
Qed.

(** The operations that take keys or strings, and no iterator, never fail. *)
Definition key_op (o : op) : bool :=
  match o with
  | Op_insert_hint _ _ | Op_erase_at _ | Op_erase_iters _ _ => false
  | _ => true
  end.

Lemma run_key_ops_total ops s :
  forallb key_op ops = true → is_Some (run ops s).
Proof.
  revert s. induction ops as [|o ops IH]; intros s Hk; simpl in *; [done|].
  apply andb_true_iff in Hk as [Ho Hk].
  destruct o; try discriminate; simpl; by apply IH.
Qed.

(** C5. A flag set built by a constructor and then changed by any sequence
    of insert (by key, with a hint, of a string as in [operator+=]),
    assignment, erase (by key, at an iterator, of an iterator range) and
    clear operations has its storage sorted in ascending order and free of
    duplicates. *)
Theorem flag_set_ops_keep_sorted_nodup (init : list Z) (ops : list op) (s' : String_Set) :
  run ops (of_str init) = Some s' →
  Sorted Z.le (d s') ∧ NoDup (d s').
Proof.
  intros Hrun. apply ascending_sorted_nodup.
  eapply run_ascending; [|exact Hrun]. apply sort_uniq_ascending.
Qed.

Lemma flag_set_ops_keep_sorted_nodup_witness :
  run [Op_insert 5; Op_insert_str [3; 9; 3]; Op_erase 9; Op_insert_hint 0 1;
       Op_erase_at 2]%Z
      (of_str [7; 2; 7]%Z) = Some (mk [1; 2; 5; 7]%Z) ∧
  (Sorted Z.le [1; 2; 5; 7]%Z ∧ NoDup [1; 2; 5; 7]%Z).
Proof.
  split; [reflexivity|].
  apply (flag_set_ops_keep_sorted_nodup [7; 2; 7]%Z
           [Op_insert 5; Op_insert_str [3; 9; 3]; Op_erase 9; Op_insert_hint 0 1;
            Op_erase_at 2]%Z (mk [1; 2; 5; 7]%Z)).
  reflexivity.
Defined.

(** C6, as the code has it. Inserting a flag that the set does not hold yet
    and then erasing it gives the original set back, storage included. *)
Theorem insert_then_erase_fresh (s : String_Set) (f : Z) :
  contains f s = false →
  (erase f (insert f s).1).1 = s.
Proof.
  intros Hf. apply contains_false in Hf.
  pose proof (lower_bound_le f s) as Hle.
  unfold insert.
  destruct (Nat.eqb_spec (lower_bound f s) (length (d s))) as [Heq|Hne]; simpl.
  - rewrite erase_insert_at by (auto; lia). by destruct s.
  - destruct (Z.eqb_spec (d s !!! lower_bound f s) f) as [Hx|Hx]; simpl.
    + exfalso. apply Hf. rewrite <- Hx. apply list_elem_of_lookup.
      exists (lower_bound f s). apply list_lookup_lookup_total_lt. lia.
    + rewrite erase_insert_at by (auto; lia). by destruct s.
Qed.

Lemma insert_then_erase_fresh_witness :
  contains 3 (of_str [4; 2]%Z) = false ∧
  (erase 3 (insert 3 (of_str [4; 2]%Z)).1).1 = of_str [4; 2]%Z.
Proof.
  split; [reflexivity|].
  apply (insert_then_erase_fresh (of_str [4; 2]%Z) 3). reflexivity.
Defined.

(** C6, as stated, fails for a flag that is already in the set: the insert
    changes nothing and the erase removes the flag. *)
Lemma insert_then_erase_member_counterexample :
  contains 1 (of_str [1]%Z) = true ∧
  (erase 1 (insert 1 (of_str [1]%Z)).1).1 = mk [] ∧
  of_str [1]%Z ≠ mk [].
Proof. repeat split. discriminate. Qed.


(** *** Membership after the operations *)

Lemma contains_true x s : contains x s = true ↔ x ∈ d s.
Proof.
  pose proof (contains_false x s) as H.
  destruct (contains x s); split; try done.
  - intros _. destruct (decide (x ∈ d s)); [done|]. by apply H in n.
  - intros Hin. exfalso. by apply (proj1 H).
Qed.

Lemma contains_decide x s : contains x s = bool_decide (x ∈ d s).
Proof.
  destruct (contains x s) eqn:Hc.
  - apply contains_true in Hc. by rewrite bool_decide_eq_true_2.
  - apply contains_false in Hc. by rewrite bool_decide_eq_false_2.
Qed.

Lemma elem_of_insert_at {A} i (x y : A) l :
  y ∈ insert_at i x l ↔ y = x ∨ y ∈ l.
Proof.
  unfold insert_at. rewrite elem_of_app, elem_of_cons.
  rewrite <- (take_drop i l) at 3. rewrite elem_of_app. tauto.
Qed.

(** In ascending storage the binary search finds the position of a flag
    that is there. *)
Lemma lower_bound_member x s j :
  ascending (d s) → d s !! j = Some x → lower_bound x s = j.
Proof.
  intros Hs Hj. destruct (lower_bound_spec x s Hs) as (Hle & Hlo & Hhi).
  pose proof (lookup_lt_Some _ _ _ Hj) as Hlt.
  apply list_lookup_total_correct in Hj.
  destruct (Nat.lt_total (lower_bound x s) j) as [Hc|[Hc|Hc]]; [|done|].
  - specialize (Hhi (lower_bound x s)).
    pose proof (ascending_lookup_lt (d s) (lower_bound x s) j Hs). lia.
  - specialize (Hlo j Hc). lia.
Qed.

Lemma insert_hit x s :
  ascending (d s) → x ∈ d s →
  insert x s = (s, (lower_bound x s, false)) ∧
  d s !! lower_bound x s = Some x.
Proof.
  intros Hs Hx. apply list_elem_of_lookup in Hx as [j Hj].
  rewrite (lower_bound_member x s j Hs Hj). split; [|done].
  unfold insert. rewrite (lower_bound_member x s j Hs Hj).
  pose proof (lookup_lt_Some _ _ _ Hj) as Hlt.
  apply list_lookup_total_correct in Hj. rewrite Hj, Z.eqb_refl.
  destruct (Nat.eqb_spec j (length (d s))); [lia|]. done.
Qed.

Lemma insert_miss x s :
  x ∉ d s →
  insert x s = (mk (insert_at (lower_bound x s) x (d s)), (lower_bound x s, true)).
Proof.
  intros Hx. unfold insert. pose proof (lower_bound_le x s) as Hle.
  destruct (Nat.eqb_spec (lower_bound x s) (length (d s))) as [Heq|Hne]; simpl; [done|].
  destruct (Z.eqb_spec (d s !!! lower_bound x s) x) as [Heq|]; [|done].
  exfalso. apply Hx. rewrite <- Heq. apply list_elem_of_lookup.
  exists (lower_bound x s). apply list_lookup_lookup_total_lt. lia.
Qed.

(** X1. [insert(x)] on a flag set in ascending storage: the flag it reports
    tells whether [x] was missing, the iterator it returns points at [x] in
    the new set, the new set holds [x] and what the old one held, and a set
    that held [x] already is left as it was. *)
Theorem insert_adds_the_flag (s : String_Set) (x : Z) :
  ascending (d s) →
  (insert x s).2.2 = negb (contains x s) ∧
  d (insert x s).1 !! (insert x s).2.1 = Some x ∧
  (∀ y, contains y (insert x s).1 = (y =? x)%Z || contains y s) ∧
  (contains x s = true → (insert x s).1 = s).
Proof.
  intros Hs. destruct (contains x s) eqn:Hc.
  - apply contains_true in Hc. destruct (insert_hit x s Hs Hc) as [-> Hit].
    simpl. split_and!; auto. intros y.
    destruct (Z.eqb_spec y x) as [->|]; simpl; [|done].
    by apply contains_true.
  - apply contains_false in Hc. rewrite (insert_miss x s Hc). simpl.
    pose proof (lower_bound_le x s) as Hle. split_and!; [done| | |done].
    + unfold insert_at. rewrite lookup_app_r; rewrite length_take; [|lia].
      by replace (_ - _) with 0 by lia.
    + intros y. rewrite !contains_decide. simpl.
      apply eq_true_iff_eq. rewrite orb_true_iff, !bool_decide_eq_true, Z.eqb_eq.
      apply elem_of_insert_at.
Qed.

Lemma insert_adds_the_flag_witness :
  ascending (d (of_str [4; 2]%Z)) ∧
  (insert 3 (of_str [4; 2]%Z)).2.2 = negb (contains 3 (of_str [4; 2]%Z)) ∧
  d (insert 3 (of_str [4; 2]%Z)).1 !! (insert 3 (of_str [4; 2]%Z)).2.1 = Some 3%Z ∧
  (∀ y, contains y (insert 3 (of_str [4; 2]%Z)).1
        = (y =? 3)%Z || contains y (of_str [4; 2]%Z)) ∧
  (contains 3 (of_str [4; 2]%Z) = true →
   (insert 3 (of_str [4; 2]%Z)).1 = of_str [4; 2]%Z).
Proof.
  split; [apply sort_uniq_ascending|].
  apply (insert_adds_the_flag (of_str [4; 2]%Z) 3). apply sort_uniq_ascending.
Defined.

Lemma find_char_not_before x l i :
  find_char x l = Some i → x ∉ take i l.
Proof.
  revert i. induction l as [|y l IH]; intros i; simpl; [done|].
  destruct (Z.eqb_spec y x) as [->|Hne].
  - intros [= <-]. simpl. apply not_elem_of_nil.
  - destruct (find_char x l) as [k|]; simpl; [|done]. intros [= <-]. simpl.
    apply not_elem_of_cons. split; [done|]. by apply IH.
Qed.

Lemma ascending_NoDup l : ascending l → NoDup l.
Proof. intros H. by apply ascending_sorted_nodup in H as [_ ?]. Qed.

Lemma elem_of_erase_one {A} (y x : A) i (l : list A) :
  NoDup l → l !! i = Some x →
  y ∈ erase_range i 1 l ↔ y ≠ x ∧ y ∈ l.
Proof.
  intros Hnd Hi. unfold erase_range.
  pose proof (take_drop_middle l i x Hi) as Hl.
  replace (i + 1) with (S i) by lia.
  rewrite <- Hl in Hnd. apply NoDup_app in Hnd as (_ & H12 & H2).
  apply NoDup_cons in H2 as [Hx2 _].
  rewrite <- Hl at 3. rewrite !elem_of_app, elem_of_cons. split.
  - intros [H|H]; (split; [|tauto]); intros ->; [|done].
    apply (H12 x H). left.
  - intros [Hne [H|[H|H]]]; tauto.
Qed.

(** X2. [erase(x)] on a flag set in ascending storage: the count it returns
    tells whether [x] was there, the new set holds what the old one held
    except [x], and the size goes down by that count. *)
Theorem erase_removes_the_flag (s : String_Set) (x : Z) :
  ascending (d s) →
  (erase x s).2 = contains x s ∧
  (∀ y, contains y (erase x s).1 = negb (y =? x)%Z && contains y s) ∧
  length (d (erase x s).1) + (if contains x s then 1 else 0) = length (d s).
Proof.
  intros Hs. destruct (contains x s) eqn:Hc; unfold contains in Hc;
    unfold erase; destruct (find_char x (d s)) as [i|] eqn:Hf; try done; simpl.
  - apply find_char_Some in Hf. split_and!; [done| |].
    + intros y. rewrite !contains_decide. simpl.
      apply eq_true_iff_eq.
      rewrite andb_true_iff, negb_true_iff, !bool_decide_eq_true, Z.eqb_neq.
      apply elem_of_erase_one; [by apply ascending_NoDup|done].
    + pose proof (lookup_lt_Some _ _ _ Hf). unfold erase_range.
      rewrite length_app, length_take, length_drop. lia.
  - apply find_char_None_not_in in Hf. split_and!; [done| |lia].
    intros y. destruct (Z.eqb_spec y x) as [->|]; simpl; [|done].
    by apply contains_false.
Qed.

Lemma erase_removes_the_flag_witness :
  ascending (d (of_str [4; 2; 9]%Z)) ∧
  (erase 4 (of_str [4; 2; 9]%Z)).2 = contains 4 (of_str [4; 2; 9]%Z) ∧
  (∀ y, contains y (erase 4 (of_str [4; 2; 9]%Z)).1
        = negb (y =? 4)%Z && contains y (of_str [4; 2; 9]%Z)) ∧
  length (d (erase 4 (of_str [4; 2; 9]%Z)).1)
    + (if contains 4 (of_str [4; 2; 9]%Z) then 1 else 0)
  = length (d (of_str [4; 2; 9]%Z)).
Proof.
  split; [apply sort_uniq_ascending|].
  apply (erase_removes_the_flag (of_str [4; 2; 9]%Z) 4). apply sort_uniq_ascending.
Defined.

Lemma elem_of_unique_from prev l y :
  y ∈ unique_from prev l → y ∈ l.
Proof.
  revert prev. induction l as [|z l IH]; intros prev; simpl; [done|].
  destruct (prev =? z)%Z.
  - intros H. right. by eapply IH.
  - rewrite !elem_of_cons. intros [->|H]; [by left|]. right. by eapply IH.
Qed.

Lemma elem_of_unique_from_2 prev l y :
  y ∈ l → y = prev ∨ y ∈ unique_from prev l.
Proof.
  revert prev. induction l as [|z l IH]; intros prev; simpl.
  - intros H. by apply elem_of_nil in H.
  - rewrite elem_of_cons. destruct (Z.eqb_spec prev z) as [->|Hne].
    + intros [->|H]; [by left|]. by apply IH.
    + intros [->|H]; [right; left|].
      destruct (IH z H) as [->|]; right; [left|by right].
Qed.

Lemma elem_of_sort_uniq y l : y ∈ sort_uniq l ↔ y ∈ l.
Proof.
  unfold sort_uniq, sort.
  rewrite <- (elem_of_Permutation_proper y _ _ (merge_sort_Permutation Z.le l)).
  destruct (merge_sort Z.le l) as [|x l']; simpl; [done|].
  rewrite !elem_of_cons. split.
  - intros [->|H]; [by left|]. right. by eapply elem_of_unique_from.
  - intros [->|H]; [by left|]. destruct (elem_of_unique_from_2 x l' y H); auto.
Qed.

(** X3. A flag set made from a string holds exactly the characters of the
    string, and [insert(const Str&)] (which [operator+=] forwards to) gives
    the union of the set and the characters of the string. *)
Theorem of_str_holds_the_characters (s : String_Set) (str : list Z) (y : Z) :
  contains y (of_str str) = bool_decide (y ∈ str) ∧
  contains y (insert_str str s) = contains y s || bool_decide (y ∈ str).
Proof.
  rewrite !contains_decide. simpl. split; apply eq_true_iff_eq.
  - rewrite !bool_decide_eq_true. apply elem_of_sort_uniq.
  - rewrite orb_true_iff, !bool_decide_eq_true, elem_of_sort_uniq.
    apply elem_of_app.
Qed.

(** X4. [insert(hint, x)] with an iterator of the set as hint gives the same
    set and the same iterator as [insert(x)], whatever the hint: the hint
    is used only where the binary search would land. *)
Theorem insert_hint_same_as_insert (s : String_Set) (hint : nat) (x : Z) :
  ascending (d s) → hint ≤ length (d s) →
  insert_hint hint x s = ((insert x s).1, (insert x s).2.1).
Proof.
  intros Hs Hh. unfold insert_hint.
  destruct (_ && _) eqn:Hc; [|done].
  apply andb_true_iff in Hc as [H1 H2].
  destruct (lower_bound_spec x s Hs) as (Hle & Hlo & Hhi).
  assert (Hit : lower_bound x s = hint).
  { destruct (Nat.lt_total (lower_bound x s) hint) as [Hlt|[Heq|Hgt]]; [|done|].
    - apply orb_true_iff in H2 as [H2|H2]; [apply Nat.eqb_eq in H2; lia|].
      apply Z.ltb_lt in H2. specialize (Hhi (hint - 1)). lia.
    - apply orb_true_iff in H1 as [H1|H1]; [apply Nat.eqb_eq in H1; lia|].
      apply Z.ltb_lt in H1. specialize (Hlo hint). lia. }
  assert (Hx : x ∉ d s).
  { intros Hx. apply list_elem_of_lookup in Hx as [j Hj].
    pose proof (lower_bound_member x s j Hs Hj) as Hj'.
    pose proof (lookup_lt_Some _ _ _ Hj).
    apply list_lookup_total_correct in Hj.
    apply orb_true_iff in H1 as [H1|H1]; [apply Nat.eqb_eq in H1; lia|].
    apply Z.ltb_lt in H1. assert (j = hint) as -> by lia. lia. }
  rewrite (insert_miss x s Hx), Hit. done.
Qed.

Lemma insert_hint_same_as_insert_witness :
  ascending (d (of_str [4; 2; 9]%Z)) ∧ 1 ≤ length (d (of_str [4; 2; 9]%Z)) ∧
  insert_hint 1 3 (of_str [4; 2; 9]%Z)
  = ((insert 3 (of_str [4; 2; 9]%Z)).1, (insert 3 (of_str [4; 2; 9]%Z)).2.1).
Proof.
  split; [apply sort_uniq_ascending|]. split; [vm_compute; lia|].
  apply (insert_hint_same_as_insert (of_str [4; 2; 9]%Z) 1 3);
    [apply sort_uniq_ascending|vm_compute; lia].
Defined.

(** X5. Erasing a flag that the set holds and inserting it again gives the
    original set back, storage included. *)
Theorem erase_then_insert_member (s : String_Set) (x : Z) :
  ascending (d s) → contains x s = true →
  (insert x (erase x s).1).1 = s.
Proof.
  intros Hs Hc. unfold erase. unfold contains in Hc.
  destruct (find_char x (d s)) as [i|] eqn:Hf; [|done]. simpl.
  apply find_char_Some in Hf.
  pose proof (lookup_lt_Some _ _ _ Hf) as Hlt.
  set (s1 := mk (erase_range i 1 (d s))).
  assert (Hs1 : ascending (d s1))
    by (eapply ascending_sublist; [exact Hs|apply erase_range_sublist]).
  assert (Hx1 : x ∉ d s1).
  { intros Hin. apply (elem_of_erase_one x x i (d s)) in Hin; auto.
    - by destruct Hin.
    - by apply ascending_NoDup. }
  rewrite (insert_miss x s1 Hx1). simpl.
  assert (Hlen : length (d s1) = length (d s) - 1).
  { simpl. unfold erase_range. rewrite length_app, length_take, length_drop. lia. }
  assert (Hlook : ∀ j, j < length (d s1) →
            d s1 !!! j = if decide (j < i) then d s !!! j else d s !!! (S j)).
  { intros j Hj. simpl. unfold erase_range.
    apply list_lookup_total_correct. destruct (decide (j < i)).
    - rewrite lookup_app_l by (rewrite length_take; lia).
      rewrite lookup_take_lt by lia. apply list_lookup_lookup_total_lt. lia.
    - rewrite lookup_app_r; rewrite length_take; [|lia].
      rewrite lookup_drop. replace (i + 1 + (j - i `min` length (d s))) with (S j) by lia.
      apply list_lookup_lookup_total_lt. lia. }
  assert (Hit : lower_bound x s1 = i).
  { destruct (lower_bound_spec x s1 Hs1) as (Hle & Hlo & Hhi).
    apply list_lookup_total_correct in Hf.
    destruct (Nat.lt_total (lower_bound x s1) i) as [Hc'|[Hc'|Hc']]; [|done|].
    - specialize (Hhi (lower_bound x s1)).
      rewrite Hlook in Hhi by lia. destruct (decide _); [|lia].
      pose proof (ascending_lookup_lt (d s) (lower_bound x s1) i Hs). lia.
    - specialize (Hlo i Hc'). rewrite Hlook in Hlo by lia.
      destruct (decide _); [lia|].
      pose proof (ascending_lookup_lt (d s) i (S i) Hs). lia. }
  rewrite Hit. destruct s as [l]. simpl in *. f_equal.
  unfold insert_at, erase_range.
  rewrite take_app_length' by (rewrite length_take; lia).
  rewrite drop_app_length' by (rewrite length_take; lia).
  replace (i + 1) with (S i) by lia. by apply take_drop_middle.
Qed.

Lemma erase_then_insert_member_witness :
  ascending (d (of_str [4; 2; 9]%Z)) ∧ contains 4 (of_str [4; 2; 9]%Z) = true ∧
  (insert 4 (erase 4 (of_str [4; 2; 9]%Z)).1).1 = of_str [4; 2; 9]%Z.
Proof.
  split; [apply sort_uniq_ascending|]. split; [reflexivity|].
  apply (erase_then_insert_member (of_str [4; 2; 9]%Z) 4);
    [apply sort_uniq_ascending|reflexivity].
Defined.

End String_Set.

(** ** Affix conditions: [Condition<CharT>] of structures.hxx *)

Module Condition.
Import Std.

(** The code units the scanner looks for. *)
Definition ch_dot : Z := 46.
Definition ch_open : Z := 91.
Definition ch_close : Z := 93.
Definition ch_caret : Z := 94.

Inductive Span_Type := NORMAL | DOT | ANY_OF | NONE_OF.

Record Span := mk_span { pos : nat; len : nat; type : Span_Type }.

Record Condition := mk { cond : list Z; spans : list Span; length : nat }.

(** The three messages [construct] throws a [Condition_Exception] with. *)
Inductive Condition_Exception :=
| closing_bracket_has_no_matching_opening_bracket
| opening_bracket_has_no_matching_closing_bracket
| empty_bracket_expression.

(** What a run of [construct] ends in. [Out_of_fuel] is an artefact of the
    embedding; [construct_total] shows that it never is the answer. *)
Inductive outcome (A : Type) :=
| Ok (a : A)
| Throw (e : Condition_Exception)
| Out_of_fuel.
Arguments Ok {A} a.
Arguments Throw {A} e.
Arguments Out_of_fuel {A}.

(** [basic_string::find_first_of] and [find], from position [i]; [None] is
    [npos]. *)
Definition find_from (p : Z → bool) (s : list Z) (i : nat) : option nat :=
  (λ k, i + k) <$> find_index p (drop i s).

Definition is_special (c : Z) : bool :=
  (c =? ch_open)%Z || (c =? ch_close)%Z || (c =? ch_dot)%Z.

(** The part of the loop body of [construct] that looks at [cond[i]] after
    the literal run, if any, has been recorded. [k] is the next round of the
    loop. [cond[cond.size()]] is the terminating zero of the string. *)
Definition at_special {A} (k : nat → list Span → nat → outcome A)
    (cond : list Z) (i : nat) (spans : list Span) (length : nat) : outcome A :=
  let at_ i := default 0%Z (cond !! i) in
  if (at_ i =? ch_dot)%Z then
    k (i + 1) (spans ++ [mk_span i 1 DOT]) (length + 1)
  else if (at_ i =? ch_close)%Z then
    Throw closing_bracket_has_no_matching_opening_bracket
  else if (at_ i =? ch_open)%Z then
    let i := i + 1 in
    if i =? List.length cond then
      Throw opening_bracket_has_no_matching_closing_bracket
    else
      let type := if (at_ i =? ch_caret)%Z then NONE_OF else ANY_OF in
      let i := if (at_ i =? ch_caret)%Z then i + 1 else i in
      match find_from (λ c, (c =? ch_close)%Z) cond i with
      | Some j =>
          if j =? i then Throw empty_bracket_expression
          else k (j + 1) (spans ++ [mk_span i (j - i) type]) (length + 1)
      | None => Throw opening_bracket_has_no_matching_closing_bracket
      end
  else k i spans length.

(** The loop of [Condition::construct]. *)
Fixpoint construct_loop (fuel : nat) (cond : list Z) (i : nat)
    (spans : list Span) (length : nat) : outcome (list Span * nat) :=
  match fuel with
  | 0 => Out_of_fuel
  | S fuel' =>
      if i =? List.length cond then Ok (spans, length)
      else
        match find_from is_special cond i with
        | None =>
            Ok (spans ++ [mk_span i (List.length cond - i) NORMAL],
                length + (List.length cond - i))
        | Some j =>
            if i =? j then at_special (construct_loop fuel' cond) cond i spans length
            else
              at_special (construct_loop fuel' cond) cond j
                (spans ++ [mk_span i (j - i) NORMAL]) (length + (j - i))
        end
  end.

(** [construct()] on an object whose [spans] and [length] are [spans0] and
    [length0]. *)
Definition construct (c : list Z) (spans0 : list Span) (length0 : nat) : outcome Condition :=
  match construct_loop (S (List.length c)) c 0 spans0 length0 with
  | Ok (sp, n) => Ok (mk c sp n)
  | Throw e => Throw e
  | Out_of_fuel => Out_of_fuel
  end.

(** The constructors [Condition(const Str&)] and the like. *)
Definition Condition_of (c : list Z) : outcome Condition := construct c [] 0.

(** [operator=]: [cond = condition; length = 0; construct();] (the spans of
    the old pattern stay in the vector). *)
Definition assign (c : list Z) (old : Condition) : outcome Condition :=
  construct c (spans old) 0.

(** [Condition::match], for [pos <= s.size()], which both callers ensure. *)
Definition match_span (cond s : list Z) (x : Span) (i : nat) : option nat :=
  match type x with
  | NORMAL =>
      if decide (take (len x) (drop i s) = take (len x) (drop (pos x) cond))
      then Some (i + len x) else None
  | DOT => Some (i + 1)
  | ANY_OF =>
      if decide (default 0%Z (s !! i) ∈ take (len x) (drop (pos x) cond))
      then Some (i + 1) else None
  | NONE_OF =>
      if decide (default 0%Z (s !! i) ∈ take (len x) (drop (pos x) cond))
      then None else Some (i + 1)
  end.

Fixpoint match_spans (cond s : list Z) (xs : list Span) (i : nat) : bool :=
  match xs with
  | [] => true
  | x :: xs' =>
      match match_span cond s x i with
      | Some i' => match_spans cond s xs' i'
      | None => false
      end
  end.

Definition match_ (c : Condition) (s : list Z) (pos len : nat) : bool :=
  let len := if List.length s - pos <? len then List.length s - pos else len in
  if negb (len =? length c) then false
  else match_spans (cond c) s (spans c) pos.

Definition match_prefix (c : Condition) (s : list Z) : bool :=
  match_ c s 0 (length c).

Definition match_suffix (c : Condition) (s : list Z) : bool :=
  if List.length s <? length c then false
  else match_ c s (List.length s - length c) (length c).

(** The patterns of the affix file format, following the description of the
    condition matcher: a sequence of literal characters, [.], bracket classes
    [[...]] and negated classes [[^...]]; a class runs up to the first
    closing bracket and holds at least one character. *)
Inductive well_formed : list Z → Prop :=
| wf_nil : well_formed []
| wf_char c rest :
    c ≠ ch_open → c ≠ ch_close → well_formed rest → well_formed (c :: rest)
| wf_any_of b body rest :
    b ≠ ch_caret → ch_close ∉ b :: body → well_formed rest →
    well_formed (ch_open :: (b :: body) ++ ch_close :: rest)
| wf_none_of b body rest :
    ch_close ∉ b :: body → well_formed rest →
    well_formed (ch_open :: ch_caret :: (b :: body) ++ ch_close :: rest).

(** The three ways in which a pattern is malformed, each after a well-formed
    part [p]: a closing bracket that closes nothing, an opening bracket that
    is never closed, a class with nothing in it. *)
Inductive malformed : list Z → Condition_Exception → Prop :=
| mf_closing p rest :
    well_formed p →
    malformed (p ++ ch_close :: rest)
      closing_bracket_has_no_matching_opening_bracket
| mf_opening p rest :
    well_formed p → ch_close ∉ rest →
    malformed (p ++ ch_open :: rest)
      opening_bracket_has_no_matching_closing_bracket
| mf_empty p rest :
    well_formed p →
    malformed (p ++ ch_open :: ch_close :: rest) empty_bracket_expression
| mf_empty_negated p rest :
    well_formed p →
    malformed (p ++ ch_open :: ch_caret :: ch_close :: rest)
      empty_bracket_expression.

(** *** The outcome of a run, without the spans *)

Definition kind {A} (o : outcome A) : outcome unit :=
  match o with
  | Ok _ => Ok tt
  | Throw e => Throw e
  | Out_of_fuel => Out_of_fuel
  end.

(** Where [at_special] sends the loop next, or what it throws. *)
Definition next_pos (c : list Z) (j : nat) : outcome nat :=
  at_special (λ i _ _, Ok i) c j [] 0.

Lemma at_special_via_next c j sp n :
  match next_pos c j with
  | Ok i' =>
      ∃ sp' n', ∀ A (k : nat → list Span → nat → outcome A),
        at_special k c j sp n = k i' sp' n'
  | Throw e =>
      ∀ A (k : nat → list Span → nat → outcome A),
        at_special k c j sp n = Throw e
  | Out_of_fuel => False
  end.
Proof.
  unfold next_pos, at_special.
  destruct (default 0%Z (c !! j) =? ch_dot)%Z; [eauto|].
  destruct (default 0%Z (c !! j) =? ch_close)%Z; [done|].
  destruct (default 0%Z (c !! j) =? ch_open)%Z; [|eauto].
  destruct (j + 1 =? List.length c); [done|].
  destruct (find_from _ c _) as [m|]; [|done].
  destruct (m =? _); [done|eauto].
Qed.

Lemma next_pos_bounds c j i' :
  j < List.length c →
  is_special (default 0%Z (c !! j)) = true →
  next_pos c j = Ok i' → j < i' ∧ i' ≤ List.length c.
Proof.
  intros Hj Hsp. unfold next_pos, at_special, is_special in *.
  destruct (Z.eqb_spec (default 0%Z (c !! j)) ch_dot) as [Hd|Hd].
  { intros [= <-]. lia. }
  destruct (Z.eqb_spec (default 0%Z (c !! j)) ch_close) as [Hc|Hc]; [done|].
  destruct (Z.eqb_spec (default 0%Z (c !! j)) ch_open) as [Ho|Ho]; [|done].
  destruct (Nat.eqb_spec (j + 1) (List.length c)); [done|].
  set (i1 := if (default 0%Z (c !! (j + 1)%nat) =? ch_caret)%Z then j + 1 + 1 else j + 1).
  assert (j < i1) by (unfold i1; case_match; lia).
  unfold find_from.
  destruct (find_index _ (drop i1 c)) as [m|] eqn:Hfind; simpl; [|done].
  destruct (Nat.eqb_spec (i1 + m) i1); [done|].
  apply find_index_Some in Hfind as (l1 & y & l2 & Hdrop & <- & _).
  assert (List.length (drop i1 c) = List.length l1 + S (List.length l2)) as Hlen
    by (rewrite Hdrop, length_app; done).
  rewrite length_drop in Hlen. intros [= <-]. lia.
Qed.

Lemma construct_loop_kind f c i sp n sp' n' :
  kind (construct_loop f c i sp n) = kind (construct_loop f c i sp' n').
Proof.
  revert i sp n sp' n'. induction f as [|f IH]; intros i sp n sp' n'; simpl; [done|].
  destruct (i =? List.length c); [done|].
  destruct (find_from is_special c i) as [j|]; [|done].
  assert (∀ sp1 n1 sp2 n2,
    kind (at_special (construct_loop f c) c j sp1 n1) =
    kind (at_special (construct_loop f c) c j sp2 n2)) as H.
  { intros sp1 n1 sp2 n2.
    pose proof (at_special_via_next c j sp1 n1) as H1.
    pose proof (at_special_via_next c j sp2 n2) as H2.
    destruct (next_pos c j); [|by rewrite H1, H2|done].
    destruct H1 as (? & ? & ->), H2 as (? & ? & ->). apply IH. }
  destruct (Nat.eqb_spec i j) as [->|]; apply H.
Qed.

(** The loop makes progress: [cond.size() - i + 1] rounds are enough. *)
Lemma construct_loop_fuel f f' c i sp n :
  i ≤ List.length c → List.length c - i < f → List.length c - i < f' →
  construct_loop f c i sp n = construct_loop f' c i sp n ∧
  construct_loop f c i sp n ≠ Out_of_fuel.
Proof.
  revert f' i sp n. induction f as [|f IH]; intros f' i sp n Hi Hf Hf'; [lia|].
  destruct f' as [|f']; [lia|]. simpl.
  destruct (Nat.eqb_spec i (List.length c)); [done|].
  unfold find_from.
  destruct (find_index is_special (drop i c)) as [m|] eqn:Hfind; simpl; [|done].
  apply find_index_Some in Hfind as (l1 & y & l2 & Hdrop & <- & _ & Hy).
  assert (List.length (drop i c) = List.length l1 + S (List.length l2)) as Hlen
    by (rewrite Hdrop, length_app; done).
  rewrite length_drop in Hlen.
  assert (Hat : c !! (i + List.length l1) = Some y).
  { rewrite <- lookup_drop, Hdrop. by apply list_lookup_middle. }
  assert (∀ sp1 n1,
    at_special (construct_loop f c) c (i + List.length l1) sp1 n1 =
    at_special (construct_loop f' c) c (i + List.length l1) sp1 n1 ∧
    at_special (construct_loop f c) c (i + List.length l1) sp1 n1 ≠ Out_of_fuel)
    as H.
  { intros sp1 n1.
    pose proof (at_special_via_next c (i + List.length l1) sp1 n1) as H1.
    pose proof (next_pos_bounds c (i + List.length l1)) as Hb.
    destruct (next_pos c (i + List.length l1)) as [i'| |]; [|by rewrite !H1|done].
    destruct (Hb i') as [? ?]; [lia|by rewrite Hat|done|].
    destruct H1 as (sp' & n' & H1). rewrite !H1. apply IH; lia. }
  destruct (Nat.eqb_spec i (i + List.length l1)) as [Heq|Hne]; [|apply H].
  replace (i + List.length l1) with i in H by lia. apply H.
Qed.

Lemma construct_loop_S f c i sp n :
  construct_loop (S f) c i sp n =
  if i =? List.length c then Ok (sp, n)
  else
    match find_from is_special c i with
    | None =>
        Ok (sp ++ [mk_span i (List.length c - i) NORMAL],
            n + (List.length c - i))
    | Some j =>
        if i =? j then at_special (construct_loop f c) c i sp n
        else
          at_special (construct_loop f c) c j
            (sp ++ [mk_span i (j - i) NORMAL]) (n + (j - i))
    end.
Proof. reflexivity. Qed.

Lemma find_from_miss p c i l :
  drop i c = l → Forall (λ x, p x = false) l → find_from p c i = None.
Proof.
  intros Hd Hl. unfold find_from. by rewrite Hd, (find_index_miss p l).
Qed.

(** [scan c i] is how the loop ends when it is started at position [i]. *)
Definition scan (c : list Z) (i : nat) : outcome unit :=
  kind (construct_loop (S (List.length c - i)) c i [] 0).

Lemma scan_fuel f c i sp n :
  i ≤ List.length c → List.length c - i < f →
  kind (construct_loop f c i sp n) = scan c i.
Proof.
  intros Hi Hf. unfold scan.
  destruct (construct_loop_fuel f (S (List.length c - i)) c i sp n) as [-> _];
    [lia..|].
  apply construct_loop_kind.
Qed.

Lemma scan_not_out_of_fuel c i : i ≤ List.length c → scan c i ≠ Out_of_fuel.
Proof.
  intros Hi. unfold scan.
  destruct (construct_loop_fuel (S (List.length c - i)) (S (List.length c - i)) c i [] 0)
    as [_ H]; [lia..|].
  by destruct (construct_loop _ _ _ _ _).
Qed.

Lemma scan_end c : scan c (List.length c) = Ok tt.
Proof. unfold scan. simpl. by rewrite Nat.eqb_refl. Qed.

(** The loop started at [i], when the next special character is at [j]. *)
Lemma scan_to_special c i j :
  i ≤ j → j < List.length c →
  is_special (default 0%Z (c !! j)) = true →
  find_from is_special c i = Some j →
  scan c i = match next_pos c j with
             | Ok i' => scan c i'
             | Throw e => Throw e
             | Out_of_fuel => Out_of_fuel
             end.
Proof.
  intros Hij Hj Hsp Hfind. unfold scan at 1. simpl.
  destruct (Nat.eqb_spec i (List.length c)); [lia|].
  rewrite Hfind.
  assert (∀ sp1 n1,
    kind (at_special (construct_loop (List.length c - i) c) c j sp1 n1) =
    match next_pos c j with
    | Ok i' => scan c i'
    | Throw e => Throw e
    | Out_of_fuel => Out_of_fuel
    end) as H.
  { intros sp1 n1.
    pose proof (at_special_via_next c j sp1 n1) as H1.
    pose proof (next_pos_bounds c j) as Hb.
    destruct (next_pos c j) as [i'| |]; [|by rewrite H1|done].
    destruct H1 as (sp' & n' & ->). destruct (Hb i') as [? ?]; auto.
    apply scan_fuel; lia. }
  destruct (Nat.eqb_spec i j) as [->|]; apply H.
Qed.

Lemma find_from_drop p c i l1 y l2 :
  drop i c = l1 ++ y :: l2 → Forall (λ x, p x = false) l1 → p y = true →
  find_from p c i = Some (i + List.length l1).
Proof.
  intros Hd Hl Hy. unfold find_from. rewrite Hd.
  by rewrite (find_index_app_hit p l1 y l2).
Qed.

(** One literal character or dot is stepped over. *)
Lemma scan_step_char c i x tl :
  drop i c = x :: tl → x ≠ ch_open → x ≠ ch_close →
  scan c i = scan c (S i).
Proof.
  intros Hd Hno Hnc. destruct (drop_S_tail _ _ _ _ Hd) as (Htl & Hx & Hi).
  destruct (is_special x) eqn:Hsp.
  - (* the dot *)
    assert (x = ch_dot) as ->.
    { unfold is_special in Hsp.
      destruct (Z.eqb_spec x ch_open), (Z.eqb_spec x ch_close),
        (Z.eqb_spec x ch_dot); done. }
    rewrite (scan_to_special c i i); [|lia|lia|by rewrite Hx|].
    2:{ rewrite (find_from_drop is_special c i [] ch_dot tl); auto;
        try (simpl; f_equal; lia). }
    unfold next_pos, at_special. rewrite Hx. simpl.
    by replace (i + 1) with (S i) by lia.
  - (* a literal character: the run it starts ends where the run from the
       next position ends *)
    destruct (find_index is_special tl) as [m|] eqn:Hfind.
    + apply find_index_Some in Hfind as (l1 & y & l2 & -> & <- & Hl1 & Hy).
      assert (List.length (drop i c) = S (List.length l1 + S (List.length l2))) as Hlen
        by (rewrite Hd; simpl; rewrite length_app; done).
      rewrite length_drop in Hlen.
      assert (is_special (default 0%Z (c !! (i + S (List.length l1)))) = true) as Hspj.
      { rewrite <- lookup_drop, Hd. simpl.
        rewrite list_lookup_middle by done. done. }
      rewrite (scan_to_special c i (i + S (List.length l1))); [|lia|lia|done|].
      2:{ apply (find_from_drop is_special c i (x :: l1) y l2); auto. }
      rewrite (scan_to_special c (S i) (i + S (List.length l1))); [done|lia|lia|done|].
      rewrite (find_from_drop is_special c (S i) l1 y l2); auto;
        try (f_equal; lia).
    + apply find_index_None in Hfind.
      unfold scan. rewrite !construct_loop_S.
      destruct (Nat.eqb_spec i (List.length c)); [lia|].
      rewrite (find_from_miss is_special c i (x :: tl)); [|done|by constructor].
      destruct (Nat.eqb_spec (S i) (List.length c)); [done|].
      by rewrite (find_from_miss is_special c (S i) tl).
Qed.

Lemma find_from_open c i tl :
  drop i c = ch_open :: tl → find_from is_special c i = Some i.
Proof.
  intros Hd. rewrite (find_from_drop is_special c i [] ch_open tl); auto;
    try (simpl; f_equal; lia).
Qed.

Lemma scan_close c i rest :
  drop i c = ch_close :: rest →
  scan c i = Throw closing_bracket_has_no_matching_opening_bracket.
Proof.
  intros Hd. destruct (drop_S_tail _ _ _ _ Hd) as (Htl & Hx & Hi).
  rewrite (scan_to_special c i i); [|lia|lia|by rewrite Hx|].
  - unfold next_pos, at_special. by rewrite Hx.
  - rewrite (find_from_drop is_special c i [] ch_close rest); auto;
      try (simpl; f_equal; lia).
Qed.

(** What [at_special] does at an opening bracket, in terms of the text that
    follows it. *)
Lemma scan_open c i tl :
  drop i c = ch_open :: tl →
  scan c i = match next_pos c i with
             | Ok i' => scan c i'
             | Throw e => Throw e
             | Out_of_fuel => Out_of_fuel
             end.
Proof.
  intros Hd. destruct (drop_S_tail _ _ _ _ Hd) as (Htl & Hx & Hi).
  apply scan_to_special; [lia|lia|by rewrite Hx|by eapply find_from_open].
Qed.

Lemma next_pos_open c i tl :
  drop i c = ch_open :: tl →
  next_pos c i =
    match tl with
    | [] => Throw opening_bracket_has_no_matching_closing_bracket
    | b :: tl' =>
        let body := if (b =? ch_caret)%Z then tl' else tl in
        let i1 := if (b =? ch_caret)%Z then i + 1 + 1 else i + 1 in
        match find_index (λ c, (c =? ch_close)%Z) body with
        | Some m =>
            if m =? 0 then Throw empty_bracket_expression
            else Ok (i1 + m + 1)
        | None => Throw opening_bracket_has_no_matching_closing_bracket
        end
    end.
Proof.
  intros Hd. destruct (drop_S_tail _ _ _ _ Hd) as (Htl & Hx & Hi).
  unfold next_pos, at_special. rewrite Hx. simpl.
  assert (List.length (drop i c) = S (List.length tl)) as Hlen by (by rewrite Hd).
  rewrite length_drop in Hlen.
  destruct tl as [|b tl'].
  - destruct (Nat.eqb_spec (i + 1) (List.length c)); [done|]. simpl in Hlen. lia.
  - destruct (Nat.eqb_spec (i + 1) (List.length c)); [simpl in Hlen; lia|].
    replace (c !! (i + 1)) with (Some b)
      by (symmetry; by rewrite (lookup_of_drop c i _ 1 Hd)).
    simpl. unfold find_from.
    destruct (b =? ch_caret)%Z.
    + replace (drop (i + 1 + 1) c) with tl'.
      2:{ replace (i + 1 + 1) with (S (S i)) by lia.
          symmetry. eapply drop_S_tail. by rewrite Htl. }
      destruct (find_index _ tl') as [m|]; simpl; [|done].
      destruct (Nat.eqb_spec (i + 1 + 1 + m) (i + 1 + 1)), (Nat.eqb_spec m 0);
        try done; lia.
    + replace (drop (i + 1) c) with (b :: tl')
        by (by replace (i + 1) with (S i) by lia).
      destruct (find_index _ (b :: tl')) as [m|]; simpl; [|done].
      destruct (Nat.eqb_spec (i + 1 + m) (i + 1)), (Nat.eqb_spec m 0);
        try done; lia.
Qed.

Lemma not_close_Forall l :
  ch_close ∉ l → Forall (λ x, (x =? ch_close)%Z = false) l.
Proof.
  intros Hl. apply Forall_forall. intros x Hx.
  destruct (Z.eqb_spec x ch_close) as [->|]; done.
Qed.

Lemma scan_wf p :
  well_formed p →
  ∀ c i rest, drop i c = p ++ rest → scan c i = scan c (i + List.length p).
Proof.
  induction 1 as [|x p' Hno Hnc Hp IH|b body p' Hb Hbody Hp IH|b body p' Hbody Hp IH];
    intros c i rest Hd.
  - simpl. by rewrite Nat.add_0_r.
  - simpl in Hd. rewrite (scan_step_char c i x (p' ++ rest)) by done.
    rewrite (IH c (S i) rest).
    + simpl. f_equal. lia.
    + eapply drop_S_tail, Hd.
  - simpl in Hd. rewrite <- app_assoc in Hd. simpl in Hd.
    rewrite (scan_open c i _ Hd), (next_pos_open c i _ Hd).
    cbv beta iota zeta.
    destruct (Z.eqb_spec b ch_caret); [done|].
    change (b :: body ++ ch_close :: p' ++ rest)
      with ((b :: body) ++ ch_close :: p' ++ rest).
    rewrite (find_index_app_hit _ (b :: body) ch_close (p' ++ rest));
      [|by apply not_close_Forall|done].
    simpl.
    rewrite (IH c (i + 1 + S (List.length body) + 1) rest).
    + f_equal. rewrite length_app. simpl. lia.
    + replace (i + 1 + S (List.length body) + 1)
        with (i + List.length (ch_open :: (b :: body) ++ [ch_close])).
      2:{ simpl. rewrite length_app. simpl. lia. }
      apply drop_app_tail. rewrite Hd. simpl. by rewrite <- app_assoc.
  - simpl in Hd. rewrite <- app_assoc in Hd. simpl in Hd.
    rewrite (scan_open c i _ Hd), (next_pos_open c i _ Hd).
    cbv beta iota zeta. rewrite Z.eqb_refl.
    change (b :: body ++ ch_close :: p' ++ rest)
      with ((b :: body) ++ ch_close :: p' ++ rest).
    rewrite (find_index_app_hit _ (b :: body) ch_close (p' ++ rest));
      [|by apply not_close_Forall|done].
    simpl.
    rewrite (IH c (i + 1 + 1 + S (List.length body) + 1) rest).
    + f_equal. rewrite length_app. simpl. lia.
    + replace (i + 1 + 1 + S (List.length body) + 1)
        with (i + List.length (ch_open :: ch_caret :: (b :: body) ++ [ch_close])).
      2:{ simpl. rewrite length_app. simpl. lia. }
      apply drop_app_tail. rewrite Hd. simpl. by rewrite <- app_assoc.
Qed.

Lemma scan_well_formed c : well_formed c → scan c 0 = Ok tt.
Proof.
  intros Hc. rewrite (scan_wf c Hc c 0 []).
  - apply scan_end.
  - simpl. by rewrite app_nil_r.
Qed.

Lemma scan_malformed c e : malformed c e → scan c 0 = Throw e.
Proof.
  destruct 1 as [p rest Hp|p rest Hp Hrest|p rest Hp|p rest Hp].
  - rewrite (scan_wf p Hp _ 0 (ch_close :: rest)) by done.
    apply (scan_close _ _ rest). simpl. by rewrite drop_app_length.
  - assert (drop (0 + List.length p) (p ++ ch_open :: rest) = ch_open :: rest) as Hd
      by (simpl; by rewrite drop_app_length).
    rewrite (scan_wf p Hp _ 0 (ch_open :: rest)) by done.
    rewrite (scan_open _ _ _ Hd), (next_pos_open _ _ _ Hd).
    destruct rest as [|b tl']; [done|]. simpl.
    destruct (Z.eqb_spec b ch_caret) as [->|].
    + rewrite find_index_miss; [done|]. apply not_close_Forall.
      intros Hin. apply Hrest. by right.
    + rewrite find_index_miss; [done|]. by apply not_close_Forall.
  - assert (drop (0 + List.length p) (p ++ ch_open :: ch_close :: rest)
            = ch_open :: ch_close :: rest) as Hd
      by (simpl; by rewrite drop_app_length).
    rewrite (scan_wf p Hp _ 0 (ch_open :: ch_close :: rest)) by done.
    by rewrite (scan_open _ _ _ Hd), (next_pos_open _ _ _ Hd).
  - assert (drop (0 + List.length p) (p ++ ch_open :: ch_caret :: ch_close :: rest)
            = ch_open :: ch_caret :: ch_close :: rest) as Hd
      by (simpl; by rewrite drop_app_length).
    rewrite (scan_wf p Hp _ 0 (ch_open :: ch_caret :: ch_close :: rest)) by done.
    by rewrite (scan_open _ _ _ Hd), (next_pos_open _ _ _ Hd).
Qed.

Lemma construct_kind c sp n :
  kind (construct c sp n) = scan c 0.
Proof.
  unfold construct. rewrite <- (scan_fuel (S (List.length c)) c 0 sp n) by lia.
  by destruct (construct_loop _ _ _ _ _) as [[??]| |].
Qed.

(** [construct] always comes to an end. *)
Lemma construct_total c sp n : construct c sp n ≠ Out_of_fuel.
Proof.
  intros H. pose proof (construct_kind c sp n) as Hk. rewrite H in Hk.
  symmetry in Hk. by apply scan_not_out_of_fuel in Hk; [|lia].
Qed.

Lemma well_formed_app p q : well_formed p → well_formed q → well_formed (p ++ q).
Proof.
  intros Hp Hq. induction Hp as [|x p' Hno Hnc Hp IH|b body p' Hb Hbody Hp IH|b body p' Hbody Hp IH].
  - done.
  - simpl. by constructor.
  - simpl. rewrite <- app_assoc. simpl. by apply (wf_any_of b body).
  - simpl. rewrite <- app_assoc. simpl. by apply (wf_none_of b body).
Qed.

(** Every pattern is well formed or malformed in one of the three ways. *)
Lemma well_formed_or_malformed c : well_formed c ∨ ∃ e, malformed c e.
Proof.
  induction c as [c IH] using (induction_ltof1 _ (@List.length Z)).
  unfold ltof in IH. destruct c as [|x c]; [left; constructor|].
  assert (Hstep : ∀ p rest, well_formed p → List.length rest < List.length (x :: c) →
            x :: c = p ++ rest → well_formed (x :: c) ∨ ∃ e, malformed (x :: c) e).
  { intros p rest Hp Hlen ->. destruct (IH rest Hlen) as [Hr|[e Hr]].
    - left. by apply well_formed_app.
    - right. exists e. destruct Hr as [q r Hq|q r Hq Hr|q r Hq|q r Hq];
        rewrite app_assoc; constructor; auto; by apply well_formed_app. }
  destruct (decide (x = ch_close)) as [->|Hnc].
  { right. eexists. apply (mf_closing [] c). constructor. }
  destruct (decide (x = ch_open)) as [->|Hno].
  2:{ apply (Hstep [x] c); [by repeat constructor|simpl; lia|done]. }
  destruct (find_index (λ y, (y =? ch_close)%Z) c) as [m|] eqn:Hfind.
  2:{ right. eexists. apply (mf_opening [] c); [constructor|].
      apply find_index_None in Hfind. rewrite Forall_forall in Hfind.
      intros Hin. specialize (Hfind _ Hin). by rewrite Z.eqb_refl in Hfind. }
  apply find_index_Some in Hfind as (body & y & rest & -> & _ & Hbody & Hy).
  apply Z.eqb_eq in Hy as ->.
  assert (ch_close ∉ body) as Hbody'.
  { intros Hin. rewrite Forall_forall in Hbody. specialize (Hbody _ Hin).
    by rewrite Z.eqb_refl in Hbody. }
  destruct body as [|b body].
  { right. eexists. apply (mf_empty [] rest). constructor. }
  destruct (decide (b = ch_caret)) as [->|Hb].
  - destruct body as [|b' body].
    { right. eexists. apply (mf_empty_negated [] rest). constructor. }
    apply (Hstep (ch_open :: ch_caret :: (b' :: body) ++ [ch_close]) rest).
    + apply (wf_none_of b' body []); [|constructor].
      intros Hin. apply Hbody'. by right.
    + simpl. rewrite !length_app. simpl. lia.
    + simpl. by rewrite <- app_assoc.
  - apply (Hstep (ch_open :: (b :: body) ++ [ch_close]) rest).
    + apply (wf_any_of b body []); [done|done|constructor].
    + simpl. rewrite !length_app. simpl. lia.
    + simpl. by rewrite <- app_assoc.
Qed.

(** C8. Constructing a [Condition] from a malformed pattern throws the
    [Condition_Exception] of its defect (a closing bracket that closes
    nothing, an opening bracket that is never closed, an empty class), and
    from a well-formed pattern gives a condition for that pattern. *)
Theorem construct_throws_iff_malformed :
  (∀ c e, malformed c e → Condition_of c = Throw e) ∧
  (∀ c, well_formed c → ∃ cnd, Condition_of c = Ok cnd ∧ cond cnd = c).
Proof.
  split.
  - intros c e Hm. pose proof (construct_kind c [] 0) as Hk.
    rewrite (scan_malformed c e Hm) in Hk. unfold Condition_of.
    destruct (construct c [] 0); simpl in Hk; congruence.
  - intros c Hc. pose proof (construct_kind c [] 0) as Hk.
    rewrite (scan_well_formed c Hc) in Hk. unfold Condition_of, construct in *.
    destruct (construct_loop _ _ _ _ _) as [[sp n]| |]; try done.
    by eexists.
Qed.

Lemma construct_throws_iff_malformed_witness :
  (malformed [97; 93]%Z closing_bracket_has_no_matching_opening_bracket ∧
   Condition_of [97; 93]%Z = Throw closing_bracket_has_no_matching_opening_bracket) ∧
  (malformed [91; 94; 97]%Z opening_bracket_has_no_matching_closing_bracket ∧
   Condition_of [91; 94; 97]%Z = Throw opening_bracket_has_no_matching_closing_bracket) ∧
  (malformed [91; 94; 93]%Z empty_bracket_expression ∧
   Condition_of [91; 94; 93]%Z = Throw empty_bracket_expression) ∧
  (well_formed [97; 91; 98; 99; 93; 46]%Z ∧
   ∃ cnd, Condition_of [97; 91; 98; 99; 93; 46]%Z = Ok cnd ∧
          cond cnd = [97; 91; 98; 99; 93; 46]%Z).
Proof.
  assert (H1 : malformed [97; 93]%Z closing_bracket_has_no_matching_opening_bracket).
  { apply (mf_closing [97%Z] []). by repeat constructor. }
  assert (H2 : malformed [91; 94; 97]%Z opening_bracket_has_no_matching_closing_bracket).
  { apply (mf_opening [] [94; 97]%Z); [constructor|].
    intros Hin. by repeat (apply elem_of_cons in Hin as [?|Hin]; [done|]);
      apply elem_of_nil in Hin. }
  assert (H3 : malformed [91; 94; 93]%Z empty_bracket_expression).
  { apply (mf_empty_negated [] []). constructor. }
  assert (H4 : well_formed [97; 91; 98; 99; 93; 46]%Z).
  { apply wf_char; [done|done|].
    apply (wf_any_of 98 [99%Z] [46%Z]); [done| |by repeat constructor].
    intros Hin. by repeat (apply elem_of_cons in Hin as [?|Hin]; [done|]);
      apply elem_of_nil in Hin. }
  exact (conj (conj H1 (proj1 construct_throws_iff_malformed _ _ H1))
          (conj (conj H2 (proj1 construct_throws_iff_malformed _ _ H2))
             (conj (conj H3 (proj1 construct_throws_iff_malformed _ _ H3))
                (conj H4 (proj2 construct_throws_iff_malformed _ H4))))).
Defined.

End Condition.

(** ** The word index: [Hash_Multiset<Value, Key, KeyExtract>] of structures.hxx *)

Module Hash_Multiset.
Import Std.

Section Hash_Multiset.
Context {Value Key : Type} `{EqDecision Key}.
(** [KeyExtract] and [std::hash<Key>]. *)
Variable key_extract : Value → Key.
Variable hash : Key → N.

Record Hash_Multiset := mk {
  data : list (list Value);
  sz : nat;
  max_load_factor_capacity : nat
}.

(** The default constructor. *)
Definition empty_set : Hash_Multiset := mk [] 0 0.

(** [max_load_fact] is [7.0 / 8.0]. The three places where the source
    computes with it in floating point are given with exact arithmetic:
    [std::ceil(capacity * max_load_fact)], the conversion of
    [size() / max_load_fact] to [size_t], and
    [std::ceil(count / max_load_fact)]. *)
Definition ceil_mul_max_load_fact (n : nat) : nat := (n * 7 + 7) / 8.
Definition div_max_load_fact (n : nat) : nat := n * 8 / 7.
Definition ceil_div_max_load_fact (n : nat) : nat := (n * 8 + 6) / 7.

(** [size_t capacity = 16; while (capacity <= count) capacity <<= 1;] *)
Fixpoint capacity_loop (fuel capacity count : nat) : nat :=
  match fuel with
  | 0 => capacity
  | S fuel' =>
      if capacity <=? count then capacity_loop fuel' (capacity * 2) count
      else capacity
  end.

Definition capacity_for (count : nat) : nat := capacity_loop (S count) 16 count.

(** The branch of [rehash] for an empty set. *)
Definition rehash_empty (count : nat) (t : Hash_Multiset) : Hash_Multiset :=
  let capacity := capacity_for count in
  mk (resize capacity [] (data t)) (sz t) (ceil_mul_max_load_fact capacity).

(** [h & (data.size() - 1)] *)
Definition bucket_index (size : nat) (key : Key) : nat :=
  N.to_nat (N.land (hash key) (N.of_nat size - 1)).

Definition has_key (key : Key) (x : Value) : bool :=
  bool_decide (key = key_extract x).

(** [std::find_if(rbegin(bucket), rend(bucket), ...)] followed by [.base()]:
    the index just past the last element that satisfies [p]. *)
Definition find_last_base (p : Value → bool) (bucket : list Value) : option nat :=
  (λ k, length bucket - k) <$> find_index p (reverse bucket).

(** What [insert] does to the bucket of the key. *)
Definition bucket_insert (value : Value) (bucket : list Value) : list Value :=
  let key := key_extract value in
  if (length bucket =? 0) || (length bucket =? 1) ||
     match last bucket with Some x => has_key key x | None => false end
  then bucket ++ [value]
  else
    match find_last_base (has_key key) bucket with
    | Some i => insert_at i value bucket
    | None => bucket ++ [value]
    end.

Definition insert_no_rehash (value : Value) (t : Hash_Multiset) : Hash_Multiset :=
  let h_mod := bucket_index (length (data t)) (key_extract value) in
  mk (alter (bucket_insert value) h_mod (data t)) (sz t + 1)
     (max_load_factor_capacity t).

Fixpoint fold_insert (ins : Value → Hash_Multiset → option Hash_Multiset)
    (vs : list Value) (t : Hash_Multiset) : option Hash_Multiset :=
  match vs with
  | [] => Some t
  | v :: vs' =>
      match ins v t with
      | Some t' => fold_insert ins vs' t'
      | None => None
      end
  end.

(** [rehash(count)], with [ins] for the [n.insert(x)] of its loops. *)
Definition rehash_with (ins : Value → Hash_Multiset → option Hash_Multiset)
    (count : nat) (t : Hash_Multiset) : option Hash_Multiset :=
  if sz t =? 0 then Some (rehash_empty count t)
  else
    let count :=
      if count * 7 <? sz t * 8 then div_max_load_fact (sz t) else count in
    let n := rehash_empty count empty_set in
    match fold_insert ins (concat (data t)) n with
    | Some n => Some (mk (data n) (sz n) (max_load_factor_capacity n))
    | None => None
    end.

(** [insert(value)]. It calls [reserve], which calls [rehash], which calls
    [insert] on the new table; [fuel] bounds that nesting, and two levels
    are all that is ever entered ([insert_total]). *)
Fixpoint insert_loop (fuel : nat) (value : Value) (t : Hash_Multiset) :
    option Hash_Multiset :=
  match fuel with
  | 0 => None
  | S fuel' =>
      match
        (if sz t =? max_load_factor_capacity t
         then rehash_with (insert_loop fuel')
                (ceil_div_max_load_fact (sz t + 1)) t
         else Some t)
      with
      | Some t' => Some (insert_no_rehash value t')
      | None => None
      end
  end.

Definition insert (value : Value) (t : Hash_Multiset) : option Hash_Multiset :=
  insert_loop 2 value t.

Definition rehash (count : nat) (t : Hash_Multiset) : option Hash_Multiset :=
  rehash_with (insert_loop 1) count t.


(** [equal_range(key)]: the elements between the two iterators it returns. *)
Definition slice {A} (first last : nat) (l : list A) : list A :=
  take (last - first) (drop first l).

Definition equal_range_bucket (key : Key) (bucket : list Value) : list Value :=
  if length bucket =? 0 then []
  else if length bucket =? 1 then
    match head bucket with
    | Some x => if has_key key x then bucket else []
    | None => []
    end
  else
    match find_index (has_key key) bucket with
    | None => []
    | Some first =>
        let next := first + 1 in
        if (next =? length bucket) ||
           negb (match bucket !! next with
                 | Some x => has_key key x | None => false end)
        then slice first next bucket
        else
          match find_last_base (has_key key) bucket with
          | Some last => slice first last bucket
          | None => []
          end
    end.

Definition equal_range (key : Key) (t : Hash_Multiset) : list Value :=
  if length (data t) =? 0 then []
  else
    match data t !! bucket_index (length (data t)) key with
    | Some bucket => equal_range_bucket key bucket
    | None => []
    end.

(** The entries of [vs] with the key [key], in the order of [vs]. *)
Definition with_key (key : Key) (vs : list Value) : list Value :=
  List.filter (has_key key) vs.

(** The entries with the key [key] stand next to each other in [bucket], and
    [run] is what they are: [bucket] is [l1 ++ run ++ l3] with no entry of
    that key in [l1] and [l3]. *)
Definition run_of (key : Key) (bucket run : list Value) : Prop :=
  ∃ l1 l3, bucket = l1 ++ run ++ l3 ∧
    Forall (λ x, has_key key x = true) run ∧
    Forall (λ x, has_key key x = false) l1 ∧
    Forall (λ x, has_key key x = false) l3.

Definition contiguous (key : Key) (bucket : list Value) : Prop :=
  ∃ run, run_of key bucket run.

(** *** Searches from the back *)

Lemma find_last_base_hit (p : Value → bool) a y c :
  p y = true → Forall (λ x, p x = false) c →
  find_last_base p (a ++ y :: c) = Some (length a + 1).
Proof.
  intros Hy Hc. unfold find_last_base.
  rewrite reverse_app, reverse_cons, <- app_assoc. simpl.
  rewrite (find_index_app_hit p (reverse c) y (reverse a));
    [|by apply Forall_reverse|done].
  simpl. f_equal. rewrite length_reverse, length_app. simpl. lia.
Qed.

Lemma find_last_base_miss (p : Value → bool) b :
  Forall (λ x, p x = false) b → find_last_base p b = None.
Proof.
  intros Hb. unfold find_last_base.
  rewrite find_index_miss; [done|]. by apply Forall_reverse.
Qed.

Lemma with_key_none key l :
  Forall (λ x, has_key key x = false) l → with_key key l = [].
Proof.
  unfold with_key. induction 1 as [|x l Hx Hl IH]; simpl; [done|].
  by rewrite Hx.
Qed.

Lemma with_key_all key l :
  Forall (λ x, has_key key x = true) l → with_key key l = l.
Proof.
  unfold with_key. induction 1 as [|x l Hx Hl IH]; simpl; [done|].
  by rewrite Hx, IH.
Qed.

Lemma with_key_app key l1 l2 :
  with_key key (l1 ++ l2) = with_key key l1 ++ with_key key l2.
Proof. apply List.filter_app. Qed.

Lemma run_of_with_key key b r : run_of key b r → with_key key b = r.
Proof.
  intros (l1 & l3 & -> & Hr & H1 & H3).
  rewrite !with_key_app, (with_key_none _ _ H1), (with_key_none _ _ H3),
    (with_key_all _ _ Hr).
  by rewrite app_nil_r.
Qed.

(** *** What [insert] does to a bucket *)

Lemma bucket_insert_push_back v b :
  Forall (λ x, has_key (key_extract v) x = false) b →
  bucket_insert v b = b ++ [v].
Proof.
  intros Hb. unfold bucket_insert.
  destruct (_ || _); [done|]. by rewrite find_last_base_miss.
Qed.

Lemma bucket_insert_after_run v l1 r z l3 :
  has_key (key_extract v) z = true →
  Forall (λ x, has_key (key_extract v) x = false) l3 →
  bucket_insert v (l1 ++ (r ++ [z]) ++ l3) = l1 ++ (r ++ [z] ++ [v]) ++ l3.
Proof.
  intros Hz H3. unfold bucket_insert.
  assert (Hpush : ∀ c : bool, l3 = [] →
    (if c then (l1 ++ (r ++ [z]) ++ l3) ++ [v]
     else match find_last_base (has_key (key_extract v)) (l1 ++ (r ++ [z]) ++ l3) with
          | Some i => insert_at i v (l1 ++ (r ++ [z]) ++ l3)
          | None => (l1 ++ (r ++ [z]) ++ l3) ++ [v]
          end) = l1 ++ (r ++ [z] ++ [v]) ++ l3 →
    True) by done.
  clear Hpush.
  assert (Hfind : find_last_base (has_key (key_extract v)) (l1 ++ (r ++ [z]) ++ l3)
                  = Some (length (l1 ++ r) + 1)).
  { replace (l1 ++ (r ++ [z]) ++ l3) with ((l1 ++ r) ++ z :: l3)
      by (by rewrite <- !app_assoc).
    by apply find_last_base_hit. }
  assert (Hins : insert_at (length (l1 ++ r) + 1) v (l1 ++ (r ++ [z]) ++ l3)
                 = l1 ++ (r ++ [z] ++ [v]) ++ l3).
  { unfold insert_at.
    replace (l1 ++ (r ++ [z]) ++ l3) with ((l1 ++ r ++ [z]) ++ l3)
      by (by rewrite <- !app_assoc).
    rewrite take_app_length', drop_app_length'
      by (rewrite !length_app; simpl; lia).
    by rewrite <- !app_assoc. }
  rewrite Hfind, Hins.
  destruct (_ || _) eqn:Hc; [|done].
  (* the bucket is short, or it ends with an entry of the key: then no
     entry comes after the run *)
  assert (l3 = []) as ->.
  { clear Hfind Hins. destruct l3 as [|x l3 _] using rev_ind; [done|]. exfalso.
    apply Forall_app in H3 as [_ H3]. rewrite Forall_singleton in H3.
    rewrite !app_assoc, last_snoc, H3 in Hc.
    rewrite !length_app in Hc. simpl in Hc.
    rewrite !orb_false_r in Hc. apply orb_true_iff in Hc as [Hc|Hc];
      apply Nat.eqb_eq in Hc; lia. }
  by rewrite !app_nil_r, <- !app_assoc.
Qed.

(** The new entry goes to the end of the run of its key. *)
Lemma bucket_insert_run v b r :
  run_of (key_extract v) b r →
  run_of (key_extract v) (bucket_insert v b) (r ++ [v]).
Proof.
  intros (l1 & l3 & -> & Hr & H1 & H3).
  assert (Hv : has_key (key_extract v) v = true) by (by apply bool_decide_eq_true).
  destruct r as [|z r _] using rev_ind.
  - rewrite bucket_insert_push_back by (by apply Forall_app).
    exists (l1 ++ l3), []. split_and!.
    + simpl. by rewrite <- !app_assoc.
    + by constructor.
    + by apply Forall_app.
    + constructor.
  - apply Forall_app in Hr as [Hr Hz]. rewrite Forall_singleton in Hz.
    rewrite bucket_insert_after_run by done.
    exists l1, l3. split_and!; auto.
    + by rewrite <- !app_assoc.
    + rewrite !Forall_app. split_and!; auto.
Qed.

(** An entry of another key, put behind an entry of another key or at the
    end, leaves a run in one piece. *)
Lemma run_of_insert_foreign key a v c r :
  run_of key (a ++ c) r →
  has_key key v = false →
  c = [] ∨ (∃ a' y, a = a' ++ [y] ∧ has_key key y = false) →
  run_of key (a ++ v :: c) r.
Proof.
  intros (m1 & m3 & Hb & Hr & H1 & H3) Hv Hpos.
  destruct Hpos as [->|(a' & y & -> & Hy)].
  { rewrite app_nil_r in Hb. subst a. exists m1, (m3 ++ [v]). split_and!; auto.
    - by rewrite <- !app_assoc.
    - apply Forall_app. split; [done|by constructor]. }
  apply app_eq_inv in Hb as [(l & Ha & Hm)|(l & Hm & Hc)].
  - (* [a] reaches into [r ++ m3] *)
    symmetry in Hm. apply app_eq_inv in Hm as [(l' & Hl & Hm3)|(l' & Hr' & Hc)].
    + (* [a] is [m1 ++ r ++ l'] *)
      subst l m3. apply Forall_app in H3 as [H3 H3'].
      exists m1, (l' ++ v :: c). split_and!; auto.
      * rewrite Ha. by rewrite <- !app_assoc.
      * apply Forall_app. split; [done|by constructor].
    + (* [a] ends inside [r]: then it ends at the very start of [r] *)
      subst r c. apply Forall_app in Hr as [Hl Hl'].
      destruct l as [|z l _] using rev_ind.
      * rewrite app_nil_r in Ha. exists (m1 ++ [v]), m3. split_and!; auto.
        -- rewrite Ha. simpl. by rewrite <- !app_assoc.
        -- apply Forall_app. split; [done|by constructor].
      * exfalso. rewrite app_assoc in Ha. apply app_inj_tail in Ha as [_ ->].
        apply Forall_app in Hl as [_ Hz]. rewrite Forall_singleton in Hz. congruence.
  - (* [a] lies inside [m1] *)
    subst m1 c. apply Forall_app in H1 as [H1 H1'].
    exists ((a' ++ [y]) ++ v :: l), m3. split_and!; auto.
    + by rewrite <- !app_assoc.
    + apply Forall_app. split; [done|by constructor].
Qed.

Lemma bucket_insert_other_run v b key r :
  contiguous (key_extract v) b →
  has_key key v = false →
  run_of key b r → run_of key (bucket_insert v b) r.
Proof.
  intros (rv & l1 & l3 & -> & Hrv & H1 & H3) Hv Hrun.
  assert (Hne : ∀ x, has_key (key_extract v) x = true → has_key key x = false).
  { intros x Hx. apply bool_decide_eq_true in Hx.
    apply bool_decide_eq_false in Hv. apply bool_decide_eq_false. congruence. }
  destruct rv as [|z rv _] using rev_ind.
  - rewrite bucket_insert_push_back by (by apply Forall_app).
    rewrite <- (app_nil_r (l1 ++ [] ++ l3)) in Hrun.
    apply (run_of_insert_foreign key _ v [] r) in Hrun; auto.
  - apply Forall_app in Hrv as [Hrv Hz]. rewrite Forall_singleton in Hz.
    rewrite bucket_insert_after_run by done.
    replace (l1 ++ (rv ++ [z] ++ [v]) ++ l3) with ((l1 ++ rv ++ [z]) ++ v :: l3)
      by (by rewrite <- !app_assoc).
    apply run_of_insert_foreign; auto.
    + by rewrite <- !app_assoc in *.
    + right. exists (l1 ++ rv), z. split; [by rewrite <- !app_assoc|auto].
Qed.

(** Runs stay runs, and [with_key] of the bucket grows by the new entry. *)
Lemma bucket_insert_contiguous v b :
  (∀ key, contiguous key b) → ∀ key, contiguous key (bucket_insert v b).
Proof.
  intros Hb key. destruct (has_key key v) eqn:Hv.
  - apply bool_decide_eq_true in Hv as ->.
    destruct (Hb (key_extract v)) as [r Hr].
    exists (r ++ [v]). by apply bucket_insert_run.
  - destruct (Hb key) as [r Hr]. exists r.
    by apply bucket_insert_other_run.
Qed.

Lemma bucket_insert_with_key v b key :
  (∀ key, contiguous key b) →
  with_key key (bucket_insert v b) = with_key key (b ++ [v]).
Proof.
  intros Hb. rewrite with_key_app. destruct (has_key key v) eqn:Hv.
  - apply bool_decide_eq_true in Hv as ->.
    destruct (Hb (key_extract v)) as [r Hr].
    rewrite (run_of_with_key _ _ _ (bucket_insert_run v b r Hr)).
    rewrite (run_of_with_key _ _ _ Hr). unfold with_key. simpl.
    unfold has_key. by rewrite (bool_decide_eq_true_2 _ eq_refl).
  - destruct (Hb key) as [r Hr].
    rewrite (run_of_with_key _ _ _ (bucket_insert_other_run v b key r (Hb _) Hv Hr)).
    rewrite (run_of_with_key _ _ _ Hr). unfold with_key. simpl.
    by rewrite Hv, app_nil_r.
Qed.

Lemma bucket_insert_length v b : length (bucket_insert v b) = S (length b).
Proof.
  unfold bucket_insert. destruct (_ || _).
  - rewrite length_app. simpl. lia.
  - destruct (find_last_base _ b) as [i|].
    + unfold insert_at. rewrite length_app. simpl.
      rewrite length_take, length_drop. lia.
    + rewrite length_app. simpl. lia.
Qed.

Lemma bucket_insert_elem v b x :
  x ∈ bucket_insert v b → x = v ∨ x ∈ b.
Proof.
  unfold bucket_insert. destruct (_ || _).
  - rewrite elem_of_app, list_elem_of_singleton. tauto.
  - destruct (find_last_base _ b) as [i|].
    + unfold insert_at. rewrite elem_of_app, elem_of_cons.
      intros [Hx|[->|Hx]]; auto; right.
      * eapply elem_of_sublist; [exact Hx|apply sublist_take].
      * eapply elem_of_sublist; [exact Hx|apply sublist_drop].
    + rewrite elem_of_app, list_elem_of_singleton. tauto.
Qed.

(** *** What [equal_range] finds in a bucket *)

Lemma slice_middle {A} (l1 r l3 : list A) :
  slice (length l1) (length l1 + length r) (l1 ++ r ++ l3) = r.
Proof.
  unfold slice. rewrite drop_app_length.
  replace (length l1 + length r - length l1) with (length r) by lia.
  by rewrite take_app_length.
Qed.

Lemma equal_range_bucket_run key b r :
  run_of key b r → equal_range_bucket key b = r.
Proof.
  intros (l1 & l3 & -> & Hr & H1 & H3). unfold equal_range_bucket.
  destruct r as [|y r'].
  - (* no entry of the key *)
    simpl. destruct (Nat.eqb_spec (length (l1 ++ l3)) 0); [done|].
    destruct (Nat.eqb_spec (length (l1 ++ l3)) 1) as [Hone|].
    + destruct (l1 ++ l3) as [|x [|??]] eqn:Hb; try done. simpl.
      assert (Hx : Forall (λ x, has_key key x = false) (l1 ++ l3))
        by (by apply Forall_app).
      rewrite Hb in Hx. apply Forall_cons in Hx as [-> _]. done.
    + rewrite find_index_miss; [done|]. by apply Forall_app.
  - apply Forall_cons in Hr as [Hy Hr'].
    rewrite !length_app. simpl.
    destruct (Nat.eqb_spec (length l1 + S (length r' + length l3)) 0); [lia|].
    destruct (Nat.eqb_spec (length l1 + S (length r' + length l3)) 1) as [Hone|Hmore].
    + destruct l1; [|simpl in Hone; lia]. destruct r'; [|simpl in Hone; lia].
      destruct l3; [|simpl in Hone; lia]. simpl. by rewrite Hy.
    + rewrite (find_index_app_hit _ l1 y (r' ++ l3)) by done.
      destruct r' as [|z r''].
      * (* a run of one *)
        pose proof (slice_middle l1 [y] l3) as Hs. simpl in Hs.
        replace (length l1 + 1) with (length l1 + length [y]) by (simpl; lia).
        simpl. destruct (_ || negb _) eqn:Hnext; [exact Hs|]. exfalso.
        apply orb_false_iff in Hnext as [Hn1 Hn2].
        apply Nat.eqb_neq in Hn1. apply negb_false_iff in Hn2.
        destruct l3 as [|x l3]; [simpl in Hn1; lia|].
        apply Forall_cons in H3 as [Hx _].
        rewrite lookup_app_r in Hn2 by lia.
        replace (length l1 + 1 - length l1) with 1 in Hn2 by lia.
        simpl in Hn2. congruence.
      * (* a longer run: its end is looked for from the back *)
        apply Forall_cons in Hr' as [Hz Hr''].
        destruct (Nat.eqb_spec (length l1 + 1)
                    (length l1 + S (length (z :: r'') + length l3)));
          [simpl in *; lia|].
        replace ((l1 ++ (y :: z :: r'') ++ l3) !! (length l1 + 1)) with (Some z).
        2:{ rewrite lookup_app_r by lia.
            by replace (length l1 + 1 - length l1) with 1 by lia. }
        rewrite Hz. simpl.
        destruct (@exists_last _ (z :: r'')) as (r0 & z0 & Hr0); [done|].
        assert (Hz0 : has_key key z0 = true).
        { assert (Hall : Forall (λ x, has_key key x = true) (z :: r''))
            by (by constructor).
          rewrite Hr0 in Hall. apply Forall_app in Hall as [_ Hall].
          by rewrite Forall_singleton in Hall. }
        change (l1 ++ y :: z :: r'' ++ l3) with (l1 ++ (y :: z :: r'') ++ l3).
        assert (Hb : l1 ++ (y :: z :: r'') ++ l3 = (l1 ++ y :: r0) ++ z0 :: l3).
        { change (y :: z :: r'') with ([y] ++ (z :: r'')). rewrite Hr0.
          by rewrite <- !app_assoc. }
        rewrite Hb at 1. rewrite find_last_base_hit by done.
        replace (length (l1 ++ y :: r0) + 1) with (length l1 + length (y :: z :: r'')).
        2:{ assert (length (z :: r'') = length r0 + 1) as Hlen0
              by (rewrite Hr0, length_app; simpl; lia).
            rewrite length_app. simpl in *. lia. }
        apply slice_middle.
Qed.

(** *** The table *)

Definition Inv (t : Hash_Multiset) (vs : list Value) : Prop :=
  (length (data t) = 0 → max_load_factor_capacity t = 0) ∧
  (∀ i b, data t !! i = Some b →
     (∀ key, contiguous key b) ∧
     Forall (λ x, bucket_index (length (data t)) (key_extract x) = i) b) ∧
  (∀ key, with_key key (data t !!! bucket_index (length (data t)) key)
          = with_key key vs) ∧
  sz t = length vs ∧
  length (concat (data t)) = length vs.

Lemma bucket_index_lt size key : 0 < size → bucket_index size key < size.
Proof.
  intros Hs. unfold bucket_index.
  pose proof (N.land_le_r (hash key) (N.of_nat size - 1)). lia.
Qed.

Lemma has_key_false_other_bucket size key x :
  bucket_index size (key_extract x) ≠ bucket_index size key →
  has_key key x = false.
Proof. intros Hne. apply bool_decide_eq_false. intros ->. done. Qed.

Lemma concat_alter_length {A} (f : list A → list A) (l : list (list A)) i b :
  l !! i = Some b →
  length (concat (alter f i l)) + length b = length (concat l) + length (f b).
Proof.
  revert i. induction l as [|x l IH]; intros i Hi; [done|].
  destruct i as [|i]; simpl in *.
  - injection Hi as ->. rewrite !length_app. lia.
  - specialize (IH i Hi). rewrite !length_app.
    change (list_alter f i l) with (alter f i l). lia.
Qed.

Lemma insert_no_rehash_Inv t vs v :
  Inv t vs → 0 < length (data t) → Inv (insert_no_rehash v t) (vs ++ [v]).
Proof.
  intros (H0 & Hb & Hk & Hsz & Hlen) Hpos.
  set (i0 := bucket_index (length (data t)) (key_extract v)).
  assert (Hi0 : i0 < length (data t)) by (by apply bucket_index_lt).
  destruct (lookup_lt_is_Some_2 _ _ Hi0) as [b0 Hb0].
  unfold Inv, insert_no_rehash. simpl. fold i0. rewrite length_alter.
  split_and!.
  - lia.
  - intros i b Hi. rewrite list_lookup_alter in Hi.
    destruct (decide (i0 = i)) as [<-|Hne].
    + rewrite Hb0 in Hi. simpl in Hi. injection Hi as <-.
      destruct (Hb i0 b0 Hb0) as [Hc Hidx]. split.
      * by apply bucket_insert_contiguous.
      * apply Forall_forall. intros x Hx.
        apply bucket_insert_elem in Hx as [->|Hx]; [done|].
        rewrite Forall_forall in Hidx. by apply Hidx.
    + by apply Hb.
  - intros key. rewrite with_key_app, <- Hk.
    destruct (decide (i0 = bucket_index (length (data t)) key)) as [Heq|Hne].
    + rewrite <- Heq. rewrite list_lookup_total_alter_eq by done.
      rewrite (list_lookup_total_correct _ _ _ Hb0).
      rewrite bucket_insert_with_key by (by apply (Hb i0 b0 Hb0)).
      by rewrite with_key_app.
    + rewrite list_lookup_total_alter_ne by done.
      rewrite (with_key_none key [v]); [by rewrite app_nil_r|].
      constructor; [|done]. by apply (has_key_false_other_bucket (length (data t))).
  - rewrite length_app. simpl. lia.
  - pose proof (concat_alter_length (bucket_insert v) (data t) i0 b0 Hb0) as Hc.
    rewrite bucket_insert_length in Hc. rewrite length_app. simpl. lia.
Qed.

Lemma all_empty_Inv d m :
  0 < length d → Forall (λ b, b = []) d → Inv (mk d 0 m) [].
Proof.
  intros Hpos Hd. unfold Inv. simpl. split_and!.
  - lia.
  - intros i b Hi. rewrite Forall_lookup in Hd. rewrite (Hd i b Hi). split.
    + intros key. exists [], [], []. by split_and!.
    + constructor.
  - intros key. rewrite list_lookup_total_alt.
    destruct (d !! _) as [b|] eqn:Hi; simpl; [|done].
    rewrite Forall_lookup in Hd. by rewrite (Hd _ b Hi).
  - done.
  - assert (concat d = []) as -> by (by apply concat_nil_Forall). done.
Qed.

Lemma capacity_loop_spec fuel capacity count :
  16 ≤ capacity → count < capacity * 2 ^ fuel →
  count < capacity_loop fuel capacity count ∧
  16 ≤ capacity_loop fuel capacity count.
Proof.
  revert capacity. induction fuel as [|fuel IH]; intros capacity Hc Hf; simpl in *.
  - lia.
  - destruct (Nat.leb_spec capacity count); [|lia]. apply IH; lia.
Qed.

Lemma capacity_for_spec count :
  count < capacity_for count ∧ 16 ≤ capacity_for count.
Proof.
  apply capacity_loop_spec; [lia|].
  pose proof (Nat.pow_gt_lin_r 2 (S count)). lia.
Qed.

Lemma fold_insert_Inv ws n ws0 :
  Inv n ws0 → 0 < length (data n) →
  length ws0 + length ws ≤ max_load_factor_capacity n →
  ∃ n', fold_insert (insert_loop 1) ws n = Some n' ∧ Inv n' (ws0 ++ ws) ∧
        length (data n') = length (data n).
Proof.
  revert n ws0. induction ws as [|v ws IH]; intros n ws0 Hn Hpos Hcap; simpl.
  - exists n. by rewrite app_nil_r.
  - assert (sz n = length ws0) as Hsz by apply Hn.
    destruct (Nat.eqb_spec (sz n) (max_load_factor_capacity n));
      [simpl in Hcap; lia|].
    destruct (IH (insert_no_rehash v n) (ws0 ++ [v])) as (n' & Hf & Hn' & Hl).
    + by apply insert_no_rehash_Inv.
    + simpl. by rewrite length_alter.
    + simpl in *. rewrite length_app. simpl. lia.
    + exists n'. rewrite <- app_assoc in Hn'. split_and!; auto.
      rewrite Hl. simpl. by rewrite length_alter.
Qed.

Lemma with_key_concat t vs key :
  Inv t vs → 0 < length (data t) →
  with_key key (concat (data t)) = with_key key vs.
Proof.
  intros (_ & Hb & Hk & _ & _) Hpos. rewrite <- Hk.
  set (j := bucket_index (length (data t)) key).
  assert (Hj : j < length (data t)) by (by apply bucket_index_lt).
  assert (Hother : ∀ d', (∀ i b, d' !! i = Some b → ∃ i', i' ≠ j ∧ data t !! i' = Some b) →
            with_key key (concat d') = []).
  { intros d' Hd'. apply with_key_none, Forall_concat, Forall_lookup.
    intros i b Hi. destruct (Hd' i b Hi) as (i' & Hne & Hi').
    destruct (Hb i' b Hi') as [_ Hidx].
    eapply Forall_impl; [exact Hidx|]. simpl. intros x Hx.
    apply (has_key_false_other_bucket (length (data t))). fold j. congruence. }
  rewrite <- (take_drop_middle (data t) j (data t !!! j))
    by (by apply list_lookup_lookup_total_lt).
  rewrite concat_app. simpl. rewrite !with_key_app.
  rewrite (Hother (take j (data t))), (Hother (drop (S j) (data t))).
  - rewrite app_nil_r. simpl. f_equal.
    rewrite take_drop_middle by (by apply list_lookup_lookup_total_lt). done.
  - intros i b Hi. rewrite lookup_drop in Hi. exists (S j + i). split; [lia|done].
  - intros i b Hi. pose proof (lookup_lt_Some _ _ _ Hi) as Hlt.
    rewrite length_take in Hlt. rewrite lookup_take_lt in Hi by lia.
    exists i. split; [lia|done].
Qed.

Lemma ceil_mul_capacity_ge count s :
  div_max_load_fact s ≤ count →
  s ≤ ceil_mul_max_load_fact (capacity_for count).
Proof.
  intros Hc. destruct (capacity_for_spec count) as [Hgt _].
  unfold div_max_load_fact, ceil_mul_max_load_fact in *.
  pose proof (Nat.div_mod_eq (s * 8) 7) as Hd.
  pose proof (Nat.mod_upper_bound (s * 8) 7).
  apply Nat.div_le_lower_bound; lia.
Qed.

Lemma rehash_Inv count t vs :
  Inv t vs →
  ∃ t', rehash_with (insert_loop 1) count t = Some t' ∧ Inv t' vs ∧
        0 < length (data t').
Proof.
  intros Ht. pose proof Ht as (H0 & Hb & Hk & Hsz & Hlen).
  unfold rehash_with. destruct (Nat.eqb_spec (sz t) 0) as [Hz|Hnz].
  - (* the empty set: the bucket vector is resized *)
    eexists. split; [done|].
    assert (vs = []) as -> by (apply length_zero_iff_nil; lia).
    assert (Forall (λ b, b = []) (data t)) as Hempty.
    { apply concat_nil_Forall, length_zero_iff_nil. simpl in Hlen. lia. }
    destruct (capacity_for_spec count) as [_ Hcap].
    unfold rehash_empty. rewrite Hz. split; [|simpl; rewrite length_resize; lia].
    apply all_empty_Inv; [rewrite length_resize; lia|].
    rewrite resize_spec. apply Forall_app. split.
    + by apply Forall_take.
    + by apply Forall_replicate.
  - set (count' := if count * 7 <? sz t * 8 then div_max_load_fact (sz t) else count).
    assert (Hcount : div_max_load_fact (sz t) ≤ count').
    { unfold count'. destruct (Nat.ltb_spec (count * 7) (sz t * 8)); [done|].
      unfold div_max_load_fact. apply Nat.Div0.div_le_upper_bound; lia. }
    destruct (capacity_for_spec count') as [_ Hcap].
    assert (Hpos : 0 < length (data t)).
    { destruct (data t); simpl in *; [lia|lia]. }
    destruct (fold_insert_Inv (concat (data t)) (rehash_empty count' empty_set) [])
      as (n' & Hf & Hn' & Hl).
    + unfold rehash_empty, empty_set. simpl. rewrite resize_nil.
      apply all_empty_Inv; [rewrite length_replicate; lia|].
      by apply Forall_replicate.
    + simpl. rewrite length_resize. lia.
    + simpl. rewrite Hlen, <- Hsz. by apply ceil_mul_capacity_ge.
    + rewrite Hf. eexists. split; [done|]. simpl in Hn'.
      destruct Hn' as (H0' & Hb' & Hk' & Hsz' & Hlen').
      simpl in Hl. rewrite length_resize in Hl.
      split; [|simpl; lia].
      unfold Inv. simpl. split_and!; auto.
      * intros key. rewrite Hk'. by apply (with_key_concat t vs).
      * lia.
      * lia.
Qed.

Lemma insert_loop_S fuel v t :
  insert_loop (S fuel) v t =
  match
    (if sz t =? max_load_factor_capacity t
     then rehash_with (insert_loop fuel) (ceil_div_max_load_fact (sz t + 1)) t
     else Some t)
  with
  | Some t' => Some (insert_no_rehash v t')
  | None => None
  end.
Proof. reflexivity. Qed.

Lemma insert_Inv v t vs :
  Inv t vs → ∃ t', insert v t = Some t' ∧ Inv t' (vs ++ [v]).
Proof.
  intros Ht. unfold insert. rewrite insert_loop_S.
  destruct (Nat.eqb_spec (sz t) (max_load_factor_capacity t)) as [Heq|Hne].
  - destruct (rehash_Inv (ceil_div_max_load_fact (sz t + 1)) t vs Ht)
      as (t1 & -> & Ht1 & Hpos).
    eexists. split; [done|]. by apply insert_no_rehash_Inv.
  - eexists. split; [done|]. apply insert_no_rehash_Inv; [done|].
    destruct Ht as (H0 & _ & _ & Hsz & Hlen).
    destruct (data t) eqn:Hd; simpl in *; [|lia].
    specialize (H0 eq_refl). lia.
Qed.

Lemma empty_set_Inv : Inv empty_set [].
Proof.
  unfold Inv, empty_set. simpl. split_and!; try done.
Qed.

Lemma fold_insert_insert_Inv vs t vs0 :
  Inv t vs0 → ∃ t', fold_insert insert vs t = Some t' ∧ Inv t' (vs0 ++ vs).
Proof.
  revert t vs0. induction vs as [|v vs IH]; intros t vs0 Ht; simpl.
  - exists t. by rewrite app_nil_r.
  - destruct (insert_Inv v t vs0 Ht) as (t1 & -> & Ht1).
    destruct (IH t1 (vs0 ++ [v]) Ht1) as (t' & Hf & Ht').
    exists t'. by rewrite <- app_assoc in Ht'.
Qed.

Lemma Inv_run_of t vs key :
  Inv t vs →
  run_of key (data t !!! bucket_index (length (data t)) key) (with_key key vs).
Proof.
  intros (_ & Hb & Hk & _ & _). rewrite <- Hk.
  rewrite list_lookup_total_alt.
  destruct (data t !! _) as [b|] eqn:Hi; simpl.
  - destruct (Hb _ b Hi) as [Hc _]. destruct (Hc key) as [r Hr].
    by rewrite (run_of_with_key _ _ _ Hr).
  - exists [], []. by split_and!.
Qed.

Lemma Inv_equal_range t vs key :
  Inv t vs → equal_range key t = with_key key vs.
Proof.
  intros Ht. pose proof (Inv_run_of t vs key Ht) as Hrun.
  destruct Ht as (_ & Hb & Hk & Hsz & Hlen). unfold equal_range.
  rewrite list_lookup_total_alt in Hrun.
  destruct (Nat.eqb_spec (length (data t)) 0) as [Hz|Hnz].
  - destruct (data t); [|done]. simpl in Hlen.
    symmetry in Hlen. apply length_zero_iff_nil in Hlen as ->. done.
  - destruct (data t !! _) as [b|] eqn:Hi; simpl in Hrun.
    + by apply equal_range_bucket_run.
    + apply lookup_ge_None in Hi.
      pose proof (bucket_index_lt (length (data t)) key). lia.
Qed.

(** C10. After any sequence of inserts into an empty word index: in every
    bucket the entries of one key stand next to each other; the run of a key
    in its bucket is made of the entries inserted with that key, in the
    order of their insertion, so that an entry just inserted is the last of
    the run of its key; and [equal_range(key)] returns all the entries
    inserted with that key, in the order of their insertion. *)
Theorem equal_range_insertion_order (vs : list Value) :
  ∃ t, fold_insert insert vs empty_set = Some t ∧
    (∀ bucket key, bucket ∈ data t → contiguous key bucket) ∧
    (∀ key,
       run_of key (data t !!! bucket_index (length (data t)) key)
         (with_key key vs)) ∧
    (∀ vs' v, vs = vs' ++ [v] →
       with_key (key_extract v) vs = with_key (key_extract v) vs' ++ [v]) ∧
    (∀ key, equal_range key t = with_key key vs).
Proof.
  destruct (fold_insert_insert_Inv vs empty_set []) as (t & Hf & Ht);
    [apply empty_set_Inv|].
  simpl in Ht. exists t. split_and!; auto.
  - intros bucket key Hin. apply list_elem_of_lookup in Hin as [i Hi].
    destruct Ht as (_ & Hb & _). by apply (Hb i bucket Hi).
  - intros key. by apply Inv_run_of.
  - intros vs' v ->. rewrite with_key_app. f_equal. unfold with_key. simpl.
    unfold has_key. by rewrite (bool_decide_eq_true_2 _ eq_refl).
  - intros key. by apply Inv_equal_range.
Qed.

(** *** Capacity and load *)


(** The bucket vector is empty or has [16 * 2 ^ k] buckets,
    [max_load_factor_capacity] is seven eighths of that, rounded up, and the
    size is not above it. *)
Definition Cap (t : Hash_Multiset) : Prop :=
  sz t ≤ max_load_factor_capacity t ∧
  ((length (data t) = 0 ∧ max_load_factor_capacity t = 0) ∨
   ((∃ k, length (data t) = 16 * 2 ^ k) ∧
    max_load_factor_capacity t = ceil_mul_max_load_fact (length (data t)))).

Lemma capacity_loop_pow fuel j count :
  ∃ k, capacity_loop fuel (16 * 2 ^ j) count = 16 * 2 ^ k.
Proof.
  revert j. induction fuel as [|fuel IH]; intros j; cbn [capacity_loop]; [by exists j|].
  destruct (_ <=? _); [|by exists j].
  replace (16 * 2 ^ j * 2) with (16 * 2 ^ S j) by (rewrite Nat.pow_succ_r'; lia).
  apply IH.
Qed.

Lemma capacity_for_pow count : ∃ k, capacity_for count = 16 * 2 ^ k.
Proof.
  unfold capacity_for. apply (capacity_loop_pow (S count) 0 count).
Qed.

Lemma fold_insert_no_rehash ws n n' :
  sz n + length ws ≤ max_load_factor_capacity n →
  fold_insert (insert_loop 1) ws n = Some n' →
  length (data n') = length (data n) ∧
  max_load_factor_capacity n' = max_load_factor_capacity n ∧
  sz n' = sz n + length ws.
Proof.
  revert n. induction ws as [|v ws IH]; intros n Hcap; simpl.
  - intros [= <-]. lia.
  - simpl in Hcap.
    destruct (Nat.eqb_spec (sz n) (max_load_factor_capacity n)); [lia|].
    intros Hf. apply IH in Hf; simpl in *; [|lia].
    rewrite length_alter in Hf. lia.
Qed.

(** The count [rehash] works with. *)
Definition rehash_count (count : nat) (t : Hash_Multiset) : nat :=
  if sz t =? 0 then count
  else if count * 7 <? sz t * 8 then div_max_load_fact (sz t) else count.

Lemma rehash_count_ge count t : count ≤ rehash_count count t.
Proof.
  unfold rehash_count. destruct (sz t =? 0); [done|].
  destruct (Nat.ltb_spec (count * 7) (sz t * 8)); [|done].
  unfold div_max_load_fact. apply Nat.div_le_lower_bound; lia.
Qed.

Lemma rehash_capacity count t vs :
  Inv t vs →
  ∃ t', rehash count t = Some t' ∧ Inv t' vs ∧
    length (data t') = capacity_for (rehash_count count t) ∧
    max_load_factor_capacity t' = ceil_mul_max_load_fact (length (data t')) ∧
    sz t' ≤ max_load_factor_capacity t'.
Proof.
  intros Ht. destruct (rehash_Inv count t vs Ht) as (t' & Hr & Ht' & _).
  exists t'. split_and!; auto; revert Hr; unfold rehash_count;
    fold (rehash count t); unfold rehash, rehash_with;
    destruct (Nat.eqb_spec (sz t) 0) as [Hz|Hnz].
  all: try (intros [= <-]; simpl; rewrite ?length_resize; done || lia).
  all: set (count' := if count * 7 <? sz t * 8 then div_max_load_fact (sz t) else count).
  all: assert (Hcount : div_max_load_fact (sz t) ≤ count')
         by (unfold count'; destruct (Nat.ltb_spec (count * 7) (sz t * 8)); [done|];
             unfold div_max_load_fact; apply Nat.Div0.div_le_upper_bound; lia).
  all: pose proof (ceil_mul_capacity_ge count' (sz t) Hcount) as Hroom.
  all: destruct (fold_insert _ _ _) as [n'|] eqn:Hf; [|done]; intros [= <-]; simpl.
  all: apply fold_insert_no_rehash in Hf; simpl in *; rewrite ?length_resize in *.
  all: try (destruct Ht as (_ & _ & _ & Hsz & Hlen); lia).
  all: destruct Hf as (Hl & Hm & Hs); rewrite ?Hl, ?Hm; try done.
Qed.

Lemma insert_Cap v t vs t' :
  Inv t vs → Cap t → insert v t = Some t' → Cap t'.
Proof.
  intros Ht [Hle Hc]. unfold insert. rewrite insert_loop_S.
  destruct (Nat.eqb_spec (sz t) (max_load_factor_capacity t)) as [Heq|Hne].
  - destruct (rehash_capacity (ceil_div_max_load_fact (sz t + 1)) t vs Ht)
      as (t1 & Hr & Ht1 & Hl & Hm & Hs).
    unfold rehash in Hr. rewrite Hr. intros [= <-].
    unfold Cap. simpl. rewrite length_alter.
    assert (Hsz : sz t1 = sz t).
    { destruct Ht as (_ & _ & _ & -> & _). by destruct Ht1 as (_ & _ & _ & -> & _). }
    split.
    + rewrite Hm, Hl.
      pose proof (rehash_count_ge (ceil_div_max_load_fact (sz t + 1)) t) as Hge.
      destruct (capacity_for_spec (rehash_count (ceil_div_max_load_fact (sz t + 1)) t))
        as [Hgt _].
      unfold ceil_div_max_load_fact, ceil_mul_max_load_fact in *.
      apply Nat.div_le_lower_bound; [lia|].
      pose proof (Nat.div_mod_eq ((sz t + 1) * 8 + 6) 7).
      pose proof (Nat.mod_upper_bound ((sz t + 1) * 8 + 6) 7). lia.
    + right. split; [|done]. rewrite Hl. apply capacity_for_pow.
  - intros [= <-]. unfold Cap. simpl. rewrite length_alter.
    split; [lia|done].
Qed.

Lemma fold_insert_insert_Cap vs t vs0 t' :
  Inv t vs0 → Cap t → fold_insert insert vs t = Some t' → Cap t'.
Proof.
  revert t vs0. induction vs as [|v vs IH]; intros t vs0 Ht Hc; simpl.
  - by intros [= <-].
  - destruct (insert_Inv v t vs0 Ht) as (t1 & Hi & Ht1).
    rewrite Hi. apply (IH t1 (vs0 ++ [v]) Ht1).
    exact (insert_Cap v t vs0 t1 Ht Hc Hi).
Qed.

Lemma empty_set_Cap : Cap empty_set.
Proof. unfold Cap, empty_set. simpl. split; [lia|by left]. Qed.

(** X6. After any sequence of inserts into an empty word index no entry is
    lost or counted twice ([size()] and the buckets hold as many entries as
    were inserted), the load stays within seven eighths of the number of
    buckets, and the number of buckets of an index that is not empty is a
    power of two from 16 on, so that every entry lies in the bucket its
    hash selects. *)
Theorem inserts_keep_size_and_load (vs : list Value) :
  ∃ t, fold_insert insert vs empty_set = Some t ∧
    sz t = length vs ∧
    length (concat (data t)) = length vs ∧
    sz t ≤ max_load_factor_capacity t ∧
    (vs ≠ [] →
     (∃ k, length (data t) = 16 * 2 ^ k) ∧
     max_load_factor_capacity t = ceil_mul_max_load_fact (length (data t))) ∧
    (∀ i b, data t !! i = Some b →
       Forall (λ x, bucket_index (length (data t)) (key_extract x) = i) b).
Proof.
  destruct (fold_insert_insert_Inv vs empty_set [])
    as (t & Hf & Ht); [apply empty_set_Inv|].
  pose proof (fold_insert_insert_Cap vs empty_set [] t
                empty_set_Inv empty_set_Cap Hf) as [Hle Hc].
  simpl in Ht. pose proof Ht as (H0 & Hb & Hk & Hsz & Hlen).
  exists t. split_and!; auto.
  - intros Hne. destruct Hc as [[Hd Hm]|Hc]; [|done].
    destruct vs; [done|]. simpl in *. lia.
  - intros i b Hi. by apply (Hb i b Hi).
Qed.


End Hash_Multiset.

(** A small word index: entries are (stem number, homonym number), the key
    is the stem number, and the hash sends every stem to bucket 0 or 1, so
    that runs of several stems share a bucket. Sixteen inserts pass the load
    limit of the first table (14 of 16 buckets) and force a rehash. *)
Definition example_hash (k : nat) : N := N.of_nat (k mod 2).

Definition example_entries : list (nat * nat) :=
  [(1, 0); (2, 0); (3, 0); (1, 1); (4, 0); (2, 1); (1, 2); (3, 1);
   (5, 0); (1, 3); (2, 2); (6, 0); (3, 2); (1, 4); (7, 0); (3, 3)].

Example example_equal_range :
  (λ t, (length (data t), sz t, max_load_factor_capacity t,
         data t !!! 1, equal_range fst example_hash 3 t))
    <$> fold_insert (insert fst example_hash) example_entries empty_set
  = Some (32, 16, 28,
          [(1, 0); (1, 1); (1, 2); (1, 3); (1, 4);
           (3, 0); (3, 1); (3, 2); (3, 3); (5, 0); (7, 0)],
          [(3, 0); (3, 1); (3, 2); (3, 3)]).
Proof. vm_compute. reflexivity. Qed.

Lemma equal_range_insertion_order_witness :
  ∃ t, fold_insert (insert fst example_hash) example_entries empty_set = Some t ∧
    (∀ bucket key, bucket ∈ data t → contiguous fst key bucket) ∧
    (∀ key,
       run_of fst key (data t !!! bucket_index example_hash (length (data t)) key)
         (with_key fst key example_entries)) ∧
    (∀ vs' v, example_entries = vs' ++ [v] →
       with_key fst (fst v) example_entries = with_key fst (fst v) vs' ++ [v]) ∧
    (∀ key, equal_range fst example_hash key t = with_key fst key example_entries).
Proof. exact (equal_range_insertion_order fst example_hash example_entries). Defined.

Lemma inserts_keep_size_and_load_witness :
  ∃ t, fold_insert (insert fst example_hash) example_entries empty_set = Some t ∧
    sz t = length example_entries ∧
    length (concat (data t)) = length example_entries ∧
    sz t ≤ max_load_factor_capacity t ∧
    (example_entries ≠ [] →
     (∃ k, length (data t) = 16 * 2 ^ k) ∧
     max_load_factor_capacity t = ceil_mul_max_load_fact (length (data t))) ∧
    (∀ i b, data t !! i = Some b →
       Forall (λ x, bucket_index example_hash (length (data t)) (fst x) = i) b).
Proof. exact (inserts_keep_size_and_load fst example_hash example_entries). Defined.


End Hash_Multiset.

(** ** Break patterns: [Break_Table<CharT>] of structures.hxx and
       [Dict_Base::spell_break] *)

Module Spell_Break.
Import Std.

Definition ch_caret : Z := 94.
Definition ch_dollar : Z := 36.

Record Break_Table := mk_table {
  table : list (list Z);
  start_word_breaks_last_idx : nat;
  end_word_breaks_last_idx : nat
}.

(** [s[0]] and [s.back()] of a non-empty string. *)
Definition front (s : list Z) : Z := default 0%Z (head s).
Definition back (s : list Z) : Z := default 0%Z (last s).

(** [Break_Table::order_entries]. [std::partition] may reorder the entries
    inside each group; the stable partition stands for it. *)
Definition order_entries (v : list (list Z)) : Break_Table :=
  let removed (s : list Z) : bool :=
    (length s =? 0) ||
    ((length s =? 1) && ((front s =? ch_caret)%Z || (front s =? ch_dollar)%Z)) in
  let table := List.filter (λ s, negb (removed s)) v in
  let is_start_word_break (x : list Z) := (front x =? ch_caret)%Z in
  let is_end_word_break (x : list Z) := (back x =? ch_dollar)%Z in
  let starts := List.filter is_start_word_break table in
  let others := List.filter (λ x, negb (is_start_word_break x)) table in
  let starts := map (erase_range 0 1) starts in
  let ends := List.filter is_end_word_break others in
  let middles := List.filter (λ x, negb (is_end_word_break x)) others in
  let ends := map (λ e, take (length e - 1) e) ends in
  mk_table (starts ++ ends ++ middles) (length starts)
    (length starts + length ends).

Definition start_word_breaks (t : Break_Table) : list (list Z) :=
  take (start_word_breaks_last_idx t) (table t).

Definition end_word_breaks (t : Break_Table) : list (list Z) :=
  slice_range (start_word_breaks_last_idx t) (end_word_breaks_last_idx t) (table t).

Definition middle_word_breaks (t : Break_Table) : list (list Z) :=
  drop (end_word_breaks_last_idx t) (table t).

Section Spell_Break.
(** [spell_casing], which drives the affix and compound checks and gives the
    flags of the dictionary entry it found, or null. It leaves its argument
    as it was (the [assert(s == copy)] of [spell_priv]). *)
Variable spell_casing : list Z → option String_Set.String_Set.
Variable forbiddenword_flag warn_flag : Z.
Variable forbid_warn : bool.
Variable break_table : Break_Table.

(** The first part of [spell_break]: the word as a whole. *)
Definition check_whole (s : list Z) : option bool :=
  match spell_casing s with
  | Some res =>
      if String_Set.contains forbiddenword_flag res then Some false
      else if forbid_warn && String_Set.contains warn_flag res then Some false
      else Some true
  | None => None
  end.

(** The three loops over the break patterns. [rec] is [spell_break] itself;
    an answer [None] of it is fuel that ran out. Each loop answers [Some true]
    when the function returns [true] from inside it and [Some false] when the
    loop runs to its end. *)
Fixpoint start_loop (rec : list Z → nat → option bool) (s : list Z)
    (pats : list (list Z)) : option bool :=
  match pats with
  | [] => Some false
  | pat :: pats' =>
      if decide (take (length pat) s = pat) then
        match rec (drop (length pat) s) 0 with
        | None => None
        | Some true => Some true
        | Some false => start_loop rec s pats'
        end
      else start_loop rec s pats'
  end.

Fixpoint end_loop (rec : list Z → nat → option bool) (s : list Z)
    (pats : list (list Z)) : option bool :=
  match pats with
  | [] => Some false
  | pat :: pats' =>
      if length s <? length pat then end_loop rec s pats'
      else if decide (drop (length s - length pat) s = pat) then
        match rec (take (length s - length pat) s) 0 with
        | None => None
        | Some true => Some true
        | Some false => end_loop rec s pats'
        end
      else end_loop rec s pats'
  end.

Fixpoint middle_loop (rec : list Z → nat → option bool) (s : list Z)
    (depth : nat) (pats : list (list Z)) : option bool :=
  match pats with
  | [] => Some false
  | pat :: pats' =>
      match find_sub pat s with
      | Some i =>
          if (0 <? i) && (i <? length s - length pat) then
            match rec (take i s) (depth + 1) with
            | None => None
            | Some false => middle_loop rec s depth pats'
            | Some true =>
                match rec (drop (i + length pat) s) (depth + 1) with
                | None => None
                | Some true => Some true
                | Some false => middle_loop rec s depth pats'
                end
            end
          else middle_loop rec s depth pats'
      | None => middle_loop rec s depth pats'
      end
  end.

(** [Dict_Base::spell_break(s, depth)]. The calls for the start and end
    patterns are written [spell_break(substr)] in the source: they pass the
    default argument [depth = 0] of the declaration. *)
Fixpoint spell_break (fuel : nat) (s : list Z) (depth : nat) : option bool :=
  match fuel with
  | 0 => None
  | S fuel' =>
      match check_whole s with
      | Some r => Some r
      | None =>
          if depth =? 9 then Some false
          else
            match start_loop (spell_break fuel') s (start_word_breaks break_table) with
            | None => None
            | Some true => Some true
            | Some false =>
                match end_loop (spell_break fuel') s (end_word_breaks break_table) with
                | None => None
                | Some true => Some true
                | Some false =>
                    middle_loop (spell_break fuel') s depth
                      (middle_word_breaks break_table)
                end
            end
      end
  end.

(** *** Termination *)

(** [fuel] bounds the nesting of the activations of [spell_break]: a run with
    fuel [n] has its activations at the nesting levels [0 .. n - 1] and
    answers [None] as soon as one more level is entered. *)

Lemma spell_break_S fuel s depth :
  spell_break (S fuel) s depth =
  match check_whole s with
  | Some r => Some r
  | None =>
      if depth =? 9 then Some false
      else
        match start_loop (spell_break fuel) s (start_word_breaks break_table) with
        | None => None
        | Some true => Some true
        | Some false =>
            match end_loop (spell_break fuel) s (end_word_breaks break_table) with
            | None => None
            | Some true => Some true
            | Some false =>
                middle_loop (spell_break fuel) s depth
                  (middle_word_breaks break_table)
            end
        end
  end.
Proof. reflexivity. Qed.

Lemma start_loop_is_Some rec s pats :
  (∀ s' d, length s' < length s → is_Some (rec s' d)) →
  Forall (λ pat, pat ≠ []) pats →
  is_Some (start_loop rec s pats).
Proof.
  intros Hrec Hpats. induction Hpats as [|pat pats Hpat Hpats IH]; simpl; [done|].
  destruct (decide (take (length pat) s = pat)) as [Heq|]; [|done].
  destruct (Hrec (drop (length pat) s) 0) as [[] ->]; [|done|done].
  rewrite length_drop. destruct pat; [done|]. destruct s; [done|]. simpl. lia.
Qed.

Lemma end_loop_is_Some rec s pats :
  (∀ s' d, length s' < length s → is_Some (rec s' d)) →
  Forall (λ pat, pat ≠ []) pats →
  is_Some (end_loop rec s pats).
Proof.
  intros Hrec Hpats. induction Hpats as [|pat pats Hpat Hpats IH]; simpl; [done|].
  destruct (Nat.ltb_spec (length s) (length pat)); [done|].
  destruct (decide (drop (length s - length pat) s = pat)) as [Heq|]; [|done].
  destruct (Hrec (take (length s - length pat) s) 0) as [[] ->]; [|done|done].
  rewrite length_take. destruct pat; [done|]. simpl in *. lia.
Qed.

Lemma middle_loop_is_Some rec s depth pats :
  (∀ s', length s' < length s → is_Some (rec s' (depth + 1))) →
  is_Some (middle_loop rec s depth pats).
Proof.
  intros Hrec. induction pats as [|pat pats IH]; simpl; [done|].
  destruct (find_sub pat s) as [i|]; [|done].
  destruct (_ && _) eqn:Hc; [|done].
  apply andb_true_iff in Hc as [Hi1 Hi2].
  apply Nat.ltb_lt in Hi1. apply Nat.ltb_lt in Hi2.
  destruct (Hrec (take i s)) as [[] ->]; [rewrite length_take; lia| |done].
  destruct (Hrec (drop (i + length pat) s)) as [[] ->];
    [rewrite length_drop; lia|done|done].
Qed.

(** With non-empty start and end patterns every call is on a shorter string:
    [s.size() + 1] levels of nesting are enough. *)
Lemma spell_break_is_Some fuel s depth :
  Forall (λ pat, pat ≠ []) (start_word_breaks break_table) →
  Forall (λ pat, pat ≠ []) (end_word_breaks break_table) →
  length s < fuel → is_Some (spell_break fuel s depth).
Proof.
  intros Hstart Hend. revert s depth.
  induction fuel as [|fuel IH]; intros s depth Hfuel; [lia|].
  rewrite spell_break_S. destruct (check_whole s); [done|].
  destruct (depth =? 9); [done|].
  assert (Hrec : ∀ s' d, length s' < length s → is_Some (spell_break fuel s' d))
    by (intros; apply IH; lia).
  destruct (start_loop_is_Some _ s _ Hrec Hstart) as [[] ->]; [done|].
  destruct (end_loop_is_Some _ s _ Hrec Hend) as [[] ->]; [done|].
  apply middle_loop_is_Some. intros. by apply Hrec.
Qed.

(** What the guard [depth == 9] achieves for the middle patterns, which pass
    [depth + 1] on: without start and end patterns ten levels of nesting
    (depths 0 to 9) are enough for every word. *)
Lemma spell_break_middle_only_depth_9 fuel s depth :
  start_word_breaks break_table = [] →
  end_word_breaks break_table = [] →
  depth ≤ 9 → 9 - depth < fuel → is_Some (spell_break fuel s depth).
Proof.
  intros Hstart Hend. revert s depth.
  induction fuel as [|fuel IH]; intros s depth Hd Hfuel; [lia|].
  rewrite spell_break_S, Hstart, Hend. simpl. destruct (check_whole s); [done|].
  destruct (Nat.eqb_spec depth 9); [done|].
  apply middle_loop_is_Some. intros. apply IH; lia.
Qed.

(** *** More fuel gives the same answer *)

(** [rec'] answers what [rec] answers, wherever [rec] answers. *)
Definition extends (rec rec' : list Z → nat → option bool) : Prop :=
  ∀ s d r, rec s d = Some r → rec' s d = Some r.

Lemma start_loop_extends rec rec' s pats r :
  extends rec rec' →
  start_loop rec s pats = Some r → start_loop rec' s pats = Some r.
Proof.
  intros Hrec. induction pats as [|pat pats IH]; simpl; [done|].
  destruct (decide _); [|done].
  destruct (rec (drop (length pat) s) 0) as [b|] eqn:Hb; [|done].
  rewrite (Hrec _ _ _ Hb). by destruct b.
Qed.

Lemma end_loop_extends rec rec' s pats r :
  extends rec rec' →
  end_loop rec s pats = Some r → end_loop rec' s pats = Some r.
Proof.
  intros Hrec. induction pats as [|pat pats IH]; simpl; [done|].
  destruct (_ <? _); [done|]. destruct (decide _); [|done].
  destruct (rec (take (length s - length pat) s) 0) as [b|] eqn:Hb; [|done].
  rewrite (Hrec _ _ _ Hb). by destruct b.
Qed.

Lemma middle_loop_extends rec rec' s depth pats r :
  extends rec rec' →
  middle_loop rec s depth pats = Some r → middle_loop rec' s depth pats = Some r.
Proof.
  intros Hrec. induction pats as [|pat pats IH]; simpl; [done|].
  destruct (find_sub pat s) as [i|]; [|done]. destruct (_ && _); [|done].
  destruct (rec (take i s) (depth + 1)) as [b|] eqn:Hb; [|done].
  rewrite (Hrec _ _ _ Hb). destruct b; [|done].
  destruct (rec (drop (i + length pat) s) (depth + 1)) as [b|] eqn:Hb'; [|done].
  rewrite (Hrec _ _ _ Hb'). by destruct b.
Qed.

Lemma spell_break_extends fuel : extends (spell_break fuel) (spell_break (S fuel)).
Proof.
  induction fuel as [|fuel IH]; intros s depth r; [done|].
  rewrite (spell_break_S (S fuel)), (spell_break_S fuel).
  destruct (check_whole s); [done|]. destruct (depth =? 9); [done|].
  destruct (start_loop (spell_break fuel) _ _) as [b|] eqn:Hb; [|done].
  rewrite (start_loop_extends _ _ _ _ _ IH Hb). destruct b; [done|].
  destruct (end_loop (spell_break fuel) _ _) as [b|] eqn:Hb'; [|done].
  rewrite (end_loop_extends _ _ _ _ _ IH Hb'). destruct b; [done|].
  by apply middle_loop_extends.
Qed.

Lemma spell_break_more_fuel fuel fuel' s depth r :
  fuel ≤ fuel' →
  spell_break fuel s depth = Some r → spell_break fuel' s depth = Some r.
Proof.
  induction 1 as [|fuel' Hle IH]; [done|].
  intros H. by apply spell_break_extends, IH.
Qed.

End Spell_Break.

(** The groups of a table built by [order_entries] hold no empty pattern. *)
Lemma order_entries_groups v :
  let t := order_entries v in
  start_word_breaks t =
    map (erase_range 0 1)
      (List.filter (λ x, (front x =? ch_caret)%Z)
         (List.filter (λ s, negb ((length s =? 0) ||
            ((length s =? 1) && ((front s =? ch_caret)%Z || (front s =? ch_dollar)%Z)))) v)) ∧
  end_word_breaks t =
    map (λ e, take (length e - 1) e)
      (List.filter (λ x, (back x =? ch_dollar)%Z)
         (List.filter (λ x, negb (front x =? ch_caret)%Z)
            (List.filter (λ s, negb ((length s =? 0) ||
               ((length s =? 1) && ((front s =? ch_caret)%Z || (front s =? ch_dollar)%Z)))) v))).
Proof.
  unfold start_word_breaks, end_word_breaks, order_entries, slice_range. simpl.
  split.
  - by rewrite take_app_length.
  - rewrite drop_app_length.
    match goal with |- take ?n _ = _ => replace n with
      (length (map (λ e : list Z, take (length e - 1) e)
         (List.filter (λ x, (back x =? ch_dollar)%Z)
            (List.filter (λ x, negb (front x =? ch_caret)%Z)
               (List.filter (λ s, negb ((length s =? 0) ||
                  ((length s =? 1) && ((front s =? ch_caret)%Z || (front s =? ch_dollar)%Z)))) v)))))
      by lia end.
    by rewrite take_app_length.
Qed.

Lemma order_entries_nonempty v :
  Forall (λ pat, pat ≠ []) (start_word_breaks (order_entries v)) ∧
  Forall (λ pat, pat ≠ []) (end_word_breaks (order_entries v)).
Proof.
  destruct (order_entries_groups v) as [-> ->]. split.
  - apply Forall_map, Forall_forall. intros x Hx.
    apply list_elem_of_In, filter_In in Hx as [Hx Hstart].
    apply filter_In in Hx as [_ Hkeep].
    destruct x as [|c [|c' x]]; simpl in *; try done.
    unfold front in *. simpl in *. rewrite Hstart in Hkeep. done.
  - apply Forall_map, Forall_forall. intros x Hx.
    apply list_elem_of_In, filter_In in Hx as [Hx Hend].
    apply filter_In in Hx as [Hx Hnostart].
    apply filter_In in Hx as [_ Hkeep].
    destruct x as [|c [|c' x]]; simpl in *; try done.
    unfold front, back in *. simpl in *. rewrite Hend in Hkeep.
    by rewrite orb_true_r in Hkeep.
Qed.

(** [spell_break] terminates for every dictionary and every word: the nesting
    of its activations is bounded by the length of the word. *)
Lemma spell_break_terminates spell_casing forbiddenword_flag warn_flag forbid_warn v s depth :
  is_Some (spell_break spell_casing forbiddenword_flag warn_flag forbid_warn
             (order_entries v) (S (length s)) s depth).
Proof.
  destruct (order_entries_nonempty v). apply spell_break_is_Some; auto.
Qed.

(** The break patterns of a dictionary that declares none ([-], [^-], [-$]),
    a dictionary in which no run of hyphens is a word, and the word of twelve
    hyphens. *)
Definition hyphen : Z := 45.
Definition default_break_table : Break_Table :=
  order_entries [[hyphen]; [ch_caret; hyphen]; [hyphen; ch_dollar]].
Definition no_word (s : list Z) : option String_Set.String_Set := None.

(** C2, on that input. Ten nested activations (depths 0 to 9) do not bring
    [spell_break] to its answer: the calls for the start and end patterns
    start again at depth 0, and the nesting goes as deep as the word is
    long. With thirteen levels the answer is there. *)
Theorem spell_break_nests_beyond_depth_9 :
  start_word_breaks default_break_table = [[hyphen]] ∧
  end_word_breaks default_break_table = [[hyphen]] ∧
  middle_word_breaks default_break_table = [[hyphen]] ∧
  spell_break no_word 0 0 false default_break_table 10 (replicate 12 hyphen) 0 = None ∧
  spell_break no_word 0 0 false default_break_table 12 (replicate 12 hyphen) 0 = None ∧
  spell_break no_word 0 0 false default_break_table 13 (replicate 12 hyphen) 0 = Some false.
Proof. vm_compute. repeat split. Qed.

Lemma order_entries_middle v :
  middle_word_breaks (order_entries v) =
    List.filter (λ x, negb (back x =? ch_dollar)%Z)
      (List.filter (λ x, negb (front x =? ch_caret)%Z)
         (List.filter (λ s, negb ((length s =? 0) ||
            ((length s =? 1) && ((front s =? ch_caret)%Z || (front s =? ch_dollar)%Z)))) v)).
Proof.
  unfold middle_word_breaks, order_entries. simpl.
  rewrite <- length_app, app_assoc. by rewrite drop_app_length.
Qed.

Lemma back_app_singleton p c : back (p ++ [c]) = c.
Proof. unfold back. by rewrite last_snoc. Qed.

Lemma take_pop_back (x : list Z) :
  x ≠ [] → take (length x - 1) x ++ [back x] = x.
Proof.
  intros Hx. destruct (decide (x = [])) as [|_]; [done|].
  induction x as [|c x IH] using rev_ind; [done|].
  rewrite back_app_singleton, length_app. simpl.
  replace (length x + 1 - 1) with (length x) by lia.
  by rewrite take_app_length.
Qed.

(** X10. What [order_entries] makes of the break patterns of the affix
    file. A start pattern is what follows the [^] of an entry that begins
    with it, an end pattern is what precedes the [$] of an entry that ends
    with it and does not begin with [^], a middle pattern is an entry with
    neither mark; the empty entry and the entries [^] and [$] are dropped,
    so that no pattern of any group is empty. The three groups make up the
    table. *)
Theorem order_entries_groups_patterns (v : list (list Z)) :
  let t := order_entries v in
  table t = start_word_breaks t ++ end_word_breaks t ++ middle_word_breaks t ∧
  Forall (λ pat, pat ≠ []) (table t) ∧
  (∀ p, p ∈ start_word_breaks t ↔ (ch_caret :: p) ∈ v ∧ p ≠ []) ∧
  (∀ p, p ∈ end_word_breaks t ↔
        (p ++ [ch_dollar]) ∈ v ∧ p ≠ [] ∧ front p ≠ ch_caret) ∧
  (∀ p, p ∈ middle_word_breaks t ↔
        p ∈ v ∧ p ≠ [] ∧ front p ≠ ch_caret ∧ back p ≠ ch_dollar).
Proof.
  intros t.
  assert (Hstart : ∀ p, p ∈ start_word_breaks t ↔ (ch_caret :: p) ∈ v ∧ p ≠ []).
  { intros p. unfold t. destruct (order_entries_groups v) as [-> _].
    rewrite elem_of_map_list. split.
    - intros (x & <- & Hx).
      apply elem_of_filter_list in Hx as [Hx Hc].
      apply elem_of_filter_list in Hx as [Hx Hkeep].
      destruct x as [|c x]; [done|]. unfold front in *. simpl in *.
      apply Z.eqb_eq in Hc as ->. unfold erase_range. simpl. rewrite drop_0.
      split; [done|]. by destruct x.
    - intros [Hin Hp]. exists (ch_caret :: p). split.
      + unfold erase_range. simpl. by rewrite drop_0.
      + apply elem_of_filter_list. split; [|done].
        apply elem_of_filter_list. split; [done|]. by destruct p. }
  assert (Hend : ∀ p, p ∈ end_word_breaks t ↔
            (p ++ [ch_dollar]) ∈ v ∧ p ≠ [] ∧ front p ≠ ch_caret).
  { intros p. unfold t. destruct (order_entries_groups v) as [_ ->].
    rewrite elem_of_map_list. split.
    - intros (x & <- & Hx).
      apply elem_of_filter_list in Hx as [Hx Hd].
      apply elem_of_filter_list in Hx as [Hx Hc].
      apply elem_of_filter_list in Hx as [Hx Hkeep].
      apply Z.eqb_eq in Hd. apply negb_true_iff, Z.eqb_neq in Hc.
      assert (x ≠ []) as Hne by (by destruct x).
      rewrite <- Hd. rewrite take_pop_back by done. split; [done|].
      destruct x as [|c [|c' x]]; [done| |].
      + unfold front, back in *. simpl in *. rewrite Hd in Hkeep.
        by rewrite orb_true_r in Hkeep.
      + simpl. split; [done|]. done.
    - intros (Hin & Hp & Hc). exists (p ++ [ch_dollar]). split.
      + rewrite length_app. simpl.
        replace (length p + 1 - 1) with (length p) by lia.
        by rewrite take_app_length.
      + apply elem_of_filter_list. split; [|by rewrite back_app_singleton].
        apply elem_of_filter_list. split.
        * apply elem_of_filter_list. split; [done|].
          destruct p as [|c [|c' p]]; done.
        * apply negb_true_iff, Z.eqb_neq. by destruct p. }
  assert (Hmid : ∀ p, p ∈ middle_word_breaks t ↔
            p ∈ v ∧ p ≠ [] ∧ front p ≠ ch_caret ∧ back p ≠ ch_dollar).
  { intros p. unfold t. rewrite order_entries_middle.
    rewrite !elem_of_filter_list, !negb_true_iff, !Z.eqb_neq. split.
    - intros [[[Hin Hkeep] Hc] Hd]. split_and!; auto. by destruct p.
    - intros (Hin & Hp & Hc & Hd). split_and!; auto.
      destruct p as [|c [|c' p]]; [done| |done].
      unfold front, back in *. simpl in *.
      apply orb_false_iff. split; by apply Z.eqb_neq. }
  assert (Htable : table t = start_word_breaks t ++ end_word_breaks t ++ middle_word_breaks t).
  { unfold start_word_breaks, end_word_breaks, middle_word_breaks, slice_range.
    assert (Hle : start_word_breaks_last_idx t ≤ end_word_breaks_last_idx t)
      by (unfold t, order_entries; simpl; lia).
    rewrite <- (take_drop (start_word_breaks_last_idx t) (table t)) at 1. f_equal.
    rewrite <- (take_drop (end_word_breaks_last_idx t - start_word_breaks_last_idx t)
                  (drop (start_word_breaks_last_idx t) (table t))) at 1.
    f_equal. rewrite drop_drop. f_equal. lia. }
  split_and!; auto.
  rewrite Htable, !Forall_app, !Forall_forall. split_and!.
  - intros p Hp. by apply Hstart in Hp as [_ ?].
  - intros p Hp. by apply Hend in Hp as (_ & ? & _).
  - intros p Hp. by apply Hmid in Hp as (_ & ? & _).
Qed.

(** X11. [spell_break] terminates with one answer, for every dictionary and
    every word: the nesting of its activations is at most the length of the
    word plus one, since every recursive call is on a shorter string. *)
Theorem spell_break_has_one_answer
    (spell_casing : list Z → option String_Set.String_Set)
    (forbiddenword_flag warn_flag : Z) (forbid_warn : bool)
    (v : list (list Z)) (s : list Z) (depth : nat) :
  ∃ r, ∀ fuel, length s < fuel →
    spell_break spell_casing forbiddenword_flag warn_flag forbid_warn
      (order_entries v) fuel s depth = Some r.
Proof.
  destruct (spell_break_terminates spell_casing forbiddenword_flag warn_flag
              forbid_warn v s depth) as [r Hr].
  exists r. intros fuel Hfuel.
  eapply spell_break_more_fuel; [|exact Hr]. lia.
Qed.

(** X12. What the guard [depth == 9] achieves: in a dictionary with middle
    break patterns only, the nesting of [spell_break] never goes beyond
    depth 9, so that ten nested activations give the answer for every
    word, however long. *)
Theorem spell_break_middle_patterns_within_depth_9
    (spell_casing : list Z → option String_Set.String_Set)
    (forbiddenword_flag warn_flag : Z) (forbid_warn : bool)
    (break_table : Break_Table) (s : list Z) :
  start_word_breaks break_table = [] →
  end_word_breaks break_table = [] →
  ∃ r, ∀ fuel, 10 ≤ fuel →
    spell_break spell_casing forbiddenword_flag warn_flag forbid_warn
      break_table fuel s 0 = Some r.
Proof.
  intros Hstart Hend.
  destruct (spell_break_middle_only_depth_9 spell_casing forbiddenword_flag
              warn_flag forbid_warn break_table 10 s 0 Hstart Hend) as [r Hr];
    [lia|lia|].
  exists r. intros fuel Hfuel.
  eapply spell_break_more_fuel; [|exact Hr]. lia.
Qed.

Lemma spell_break_middle_patterns_within_depth_9_witness :
  start_word_breaks (order_entries [[hyphen]]) = [] ∧
  end_word_breaks (order_entries [[hyphen]]) = [] ∧
  ∃ r, ∀ fuel, 10 ≤ fuel →
    spell_break no_word 0 0 false (order_entries [[hyphen]]) fuel
      (replicate 40 hyphen) 0 = Some r.
Proof.
  split; [reflexivity|]. split; [reflexivity|].
  apply (spell_break_middle_patterns_within_depth_9 no_word 0 0 false
           (order_entries [[hyphen]]) (replicate 40 hyphen)); reflexivity.
Defined.

End Spell_Break.

(** ** The public entry points: [Dictionary::spell] and [Dictionary::suggest] *)

Module Dictionary.

(** A call of one of the two engines behind the public API. *)
Inductive engine_call :=
| Spell_priv (wide_word : list Z)
| Suggest_priv (wide_word : list Z).

(** The [static thread_local] buffers of the two functions, and a record of
    the engine calls made so far (the record is not in the source; it is
    there to state which calls a run makes). *)
Record thread_state := mk_state {
  spell_wide_word : list Z;
  suggest_wide_word : list Z;
  wide_list : list (list Z);
  engine_calls : list engine_call
}.

Section Dictionary.
(** [external_to_internal_encoding(in, wide_out)], on the old contents of
    [wide_out]: the success flag and the new contents. Its two branches,
    [utf8_to_wide] and [to_wide], are not part of these sources. *)
Variable external_to_internal_encoding : list Byte.byte → list Z → bool * list Z.
(** [internal_to_external_encoding(wide_in, out)] on an empty [out]. *)
Variable internal_to_external_encoding : list Z → bool * list Byte.byte.
(** [Dict_Base::spell_priv(s)]: the verdict and what is left in [s]. *)
Variable spell_priv : list Z → bool * list Z.
(** [Dict_Base::suggest_priv(word, out)] on an empty [out]: what is left in
    [word], and the list. *)
Variable suggest_priv : list Z → list Z * list (list Z).

(** [Dictionary::spell] *)
Definition spell (word : list Byte.byte) (st : thread_state) : bool * thread_state :=
  let enc := external_to_internal_encoding word (spell_wide_word st) in
  let ok_enc := enc.1 in
  let wide_word := enc.2 in
  if 180 <? length wide_word then
    (false, mk_state (take 180 wide_word) (suggest_wide_word st) (wide_list st)
              (engine_calls st))
  else if negb ok_enc then
    (false, mk_state wide_word (suggest_wide_word st) (wide_list st)
              (engine_calls st))
  else
    let r := spell_priv wide_word in
    (r.1, mk_state r.2 (suggest_wide_word st) (wide_list st)
            (engine_calls st ++ [Spell_priv wide_word])).

(** [Dictionary::suggest]; the first component is [out] after the call. *)
Definition suggest (word : list Byte.byte) (out : list (list Byte.byte))
    (st : thread_state) : list (list Byte.byte) * thread_state :=
  let enc := external_to_internal_encoding word (suggest_wide_word st) in
  let ok_enc := enc.1 in
  let wide_word := enc.2 in
  if 180 <? length wide_word then
    (out, mk_state (spell_wide_word st) (take 180 wide_word) (wide_list st)
            (engine_calls st))
  else if negb ok_enc then
    (out, mk_state (spell_wide_word st) wide_word (wide_list st)
            (engine_calls st))
  else
    let r := suggest_priv wide_word in
    (map (λ w, (internal_to_external_encoding w).2) r.2,
     mk_state (spell_wide_word st) r.1 r.2
       (engine_calls st ++ [Suggest_priv wide_word])).

(** C1. When the wide form of the input is longer than 180 code units,
    [spell] answers [false] and [suggest] leaves [out] as it got it (empty
    when it was empty), and neither calls its engine. When the wide form has
    exactly 180 code units the input takes the ordinary path: a conversion
    error gives [false] and an untouched [out], and otherwise the answer is
    the one of the engine, which is called once on the 180 code units. *)
Theorem length_cap_180 (word : list Byte.byte) (out : list (list Byte.byte))
    (st : thread_state) :
  (180 < length (external_to_internal_encoding word (spell_wide_word st)).2 →
     (spell word st).1 = false ∧
     engine_calls (spell word st).2 = engine_calls st) ∧
  (180 < length (external_to_internal_encoding word (suggest_wide_word st)).2 →
     (suggest word out st).1 = out ∧
     (out = [] → (suggest word out st).1 = []) ∧
     engine_calls (suggest word out st).2 = engine_calls st) ∧
  (length (external_to_internal_encoding word (spell_wide_word st)).2 = 180 →
     let enc := external_to_internal_encoding word (spell_wide_word st) in
     (spell word st).1 = (if enc.1 then (spell_priv enc.2).1 else false) ∧
     engine_calls (spell word st).2 =
       engine_calls st ++ (if enc.1 then [Spell_priv enc.2] else [])) ∧
  (length (external_to_internal_encoding word (suggest_wide_word st)).2 = 180 →
     let enc := external_to_internal_encoding word (suggest_wide_word st) in
     (suggest word out st).1 =
       (if enc.1
        then map (λ w, (internal_to_external_encoding w).2) (suggest_priv enc.2).2
        else out) ∧
     engine_calls (suggest word out st).2 =
       engine_calls st ++ (if enc.1 then [Suggest_priv enc.2] else [])).
Proof.
  unfold spell, suggest. split_and!.
  - intros Hlen. apply Nat.ltb_lt in Hlen. by rewrite Hlen.
  - intros Hlen. apply Nat.ltb_lt in Hlen. rewrite Hlen. simpl.
    by split_and!.
  - intros Hlen. simpl. rewrite Hlen. simpl.
    destruct (external_to_internal_encoding word (spell_wide_word st)).1; simpl.
    + done.
    + by rewrite app_nil_r.
  - intros Hlen. simpl. rewrite Hlen. simpl.
    destruct (external_to_internal_encoding word (suggest_wide_word st)).1; simpl.
    + done.
    + by rewrite app_nil_r.
Qed.

End Dictionary.

(** An instance to run: every byte is one code unit, the engine accepts
    every word and suggests the word itself. *)
Definition example_decode (word : list Byte.byte) (_ : list Z) : bool * list Z :=
  (true, map (λ b, Z.of_N (Strings.Byte.to_N b)) word).
Definition example_encode (w : list Z) : bool * list Byte.byte :=
  (true, map (λ c, default Byte.x00 (Strings.Byte.of_N (Z.to_N c))) w).
Definition example_spell_priv (w : list Z) : bool * list Z := (true, w).
Definition example_suggest_priv (w : list Z) : list Z * list (list Z) := (w, [w]).
Definition example_state : thread_state := mk_state [] [] [] [].

Lemma length_cap_180_witness :
  (180 < length (example_decode (replicate 181 Byte.x61) []).2 ∧
   (spell example_decode example_spell_priv (replicate 181 Byte.x61) example_state).1
     = false ∧
   engine_calls
     (spell example_decode example_spell_priv (replicate 181 Byte.x61) example_state).2
     = []) ∧
  ((suggest example_decode example_encode example_suggest_priv
      (replicate 181 Byte.x61) [] example_state).1 = [] ∧
   engine_calls
     (suggest example_decode example_encode example_suggest_priv
        (replicate 181 Byte.x61) [] example_state).2 = []) ∧
  (length (example_decode (replicate 180 Byte.x61) []).2 = 180 ∧
   (spell example_decode example_spell_priv (replicate 180 Byte.x61) example_state).1
     = true ∧
   engine_calls
     (spell example_decode example_spell_priv (replicate 180 Byte.x61) example_state).2
     = [Spell_priv (replicate 180 97%Z)]) ∧
  ((suggest example_decode example_encode example_suggest_priv
      (replicate 180 Byte.x61) [] example_state).1 = [replicate 180 Byte.x61] ∧
   engine_calls
     (suggest example_decode example_encode example_suggest_priv
        (replicate 180 Byte.x61) [] example_state).2
     = [Suggest_priv (replicate 180 97%Z)]).
Proof.
  assert (H181 : 180 < length (example_decode (replicate 181 Byte.x61) []).2)
    by (vm_compute; lia).
  assert (H180 : length (example_decode (replicate 180 Byte.x61) []).2 = 180)
    by (vm_compute; reflexivity).
  pose proof (length_cap_180 example_decode example_encode example_spell_priv
                example_suggest_priv (replicate 181 Byte.x61) [] example_state)
    as (Hs & Hg & _ & _).
  pose proof (length_cap_180 example_decode example_encode example_spell_priv
                example_suggest_priv (replicate 180 Byte.x61) [] example_state)
    as (_ & _ & Hs' & Hg').
  destruct (Hs H181) as [Hs1 Hs2]. destruct (Hg H181) as (Hg1 & _ & Hg2).
  destruct (Hs' H180) as [Hs1' Hs2']. destruct (Hg' H180) as [Hg1' Hg2'].
  exact (conj (conj H181 (conj Hs1 Hs2))
          (conj (conj Hg1 Hg2)
             (conj (conj H180 (conj Hs1' Hs2')) (conj Hg1' Hg2')))).
Defined.

End Dictionary.

(** ** The affix index: [Prefix_Multiset<T, Key_Extr, Key_Transform>] of
       structures.hxx *)

Module Prefix_Multiset.
Import Std.

(** [operator<] of two keys: [std::lexicographical_compare] with
    [traits_type::lt], for strings and for [Reversed_String_View] alike. *)
Fixpoint lex_lt (a b : list Z) : bool :=
  match a, b with
  | _, [] => false
  | [], _ :: _ => true
  | x :: a', y :: b' =>
      if (x <? y)%Z then true
      else if (y <? x)%Z then false
      else lex_lt a' b'
  end.

(** [key[i]]; one past the end a string holds its terminating zero. *)
Definition char_at (k : list Z) (i : nat) : Z := default 0%Z (k !! i).

Section Prefix_Multiset.
Context {T : Type}.
(** [Key_Extr] and [Key_Transform]: the identity for the prefix index,
    [String_Reverser] for the suffix index. *)
Variable extract_key : T → list Z.
Variable transform_key : list Z → list Z.

Definition key_of (x : T) : list Z := transform_key (extract_key x).

(** The comparator of [std::sort] in [sort()], as "does not come after". *)
Definition key_le (a b : T) : Prop := lex_lt (key_of b) (key_of a) = false.

Global Instance key_le_dec a b : Decision (key_le a b).
Proof. unfold key_le. apply _. Defined.

Record Prefix_Multiset := mk {
  table : list T;
  first_letter : list Z;
  prefix_idx_with_first_letter : list nat
}.

(** The transformed key of [table[i]]. *)
Definition key_at (table : list T) (i : nat) : list Z :=
  match table !! i with
  | Some x => key_of x
  | None => []
  end.

(** [std::upper_bound(it, last, c, Comparator{i, ...})] and
    [std::lower_bound] with the same comparator: binary searches on the
    [i]-th character of the keys. [std::equal_range] is the pair of them. *)
Definition upper_bound (table : list T) (i : nat) (c : Z) (it last : nat) : nat :=
  partition_point (λ m, negb (c <? char_at (key_at table m) i)%Z) it last.

Definition lower_bound (table : list T) (i : nat) (c : Z) (it last : nat) : nat :=
  partition_point (λ m, (char_at (key_at table m) i <? c)%Z) it last.

Definition equal_range (table : list T) (i : nat) (c : Z) (it last : nat) : nat * nat :=
  (lower_bound table i c it last, upper_bound table i c it last).

(** The [while] loop of [sort()] that fills [first_letter] and
    [prefix_idx_with_first_letter]. *)
Fixpoint index_loop (fuel : nat) (table : list T) (it last : nat)
    (first_letter : list Z) (prefix_idx : list nat) : list Z * list nat :=
  match fuel with
  | 0 => (first_letter, prefix_idx)
  | S fuel' =>
      if it =? last then (first_letter, prefix_idx)
      else
        let k1 := key_at table it in
        index_loop fuel' table (upper_bound table 0 (char_at k1 0) it last) last
          (first_letter ++ [char_at k1 0]) (prefix_idx ++ [it])
  end.

(** [std::find_if_not(first, last, key is empty)] *)
Definition first_non_empty (table : list T) : nat :=
  default (length table)
    (find_index (λ x, negb (length (key_of x) =? 0)) table).

(** [sort()], on the vector the set was given. [std::sort] leaves the order
    of entries with equal keys open; the stable merge sort stands for it, and
    the lemmas below use of the table only that it is sorted. *)
Definition index_of (table : list T) : Prefix_Multiset :=
  let last := length table in
  let r := index_loop (length table) table (first_non_empty table) last [] [] in
  mk table r.1 (if length r.2 =? 0 then r.2 else r.2 ++ [last]).

Definition sort (v : list T) : Prefix_Multiset :=
  index_of (merge_sort key_le v).

(** [Iter_Prefixes_Of]: the iterators [it] and [last] as indices into the
    table; [set] and [search_key] are arguments of the functions below. *)
Record Iter_Prefixes_Of := mk_iter {
  it : nat;
  last : nat;
  len : nat;
  valid : bool
}.

Definition invalidate (st : Iter_Prefixes_Of) : Iter_Prefixes_Of :=
  mk_iter (it st) (last st) (len st) false.

(** The [for (;; ++len)] loop of [advance()]. [None] is fuel that ran out;
    [advance_is_Some] shows that it does not. *)
Fixpoint advance_loop (fuel : nat) (set : Prefix_Multiset) (key : list Z)
    (st : Iter_Prefixes_Of) : option Iter_Prefixes_Of :=
  match fuel with
  | 0 => None
  | S fuel' =>
      if negb (it st =? last st) then
        if length (key_at (table set) (it st)) =? len st then Some st
        else if len st =? length key then Some (invalidate st)
        else
          let r := equal_range (table set) (len st) (char_at key (len st))
                     (it st) (last st) in
          advance_loop fuel' set key (mk_iter r.1 r.2 (len st + 1) (valid st))
      else Some (invalidate st)
  end.

(** [Iter_Prefixes_Of::advance()]; [key] is the search key after
    [transform_key]. *)
Definition advance (set : Prefix_Multiset) (key : list Z)
    (st : Iter_Prefixes_Of) : option Iter_Prefixes_Of :=
  if len st =? 0 then
    if negb (it st =? last st) then
      if length (key_at (table set) (it st)) =? 0 then Some st
      else if length key =? 0 then Some (invalidate st)
      else
        match find_char (char_at key 0) (first_letter set) with
        | None => Some (invalidate st)
        | Some idx =>
            advance_loop (S (length key)) set key
              (mk_iter (default 0 (prefix_idx_with_first_letter set !! idx))
                 (default 0 (prefix_idx_with_first_letter set !! (idx + 1)))
                 (len st + 1) (valid st))
        end
    else Some (invalidate st)
  else advance_loop (S (length key)) set key st.

(** The constructor [Iter_Prefixes_Of(set, word)] and [operator++]. *)
Definition iter_begin (set : Prefix_Multiset) (key : list Z) : option Iter_Prefixes_Of :=
  advance set key (mk_iter 0 (length (table set)) 0 true).

Definition iter_next (set : Prefix_Multiset) (key : list Z)
    (st : Iter_Prefixes_Of) : option Iter_Prefixes_Of :=
  advance set key (mk_iter (it st + 1) (last st) (len st) (valid st)).

(** [for (auto i = set.iterate_prefixes_of(word); i; ++i)], collecting [*i]. *)
Fixpoint collect (fuel : nat) (set : Prefix_Multiset) (key : list Z)
    (st : Iter_Prefixes_Of) : option (list T) :=
  match fuel with
  | 0 => None
  | S fuel' =>
      if valid st then
        match table set !! it st, iter_next set key st with
        | Some x, Some st' => (x ::.) <$> collect fuel' set key st'
        | _, _ => None
        end
      else Some []
  end.

Definition iterate_prefixes_of (set : Prefix_Multiset) (word : list Z) : option (list T) :=
  match iter_begin set (transform_key word) with
  | Some st => collect (S (length (table set))) set (transform_key word) st
  | None => None
  end.

(** [for_each_prefixes_of(word, func)], giving the entries that [func] is
    called with, in the order of the calls. First the loop over the entries
    with the empty key. *)
Fixpoint empty_keys_loop (fuel : nat) (table : list T) (it : nat)
    (called : list T) : option (nat * list T) :=
  match fuel with
  | 0 => None
  | S fuel' =>
      match table !! it with
      | None => Some (it, called)
      | Some x =>
          if length (key_of x) =? 0
          then empty_keys_loop fuel' table (it + 1) (called ++ [x])
          else Some (it, called)
      end
  end.

(** The inner loop, over the entries of the range whose key has the size
    [len]. *)
Fixpoint same_size_loop (fuel : nat) (table : list T) (it last len : nat)
    (called : list T) : option (nat * list T) :=
  match fuel with
  | 0 => None
  | S fuel' =>
      if it =? last then Some (it, called)
      else
        match table !! it with
        | None => None
        | Some x =>
            if length (key_of x) =? len
            then same_size_loop fuel' table (it + 1) last len (called ++ [x])
            else Some (it, called)
        end
  end.

(** The loop [for (size_t len = 1;; ++len)]. *)
Fixpoint sizes_loop (fuel : nat) (table : list T) (key : list Z)
    (first last len : nat) (called : list T) : option (list T) :=
  match fuel with
  | 0 => None
  | S fuel' =>
      match same_size_loop (S (last - first)) table first last len called with
      | None => None
      | Some (it, called) =>
          if it =? last then Some called
          else if len =? length key then Some called
          else
            let r := equal_range table len (char_at key len) it last in
            sizes_loop fuel' table key r.1 r.2 (len + 1) called
      end
  end.

Definition for_each_prefixes_of (set : Prefix_Multiset) (word : list Z) :
    option (list T) :=
  let key := transform_key word in
  match empty_keys_loop (S (length (table set))) (table set) 0 [] with
  | None => None
  | Some (it, called) =>
      if it =? length (table set) then Some called
      else if length key =? 0 then Some called
      else
        match find_char (char_at key 0) (first_letter set) with
        | None => Some called
        | Some idx =>
            sizes_loop (S (length key)) (table set) key
              (default 0 (prefix_idx_with_first_letter set !! idx))
              (default 0 (prefix_idx_with_first_letter set !! (idx + 1)))
              1 called
        end
  end.

(** *** The order of the keys *)

Lemma lex_lt_irrefl a : lex_lt a a = false.
Proof. induction a as [|x a IH]; simpl; [done|]. by rewrite Z.ltb_irrefl. Qed.

Lemma lex_lt_asym a b : lex_lt a b = true → lex_lt b a = false.
Proof.
  revert b. induction a as [|x a IH]; intros [|y b]; simpl; try done.
  destruct (Z.ltb_spec x y), (Z.ltb_spec y x); try done; try lia. apply IH.
Qed.

Lemma lex_le_trans a b c :
  lex_lt b a = false → lex_lt c b = false → lex_lt c a = false.
Proof.
  revert b c. induction a as [|x a IH]; intros [|y b] [|z c]; simpl; try done.
  destruct (Z.ltb_spec y x), (Z.ltb_spec x y), (Z.ltb_spec z y),
    (Z.ltb_spec y z), (Z.ltb_spec z x), (Z.ltb_spec x z);
    try done; try lia.
  apply IH.
Qed.

Lemma lex_lt_app p a b : lex_lt (p ++ a) (p ++ b) = lex_lt a b.
Proof. induction p as [|x p IH]; simpl; [done|]. by rewrite Z.ltb_irrefl. Qed.

Lemma char_at_drop k L x r : drop L k = x :: r → char_at k L = x ∧ L < length k.
Proof.
  intros Hd. destruct (drop_S_tail _ _ _ _ Hd) as (_ & Hx & Hlt).
  unfold char_at. by rewrite Hx.
Qed.

(** Two keys that agree on their first [L] characters, the second not before
    the first: if the first goes on, so does the second, with a character
    that is not smaller. *)
Lemma column_order ka kb L :
  lex_lt kb ka = false → take L ka = take L kb → L < length ka →
  L < length kb ∧ (char_at ka L ≤ char_at kb L)%Z.
Proof.
  intros Hle Htake Hlen.
  rewrite <- (take_drop L ka), <- (take_drop L kb), Htake, lex_lt_app in Hle.
  destruct (drop L ka) as [|x ra] eqn:Ha.
  { apply (f_equal length) in Ha. rewrite length_drop in Ha. simpl in Ha. lia. }
  destruct (drop L kb) as [|y rb] eqn:Hb; [done|].
  destruct (char_at_drop _ _ _ _ Ha) as [-> _].
  destruct (char_at_drop _ _ _ _ Hb) as [-> ?].
  split; [done|]. simpl in Hle.
  destruct (Z.ltb_spec y x); [done|lia].
Qed.

(** *** Sorted tables *)

Global Instance key_le_trans : Transitive key_le.
Proof. intros x y z Hxy Hyz. unfold key_le in *. by eapply lex_le_trans. Qed.

Global Instance key_le_total : Total key_le.
Proof.
  intros x y. unfold key_le.
  destruct (lex_lt (key_of y) (key_of x)) eqn:Hlt; [right|by left].
  by apply lex_lt_asym.
Qed.

Definition sorted_table (tb : list T) : Prop := StronglySorted key_le tb.

Lemma sorted_merge_sort v : sorted_table (merge_sort key_le v).
Proof. apply StronglySorted_merge_sort; apply _. Qed.

Lemma sorted_lookup tb a b x y :
  sorted_table tb → a < b → tb !! a = Some x → tb !! b = Some y → key_le x y.
Proof.
  intros Hs. revert a b. induction Hs as [|z tb Hs IH Hz]; intros a b Hab Ha Hb;
    [done|].
  destruct b as [|b]; [lia|]. destruct a as [|a]; simpl in *.
  - injection Ha as ->. rewrite Forall_lookup in Hz. by apply (Hz b).
  - apply (IH a b); auto. lia.
Qed.

Lemma key_at_Some tb i x : tb !! i = Some x → key_at tb i = key_of x.
Proof. unfold key_at. by intros ->. Qed.

Lemma sorted_key_at tb a b :
  sorted_table tb → a ≤ b → b < length tb →
  lex_lt (key_at tb b) (key_at tb a) = false.
Proof.
  intros Hs Hab Hb. destruct (decide (a = b)) as [->|Hne].
  { apply lex_lt_irrefl. }
  destruct (lookup_lt_is_Some_2 tb a) as [x Hx]; [lia|].
  destruct (lookup_lt_is_Some_2 tb b) as [y Hy]; [lia|].
  rewrite (key_at_Some _ _ _ Hx), (key_at_Some _ _ _ Hy).
  apply (sorted_lookup tb a b x y); auto. lia.
Qed.

(** *** Ranges of entries that agree with the search key *)

(** [k] and the search key [w] agree on their first [L] characters. *)
Definition shares (L : nat) (w k : list Z) : Prop :=
  take L k = take L w ∧ L ≤ length k ∧ L ≤ length w.

Definition range_ok (tb : list T) (w : list Z) (L i j : nat) : Prop :=
  i ≤ j ∧ j ≤ length tb ∧
  ∀ m, i ≤ m → m < j → shares L w (key_at tb m).

Lemma range_column tb w L i j a b :
  sorted_table tb → range_ok tb w L i j →
  i ≤ a → a ≤ b → b < j → L < length (key_at tb a) →
  L < length (key_at tb b) ∧
  (char_at (key_at tb a) L ≤ char_at (key_at tb b) L)%Z.
Proof.
  intros Hs (Hij & Hj & Hr) Hia Hab Hbj Hlen.
  apply column_order; [|..|done].
  - apply sorted_key_at; auto. lia.
  - destruct (Hr a) as [-> _]; [lia..|]. by destruct (Hr b) as [-> _]; [lia..|].
Qed.

Lemma shares_S L w k :
  shares L w k → L < length k → L < length w → char_at k L = char_at w L →
  shares (S L) w k.
Proof.
  intros (Ht & _ & _) Hk Hw Hc. split; [|lia].
  destruct (lookup_lt_is_Some_2 k L Hk) as [x Hx].
  destruct (lookup_lt_is_Some_2 w L Hw) as [y Hy].
  unfold char_at in Hc. rewrite Hx, Hy in Hc. simpl in Hc. subst y.
  by rewrite (take_S_r k L x Hx), (take_S_r w L x Hy), Ht.
Qed.

Lemma shares_prefix L w k : shares L w k → length k = L → k `prefix_of` w.
Proof.
  intros (Ht & _ & _) Hk. rewrite <- (take_ge k L) by lia. rewrite Ht.
  apply prefix_take.
Qed.

Lemma prefix_char_at k w L :
  k `prefix_of` w → L < length k → char_at k L = char_at w L.
Proof.
  intros Hp HL. unfold char_at. by rewrite (prefix_lookup_lt k w L HL Hp).
Qed.

(** The entries of the range [i, j) whose key is a prefix of [w]. *)
Definition is_match (w : list Z) (x : T) : bool :=
  bool_decide (key_of x `prefix_of` w).

Definition matches (tb : list T) (w : list Z) (i j : nat) : list T :=
  List.filter (is_match w) (slice_range i j tb).

Lemma slice_range_split {A} (l : list A) i m j :
  i ≤ m → m ≤ j → slice_range i j l = slice_range i m l ++ slice_range m j l.
Proof.
  intros Him Hmj. unfold slice_range.
  replace (j - i) with ((m - i) + (j - m)) by lia.
  rewrite <- take_take_drop. f_equal. rewrite drop_drop. do 2 f_equal. lia.
Qed.

Lemma slice_range_cons {A} (l : list A) i j x :
  l !! i = Some x → i < j → slice_range i j l = x :: slice_range (S i) j l.
Proof.
  intros Hx Hij. unfold slice_range. rewrite (drop_S l x i Hx).
  replace (j - i) with (S (j - S i)) by lia. done.
Qed.

Lemma slice_range_lookup {A} (l : list A) i j k x :
  slice_range i j l !! k = Some x → l !! (i + k) = Some x ∧ i + k < j.
Proof.
  unfold slice_range. intros Hk.
  pose proof (lookup_lt_Some _ _ _ Hk) as Hlt. rewrite length_take in Hlt.
  rewrite lookup_take_lt, lookup_drop in Hk by lia. split; [done|lia].
Qed.

Lemma slice_range_all {A} (l : list A) : slice_range 0 (length l) l = l.
Proof. unfold slice_range. rewrite drop_0, Nat.sub_0_r. apply take_ge. lia. Qed.

Lemma matches_split tb w i m j :
  i ≤ m → m ≤ j → matches tb w i j = matches tb w i m ++ matches tb w m j.
Proof.
  intros. unfold matches. by rewrite (slice_range_split tb i m j), List.filter_app.
Qed.

Lemma matches_none tb w i j :
  (∀ m, i ≤ m → m < j → ¬ key_at tb m `prefix_of` w) → matches tb w i j = [].
Proof.
  intros Hno. unfold matches.
  assert (Forall (λ x, is_match w x = false) (slice_range i j tb)) as Hall.
  { apply Forall_lookup. intros k x Hk.
    apply slice_range_lookup in Hk as [Hx Hlt].
    apply bool_decide_eq_false. rewrite <- (key_at_Some _ _ _ Hx).
    apply Hno; lia. }
  induction Hall as [|x l Hx Hl IH]; simpl; [done|]. by rewrite Hx.
Qed.

Lemma matches_cons tb w i j x :
  tb !! i = Some x → i < j → key_of x `prefix_of` w →
  matches tb w i j = x :: matches tb w (S i) j.
Proof.
  intros Hx Hij Hp. unfold matches. rewrite (slice_range_cons tb i j x Hx Hij).
  simpl. unfold is_match at 1. by rewrite (bool_decide_eq_true_2 _ Hp).
Qed.

Lemma matches_empty_range tb w i : matches tb w i i = [].
Proof. apply matches_none. intros. lia. Qed.

(** [std::equal_range] on the character at position [L] narrows a range to
    the entries that agree with [w] on one character more, and what it drops
    is no prefix of [w]. *)
Lemma equal_range_spec tb w L i j :
  sorted_table tb → range_ok tb w L i j → i < j →
  L < length (key_at tb i) → L < length w →
  let r := equal_range tb L (char_at w L) i j in
  i ≤ r.1 ∧ r.2 ≤ j ∧ range_ok tb w (S L) r.1 r.2 ∧
  matches tb w i j = matches tb w r.1 r.2.
Proof.
  intros Hs Hr Hij Hfirst Hw. pose proof Hr as (_ & Hj & Hsh).
  assert (Hcol : ∀ a b, i ≤ a → a ≤ b → b < j →
            L < length (key_at tb b) ∧
            (char_at (key_at tb a) L ≤ char_at (key_at tb b) L)%Z).
  { intros a b Ha Hab Hb.
    destruct (range_column tb w L i j i a Hs Hr) as [Hla _]; [lia..|done|].
    apply (range_column tb w L i j a b Hs Hr); auto. }
  unfold equal_range, lower_bound, upper_bound. simpl.
  destruct (partition_point_spec (λ m, (char_at (key_at tb m) L <? char_at w L)%Z) i j)
    as (Hlo & Hlo1 & Hlo2); [lia| |].
  { intros a b Ha Hab Hb Hp. apply Z.ltb_lt in Hp. apply Z.ltb_lt.
    destruct (Hcol a b) as [_ ?]; auto. lia. }
  destruct (partition_point_spec
              (λ m, negb (char_at w L <? char_at (key_at tb m) L)%Z) i j)
    as (Hhi & Hhi1 & Hhi2); [lia| |].
  { intros a b Ha Hab Hb Hp. apply negb_true_iff, Z.ltb_ge in Hp.
    apply negb_true_iff, Z.ltb_ge.
    destruct (Hcol a b) as [_ ?]; auto. lia. }
  set (lo := partition_point _ i j) in *.
  set (hi := partition_point (λ m, negb _) i j) in *.
  assert (Hlt_lo : ∀ m, i ≤ m → m < lo → (char_at (key_at tb m) L < char_at w L)%Z)
    by (intros m ? ?; apply Z.ltb_lt, Hlo1; lia).
  assert (Hge_lo : ∀ m, lo ≤ m → m < j → (char_at w L ≤ char_at (key_at tb m) L)%Z)
    by (intros m ? ?; apply Z.ltb_ge, Hlo2; lia).
  assert (Hle_hi : ∀ m, i ≤ m → m < hi → (char_at (key_at tb m) L ≤ char_at w L)%Z)
    by (intros m ? ?; apply Z.ltb_ge, negb_true_iff, Hhi1; lia).
  assert (Hgt_hi : ∀ m, hi ≤ m → m < j → (char_at w L < char_at (key_at tb m) L)%Z)
    by (intros m ? ?; apply Z.ltb_lt, negb_false_iff, Hhi2; lia).
  assert (Hlohi : lo ≤ hi).
  { destruct (decide (lo ≤ hi)); [done|]. exfalso.
    specialize (Hlt_lo hi). specialize (Hgt_hi hi). lia. }
  assert (Hdrop : ∀ m, i ≤ m → m < j → ¬ (lo ≤ m ∧ m < hi) →
            ¬ key_at tb m `prefix_of` w).
  { intros m Hm1 Hm2 Hout Hp.
    destruct (Hcol i m) as [Hlen _]; [lia..|].
    pose proof (prefix_char_at _ _ L Hp Hlen) as Heq.
    destruct (decide (m < lo)).
    - specialize (Hlt_lo m). lia.
    - specialize (Hgt_hi m). lia. }
  split_and!; [lia|lia| |].
  - split_and!; [done|lia|]. intros m Hm1 Hm2.
    destruct (Hcol i m) as [Hlen _]; [lia..|].
    apply shares_S; [apply Hsh; lia|done|done|].
    specialize (Hge_lo m). specialize (Hle_hi m). lia.
  - rewrite (matches_split tb w i lo j), (matches_split tb w lo hi j) by lia.
    rewrite (matches_none tb w i lo), (matches_none tb w hi j).
    + by rewrite app_nil_r.
    + intros m ? ?. apply Hdrop; lia.
    + intros m ? ?. apply Hdrop; lia.
Qed.

(** *** The index of first letters *)

Lemma head_char_at (k : list Z) : k ≠ [] → head k = Some (char_at k 0).
Proof. by destruct k. Qed.

Lemma head_Some_char_at (k : list Z) c : head k = Some c → char_at k 0 = c ∧ k ≠ [].
Proof. destruct k; [done|]. by intros [= ->]. Qed.

Lemma key_at_beyond tb m : length tb ≤ m → key_at tb m = [].
Proof. intros Hm. unfold key_at. by rewrite lookup_ge_None_2. Qed.

Lemma sorted_nonempty_after tb i m :
  sorted_table tb → i ≤ m → m < length tb →
  key_at tb i ≠ [] → key_at tb m ≠ [].
Proof.
  intros Hs Him Hm Hi Hnil.
  pose proof (sorted_key_at tb i m Hs Him Hm) as Hle. rewrite Hnil in Hle.
  destruct (key_at tb i); done.
Qed.

(** The entries with the first letter [c] are those at the indices [a]
    up to [b]. *)
Definition bucket (tb : list T) (c : Z) (a b : nat) : Prop :=
  a < b ∧ b ≤ length tb ∧
  ∀ m, m < length tb → (a ≤ m ∧ m < b) ↔ head (key_at tb m) = Some c.

Definition index_ok (tb : list T) (fl : list Z) (pidx : list nat) : Prop :=
  (∀ idx c, fl !! idx = Some c →
     ∃ a b, pidx !! idx = Some a ∧ pidx !! (idx + 1) = Some b ∧ bucket tb c a b) ∧
  (∀ m c, head (key_at tb m) = Some c → c ∈ fl).

Lemma index_loop_spec fuel tb it fl pidx :
  sorted_table tb → it ≤ length tb → length tb - it ≤ fuel →
  length pidx = length fl →
  (∀ m, it ≤ m → m < length tb → key_at tb m ≠ []) →
  (∀ idx c, fl !! idx = Some c →
     ∃ a b, pidx !! idx = Some a ∧ (pidx ++ [it]) !! (idx + 1) = Some b ∧
            bucket tb c a b) →
  (∀ m c, m < it → head (key_at tb m) = Some c → c ∈ fl) →
  (∀ c m, c ∈ fl → it ≤ m → m < length tb → (c < char_at (key_at tb m) 0)%Z) →
  let r := index_loop fuel tb it (length tb) fl pidx in
  length r.2 = length r.1 ∧
  (∀ idx c, r.1 !! idx = Some c →
     ∃ a b, r.2 !! idx = Some a ∧ (r.2 ++ [length tb]) !! (idx + 1) = Some b ∧
            bucket tb c a b) ∧
  (∀ m c, head (key_at tb m) = Some c → c ∈ r.1).
Proof.
  intros Hs. revert it fl pidx.
  assert (Hdone : ∀ fl pidx,
    length pidx = length fl →
    (∀ idx c, fl !! idx = Some c →
       ∃ a b, pidx !! idx = Some a ∧ (pidx ++ [length tb]) !! (idx + 1) = Some b ∧
              bucket tb c a b) →
    (∀ m c, m < length tb → head (key_at tb m) = Some c → c ∈ fl) →
    length pidx = length fl ∧
    (∀ idx c, fl !! idx = Some c →
       ∃ a b, pidx !! idx = Some a ∧ (pidx ++ [length tb]) !! (idx + 1) = Some b ∧
              bucket tb c a b) ∧
    (∀ m c, head (key_at tb m) = Some c → c ∈ fl)).
  { intros fl pidx Hlen Hb Hc. split_and!; auto. intros m c Hm.
    destruct (decide (m < length tb)); [by eapply Hc|].
    rewrite key_at_beyond in Hm by lia. done. }
  induction fuel as [|fuel IH]; intros it fl pidx Hit Hfuel Hlen Hne Hb Hc Hgt.
  { assert (it = length tb) as -> by lia. simpl. by apply Hdone. }
  cbn [index_loop]. destruct (Nat.eqb_spec it (length tb)) as [->|Hlt].
  { simpl. by apply Hdone. }
  set (c := char_at (key_at tb it) 0).
  assert (Hr0 : range_ok tb [] 0 it (length tb)).
  { split_and!; [lia|lia|]. intros m _ _. split_and!; simpl; [|lia|lia].
    by rewrite !take_0. }
  assert (Hcol : ∀ a b, it ≤ a → a ≤ b → b < length tb →
            (char_at (key_at tb a) 0 ≤ char_at (key_at tb b) 0)%Z).
  { intros a b Ha Hab Hb'.
    apply (range_column tb [] 0 it (length tb) a b Hs Hr0); auto.
    specialize (Hne a). destruct (key_at tb a); [exfalso; apply Hne; auto; lia|simpl; lia]. }
  destruct (partition_point_spec
              (λ m, negb (c <? char_at (key_at tb m) 0)%Z) it (length tb))
    as (Hup & Hup1 & Hup2); [lia| |].
  { intros a b Ha Hab Hb' Hp. apply negb_true_iff, Z.ltb_ge in Hp.
    apply negb_true_iff, Z.ltb_ge. specialize (Hcol a b). lia. }
  fold (upper_bound tb 0 c it (length tb)) in Hup, Hup1, Hup2.
  set (it' := upper_bound tb 0 c it (length tb)) in *.
  assert (Hit' : it < it').
  { destruct (decide (it < it')); [done|]. exfalso.
    assert (it' = it) as Heq by lia.
    specialize (Hup2 it). rewrite Heq in Hup2.
    unfold c in Hup2. rewrite Z.ltb_irrefl in Hup2. simpl in Hup2.
    assert (true = false) by (apply Hup2; lia). done. }
  assert (Hin : ∀ m, it ≤ m → m < it' → head (key_at tb m) = Some c).
  { intros m Hm1 Hm2. rewrite head_char_at by (apply Hne; lia). f_equal.
    specialize (Hup1 m). specialize (Hcol it m).
    assert ((c <? char_at (key_at tb m) 0)%Z = false) as Hle
      by (apply negb_true_iff, Hup1; lia).
    apply Z.ltb_ge in Hle. fold c in Hcol. lia. }
  assert (Hafter : ∀ m, it' ≤ m → m < length tb → (c < char_at (key_at tb m) 0)%Z).
  { intros m Hm1 Hm2. apply Z.ltb_lt, negb_false_iff, Hup2; lia. }
  apply IH.
  - lia.
  - lia.
  - rewrite !length_app. simpl. lia.
  - intros m Hm1 Hm2. apply Hne; lia.
  - intros idx c' Hidx. destruct (decide (idx < length fl)) as [Hlt'|Hge].
    + rewrite lookup_app_l in Hidx by done.
      destruct (Hb idx c' Hidx) as (a & b & Ha & Hb' & Hbk).
      exists a, b. split_and!; [|by rewrite lookup_app_l by (rewrite length_app; simpl; lia)|done].
      apply lookup_app_l_Some. done.
    + pose proof (lookup_lt_Some _ _ _ Hidx) as Hlt'. rewrite length_app in Hlt'.
      simpl in Hlt'. assert (idx = length fl) as -> by lia.
      rewrite lookup_app_r, Nat.sub_diag in Hidx by lia. simpl in Hidx.
      injection Hidx as <-. exists it, it'. split_and!.
      * rewrite <- Hlen. by rewrite lookup_app_r, Nat.sub_diag by lia.
      * rewrite lookup_app_r by (rewrite length_app; simpl; lia).
        rewrite length_app. simpl.
        by replace (length fl + 1 - (length pidx + 1)) with 0 by lia.
      * split_and!; [done|lia|]. intros m Hm. split.
        -- intros [? ?]. by apply Hin.
        -- intros Hh. destruct (head_Some_char_at _ _ Hh) as [Hch _].
           destruct (decide (m < it)).
           { exfalso. pose proof (Hc m c l Hh) as Hcin.
             specialize (Hgt c it Hcin). fold c in Hgt. lia. }
           destruct (decide (m < it')); [lia|]. exfalso.
           specialize (Hafter m). lia.
  - intros m c' Hm Hh. apply elem_of_app. destruct (decide (m < it)).
    + left. by eapply Hc.
    + right. rewrite (Hin m) in Hh by lia. injection Hh as <-. by left.
  - intros c' m Hc' Hm1 Hm2. apply elem_of_app in Hc' as [Hc'|Hc'].
    + apply Hgt; auto. lia.
    + apply list_elem_of_singleton in Hc' as ->. by apply Hafter.
Qed.

Lemma first_non_empty_spec tb :
  sorted_table tb →
  first_non_empty tb ≤ length tb ∧
  (∀ m, m < first_non_empty tb → key_at tb m = []) ∧
  (∀ m, first_non_empty tb ≤ m → m < length tb → key_at tb m ≠ []).
Proof.
  intros Hs. unfold first_non_empty.
  destruct (find_index _ tb) as [e|] eqn:Hfind; simpl.
  - apply find_index_Some in Hfind as (l1 & y & l2 & -> & <- & Hl1 & Hy).
    assert (Hkey : key_at (l1 ++ y :: l2) (length l1) ≠ []).
    { rewrite (key_at_Some _ _ y) by (by apply list_lookup_middle).
      intros Hnil. rewrite Hnil in Hy. done. }
    split_and!.
    + rewrite length_app. simpl. lia.
    + intros m Hm. destruct (lookup_lt_is_Some_2 l1 m Hm) as [x Hx].
      rewrite (key_at_Some _ _ x) by (by apply lookup_app_l_Some).
      rewrite Forall_lookup in Hl1. specialize (Hl1 m x Hx). simpl in Hl1.
      apply negb_false_iff, Nat.eqb_eq, length_zero_iff_nil in Hl1. done.
    + intros m Hm1 Hm2. by apply (sorted_nonempty_after _ (length l1) m).
  - apply find_index_None in Hfind. split_and!; [done| |lia].
    intros m Hm. destruct (lookup_lt_is_Some_2 tb m Hm) as [x Hx].
    rewrite (key_at_Some _ _ x) by done.
    rewrite Forall_lookup in Hfind. specialize (Hfind m x Hx). simpl in Hfind.
    apply negb_false_iff, Nat.eqb_eq, length_zero_iff_nil in Hfind. done.
Qed.

Lemma index_of_ok tb :
  sorted_table tb →
  table (index_of tb) = tb ∧
  index_ok tb (first_letter (index_of tb)) (prefix_idx_with_first_letter (index_of tb)).
Proof.
  intros Hs. split; [done|].
  destruct (first_non_empty_spec tb Hs) as (He & Hempty & Hnonempty).
  destruct (index_loop_spec (length tb) tb (first_non_empty tb) [] [] Hs)
    as (Hlen & Hb & Hc); auto; try lia.
  - intros idx c Hidx. done.
  - intros m c Hm Hh. rewrite Hempty in Hh by done. done.
  - intros c m Hc. by apply elem_of_nil in Hc.
  - unfold index_of, index_ok. simpl.
    set (r := index_loop _ _ _ _ _ _) in *. split; [|done].
    intros idx c Hidx. destruct (Hb idx c Hidx) as (a & b & Ha & Hb' & Hbk).
    destruct (Nat.eqb_spec (length r.2) 0) as [Hz|Hnz].
    { apply lookup_lt_Some in Ha. lia. }
    exists a, b. split_and!; auto. by apply lookup_app_l_Some.
Qed.

(** *** The iterator *)

Definition set_ok (set : Prefix_Multiset) : Prop :=
  sorted_table (table set) ∧
  index_ok (table set) (first_letter set) (prefix_idx_with_first_letter set).

Lemma sort_set_ok v : set_ok (sort v).
Proof.
  destruct (index_of_ok (merge_sort key_le v) (sorted_merge_sort v)) as [Htb Hidx].
  split; [apply sorted_merge_sort|exact Hidx].
Qed.

Lemma sorted_empty_before tb i m :
  sorted_table tb → m ≤ i → i < length tb → key_at tb i = [] → key_at tb m = [].
Proof.
  intros Hs Hmi Hi Hnil. destruct (key_at tb m) eqn:Hm; [done|].
  exfalso. apply (sorted_nonempty_after tb m i Hs Hmi Hi); [by rewrite Hm|done].
Qed.

Section iterator.
Variable set : Prefix_Multiset.
Variable w : list Z.
Hypothesis Hset : set_ok set.

(** What a valid iterator points at: an entry with the empty key while
    [len] is 0, and afterwards an entry of the range that shares [len]
    characters with the search key and whose key has that length. *)
Definition yields (st : Iter_Prefixes_Of) : Prop :=
  valid st = true →
  it st < last st ∧ last st ≤ length (table set) ∧
  ((len st = 0 ∧ last st = length (table set) ∧ key_at (table set) (it st) = []) ∨
   (1 ≤ len st ∧ len st ≤ length w ∧
    range_ok (table set) w (len st) (it st) (last st) ∧
    length (key_at (table set) (it st)) = len st)).

(** The entries still to come. *)
Definition remaining (st : Iter_Prefixes_Of) : list T :=
  if valid st then matches (table set) w (it st) (last st) else [].

Lemma longer_no_prefix tb i j L :
  sorted_table tb → range_ok tb w L i j → i < j →
  L < length (key_at tb i) → L = length w →
  matches tb w i j = [].
Proof.
  intros Hs Hr Hij Hi HL. apply matches_none. intros m Hm1 Hm2 Hpre.
  destruct (range_column tb w L i j i m Hs Hr) as [Hlen _]; auto.
  apply prefix_length in Hpre. lia.
Qed.

Lemma advance_loop_spec fuel st :
  valid st = true → 1 ≤ len st → len st ≤ length w →
  range_ok (table set) w (len st) (it st) (last st) →
  length w - len st < fuel →
  ∃ st', advance_loop fuel set w st = Some st' ∧ yields st' ∧
         remaining st' = matches (table set) w (it st) (last st) ∧
         (valid st' = true → it st ≤ it st').
Proof.
  destruct Hset as [Hs _].
  revert st. induction fuel as [|fuel IH]; intros st Hv H1 HL Hr Hfuel; [lia|].
  destruct st as [i j L v]. simpl in *. subst v.
  destruct (Nat.eqb_spec i j) as [->|Hij]; simpl.
  { eexists. split_and!; [done|done| |done].
    unfold remaining. simpl. by rewrite matches_empty_range. }
  assert (i < j) as Hlt by (destruct Hr; lia).
  destruct (Nat.eqb_spec (length (key_at (table set) i)) L) as [Hk|Hk].
  { eexists. split_and!; [done| |done|done].
    intros _. simpl. destruct Hr as (? & ? & ?). split_and!; [done|done|].
    right. split_and!; auto. done. }
  assert (L < length (key_at (table set) i)) as Hlong.
  { destruct Hr as (_ & _ & Hr). destruct (Hr i) as (_ & ? & _); lia. }
  destruct (Nat.eqb_spec L (length w)) as [Hw|Hw].
  { eexists. split_and!; [done|done| |done].
    unfold remaining. simpl. symmetry. by eapply longer_no_prefix. }
  destruct (equal_range_spec (table set) w L i j Hs Hr Hlt Hlong)
    as (Hlo & Hhi & Hr' & Hm); [lia|].
  set (r := equal_range (table set) L (char_at w L) i j) in *.
  destruct (IH (mk_iter r.1 r.2 (L + 1) true)) as (st' & Hst' & Hy & Hrem & Hit);
    simpl; auto; try lia.
  { by replace (L + 1) with (S L) by lia. }
  exists st'. split_and!; auto.
  - by rewrite Hrem, Hm.
  - intros Hv. specialize (Hit Hv). simpl in Hit, Hlo. lia.
Qed.

Lemma nonempty_prefix_head (k : list Z) :
  k ≠ [] → k `prefix_of` w → head k = Some (char_at w 0) ∧ w ≠ [].
Proof.
  intros Hk [r ->]. destruct k as [|c k]; [done|]. simpl. done.
Qed.

Lemma advance_first i :
  i ≤ length (table set) →
  (∀ m, m < i → key_at (table set) m = []) →
  ∃ st', advance set w (mk_iter i (length (table set)) 0 true) = Some st' ∧
         yields st' ∧
         remaining st' = matches (table set) w i (length (table set)) ∧
         (valid st' = true → i ≤ it st').
Proof.
  destruct Hset as [Hs [Hidx Hall]]. intros Hi Hz.
  unfold advance. simpl.
  destruct (Nat.eqb_spec i (length (table set))) as [->|Hne]; simpl.
  { eexists. split_and!; [done|done| |done].
    unfold remaining. simpl. by rewrite matches_empty_range. }
  destruct (Nat.eqb_spec (length (key_at (table set) i)) 0) as [Hk|Hk].
  { apply length_zero_iff_nil in Hk. eexists. split_and!; [done| |done|done].
    intros _. simpl. split_and!; [lia|done|]. left. done. }
  assert (Hafter : ∀ m, i ≤ m → m < length (table set) → key_at (table set) m ≠ []).
  { intros m Hm1 Hm2. apply (sorted_nonempty_after _ i m); auto.
    intros Hnil. by rewrite Hnil in Hk. }
  destruct (Nat.eqb_spec (length w) 0) as [Hw|Hw].
  { apply length_zero_iff_nil in Hw. eexists. split_and!; [done|done| |done].
    unfold remaining. simpl. symmetry. apply matches_none.
    intros m Hm1 Hm2 Hpre. apply (Hafter m Hm1); [lia|].
    rewrite Hw in Hpre. by apply prefix_nil_inv in Hpre. }
  destruct (find_char (char_at w 0) (first_letter set)) as [idx|] eqn:Hfind.
  2:{ apply find_char_None_not_in in Hfind.
      eexists. split_and!; [done|done| |done].
      unfold remaining. simpl. symmetry. apply matches_none.
      intros m Hm1 Hm2 Hpre. apply Hfind.
      destruct (nonempty_prefix_head (key_at (table set) m)) as [Hh _]; auto.
      by eapply Hall. }
  apply find_char_Some in Hfind.
  destruct (Hidx idx _ Hfind) as (a & b & Ha & Hb & Hab & Hbl & Hbk).
  rewrite Ha, Hb. simpl.
  assert (Hia : i ≤ a).
  { destruct (decide (i ≤ a)); [done|]. exfalso.
    assert (head (key_at (table set) a) = Some (char_at w 0)) as Hh
      by (apply Hbk; lia).
    rewrite Hz in Hh by lia. done. }
  assert (Hr : range_ok (table set) w 1 a b).
  { split_and!; [lia|done|]. intros m Hm1 Hm2.
    assert (head (key_at (table set) m) = Some (char_at w 0)) as Hh
      by (apply Hbk; lia).
    destruct w as [|c w']; [done|]. destruct (key_at (table set) m) as [|c' k'];
      [done|]. simpl in Hh. injection Hh as ->.
    split_and!; simpl; [by rewrite !take_0|lia|lia]. }
  destruct (advance_loop_spec (S (length w)) (mk_iter a b 1 true))
    as (st' & Hst' & Hy & Hrem & Hit); simpl; auto; try lia.
  exists st'. split_and!; auto.
  - rewrite Hrem.
    rewrite (matches_split _ _ i a (length (table set))) by lia.
    rewrite (matches_split _ _ a b (length (table set))) by lia.
    assert (Hout : ∀ m, i ≤ m → m < length (table set) → ¬ (a ≤ m ∧ m < b) →
              ¬ key_at (table set) m `prefix_of` w).
    { intros m Hm1 Hm2 Hnot Hpre. apply Hnot, Hbk; [done|].
      apply nonempty_prefix_head; auto. }
    rewrite (matches_none _ _ i a), (matches_none _ _ b (length (table set))).
    + by rewrite app_nil_r.
    + intros m Hm1 Hm2. apply Hout; lia.
    + intros m Hm1 Hm2. apply Hout; lia.
  - intros Hv. specialize (Hit Hv). simpl in Hit. lia.
Qed.

Lemma yields_head st :
  valid st = true → yields st →
  ∃ x st', table set !! it st = Some x ∧ key_of x `prefix_of` w ∧
           iter_next set w st = Some st' ∧ yields st' ∧
           remaining st = x :: remaining st' ∧
           (valid st' = true → it st < it st').
Proof.
  intros Hv Hy. destruct (Hy Hv) as (Hlt & Hlast & Hphase).
  destruct (lookup_lt_is_Some_2 (table set) (it st)) as [x Hx]; [lia|].
  pose proof (key_at_Some _ _ _ Hx) as Hkx.
  destruct st as [i j L v]. simpl in *. subst v. unfold iter_next. simpl.
  destruct Hphase as [(-> & -> & Hk)|(H1 & HL & Hr & Hk)].
  - destruct (advance_first (i + 1)) as (st' & Hst' & Hy' & Hrem & Hit); [lia| |].
    { intros m Hm. apply (sorted_empty_before _ i m); auto; [apply Hset|lia]. }
    exists x, st'. split_and!; auto.
    + rewrite <- Hkx, Hk. apply prefix_nil.
    + unfold remaining at 1. simpl. rewrite Hrem.
      replace (i + 1) with (S i) by lia. apply matches_cons; auto.
      rewrite <- Hkx, Hk. apply prefix_nil.
    + intros Hv. specialize (Hit Hv). simpl in Hit. lia.
  - assert (Hr' : range_ok (table set) w L (i + 1) j).
    { destruct Hr as (? & ? & Hr). split_and!; [lia|done|].
      intros m Hm1 Hm2. apply Hr; lia. }
    assert (Hpre : key_of x `prefix_of` w).
    { rewrite <- Hkx. apply (shares_prefix L); [|done].
      destruct Hr as (_ & _ & Hr). apply Hr; lia. }
    unfold advance. simpl. destruct (Nat.eqb_spec L 0) as [?|_]; [lia|].
    destruct (advance_loop_spec (S (length w)) (mk_iter (i + 1) j L true))
      as (st' & Hst' & Hy' & Hrem & Hit); simpl; auto; try lia.
    exists x, st'. split_and!; auto.
    + unfold remaining at 1. simpl. rewrite Hrem.
      replace (i + 1) with (S i) by lia. by apply matches_cons.
    + intros Hv. specialize (Hit Hv). simpl in Hit. lia.
Qed.

Lemma collect_spec fuel st :
  yields st →
  (if valid st then length (table set) - it st else 0) < fuel →
  collect fuel set w st = Some (remaining st).
Proof.
  revert st. induction fuel as [|fuel IH]; intros st Hy Hfuel; [lia|].
  cbn [collect]. destruct (valid st) eqn:Hv.
  2:{ unfold remaining. by rewrite Hv. }
  destruct (yields_head st Hv Hy) as (x & st' & Hx & _ & Hnext & Hy' & Hrem & Hit).
  rewrite Hx, Hnext, Hrem. rewrite IH; [done|done|].
  destruct (Hy Hv) as (? & ? & _).
  destruct (valid st'); [specialize (Hit eq_refl)|]; lia.
Qed.

(** The loops of [for_each_prefixes_of]. *)

Lemma empty_keys_loop_spec fuel it called :
  it ≤ length (table set) → length (table set) - it < fuel →
  (∀ m, m < it → key_at (table set) m = []) →
  ∃ it', empty_keys_loop fuel (table set) it called
           = Some (it', called ++ matches (table set) w it it') ∧
         it ≤ it' ∧ it' ≤ length (table set) ∧
         (∀ m, m < it' → key_at (table set) m = []) ∧
         (it' < length (table set) → key_at (table set) it' ≠ []).
Proof.
  revert it called. induction fuel as [|fuel IH]; intros it called Hit Hfuel Hz;
    [lia|].
  cbn [empty_keys_loop].
  destruct (table set !! it) as [x|] eqn:Hx.
  - pose proof (key_at_Some _ _ _ Hx) as Hkx.
    apply lookup_lt_Some in Hx as Hlt.
    destruct (Nat.eqb_spec (length (key_of x)) 0) as [Hk|Hk].
    + apply length_zero_iff_nil in Hk.
      destruct (IH (it + 1) (called ++ [x])) as (it' & -> & ? & ? & ? & ?);
        [lia|lia| |].
      { intros m Hm. destruct (decide (m = it)) as [->|]; [by rewrite Hkx|].
        apply Hz. lia. }
      exists it'. split_and!; auto; [|lia].
      rewrite (matches_cons _ _ it it' x Hx); [|lia|rewrite Hk; apply prefix_nil].
      rewrite <- app_assoc. simpl. by replace (it + 1) with (S it) by lia.
    + exists it. rewrite matches_empty_range, app_nil_r. split_and!; auto.
      intros _ Hnil. rewrite Hkx in Hnil. by rewrite Hnil in Hk.
  - apply lookup_ge_None in Hx. exists it.
    rewrite matches_empty_range, app_nil_r. split_and!; auto. lia.
Qed.

Lemma same_size_loop_spec fuel it last L called :
  range_ok (table set) w L it last → last - it < fuel →
  ∃ it', same_size_loop fuel (table set) it last L called
           = Some (it', called ++ matches (table set) w it it') ∧
         it ≤ it' ∧ it' ≤ last ∧
         (it' < last → L < length (key_at (table set) it')).
Proof.
  revert it called. induction fuel as [|fuel IH]; intros it called Hr Hfuel;
    [lia|].
  cbn [same_size_loop]. destruct Hr as (Hle & Hlast & Hr).
  destruct (Nat.eqb_spec it last) as [->|Hne].
  { exists last. rewrite matches_empty_range, app_nil_r. split_and!; auto. lia. }
  destruct (lookup_lt_is_Some_2 (table set) it) as [x Hx]; [lia|].
  rewrite Hx. pose proof (key_at_Some _ _ _ Hx) as Hkx.
  destruct (Hr it) as (Hshare & HL & HLw); [lia|lia|].
  destruct (Nat.eqb_spec (length (key_of x)) L) as [Hk|Hk].
  - destruct (IH (it + 1) (called ++ [x])) as (it' & -> & ? & ? & ?); [|lia|].
    { split_and!; [lia|done|]. intros m ? ?. apply Hr; lia. }
    exists it'. split_and!; auto; [|lia].
    rewrite (matches_cons _ _ it it' x Hx); [|lia|].
    + rewrite <- app_assoc. simpl. by replace (it + 1) with (S it) by lia.
    + rewrite <- Hkx. apply (shares_prefix L); [apply Hr; lia|].
      by rewrite Hkx.
  - exists it. rewrite matches_empty_range, app_nil_r. split_and!; auto.
    intros _. rewrite Hkx in *. lia.
Qed.

Lemma sizes_loop_spec fuel first last L called :
  range_ok (table set) w L first last → L ≤ length w → length w - L < fuel →
  sizes_loop fuel (table set) w first last L called
  = Some (called ++ matches (table set) w first last).
Proof.
  destruct Hset as [Hs _].
  revert first last L called.
  induction fuel as [|fuel IH]; intros first last L called Hr HL Hfuel; [lia|].
  cbn [sizes_loop].
  destruct (same_size_loop_spec (S (last - first)) first last L called Hr)
    as (it & -> & Hfirst & Hlast & Hlong); [lia|].
  rewrite (matches_split _ _ first it last) by lia.
  assert (Hr' : range_ok (table set) w L it last).
  { destruct Hr as (? & ? & Hr). split_and!; [lia|done|].
    intros m ? ?. apply Hr; lia. }
  destruct (Nat.eqb_spec it last) as [->|Hne].
  { by rewrite matches_empty_range, app_nil_r. }
  destruct (Nat.eqb_spec L (length w)) as [Hw|Hw].
  { rewrite (longer_no_prefix _ it last L Hs Hr'); [by rewrite app_nil_r|lia| |done].
    apply Hlong. lia. }
  destruct (equal_range_spec (table set) w L it last Hs Hr')
    as (_ & _ & Hr'' & Hm); [lia|apply Hlong; lia|lia|].
  rewrite IH.
  - by rewrite Hm, app_assoc.
  - by replace (L + 1) with (S L) by lia.
  - lia.
  - lia.
Qed.

(** The entries behind the empty keys that can match are those of the
    range that the index gives for the first character of the search key. *)
Lemma first_letter_range i :
  i < length (table set) →
  (∀ m, m < i → key_at (table set) m = []) →
  key_at (table set) i ≠ [] → w ≠ [] →
  match find_char (char_at w 0) (first_letter set) with
  | None => matches (table set) w i (length (table set)) = []
  | Some idx =>
      ∃ a b, prefix_idx_with_first_letter set !! idx = Some a ∧
             prefix_idx_with_first_letter set !! (idx + 1) = Some b ∧
             range_ok (table set) w 1 a b ∧
             matches (table set) w i (length (table set))
             = matches (table set) w a b
  end.
Proof.
  destruct Hset as [Hs [Hidx Hall]]. intros Hi Hz Hk Hw.
  assert (Hafter : ∀ m, i ≤ m → m < length (table set) → key_at (table set) m ≠ []).
  { intros m Hm1 Hm2. by apply (sorted_nonempty_after _ i m). }
  destruct (find_char (char_at w 0) (first_letter set)) as [idx|] eqn:Hfind.
  2:{ apply find_char_None_not_in in Hfind. apply matches_none.
      intros m Hm1 Hm2 Hpre. apply Hfind.
      destruct (nonempty_prefix_head (key_at (table set) m)) as [Hh _]; auto.
      by eapply Hall. }
  apply find_char_Some in Hfind.
  destruct (Hidx idx _ Hfind) as (a & b & Ha & Hb & Hab & Hbl & Hbk).
  exists a, b. split_and!; [done|done| |].
  - split_and!; [lia|done|]. intros m Hm1 Hm2.
    assert (head (key_at (table set) m) = Some (char_at w 0)) as Hh
      by (apply Hbk; lia).
    destruct w as [|c w']; [done|]. destruct (key_at (table set) m) as [|c' k'];
      [done|]. simpl in Hh. injection Hh as ->.
    split_and!; simpl; [by rewrite !take_0|lia|lia].
  - assert (Hia : i ≤ a).
    { destruct (decide (i ≤ a)); [done|]. exfalso.
      assert (head (key_at (table set) a) = Some (char_at w 0)) as Hh
        by (apply Hbk; lia).
      rewrite Hz in Hh by lia. done. }
    rewrite (matches_split _ _ i a (length (table set))) by lia.
    rewrite (matches_split _ _ a b (length (table set))) by lia.
    assert (Hout : ∀ m, i ≤ m → m < length (table set) → ¬ (a ≤ m ∧ m < b) →
              ¬ key_at (table set) m `prefix_of` w).
    { intros m Hm1 Hm2 Hnot Hpre. apply Hnot, Hbk; [done|].
      apply nonempty_prefix_head; auto. }
    rewrite (matches_none _ _ i a), (matches_none _ _ b (length (table set))).
    + by rewrite app_nil_r.
    + intros m Hm1 Hm2. apply Hout; lia.
    + intros m Hm1 Hm2. apply Hout; lia.
Qed.

End iterator.

Lemma iterate_prefixes_of_filter set word :
  set_ok set →
  iterate_prefixes_of set word =
    Some (List.filter (is_match (transform_key word)) (table set)).
Proof.
  intros Hset. unfold iterate_prefixes_of, iter_begin.
  destruct (advance_first set (transform_key word) Hset 0)
    as (st & -> & Hy & Hrem & _); [lia|intros m; lia|].
  rewrite (collect_spec set (transform_key word) Hset); [|done|].
  - rewrite Hrem. unfold matches. by rewrite slice_range_all.
  - destruct (valid st); lia.
Qed.


(** *** The order of the yielded entries *)

Lemma prefix_lex_length (k1 k2 w : list Z) :
  k1 `prefix_of` w → k2 `prefix_of` w → lex_lt k2 k1 = false →
  length k1 ≤ length k2.
Proof.
  intros H1 H2 Hle. destruct (prefix_weak_total k1 k2 w H1 H2) as [H|[r ->]].
  - by apply prefix_length.
  - rewrite <- (app_nil_r k2) in Hle at 1. rewrite lex_lt_app in Hle.
    destruct r; [|done]. by rewrite app_nil_r.
Qed.

Definition by_length (x y : T) : Prop := length (key_of x) ≤ length (key_of y).

Lemma filter_sorted_by_length tb w :
  sorted_table tb → StronglySorted by_length (List.filter (is_match w) tb).
Proof.
  induction 1 as [|x tb Hs IH Hx]; simpl; [constructor|].
  destruct (is_match w x) eqn:Hmx; [|done].
  constructor; [done|]. apply Forall_forall. intros y Hy.
  apply list_elem_of_In, filter_In in Hy as [Hy Hmy].
  rewrite Forall_forall in Hx. apply list_elem_of_In in Hy.
  apply bool_decide_eq_true in Hmx, Hmy.
  apply (prefix_lex_length _ _ w); auto. by apply Hx.
Qed.

(** Entries with the empty key come before all others. *)
Definition empty_first (out : list T) : Prop :=
  ∀ i j x y, i < j → out !! i = Some x → out !! j = Some y →
    key_of y = [] → key_of x = [].

Lemma by_length_empty_first out : StronglySorted by_length out → empty_first out.
Proof.
  intros Hs. induction Hs as [|z out Hs IH Hz]; intros i j x y Hij Hi Hj Hy;
    [done|].
  destruct j as [|j]; [lia|]. destruct i as [|i]; simpl in *.
  - injection Hi as ->. rewrite Forall_lookup in Hz.
    specialize (Hz j y Hj). unfold by_length in Hz. rewrite Hy in Hz.
    simpl in Hz. apply length_zero_iff_nil. lia.
  - apply (IH i j x y); auto. lia.
Qed.

Lemma for_each_prefixes_of_filter set word :
  set_ok set →
  for_each_prefixes_of set word =
    Some (List.filter (is_match (transform_key word)) (table set)).
Proof.
  intros Hset. unfold for_each_prefixes_of. cbv zeta.
  set (w := transform_key word).
  destruct (empty_keys_loop_spec set w (S (length (table set))) 0 [])
    as (it & -> & _ & Hit & Hz & Hk); [lia|lia|intros m; lia|].
  simpl app.
  assert (Hall : List.filter (is_match w) (table set)
                 = matches (table set) w 0 it
                   ++ matches (table set) w it (length (table set))).
  { rewrite <- matches_split by lia. unfold matches. by rewrite slice_range_all. }
  rewrite Hall.
  destruct (Nat.eqb_spec it (length (table set))) as [->|Hne].
  { by rewrite matches_empty_range, app_nil_r. }
  assert (Hafter : ∀ m, it ≤ m → m < length (table set) → key_at (table set) m ≠ []).
  { intros m Hm1 Hm2. apply (sorted_nonempty_after _ it m); auto; [apply Hset|].
    apply Hk. lia. }
  destruct (Nat.eqb_spec (length w) 0) as [Hw|Hw].
  { apply length_zero_iff_nil in Hw. rewrite (matches_none _ _ it); [by rewrite app_nil_r|].
    intros m Hm1 Hm2 Hpre. apply (Hafter m Hm1 Hm2).
    rewrite Hw in Hpre. by apply prefix_nil_inv in Hpre. }
  pose proof (first_letter_range set w Hset it) as Hrange.
  destruct (find_char (char_at w 0) (first_letter set)) as [idx|].
  - destruct Hrange as (a & b & -> & -> & Hr & ->); auto; [lia|apply Hk; lia| |].
    { intros Hnil. by rewrite Hnil in Hw. }
    cbn [default from_option id].
    rewrite (sizes_loop_spec set w Hset); [done|done| |lia].
    destruct w; simpl in *; lia.
  - rewrite Hrange; auto; [by rewrite app_nil_r|lia|apply Hk; lia|].
    intros Hnil. by rewrite Hnil in Hw.
Qed.

Lemma iterate_prefixes_of_sort v word :
  iterate_prefixes_of (sort v) word =
    Some (List.filter (is_match (transform_key word)) (table (sort v))) ∧
  table (sort v) ≡ₚ v ∧
  StronglySorted by_length
    (List.filter (is_match (transform_key word)) (table (sort v))).
Proof.
  split_and!.
  - apply iterate_prefixes_of_filter, sort_set_ok.
  - apply merge_sort_Permutation.
  - apply filter_sorted_by_length, sorted_merge_sort.
Qed.

End Prefix_Multiset.

(** The entries of [out] are in non-decreasing order of the length of
    what [appending] gives, and those with an empty one come first. *)
Definition ordered_by_length {T} (appending : T → list Z) (out : list T) : Prop :=
  StronglySorted (λ x y, length (appending x) ≤ length (appending y)) out ∧
  ∀ i j x y, i < j → out !! i = Some x → out !! j = Some y →
    appending y = [] → appending x = [].

(** C7. For every vector of entries an affix table is made of and every
    query word, iterating over the prefix index, with the iterator of
    [iterate_prefixes_of] and with [for_each_prefixes_of] alike, yields
    exactly the entries of the table whose appending string is a prefix of
    the word, and iterating over the suffix index, whose keys are the
    reversed appending strings, exactly those whose appending string is a
    suffix of the word; the table holds the entries it was given; the
    entries are yielded in non-decreasing order of the length of appending,
    those with the empty appending first. *)
Theorem iterate_prefixes_of_exact {T} (appending : T → list Z)
    (v : list T) (word : list Z) :
  (let prefixes := sort appending id v in
   let out := List.filter (λ x, bool_decide (appending x `prefix_of` word))
                (table prefixes) in
   iterate_prefixes_of appending id prefixes word = Some out ∧
   for_each_prefixes_of appending id prefixes word = Some out ∧
   table prefixes ≡ₚ v ∧ ordered_by_length appending out) ∧
  (let suffixes := sort appending reverse v in
   let out := List.filter (λ x, bool_decide (appending x `suffix_of` word))
                (table suffixes) in
   iterate_prefixes_of appending reverse suffixes word = Some out ∧
   for_each_prefixes_of appending reverse suffixes word = Some out ∧
   table suffixes ≡ₚ v ∧ ordered_by_length appending out).
Proof.
  split.
  - destruct (iterate_prefixes_of_sort appending id v word) as (Hit & Hperm & Hs).
    pose proof (for_each_prefixes_of_filter appending id _ word
                  (sort_set_ok appending id v)) as Hfor.
    split_and!; [exact Hit|exact Hfor|exact Hperm|]. split; [exact Hs|].
    exact (by_length_empty_first appending id _ Hs).
  - destruct (iterate_prefixes_of_sort appending reverse v word)
      as (Hit & Hperm & Hs).
    pose proof (for_each_prefixes_of_filter appending reverse _ word
                  (sort_set_ok appending reverse v)) as Hfor.
    assert (Hext : ∀ l,
      List.filter (is_match appending reverse (reverse word)) l =
      List.filter (λ x, bool_decide (appending x `suffix_of` word)) l).
    { intros l. apply filter_ext. intros x. unfold is_match, key_of.
      apply bool_decide_ext. symmetry. apply suffix_prefix_reverse. }
    rewrite Hext in Hit, Hfor, Hs.
    split_and!; [exact Hit|exact Hfor|exact Hperm|]. split.
    + rewrite <- (list_fmap_id (List.filter _ _)).
      eapply (StronglySorted_fmap id); [|exact Hs].
      intros x y. unfold by_length, key_of. by rewrite !length_reverse.
    + pose proof (by_length_empty_first appending reverse _ Hs) as He.
      intros i j x y Hij Hi Hj Hy. specialize (He i j x y Hij Hi Hj).
      unfold key_of in He. apply (inj reverse). rewrite reverse_nil.
      apply He. by rewrite Hy.
Qed.

(** Four suffixes, "", "s", "es" and "ness", indexed by their reversed
    appending strings: for "dresses" the iteration yields "", "s" and "es",
    in this order. *)
Example example_iterate_suffixes :
  iterate_prefixes_of id reverse
    (sort id reverse [[110; 101; 115; 115]; [101; 115]; [115]; []]%Z)
    [100; 114; 101; 115; 115; 101; 115]%Z
  = Some [[]; [115]; [101; 115]]%Z.
Proof. vm_compute. reflexivity. Qed.

End Prefix_Multiset.

(** ** Affixes: [Prefix<CharT>] and [Suffix<CharT>] of structures.hxx *)

Module Prefix.
Import Std.

Record Prefix := mk {
  flag : Z;
  cross_product : bool;
  stripping : list Z;
  appending : list Z;
  cont_flags : String_Set.String_Set;
  condition : Condition.Condition
}.

Definition to_root (e : Prefix) (word : list Z) : option (list Z) :=
  replace (Some 0) (length (appending e)) (stripping e) word.

Definition to_derived (e : Prefix) (word : list Z) : option (list Z) :=
  replace (Some 0) (length (stripping e)) (appending e) word.

Definition check_condition (e : Prefix) (word : list Z) : bool :=
  Condition.match_prefix (condition e) word.

Lemma prefix_to_root_to_derived e word :
  appending e `prefix_of` word →
  ∃ root, to_root e word = Some root ∧ to_derived e root = Some word.
Proof.
  intros [rest ->]. unfold to_root, to_derived.
  exists (stripping e ++ rest). by rewrite !replace_at_begin.
Qed.

(** X8. Stripping and re-applying a prefix are inverse to each other:
    [to_root] turns a word made of the appended characters and a rest into
    the stripped characters and that rest, and [to_derived] turns it back.
    Neither throws, on any word: [replace] at position 0 is always in
    range. *)
Theorem prefix_to_root_to_derived_inverse (e : Prefix) (rest word : list Z) :
  to_root e (appending e ++ rest) = Some (stripping e ++ rest) ∧
  to_derived e (stripping e ++ rest) = Some (appending e ++ rest) ∧
  to_root e word = Some (stripping e ++ drop (length (appending e)) word) ∧
  to_derived e word = Some (appending e ++ drop (length (stripping e)) word).
Proof.
  unfold to_root, to_derived. rewrite !replace_at_begin. done.
Qed.

End Prefix.

Module Suffix.
Import Std.

Record Suffix := mk {
  flag : Z;
  cross_product : bool;
  stripping : list Z;
  appending : list Z;
  cont_flags : String_Set.String_Set;
  condition : Condition.Condition
}.

Definition to_root (e : Suffix) (word : list Z) : option (list Z) :=
  replace (size_sub (length word) (length (appending e)))
    (length (appending e)) (stripping e) word.

Definition to_derived (e : Suffix) (word : list Z) : option (list Z) :=
  replace (size_sub (length word) (length (stripping e)))
    (length (stripping e)) (appending e) word.

Definition check_condition (e : Suffix) (word : list Z) : bool :=
  Condition.match_suffix (condition e) word.

Lemma suffix_to_root_to_derived e word :
  appending e `suffix_of` word →
  ∃ root, to_root e word = Some root ∧ to_derived e root = Some word.
Proof.
  intros [rest ->]. unfold to_root, to_derived.
  exists (rest ++ stripping e). by rewrite !replace_at_end.
Qed.

(** X9. Stripping and re-applying a suffix are inverse to each other:
    [to_root] turns a word made of a rest and the appended characters into
    that rest and the stripped characters, and [to_derived] turns it back.
    On a word shorter than the appended characters [to_root] throws (the
    position [word.size() - appending.size()] wraps around), and on no other
    word; likewise [to_derived] and the stripped characters. *)
Theorem suffix_to_root_to_derived_inverse (e : Suffix) (rest word : list Z) :
  to_root e (rest ++ appending e) = Some (rest ++ stripping e) ∧
  to_derived e (rest ++ stripping e) = Some (rest ++ appending e) ∧
  (to_root e word = None ↔ length word < length (appending e)) ∧
  (to_derived e word = None ↔ length word < length (stripping e)).
Proof.
  unfold to_root, to_derived. rewrite !replace_at_end. split_and!; try done.
  - unfold size_sub, replace.
    destruct (Nat.leb_spec (length (appending e)) (length word)).
    + destruct (Nat.ltb_spec (length word) (length word - length (appending e)));
        [lia|]. split; [done|lia].
    + done.
  - unfold size_sub, replace.
    destruct (Nat.leb_spec (length (stripping e)) (length word)).
    + destruct (Nat.ltb_spec (length word) (length word - length (stripping e)));
        [lia|]. split; [done|lia].
    + done.
Qed.

End Suffix.

(** ** Affix stripping: the [strip_*] functions of [Dict_Base] *)

Module Affixing.
Import Std.

Definition Flag_Set : Type := String_Set.String_Set.

(** An entry of [Word_List]: the word and its flags. *)
Definition Word : Type := list Z * Flag_Set.

Inductive Affixing_Mode :=
| FULL_WORD
| AT_COMPOUND_BEGIN
| AT_COMPOUND_END
| AT_COMPOUND_MIDDLE.

Global Instance Affixing_Mode_eq_dec : EqDecision Affixing_Mode.
Proof. solve_decision. Defined.

(** What the templates over [AffixT] use of an affix. *)
Class Affix (T : Type) := {
  flag : T → Z;
  cross_product : T → bool;
  appending : T → list Z;
  cont_flags : T → Flag_Set;
  to_root : T → list Z → option (list Z);
  to_derived : T → list Z → option (list Z);
  check_condition : T → list Z → bool
}.

Global Instance Prefix_Affix : Affix Prefix.Prefix := {|
  flag := Prefix.flag;
  cross_product := Prefix.cross_product;
  appending := Prefix.appending;
  cont_flags := Prefix.cont_flags;
  to_root := Prefix.to_root;
  to_derived := Prefix.to_derived;
  check_condition := Prefix.check_condition
|}.

Global Instance Suffix_Affix : Affix Suffix.Suffix := {|
  flag := Suffix.flag;
  cross_product := Suffix.cross_product;
  appending := Suffix.appending;
  cont_flags := Suffix.cont_flags;
  to_root := Suffix.to_root;
  to_derived := Suffix.to_derived;
  check_condition := Suffix.check_condition
|}.

(** The functions work on the caller's [std::wstring& word]. A computation
    takes the contents of that string and ends in one of four ways: it
    returns a value and leaves contents in the string, it throws, it
    dereferences an iterator outside its table, or the fuel of a loop of
    this development runs out. *)
Inductive outcome (A : Type) : Type :=
| Done (a : A) (word : list Z)
| Throw
| Undefined
| Out_of_fuel.
Arguments Done {A} a word.
Arguments Throw {A}.
Arguments Undefined {A}.
Arguments Out_of_fuel {A}.

Definition M (A : Type) : Type := list Z → outcome A.

(** In the body of a loop: [continue], and [return r]. A body that answers
    [None] goes on with the next entry. *)
Definition continue {R} : M (option R) := λ word, Done None word.
Definition return_ {R} (r : R) : M (option R) := λ word, Done (Some r) word.

(** [To_Root_Unroot_RAII<AffixT> xxx(word, affix)] and the rest of the scope
    it is declared in: the constructor calls [to_root], the destructor, run
    when the scope is left by [continue], by [return] or at its end, calls
    [to_derived]. *)
Definition To_Root_Unroot_RAII {T} `{Affix T} {R} (affix : T) (scope : M R) : M R :=
  λ word,
    match to_root affix word with
    | None => Throw
    | Some root =>
        match scope root with
        | Done r word' =>
            match to_derived affix word' with
            | Some word'' => Done r word''
            | None => Throw
            end
        | other => other
        end
    end.

(** [for (auto& word_entry : make_iterator_range(dic.equal_range(word)))]:
    the first entry for which the body returns. *)
Fixpoint for_each_entry {R} (body : Word → option R) (entries : list Word) : option R :=
  match entries with
  | [] => None
  | word_entry :: rest =>
      match body word_entry with
      | Some r => Some r
      | None => for_each_entry body rest
      end
  end.

Section loops.
Context {T R : Type}.
Variable extract_key : T → list Z.
Variable transform_key : list Z → list Z.
Variable set : @Prefix_Multiset.Prefix_Multiset T.

(** [for (auto it = set.iterate_prefixes_of(word); it; ++it)] with the body
    applied to [*it]. The iterator keeps a pointer to [word] and reads the
    string as it is at each [++it]. *)
Fixpoint iterate (fuel : nat) (body : T → M (option R))
    (st : Prefix_Multiset.Iter_Prefixes_Of) : M (option R) :=
  λ word,
    match fuel with
    | 0 => Out_of_fuel
    | S fuel' =>
        if Prefix_Multiset.valid st then
          match Prefix_Multiset.table set !! Prefix_Multiset.it st with
          | None => Undefined
          | Some e =>
              match body e word with
              | Done None word' =>
                  match Prefix_Multiset.iter_next extract_key transform_key set
                          (transform_key word') st with
                  | Some st' => iterate fuel' body st' word'
                  | None => Out_of_fuel
                  end
              | other => other
              end
          end
        else Done None word
    end.

Definition for_each_prefix_of (body : T → M (option R)) : M (option R) :=
  λ word,
    match Prefix_Multiset.iter_begin extract_key transform_key set
            (transform_key word) with
    | Some st => iterate (S (length (Prefix_Multiset.table set))) body st word
    | None => Out_of_fuel
    end.

End loops.

(** The computation returns and leaves the string as it was. *)
Definition unchanged {A} (o : outcome A) (word : list Z) : Prop :=
  ∃ r, o = Done r word.

(** Rooting [word] with the affix and deriving it again gives [word]. *)
Definition restores {T} `{Affix T} (affix : T) (word : list Z) : Prop :=
  ∃ root, to_root affix word = Some root ∧ to_derived affix root = Some word.

Lemma unchanged_Done {A} (r : A) word : unchanged (Done r word) word.
Proof. by exists r. Qed.

Lemma unchanged_continue {R} word : unchanged (@continue R word) word.
Proof. by exists None. Qed.

Lemma unchanged_return {R} (r : R) word : unchanged (return_ r word) word.
Proof. by exists (Some r). Qed.

Lemma unchanged_RAII {T} `{Affix T} {R} (affix : T) (scope : M R) word :
  restores affix word →
  (∀ root, unchanged (scope root) root) →
  unchanged (To_Root_Unroot_RAII affix scope word) word.
Proof.
  intros (root & Hroot & Hderived) Hscope. unfold To_Root_Unroot_RAII.
  rewrite Hroot. destruct (Hscope root) as [r ->]. rewrite Hderived.
  by exists r.
Qed.

Section loops_unchanged.
Context {T R : Type}.
Variable extract_key : T → list Z.
Variable transform_key : list Z → list Z.
Variable set : @Prefix_Multiset.Prefix_Multiset T.
Hypothesis Hset : Prefix_Multiset.set_ok extract_key transform_key set.
Variable body : T → M (option R).
Variable word : list Z.
Hypothesis Hbody : ∀ e,
  transform_key (extract_key e) `prefix_of` transform_key word →
  unchanged (body e word) word.

Lemma unchanged_iterate fuel st :
  Prefix_Multiset.yields extract_key transform_key set (transform_key word) st →
  (if Prefix_Multiset.valid st
   then length (Prefix_Multiset.table set) - Prefix_Multiset.it st else 0) < fuel →
  unchanged (iterate extract_key transform_key set fuel body st word) word.
Proof.
  revert st. induction fuel as [|fuel IH]; intros st Hy Hfuel; [lia|].
  cbn [iterate]. destruct (Prefix_Multiset.valid st) eqn:Hv;
    [|apply unchanged_Done].
  destruct (Prefix_Multiset.yields_head extract_key transform_key set
              (transform_key word) Hset st Hv Hy)
    as (e & st' & He & Hpre & Hnext & Hy' & _ & Hit).
  rewrite He. destruct (Hbody e Hpre) as [r ->].
  destruct r as [r|]; [apply unchanged_Done|].
  rewrite Hnext. apply IH; [done|].
  destruct (Hy Hv) as (? & ? & _).
  destruct (Prefix_Multiset.valid st'); [specialize (Hit eq_refl)|]; lia.
Qed.

Lemma unchanged_for_each_prefix_of :
  unchanged (for_each_prefix_of extract_key transform_key set body word) word.
Proof.
  unfold for_each_prefix_of, Prefix_Multiset.iter_begin.
  destruct (Prefix_Multiset.advance_first extract_key transform_key set
              (transform_key word) Hset 0)
    as (st & -> & Hy & _ & _); [lia|intros m; lia|].
  apply unchanged_iterate; [done|].
  destruct (Prefix_Multiset.valid st); lia.
Qed.

End loops_unchanged.

(** [Prefix_Table] and [Suffix_Table]: the index of the affixes by their
    appending string, and the continuation flags of all of them. *)
Module Prefix_Table.

Record Prefix_Table := mk {
  table : @Prefix_Multiset.Prefix_Multiset Prefix.Prefix;
  all_cont_flags : Flag_Set
}.

Definition populate (table : @Prefix_Multiset.Prefix_Multiset Prefix.Prefix)
    (all_cont_flags : Flag_Set) : Flag_Set :=
  fold_left (λ acc x, String_Set.insert_str (String_Set.d (Prefix.cont_flags x)) acc)
    (Prefix_Multiset.table table) all_cont_flags.

(** [Prefix_Table(const Vector_Type& t)] *)
Definition of_vector (t : list Prefix.Prefix) : Prefix_Table :=
  let table := Prefix_Multiset.sort Prefix.appending id t in
  mk table (populate table (String_Set.mk [])).

Definition has_continuation_flags (p : Prefix_Table) : bool :=
  negb (length (String_Set.d (all_cont_flags p)) =? 0).

Definition has_continuation_flag (flag : Z) (p : Prefix_Table) : bool :=
  String_Set.contains flag (all_cont_flags p).

End Prefix_Table.

Module Suffix_Table.

Record Suffix_Table := mk {
  table : @Prefix_Multiset.Prefix_Multiset Suffix.Suffix;
  all_cont_flags : Flag_Set
}.

Definition populate (table : @Prefix_Multiset.Prefix_Multiset Suffix.Suffix)
    (all_cont_flags : Flag_Set) : Flag_Set :=
  fold_left (λ acc x, String_Set.insert_str (String_Set.d (Suffix.cont_flags x)) acc)
    (Prefix_Multiset.table table) all_cont_flags.

(** [Suffix_Table(const Vector_Type& t)]; the keys of the index are the
    appending strings reversed. *)
Definition of_vector (t : list Suffix.Suffix) : Suffix_Table :=
  let table := Prefix_Multiset.sort Suffix.appending reverse t in
  mk table (populate table (String_Set.mk [])).

Definition has_continuation_flags (p : Suffix_Table) : bool :=
  negb (length (String_Set.d (all_cont_flags p)) =? 0).

Definition has_continuation_flag (flag : Z) (p : Suffix_Table) : bool :=
  String_Set.contains flag (all_cont_flags p).

End Suffix_Table.

Section Dict_Base.
(** The members of [Aff_Data] that affix stripping reads. The two affix
    tables are given by the vectors they are made of. [Hidden_Homonym] is
    declared outside these sources; the functions use a value of it as a
    condition only, so that it is a [bool] here. *)
Variable hash : list Z → N.
Variable words : @Hash_Multiset.Hash_Multiset Word.
Variable prefixes_vector : list Prefix.Prefix.
Variable suffixes_vector : list Suffix.Suffix.
Variables compound_onlyin_flag circumfix_flag need_affix_flag : Z.
Variables compound_flag compound_begin_flag compound_last_flag
          compound_middle_flag : Z.
Variables compound_permit_flag compound_forbid_flag : Z.

(** [char16_t(-1)] *)
Definition HIDDEN_HOMONYM_FLAG : Z := 65535.

Definition prefixes : Prefix_Table.Prefix_Table :=
  Prefix_Table.of_vector prefixes_vector.
Definition suffixes : Suffix_Table.Suffix_Table :=
  Suffix_Table.of_vector suffixes_vector.

Definition contains (flags : Flag_Set) (f : Z) : bool := String_Set.contains f flags.

(** [for (auto it = prefixes.iterate_prefixes_of(word); it; ++it)] and the
    same over the suffixes. *)
Definition for_prefixes_of {R} (body : Prefix.Prefix → M (option R)) : M (option R) :=
  for_each_prefix_of Prefix.appending id (Prefix_Table.table prefixes) body.

Definition for_suffixes_of {R} (body : Suffix.Suffix → M (option R)) : M (option R) :=
  for_each_prefix_of Suffix.appending reverse (Suffix_Table.table suffixes) body.

(** The loop over [dic.equal_range(word)], which reads the string. *)
Definition for_entries_of {R} (body : Word → option R) : M (option R) :=
  λ word,
    Done (for_each_entry body (Hash_Multiset.equal_range fst hash word words)) word.

(** The two overloads of [affix_NOT_valid]. *)
Class Affix_Valid (T : Type) := affix_NOT_valid : T → Affixing_Mode → bool.

Global Instance affix_NOT_valid_prefix : Affix_Valid Prefix.Prefix := λ e m,
  if bool_decide (m = FULL_WORD) && contains (Prefix.cont_flags e) compound_onlyin_flag
  then true
  else if bool_decide (m = AT_COMPOUND_END) &&
          negb (contains (Prefix.cont_flags e) compound_permit_flag)
  then true
  else if negb (bool_decide (m = FULL_WORD)) &&
          contains (Prefix.cont_flags e) compound_forbid_flag
  then true
  else false.

Global Instance affix_NOT_valid_suffix : Affix_Valid Suffix.Suffix := λ e m,
  if bool_decide (m = FULL_WORD) && contains (Suffix.cont_flags e) compound_onlyin_flag
  then true
  else if bool_decide (m = AT_COMPOUND_BEGIN) &&
          negb (contains (Suffix.cont_flags e) compound_permit_flag)
  then true
  else if negb (bool_decide (m = FULL_WORD)) &&
          contains (Suffix.cont_flags e) compound_forbid_flag
  then true
  else false.

Definition outer_affix_NOT_valid {T} `{Affix T} `{Affix_Valid T}
    (e : T) (m : Affixing_Mode) : bool :=
  if affix_NOT_valid e m then true
  else if contains (cont_flags e) need_affix_flag then true
  else false.

Definition is_circumfix {T} `{Affix T} (a : T) : bool :=
  contains (cont_flags a) circumfix_flag.

(** [cross_valid_inner_outer], for an inner affix and for the flags of a
    word. *)
Definition cross_valid_inner_outer {I O} `{Affix I} `{Affix O}
    (inner : I) (outer : O) : bool :=
  contains (cont_flags inner) (flag outer).

Definition cross_valid_word_outer {O} `{Affix O} (word_flags : Flag_Set) (afx : O) : bool :=
  contains word_flags (flag afx).

Definition is_valid_inside_compound (flags : Flag_Set) (m : Affixing_Mode) : bool :=
  if bool_decide (m = AT_COMPOUND_BEGIN) && negb (contains flags compound_flag) &&
     negb (contains flags compound_begin_flag)
  then false
  else if bool_decide (m = AT_COMPOUND_MIDDLE) && negb (contains flags compound_flag) &&
          negb (contains flags compound_middle_flag)
  then false
  else if bool_decide (m = AT_COMPOUND_END) && negb (contains flags compound_flag) &&
          negb (contains flags compound_last_flag)
  then false
  else true.

Definition strip_prefix_only
    (skip_hidden_homonym : bool) (m : Affixing_Mode) :
    M (option (Word * Prefix.Prefix)) :=
  for_prefixes_of (λ e word,
    if outer_affix_NOT_valid e m then continue word
    else if is_circumfix e then continue word
    else To_Root_Unroot_RAII e (λ word,
      if negb (check_condition e word) then continue word
      else for_entries_of (λ word_entry,
        let word_flags := word_entry.2 in
        if negb (cross_valid_word_outer word_flags e) then None
        else if bool_decide (m = FULL_WORD) &&
                contains word_flags compound_onlyin_flag then None
        else if skip_hidden_homonym && contains word_flags HIDDEN_HOMONYM_FLAG
        then None
        else if negb (is_valid_inside_compound word_flags m) &&
                negb (is_valid_inside_compound (cont_flags e) m) then None
        else Some (word_entry, e)) word) word).

Definition strip_suffix_only
    (skip_hidden_homonym : bool) (m : Affixing_Mode) :
    M (option (Word * Suffix.Suffix)) :=
  for_suffixes_of (λ e word,
    if outer_affix_NOT_valid e m then continue word
    else if negb (length (appending e) =? 0) &&
            bool_decide (m = AT_COMPOUND_END) &&
            contains (cont_flags e) compound_onlyin_flag then continue word
    else if is_circumfix e then continue word
    else To_Root_Unroot_RAII e (λ word,
      if negb (check_condition e word) then continue word
      else for_entries_of (λ word_entry,
        let word_flags := word_entry.2 in
        if negb (cross_valid_word_outer word_flags e) then None
        else if bool_decide (m = FULL_WORD) &&
                contains word_flags compound_onlyin_flag then None
        else if skip_hidden_homonym && contains word_flags HIDDEN_HOMONYM_FLAG
        then None
        else if negb (is_valid_inside_compound word_flags m) &&
                negb (is_valid_inside_compound (cont_flags e) m) then None
        else Some (word_entry, e)) word) word).

Definition strip_pfx_then_sfx_2 (pe : Prefix.Prefix)
    (skip_hidden_homonym : bool) (m : Affixing_Mode) :
    M (option (Word * Suffix.Suffix * Prefix.Prefix)) :=
  for_suffixes_of (λ se word,
    if negb (cross_product se) then continue word
    else if affix_NOT_valid se m then continue word
    else if negb (eqb (is_circumfix pe) (is_circumfix se)) then continue word
    else To_Root_Unroot_RAII se (λ word,
      if negb (check_condition se word) then continue word
      else for_entries_of (λ word_entry,
        let word_flags := word_entry.2 in
        if negb (cross_valid_inner_outer se pe) &&
           negb (cross_valid_word_outer word_flags pe) then None
        else if negb (cross_valid_word_outer word_flags se) then None
        else if bool_decide (m = FULL_WORD) &&
                contains word_flags compound_onlyin_flag then None
        else if skip_hidden_homonym && contains word_flags HIDDEN_HOMONYM_FLAG
        then None
        else if negb (is_valid_inside_compound word_flags m) &&
                negb (is_valid_inside_compound (cont_flags se) m) &&
                negb (is_valid_inside_compound (cont_flags pe) m) then None
        else Some (word_entry, se, pe)) word) word).

Definition strip_prefix_then_suffix
    (skip_hidden_homonym : bool) (m : Affixing_Mode) :
    M (option (Word * Suffix.Suffix * Prefix.Prefix)) :=
  for_prefixes_of (λ pe word,
    if negb (cross_product pe) then continue word
    else if outer_affix_NOT_valid pe m then continue word
    else To_Root_Unroot_RAII pe (λ word,
      if negb (check_condition pe word) then continue word
      else strip_pfx_then_sfx_2 pe skip_hidden_homonym m word) word).

Definition strip_sfx_then_pfx_2 (se : Suffix.Suffix)
    (skip_hidden_homonym : bool) (m : Affixing_Mode) :
    M (option (Word * Prefix.Prefix * Suffix.Suffix)) :=
  for_prefixes_of (λ pe word,
    if negb (cross_product pe) then continue word
    else if affix_NOT_valid pe m then continue word
    else if negb (eqb (is_circumfix pe) (is_circumfix se)) then continue word
    else To_Root_Unroot_RAII pe (λ word,
      if negb (check_condition pe word) then continue word
      else for_entries_of (λ word_entry,
        let word_flags := word_entry.2 in
        if negb (cross_valid_inner_outer pe se) &&
           negb (cross_valid_word_outer word_flags se) then None
        else if negb (cross_valid_word_outer word_flags pe) then None
        else if bool_decide (m = FULL_WORD) &&
                contains word_flags compound_onlyin_flag then None
        else if skip_hidden_homonym && contains word_flags HIDDEN_HOMONYM_FLAG
        then None
        else if negb (is_valid_inside_compound word_flags m) &&
                negb (is_valid_inside_compound (cont_flags se) m) &&
                negb (is_valid_inside_compound (cont_flags pe) m) then None
        else Some (word_entry, pe, se)) word) word).

Definition strip_suffix_then_prefix
    (skip_hidden_homonym : bool) (m : Affixing_Mode) :
    M (option (Word * Prefix.Prefix * Suffix.Suffix)) :=
  for_suffixes_of (λ se word,
    if negb (cross_product se) then continue word
    else if outer_affix_NOT_valid se m then continue word
    else To_Root_Unroot_RAII se (λ word,
      if negb (check_condition se word) then continue word
      else strip_sfx_then_pfx_2 se skip_hidden_homonym m word) word).

Definition strip_pfx_then_sfx_comm_2 (pe : Prefix.Prefix)
    (skip_hidden_homonym : bool) (m : Affixing_Mode) :
    M (option (Word * Suffix.Suffix * Prefix.Prefix)) :=
  let has_needaffix_pe := contains (cont_flags pe) need_affix_flag in
  let is_circumfix_pe := is_circumfix pe in
  for_suffixes_of (λ se word,
    if negb (cross_product se) then continue word
    else if affix_NOT_valid se m then continue word
    else
      let has_needaffix_se := contains (cont_flags se) need_affix_flag in
      if has_needaffix_pe && has_needaffix_se then continue word
      else if negb (eqb is_circumfix_pe (is_circumfix se)) then continue word
      else To_Root_Unroot_RAII se (λ word,
        if negb (check_condition se word) then continue word
        else for_entries_of (λ word_entry,
          let word_flags := word_entry.2 in
          let valid_cross_pe_outer :=
            negb has_needaffix_pe && cross_valid_word_outer word_flags se &&
            (cross_valid_inner_outer se pe ||
             cross_valid_word_outer word_flags pe) in
          let valid_cross_se_outer :=
            negb has_needaffix_se && cross_valid_word_outer word_flags pe &&
            (cross_valid_inner_outer pe se ||
             cross_valid_word_outer word_flags se) in
          if negb valid_cross_pe_outer && negb valid_cross_se_outer then None
          else if bool_decide (m = FULL_WORD) &&
                  contains word_flags compound_onlyin_flag
          then None
          else if skip_hidden_homonym && contains word_flags HIDDEN_HOMONYM_FLAG
          then None
          else if negb (is_valid_inside_compound word_flags m) &&
                  negb (is_valid_inside_compound (cont_flags se) m) &&
                  negb (is_valid_inside_compound (cont_flags pe) m)
          then None
          else Some (word_entry, se, pe)) word) word).

Definition strip_prefix_then_suffix_commutative
    (skip_hidden_homonym : bool) (m : Affixing_Mode) :
    M (option (Word * Suffix.Suffix * Prefix.Prefix)) :=
  for_prefixes_of (λ pe word,
    if negb (cross_product pe) then continue word
    else if affix_NOT_valid pe m then continue word
    else To_Root_Unroot_RAII pe (λ word,
      if negb (check_condition pe word) then continue word
      else strip_pfx_then_sfx_comm_2 pe skip_hidden_homonym m word) word).

Definition strip_sfx_then_sfx_2 (se1 : Suffix.Suffix)
    (skip_hidden_homonym : bool) (m : Affixing_Mode) :
    M (option (Word * Suffix.Suffix * Suffix.Suffix)) :=
  for_suffixes_of (λ se2 word,
    if negb (cross_valid_inner_outer se2 se1) then continue word
    else if affix_NOT_valid se2 m then continue word
    else if is_circumfix se2 then continue word
    else To_Root_Unroot_RAII se2 (λ word,
      if negb (check_condition se2 word) then continue word
      else for_entries_of (λ word_entry,
        let word_flags := word_entry.2 in
        if negb (cross_valid_word_outer word_flags se2) then None
        else if bool_decide (m = FULL_WORD) &&
                contains word_flags compound_onlyin_flag then None
        else if skip_hidden_homonym && contains word_flags HIDDEN_HOMONYM_FLAG
        then None
        else Some (word_entry, se2, se1)) word) word).

Definition strip_suffix_then_suffix
    (skip_hidden_homonym : bool) (m : Affixing_Mode) :
    M (option (Word * Suffix.Suffix * Suffix.Suffix)) := λ word,
  if negb (Suffix_Table.has_continuation_flags suffixes) then Done None word
  else
    for_suffixes_of (λ se1 word,
      if negb (Suffix_Table.has_continuation_flag (flag se1) suffixes)
      then continue word
      else if outer_affix_NOT_valid se1 m then continue word
      else if is_circumfix se1 then continue word
      else To_Root_Unroot_RAII se1 (λ word,
        if negb (check_condition se1 word) then continue word
        else strip_sfx_then_sfx_2 se1
               skip_hidden_homonym FULL_WORD word) word) word.

Definition strip_pfx_then_pfx_2 (pe1 : Prefix.Prefix)
    (skip_hidden_homonym : bool) (m : Affixing_Mode) :
    M (option (Word * Prefix.Prefix * Prefix.Prefix)) :=
  for_prefixes_of (λ pe2 word,
    if negb (cross_valid_inner_outer pe2 pe1) then continue word
    else if affix_NOT_valid pe2 m then continue word
    else if is_circumfix pe2 then continue word
    else To_Root_Unroot_RAII pe2 (λ word,
      if negb (check_condition pe2 word) then continue word
      else for_entries_of (λ word_entry,
        let word_flags := word_entry.2 in
        if negb (cross_valid_word_outer word_flags pe2) then None
        else if bool_decide (m = FULL_WORD) &&
                contains word_flags compound_onlyin_flag then None
        else if skip_hidden_homonym && contains word_flags HIDDEN_HOMONYM_FLAG
        then None
        else Some (word_entry, pe2, pe1)) word) word).

Definition strip_prefix_then_prefix
    (skip_hidden_homonym : bool) (m : Affixing_Mode) :
    M (option (Word * Prefix.Prefix * Prefix.Prefix)) := λ word,
  if negb (Prefix_Table.has_continuation_flags prefixes) then Done None word
  else
    for_prefixes_of (λ pe1 word,
      if negb (Prefix_Table.has_continuation_flag (flag pe1) prefixes)
      then continue word
      else if outer_affix_NOT_valid pe1 m then continue word
      else if is_circumfix pe1 then continue word
      else To_Root_Unroot_RAII pe1 (λ word,
        if negb (check_condition pe1 word) then continue word
        else strip_pfx_then_pfx_2 pe1
               skip_hidden_homonym FULL_WORD word) word) word.

Definition strip_pfx_2_sfx_3 (pe1 : Prefix.Prefix) (se1 : Suffix.Suffix)
    (skip_hidden_homonym : bool) (m : Affixing_Mode) :
    M (option Word) :=
  for_suffixes_of (λ se2 word,
    if negb (cross_valid_inner_outer se2 se1) then continue word
    else if affix_NOT_valid se2 m then continue word
    else if is_circumfix se2 then continue word
    else To_Root_Unroot_RAII se2 (λ word,
      if negb (check_condition se2 word) then continue word
      else for_entries_of (λ word_entry,
        let word_flags := word_entry.2 in
        if negb (cross_valid_inner_outer se1 pe1) &&
           negb (cross_valid_word_outer word_flags pe1) then None
        else if negb (cross_valid_word_outer word_flags se2) then None
        else if bool_decide (m = FULL_WORD) &&
                contains word_flags compound_onlyin_flag then None
        else if skip_hidden_homonym && contains word_flags HIDDEN_HOMONYM_FLAG
        then None
        else Some word_entry) word) word).

Definition strip_prefix_then_2_suffixes
    (skip_hidden_homonym : bool) (m : Affixing_Mode) :
    M (option Word) := λ word,
  if negb (Suffix_Table.has_continuation_flags suffixes) then Done None word
  else
    for_prefixes_of (λ pe1 word,
      if negb (cross_product pe1) then continue word
      else if outer_affix_NOT_valid pe1 m then continue word
      else To_Root_Unroot_RAII pe1 (λ word,
        if negb (check_condition pe1 word) then continue word
        else for_suffixes_of (λ se1 word,
          if negb (Suffix_Table.has_continuation_flag (flag se1) suffixes)
          then continue word
          else if negb (cross_product se1) then continue word
          else if affix_NOT_valid se1 m then continue word
          else if negb (eqb (is_circumfix pe1) (is_circumfix se1))
          then continue word
          else To_Root_Unroot_RAII se1 (λ word,
            if negb (check_condition se1 word) then continue word
            else strip_pfx_2_sfx_3 pe1 se1
                   skip_hidden_homonym FULL_WORD word) word) word) word) word.

Definition strip_s_p_s_3 (se1 : Suffix.Suffix) (pe1 : Prefix.Prefix)
    (skip_hidden_homonym : bool) (m : Affixing_Mode) :
    M (option Word) :=
  for_suffixes_of (λ se2 word,
    if negb (cross_product se2) then continue word
    else if negb (cross_valid_inner_outer se2 se1) &&
            negb (cross_valid_inner_outer pe1 se1) then continue word
    else if affix_NOT_valid se2 m then continue word
    else
    let circ1ok := eqb (is_circumfix pe1) (is_circumfix se1) &&
                   negb (is_circumfix se2) in
    let circ2ok := eqb (is_circumfix pe1) (is_circumfix se2) &&
                   negb (is_circumfix se1) in
    if negb circ1ok && negb circ2ok then continue word
    else To_Root_Unroot_RAII se2 (λ word,
      if negb (check_condition se2 word) then continue word
      else for_entries_of (λ word_entry,
        let word_flags := word_entry.2 in
        if negb (cross_valid_inner_outer se2 pe1) &&
           negb (cross_valid_word_outer word_flags pe1) then None
        else if negb (cross_valid_word_outer word_flags se2) then None
        else if bool_decide (m = FULL_WORD) &&
                contains word_flags compound_onlyin_flag then None
        else if skip_hidden_homonym && contains word_flags HIDDEN_HOMONYM_FLAG
        then None
        else Some word_entry) word) word).

Definition strip_suffix_prefix_suffix
    (skip_hidden_homonym : bool) (m : Affixing_Mode) :
    M (option Word) := λ word,
  if negb (Suffix_Table.has_continuation_flags suffixes) &&
     negb (Prefix_Table.has_continuation_flags prefixes) then Done None word
  else
    for_suffixes_of (λ se1 word,
      if negb (Suffix_Table.has_continuation_flag (flag se1) suffixes) &&
         negb (Prefix_Table.has_continuation_flag (flag se1) prefixes)
      then continue word
      else if negb (cross_product se1) then continue word
      else if outer_affix_NOT_valid se1 m then continue word
      else To_Root_Unroot_RAII se1 (λ word,
        if negb (check_condition se1 word) then continue word
        else for_prefixes_of (λ pe1 word,
          if negb (cross_product pe1) then continue word
          else if affix_NOT_valid pe1 m then continue word
          else To_Root_Unroot_RAII pe1 (λ word,
            if negb (check_condition pe1 word) then continue word
            else strip_s_p_s_3 se1 pe1
                   skip_hidden_homonym FULL_WORD word) word) word) word) word.

Definition strip_2_sfx_pfx_3 (se1 : Suffix.Suffix) (se2 : Suffix.Suffix)
    (skip_hidden_homonym : bool) (m : Affixing_Mode) :
    M (option Word) :=
  for_prefixes_of (λ pe1 word,
    if negb (cross_product pe1) then continue word
    else if negb (cross_valid_inner_outer se2 se1) &&
            negb (cross_valid_inner_outer pe1 se1) then continue word
    else if affix_NOT_valid pe1 m then continue word
    else if negb (eqb (is_circumfix se2) (is_circumfix pe1)) then continue word
    else To_Root_Unroot_RAII pe1 (λ word,
      if negb (check_condition pe1 word) then continue word
      else for_entries_of (λ word_entry,
        let word_flags := word_entry.2 in
        if negb (cross_valid_inner_outer pe1 se2) &&
           negb (cross_valid_word_outer word_flags se2) then None
        else if negb (cross_valid_word_outer word_flags pe1) then None
        else if bool_decide (m = FULL_WORD) &&
                contains word_flags compound_onlyin_flag then None
        else if skip_hidden_homonym && contains word_flags HIDDEN_HOMONYM_FLAG
        then None
        else Some word_entry) word) word).

Definition strip_2_suffixes_then_prefix
    (skip_hidden_homonym : bool) (m : Affixing_Mode) :
    M (option Word) := λ word,
  if negb (Suffix_Table.has_continuation_flags suffixes) &&
     negb (Prefix_Table.has_continuation_flags prefixes) then Done None word
  else
    for_suffixes_of (λ se1 word,
      if negb (Suffix_Table.has_continuation_flag (flag se1) suffixes) &&
         negb (Prefix_Table.has_continuation_flag (flag se1) prefixes)
      then continue word
      else if outer_affix_NOT_valid se1 m then continue word
      else if is_circumfix se1 then continue word
      else To_Root_Unroot_RAII se1 (λ word,
        if negb (check_condition se1 word) then continue word
        else for_suffixes_of (λ se2 word,
          if negb (cross_product se2) then continue word
          else if affix_NOT_valid se2 m then continue word
          else To_Root_Unroot_RAII se2 (λ word,
            if negb (check_condition se2 word) then continue word
            else strip_2_sfx_pfx_3 se1 se2
                   skip_hidden_homonym FULL_WORD word) word) word) word) word.

Definition strip_sfx_2_pfx_3 (se1 : Suffix.Suffix) (pe1 : Prefix.Prefix)
    (skip_hidden_homonym : bool) (m : Affixing_Mode) :
    M (option Word) :=
  for_prefixes_of (λ pe2 word,
    if negb (cross_valid_inner_outer pe2 pe1) then continue word
    else if affix_NOT_valid pe2 m then continue word
    else if is_circumfix pe2 then continue word
    else To_Root_Unroot_RAII pe2 (λ word,
      if negb (check_condition pe2 word) then continue word
      else for_entries_of (λ word_entry,
        let word_flags := word_entry.2 in
        if negb (cross_valid_inner_outer pe1 se1) &&
           negb (cross_valid_word_outer word_flags se1) then None
        else if negb (cross_valid_word_outer word_flags pe2) then None
        else if bool_decide (m = FULL_WORD) &&
                contains word_flags compound_onlyin_flag then None
        else if skip_hidden_homonym && contains word_flags HIDDEN_HOMONYM_FLAG
        then None
        else Some word_entry) word) word).

Definition strip_suffix_then_2_prefixes
    (skip_hidden_homonym : bool) (m : Affixing_Mode) :
    M (option Word) := λ word,
  if negb (Prefix_Table.has_continuation_flags prefixes) then Done None word
  else
    for_suffixes_of (λ se1 word,
      if negb (cross_product se1) then continue word
      else if outer_affix_NOT_valid se1 m then continue word
      else To_Root_Unroot_RAII se1 (λ word,
        if negb (check_condition se1 word) then continue word
        else for_prefixes_of (λ pe1 word,
          if negb (Prefix_Table.has_continuation_flag (flag pe1) prefixes)
          then continue word
          else if negb (cross_product pe1) then continue word
          else if affix_NOT_valid pe1 m then continue word
          else if negb (eqb (is_circumfix se1) (is_circumfix pe1))
          then continue word
          else To_Root_Unroot_RAII pe1 (λ word,
            if negb (check_condition pe1 word) then continue word
            else strip_sfx_2_pfx_3 se1 pe1
                   skip_hidden_homonym FULL_WORD word) word) word) word) word.

Definition strip_p_s_p_3 (pe1 : Prefix.Prefix) (se1 : Suffix.Suffix)
    (skip_hidden_homonym : bool) (m : Affixing_Mode) :
    M (option Word) :=
  for_prefixes_of (λ pe2 word,
    if negb (cross_product pe2) then continue word
    else if negb (cross_valid_inner_outer pe2 pe1) &&
            negb (cross_valid_inner_outer se1 pe1) then continue word
    else if affix_NOT_valid pe2 m then continue word
    else
    let circ1ok := eqb (is_circumfix se1) (is_circumfix pe1) &&
                   negb (is_circumfix pe2) in
    let circ2ok := eqb (is_circumfix se1) (is_circumfix pe2) &&
                   negb (is_circumfix pe1) in
    if negb circ1ok && negb circ2ok then continue word
    else To_Root_Unroot_RAII pe2 (λ word,
      if negb (check_condition pe2 word) then continue word
      else for_entries_of (λ word_entry,
        let word_flags := word_entry.2 in
        if negb (cross_valid_inner_outer pe2 se1) &&
           negb (cross_valid_word_outer word_flags se1) then None
        else if negb (cross_valid_word_outer word_flags pe2) then None
        else if bool_decide (m = FULL_WORD) &&
                contains word_flags compound_onlyin_flag then None
        else if skip_hidden_homonym && contains word_flags HIDDEN_HOMONYM_FLAG
        then None
        else Some word_entry) word) word).

Definition strip_prefix_suffix_prefix
    (skip_hidden_homonym : bool) (m : Affixing_Mode) :
    M (option Word) := λ word,
  if negb (Prefix_Table.has_continuation_flags prefixes) &&
     negb (Suffix_Table.has_continuation_flags suffixes) then Done None word
  else
    for_prefixes_of (λ pe1 word,
      if negb (Prefix_Table.has_continuation_flag (flag pe1) prefixes) &&
         negb (Suffix_Table.has_continuation_flag (flag pe1) suffixes)
      then continue word
      else if negb (cross_product pe1) then continue word
      else if outer_affix_NOT_valid pe1 m then continue word
      else To_Root_Unroot_RAII pe1 (λ word,
        if negb (check_condition pe1 word) then continue word
        else for_suffixes_of (λ se1 word,
          if negb (cross_product se1) then continue word
          else if affix_NOT_valid se1 m then continue word
          else To_Root_Unroot_RAII se1 (λ word,
            if negb (check_condition se1 word) then continue word
            else strip_p_s_p_3 pe1 se1
                   skip_hidden_homonym FULL_WORD word) word) word) word) word.

Definition strip_2_pfx_sfx_3 (pe1 : Prefix.Prefix) (pe2 : Prefix.Prefix)
    (skip_hidden_homonym : bool) (m : Affixing_Mode) :
    M (option Word) :=
  for_suffixes_of (λ se1 word,
    if negb (cross_product se1) then continue word
    else if negb (cross_valid_inner_outer pe2 pe1) &&
            negb (cross_valid_inner_outer se1 pe1) then continue word
    else if affix_NOT_valid se1 m then continue word
    else if negb (eqb (is_circumfix pe2) (is_circumfix se1)) then continue word
    else To_Root_Unroot_RAII se1 (λ word,
      if negb (check_condition se1 word) then continue word
      else for_entries_of (λ word_entry,
        let word_flags := word_entry.2 in
        if negb (cross_valid_inner_outer se1 pe2) &&
           negb (cross_valid_word_outer word_flags pe2) then None
        else if negb (cross_valid_word_outer word_flags se1) then None
        else if bool_decide (m = FULL_WORD) &&
                contains word_flags compound_onlyin_flag then None
        else if skip_hidden_homonym && contains word_flags HIDDEN_HOMONYM_FLAG
        then None
        else Some word_entry) word) word).

Definition strip_2_prefixes_then_suffix
    (skip_hidden_homonym : bool) (m : Affixing_Mode) :
    M (option Word) := λ word,
  if negb (Prefix_Table.has_continuation_flags prefixes) &&
     negb (Suffix_Table.has_continuation_flags suffixes) then Done None word
  else
    for_prefixes_of (λ pe1 word,
      if negb (Prefix_Table.has_continuation_flag (flag pe1) prefixes) &&
         negb (Suffix_Table.has_continuation_flag (flag pe1) suffixes)
      then continue word
      else if outer_affix_NOT_valid pe1 m then continue word
      else if is_circumfix pe1 then continue word
      else To_Root_Unroot_RAII pe1 (λ word,
        if negb (check_condition pe1 word) then continue word
        else for_prefixes_of (λ pe2 word,
          if negb (cross_product pe2) then continue word
          else if affix_NOT_valid pe2 m then continue word
          else To_Root_Unroot_RAII pe2 (λ word,
            if negb (check_condition pe2 word) then continue word
            else strip_2_pfx_sfx_3 pe1 pe2
                   skip_hidden_homonym FULL_WORD word) word) word) word) word.

(** *** The string after a call *)

Lemma unchanged_for_entries_of {R} (body : Word → option R) word :
  unchanged (for_entries_of body word) word.
Proof. apply unchanged_Done. Qed.

Lemma unchanged_for_prefixes_of {R} (body : Prefix.Prefix → M (option R)) word :
  (∀ e, restores e word → unchanged (body e word) word) →
  unchanged (for_prefixes_of body word) word.
Proof.
  intros Hbody. apply unchanged_for_each_prefix_of.
  - apply Prefix_Multiset.sort_set_ok.
  - intros e Hpre. by apply Hbody, Prefix.prefix_to_root_to_derived.
Qed.

Lemma unchanged_for_suffixes_of {R} (body : Suffix.Suffix → M (option R)) word :
  (∀ e, restores e word → unchanged (body e word) word) →
  unchanged (for_suffixes_of body word) word.
Proof.
  intros Hbody. apply unchanged_for_each_prefix_of.
  - apply Prefix_Multiset.sort_set_ok.
  - intros e Hpre. apply Hbody, Suffix.suffix_to_root_to_derived.
    by apply suffix_prefix_reverse.
Qed.

Create HintDb unchanged.

Ltac unchanged_step :=
  lazymatch goal with
  | |- unchanged (continue _) _ => apply unchanged_continue
  | |- unchanged (Done _ _) _ => apply unchanged_Done
  | |- unchanged (for_entries_of _ _) _ => apply unchanged_for_entries_of
  | |- unchanged (if ?b then _ else _) _ => destruct b
  | |- unchanged (To_Root_Unroot_RAII _ _ _) _ =>
      apply unchanged_RAII; [assumption|intros ?]
  | |- unchanged (for_prefixes_of _ _) _ =>
      apply unchanged_for_prefixes_of; intros ? ?
  | |- unchanged (for_suffixes_of _ _) _ =>
      apply unchanged_for_suffixes_of; intros ? ?
  | |- _ => solve [auto with unchanged]
  end.

Ltac unchanged_tac f := unfold f; repeat (cbv beta zeta; unchanged_step).

Lemma strip_prefix_only_unchanged skip_hidden_homonym m word :
  unchanged (strip_prefix_only skip_hidden_homonym m word) word.
Proof. unchanged_tac strip_prefix_only. Qed.
#[local] Hint Resolve strip_prefix_only_unchanged : unchanged.

Lemma strip_suffix_only_unchanged skip_hidden_homonym m word :
  unchanged (strip_suffix_only skip_hidden_homonym m word) word.
Proof. unchanged_tac strip_suffix_only. Qed.
#[local] Hint Resolve strip_suffix_only_unchanged : unchanged.

Lemma strip_pfx_then_sfx_2_unchanged (pe : Prefix.Prefix) skip_hidden_homonym m word :
  unchanged (strip_pfx_then_sfx_2 pe skip_hidden_homonym m word) word.
Proof. unchanged_tac strip_pfx_then_sfx_2. Qed.
#[local] Hint Resolve strip_pfx_then_sfx_2_unchanged : unchanged.

Lemma strip_prefix_then_suffix_unchanged skip_hidden_homonym m word :
  unchanged (strip_prefix_then_suffix skip_hidden_homonym m word) word.
Proof. unchanged_tac strip_prefix_then_suffix. Qed.
#[local] Hint Resolve strip_prefix_then_suffix_unchanged : unchanged.

Lemma strip_sfx_then_pfx_2_unchanged (se : Suffix.Suffix) skip_hidden_homonym m word :
  unchanged (strip_sfx_then_pfx_2 se skip_hidden_homonym m word) word.
Proof. unchanged_tac strip_sfx_then_pfx_2. Qed.
#[local] Hint Resolve strip_sfx_then_pfx_2_unchanged : unchanged.

Lemma strip_suffix_then_prefix_unchanged skip_hidden_homonym m word :
  unchanged (strip_suffix_then_prefix skip_hidden_homonym m word) word.
Proof. unchanged_tac strip_suffix_then_prefix. Qed.
#[local] Hint Resolve strip_suffix_then_prefix_unchanged : unchanged.

Lemma strip_pfx_then_sfx_comm_2_unchanged (pe : Prefix.Prefix) skip_hidden_homonym m word :
  unchanged (strip_pfx_then_sfx_comm_2 pe skip_hidden_homonym m word) word.
Proof. unchanged_tac strip_pfx_then_sfx_comm_2. Qed.
#[local] Hint Resolve strip_pfx_then_sfx_comm_2_unchanged : unchanged.

Lemma strip_prefix_then_suffix_commutative_unchanged skip_hidden_homonym m word :
  unchanged (strip_prefix_then_suffix_commutative skip_hidden_homonym m word) word.
Proof. unchanged_tac strip_prefix_then_suffix_commutative. Qed.
#[local] Hint Resolve strip_prefix_then_suffix_commutative_unchanged : unchanged.

Lemma strip_sfx_then_sfx_2_unchanged (se1 : Suffix.Suffix) skip_hidden_homonym m word :
  unchanged (strip_sfx_then_sfx_2 se1 skip_hidden_homonym m word) word.
Proof. unchanged_tac strip_sfx_then_sfx_2. Qed.
#[local] Hint Resolve strip_sfx_then_sfx_2_unchanged : unchanged.

Lemma strip_suffix_then_suffix_unchanged skip_hidden_homonym m word :
  unchanged (strip_suffix_then_suffix skip_hidden_homonym m word) word.
Proof. unchanged_tac strip_suffix_then_suffix. Qed.
#[local] Hint Resolve strip_suffix_then_suffix_unchanged : unchanged.

Lemma strip_pfx_then_pfx_2_unchanged (pe1 : Prefix.Prefix) skip_hidden_homonym m word :
  unchanged (strip_pfx_then_pfx_2 pe1 skip_hidden_homonym m word) word.
Proof. unchanged_tac strip_pfx_then_pfx_2. Qed.
#[local] Hint Resolve strip_pfx_then_pfx_2_unchanged : unchanged.

Lemma strip_prefix_then_prefix_unchanged skip_hidden_homonym m word :
  unchanged (strip_prefix_then_prefix skip_hidden_homonym m word) word.
Proof. unchanged_tac strip_prefix_then_prefix. Qed.
#[local] Hint Resolve strip_prefix_then_prefix_unchanged : unchanged.

Lemma strip_pfx_2_sfx_3_unchanged (pe1 : Prefix.Prefix) (se1 : Suffix.Suffix) skip_hidden_homonym m word :
  unchanged (strip_pfx_2_sfx_3 pe1 se1 skip_hidden_homonym m word) word.
Proof. unchanged_tac strip_pfx_2_sfx_3. Qed.
#[local] Hint Resolve strip_pfx_2_sfx_3_unchanged : unchanged.

Lemma strip_prefix_then_2_suffixes_unchanged skip_hidden_homonym m word :
  unchanged (strip_prefix_then_2_suffixes skip_hidden_homonym m word) word.
Proof. unchanged_tac strip_prefix_then_2_suffixes. Qed.
#[local] Hint Resolve strip_prefix_then_2_suffixes_unchanged : unchanged.

Lemma strip_s_p_s_3_unchanged (se1 : Suffix.Suffix) (pe1 : Prefix.Prefix) skip_hidden_homonym m word :
  unchanged (strip_s_p_s_3 se1 pe1 skip_hidden_homonym m word) word.
Proof. unchanged_tac strip_s_p_s_3. Qed.
#[local] Hint Resolve strip_s_p_s_3_unchanged : unchanged.

Lemma strip_suffix_prefix_suffix_unchanged skip_hidden_homonym m word :
  unchanged (strip_suffix_prefix_suffix skip_hidden_homonym m word) word.
Proof. unchanged_tac strip_suffix_prefix_suffix. Qed.
#[local] Hint Resolve strip_suffix_prefix_suffix_unchanged : unchanged.

Lemma strip_2_sfx_pfx_3_unchanged (se1 : Suffix.Suffix) (se2 : Suffix.Suffix) skip_hidden_homonym m word :
  unchanged (strip_2_sfx_pfx_3 se1 se2 skip_hidden_homonym m word) word.
Proof. unchanged_tac strip_2_sfx_pfx_3. Qed.
#[local] Hint Resolve strip_2_sfx_pfx_3_unchanged : unchanged.

Lemma strip_2_suffixes_then_prefix_unchanged skip_hidden_homonym m word :
  unchanged (strip_2_suffixes_then_prefix skip_hidden_homonym m word) word.
Proof. unchanged_tac strip_2_suffixes_then_prefix. Qed.
#[local] Hint Resolve strip_2_suffixes_then_prefix_unchanged : unchanged.

Lemma strip_sfx_2_pfx_3_unchanged (se1 : Suffix.Suffix) (pe1 : Prefix.Prefix) skip_hidden_homonym m word :
  unchanged (strip_sfx_2_pfx_3 se1 pe1 skip_hidden_homonym m word) word.
Proof. unchanged_tac strip_sfx_2_pfx_3. Qed.
#[local] Hint Resolve strip_sfx_2_pfx_3_unchanged : unchanged.

Lemma strip_suffix_then_2_prefixes_unchanged skip_hidden_homonym m word :
  unchanged (strip_suffix_then_2_prefixes skip_hidden_homonym m word) word.
Proof. unchanged_tac strip_suffix_then_2_prefixes. Qed.
#[local] Hint Resolve strip_suffix_then_2_prefixes_unchanged : unchanged.

Lemma strip_p_s_p_3_unchanged (pe1 : Prefix.Prefix) (se1 : Suffix.Suffix) skip_hidden_homonym m word :
  unchanged (strip_p_s_p_3 pe1 se1 skip_hidden_homonym m word) word.
Proof. unchanged_tac strip_p_s_p_3. Qed.
#[local] Hint Resolve strip_p_s_p_3_unchanged : unchanged.

Lemma strip_prefix_suffix_prefix_unchanged skip_hidden_homonym m word :
  unchanged (strip_prefix_suffix_prefix skip_hidden_homonym m word) word.
Proof. unchanged_tac strip_prefix_suffix_prefix. Qed.
#[local] Hint Resolve strip_prefix_suffix_prefix_unchanged : unchanged.

Lemma strip_2_pfx_sfx_3_unchanged (pe1 : Prefix.Prefix) (pe2 : Prefix.Prefix) skip_hidden_homonym m word :
  unchanged (strip_2_pfx_sfx_3 pe1 pe2 skip_hidden_homonym m word) word.
Proof. unchanged_tac strip_2_pfx_sfx_3. Qed.
#[local] Hint Resolve strip_2_pfx_sfx_3_unchanged : unchanged.

Lemma strip_2_prefixes_then_suffix_unchanged skip_hidden_homonym m word :
  unchanged (strip_2_prefixes_then_suffix skip_hidden_homonym m word) word.
Proof. unchanged_tac strip_2_prefixes_then_suffix. Qed.
#[local] Hint Resolve strip_2_prefixes_then_suffix_unchanged : unchanged.

(** The function returns, and the string it was given is as it was. *)
Definition leaves_word_unchanged {A} (f : bool → Affixing_Mode → M A) : Prop :=
  ∀ skip_hidden_homonym m word, ∃ r, f skip_hidden_homonym m word = Done r word.

(** C9. Every affix-stripping function leaves its word argument unchanged on
    return: for every dictionary (its word list, the vectors its two affix
    tables are made of, its flags), every affixing mode and every input
    word, each of the [strip_*] functions returns, with or without a match,
    and the string passed to it then holds its original value. *)
Theorem strip_functions_leave_word_unchanged :
  leaves_word_unchanged strip_prefix_only ∧
  leaves_word_unchanged strip_suffix_only ∧
  leaves_word_unchanged strip_prefix_then_suffix ∧
  (∀ pe, leaves_word_unchanged (strip_pfx_then_sfx_2 pe)) ∧
  leaves_word_unchanged strip_suffix_then_prefix ∧
  (∀ se, leaves_word_unchanged (strip_sfx_then_pfx_2 se)) ∧
  leaves_word_unchanged strip_prefix_then_suffix_commutative ∧
  (∀ pe, leaves_word_unchanged (strip_pfx_then_sfx_comm_2 pe)) ∧
  leaves_word_unchanged strip_suffix_then_suffix ∧
  (∀ se1, leaves_word_unchanged (strip_sfx_then_sfx_2 se1)) ∧
  leaves_word_unchanged strip_prefix_then_prefix ∧
  (∀ pe1, leaves_word_unchanged (strip_pfx_then_pfx_2 pe1)) ∧
  leaves_word_unchanged strip_prefix_then_2_suffixes ∧
  (∀ pe1 se1, leaves_word_unchanged (strip_pfx_2_sfx_3 pe1 se1)) ∧
  leaves_word_unchanged strip_suffix_prefix_suffix ∧
  (∀ se1 pe1, leaves_word_unchanged (strip_s_p_s_3 se1 pe1)) ∧
  leaves_word_unchanged strip_2_suffixes_then_prefix ∧
  (∀ se1 se2, leaves_word_unchanged (strip_2_sfx_pfx_3 se1 se2)) ∧
  leaves_word_unchanged strip_suffix_then_2_prefixes ∧
  (∀ se1 pe1, leaves_word_unchanged (strip_sfx_2_pfx_3 se1 pe1)) ∧
  leaves_word_unchanged strip_prefix_suffix_prefix ∧
  (∀ pe1 se1, leaves_word_unchanged (strip_p_s_p_3 pe1 se1)) ∧
  leaves_word_unchanged strip_2_prefixes_then_suffix ∧
  (∀ pe1 pe2, leaves_word_unchanged (strip_2_pfx_sfx_3 pe1 pe2)).
Proof.
  unfold leaves_word_unchanged. split_and!; intros.
  - apply strip_prefix_only_unchanged.
  - apply strip_suffix_only_unchanged.
  - apply strip_prefix_then_suffix_unchanged.
  - apply strip_pfx_then_sfx_2_unchanged.
  - apply strip_suffix_then_prefix_unchanged.
  - apply strip_sfx_then_pfx_2_unchanged.
  - apply strip_prefix_then_suffix_commutative_unchanged.
  - apply strip_pfx_then_sfx_comm_2_unchanged.
  - apply strip_suffix_then_suffix_unchanged.
  - apply strip_sfx_then_sfx_2_unchanged.
  - apply strip_prefix_then_prefix_unchanged.
  - apply strip_pfx_then_pfx_2_unchanged.
  - apply strip_prefix_then_2_suffixes_unchanged.
  - apply strip_pfx_2_sfx_3_unchanged.
  - apply strip_suffix_prefix_suffix_unchanged.
  - apply strip_s_p_s_3_unchanged.
  - apply strip_2_suffixes_then_prefix_unchanged.
  - apply strip_2_sfx_pfx_3_unchanged.
  - apply strip_suffix_then_2_prefixes_unchanged.
  - apply strip_sfx_2_pfx_3_unchanged.
  - apply strip_prefix_suffix_prefix_unchanged.
  - apply strip_p_s_p_3_unchanged.
  - apply strip_2_prefixes_then_suffix_unchanged.
  - apply strip_2_pfx_sfx_3_unchanged.
Qed.

End Dict_Base.

(** A small dictionary: the stem "do" with the flags A and B, the prefix
    "un" with flag A and the suffix "s" with flag B, both cross products.
    Stripping "undos" finds the stem, rooting the string to "dos" and to
    "do" on the way, and returns with "undos" in the string. *)
Definition example_hash (w : list Z) : N := N.of_nat (length w).

Definition example_condition : Condition.Condition :=
  match Condition.Condition_of [46%Z] with
  | Condition.Ok c => c
  | _ => Condition.mk [] [] 0
  end.

Definition example_un : Prefix.Prefix :=
  Prefix.mk 65 true [] [117; 110]%Z (String_Set.of_str []) example_condition.

Definition example_s : Suffix.Suffix :=
  Suffix.mk 66 true [] [115]%Z (String_Set.of_str []) example_condition.

Definition example_do : Word := ([100; 111]%Z, String_Set.of_str [65; 66]%Z).

Definition example_words : @Hash_Multiset.Hash_Multiset Word :=
  default Hash_Multiset.empty_set
    (Hash_Multiset.insert fst example_hash example_do Hash_Multiset.empty_set).

Example example_strip_undos :
  strip_prefix_then_suffix_commutative example_hash example_words
    [example_un] [example_s] 1 2 3 4 5 6 7 8 9 false FULL_WORD
    [117; 110; 100; 111; 115]%Z
  = Done (Some (example_do, example_s, example_un)) [117; 110; 100; 111; 115]%Z.
Proof. vm_compute. reflexivity. Qed.

Example example_strip_undo :
  strip_prefix_only example_hash example_words [example_un] 1 2 3 4 5 6 7 8 9
    false FULL_WORD [117; 110; 100; 111]%Z
  = Done (Some (example_do, example_un)) [117; 110; 100; 111]%Z.
Proof. vm_compute. reflexivity. Qed.

Example example_strip_dos_no_match :
  strip_prefix_only example_hash example_words [example_un] 1 2 3 4 5 6 7 8 9
    false FULL_WORD [100; 111; 115]%Z
  = Done None [100; 111; 115]%Z.
Proof. vm_compute. reflexivity. Qed.

End Affixing.

(** ** Suggestions: [Replacement_Table] and [Similarity_Group] of
       structures.hxx, [Dict_Base::suggest_priv] and the functions it calls *)

Module Replacement_Table.
Import Std.

Definition ch_caret : Z := 94.
Definition ch_dollar : Z := 36.

Record Replacement_Table := mk {
  table : list (list Z * list Z);
  whole_word_reps_last_idx : nat;
  start_word_reps_last_idx : nat;
  end_word_reps_last_idx : nat
}.

Definition front (s : list Z) : Z := default 0%Z (head s).
Definition back (s : list Z) : Z := default 0%Z (last s).

(** [e.first.erase(0, 1)] and [e.first.pop_back()] *)
Definition erase_first (e : list Z * list Z) : list Z * list Z :=
  (erase_range 0 1 e.1, e.2).
Definition pop_back (e : list Z * list Z) : list Z * list Z :=
  (take (length e.1 - 1) e.1, e.2).

(** [Replacement_Table::order_entries]. [std::partition] may reorder the
    entries inside each group; the stable partition stands for it. *)
Definition order_entries (v : list (list Z * list Z)) : Replacement_Table :=
  let removed (p : list Z * list Z) : bool :=
    let s := p.1 in
    (length s =? 0) ||
    ((length s =? 1) && ((front s =? ch_caret)%Z || (front s =? ch_dollar)%Z)) in
  let table := List.filter (λ p, negb (removed p)) v in
  let is_start_word_pat (x : list Z * list Z) := (front x.1 =? ch_caret)%Z in
  let is_end_word_pat (x : list Z * list Z) := (back x.1 =? ch_dollar)%Z in
  let starts := map erase_first (List.filter is_start_word_pat table) in
  let rest := List.filter (λ x, negb (is_start_word_pat x)) table in
  let wholes := map pop_back (List.filter is_end_word_pat starts) in
  let starts := List.filter (λ x, negb (is_end_word_pat x)) starts in
  let ends := map pop_back (List.filter is_end_word_pat rest) in
  let anys := List.filter (λ x, negb (is_end_word_pat x)) rest in
  mk (wholes ++ starts ++ ends ++ anys) (length wholes)
    (length wholes + length starts)
    (length wholes + length starts + length ends).

Definition whole_word_replacements (t : Replacement_Table) :=
  slice_range 0 (whole_word_reps_last_idx t) (table t).
Definition start_word_replacements (t : Replacement_Table) :=
  slice_range (whole_word_reps_last_idx t) (start_word_reps_last_idx t) (table t).
Definition end_word_replacements (t : Replacement_Table) :=
  slice_range (start_word_reps_last_idx t) (end_word_reps_last_idx t) (table t).
Definition any_place_replacements (t : Replacement_Table) :=
  drop (end_word_reps_last_idx t) (table t).

(** *** The four groups of a table built by [order_entries] *)

Definition kept (p : list Z * list Z) : bool :=
  negb ((length p.1 =? 0) ||
        ((length p.1 =? 1) && ((front p.1 =? ch_caret)%Z || (front p.1 =? ch_dollar)%Z))).

Lemma order_entries_accessors v :
  let t := order_entries v in
  let table := List.filter kept v in
  let starts := map erase_first (List.filter (λ x, (front x.1 =? ch_caret)%Z) table) in
  let rest := List.filter (λ x, negb (front x.1 =? ch_caret)%Z) table in
  whole_word_replacements t
    = map pop_back (List.filter (λ x, (back x.1 =? ch_dollar)%Z) starts) ∧
  start_word_replacements t
    = List.filter (λ x, negb (back x.1 =? ch_dollar)%Z) starts ∧
  end_word_replacements t
    = map pop_back (List.filter (λ x, (back x.1 =? ch_dollar)%Z) rest) ∧
  any_place_replacements t
    = List.filter (λ x, negb (back x.1 =? ch_dollar)%Z) rest.
Proof.
  unfold whole_word_replacements, start_word_replacements,
    end_word_replacements, any_place_replacements, order_entries, slice_range.
  simpl. fold kept.
  set (table := List.filter kept v).
  set (starts := map erase_first (List.filter (λ x, (front x.1 =? ch_caret)%Z) table)).
  set (rest := List.filter (λ x, negb (front x.1 =? ch_caret)%Z) table).
  set (wholes := map pop_back (List.filter (λ x, (back x.1 =? ch_dollar)%Z) starts)).
  set (starts' := List.filter (λ x, negb (back x.1 =? ch_dollar)%Z) starts).
  set (ends := map pop_back (List.filter (λ x, (back x.1 =? ch_dollar)%Z) rest)).
  set (anys := List.filter (λ x, negb (back x.1 =? ch_dollar)%Z) rest).
  split_and!.
  - rewrite Nat.sub_0_r, drop_0. by rewrite take_app_length.
  - rewrite drop_app_length.
    replace (length wholes + length starts' - length wholes) with (length starts') by lia.
    by rewrite take_app_length.
  - rewrite <- length_app, app_assoc, drop_app_length.
    replace (length (wholes ++ starts') + length ends - length (wholes ++ starts'))
      with (length ends) by lia.
    by rewrite take_app_length.
  - rewrite <- !length_app, !app_assoc. by rewrite drop_app_length.
Qed.

Lemma back_snoc p c : back (p ++ [c]) = c.
Proof. unfold back. by rewrite last_snoc. Qed.

Lemma pop_back_snoc (x : list Z) :
  x ≠ [] → take (length x - 1) x ++ [back x] = x.
Proof.
  intros Hx. induction x as [|c x IH] using rev_ind; [done|].
  rewrite back_snoc, length_app. simpl.
  replace (length x + 1 - 1) with (length x) by lia.
  by rewrite take_app_length.
Qed.

Lemma take_snoc_pop (k : list Z) c : take (length (k ++ [c]) - 1) (k ++ [c]) = k.
Proof.
  rewrite length_app. simpl. replace (length k + 1 - 1) with (length k) by lia.
  by rewrite take_app_length.
Qed.

(** The entries that begin with [^], the mark taken off. *)
Lemma elem_of_starts v k r :
  (k, r) ∈ map erase_first
             (List.filter (λ x, (front x.1 =? ch_caret)%Z) (List.filter kept v))
  ↔ (ch_caret :: k, r) ∈ v ∧ k ≠ [].
Proof.
  rewrite elem_of_map_list. split.
  - intros ([x r'] & Heq & Hx).
    apply elem_of_filter_list in Hx as [Hx Hc].
    apply elem_of_filter_list in Hx as [Hx Hkeep].
    destruct x as [|c x]; [done|].
    unfold erase_first, erase_range in Heq. simpl in Heq.
    rewrite drop_0 in Heq. injection Heq as <- <-.
    unfold front in Hc. simpl in Hc.
    apply Z.eqb_eq in Hc as ->. split; [done|].
    unfold kept, front in Hkeep. simpl in Hkeep. by destruct x.
  - intros [Hin Hk]. exists (ch_caret :: k, r). split.
    + unfold erase_first, erase_range. simpl. by rewrite drop_0.
    + apply elem_of_filter_list. split; [|done].
      apply elem_of_filter_list. split; [done|]. by destruct k.
Qed.

Lemma elem_of_rest v k r :
  (k, r) ∈ List.filter (λ x, negb (front x.1 =? ch_caret)%Z) (List.filter kept v)
  ↔ (k, r) ∈ v ∧ k ≠ [] ∧ front k ≠ ch_caret ∧ k ≠ [ch_dollar].
Proof.
  rewrite !elem_of_filter_list, negb_true_iff, Z.eqb_neq. simpl. split.
  - intros [[Hin Hkeep] Hc]. split_and!; auto; [by destruct k|].
    intros ->. done.
  - intros (Hin & Hk & Hc & Hd). split_and!; auto.
    destruct k as [|c [|c' k]]; [done| |done].
    unfold kept, front in *. simpl in *.
    rewrite negb_true_iff, orb_false_iff. split; apply Z.eqb_neq; congruence.
Qed.

(** X13. What [order_entries] makes of the replacement pairs of the affix
    file. A pair whose key is written [^k$] is a whole-word replacement of
    [k], [^k] a replacement at the start of the word, [k$] one at the end,
    and a key without mark one at any place; pairs with the key empty, [^]
    or [$] are dropped. The keys of the last three groups are never empty;
    the key of a whole-word replacement is empty when the file has the key
    [^$]. The four groups make up the table. *)
Theorem order_entries_groups_replacements (v : list (list Z * list Z)) :
  let t := order_entries v in
  table t = whole_word_replacements t ++ start_word_replacements t ++
            end_word_replacements t ++ any_place_replacements t ∧
  (∀ k r, (k, r) ∈ whole_word_replacements t ↔
          (ch_caret :: k ++ [ch_dollar], r) ∈ v) ∧
  (∀ k r, (k, r) ∈ start_word_replacements t ↔
          (ch_caret :: k, r) ∈ v ∧ k ≠ [] ∧ back k ≠ ch_dollar) ∧
  (∀ k r, (k, r) ∈ end_word_replacements t ↔
          (k ++ [ch_dollar], r) ∈ v ∧ k ≠ [] ∧ front k ≠ ch_caret) ∧
  (∀ k r, (k, r) ∈ any_place_replacements t ↔
          (k, r) ∈ v ∧ k ≠ [] ∧ front k ≠ ch_caret ∧ back k ≠ ch_dollar).
Proof.
  intros t. destruct (order_entries_accessors v) as (Hw & Hs & He & Ha).
  fold t in Hw, Hs, He, Ha. split_and!.
  - rewrite Hw, Hs, He, Ha. done.
  - intros k r. rewrite Hw, elem_of_map_list. split.
    + intros ([x r'] & Heq & Hx).
      apply elem_of_filter_list in Hx as [Hx Hd].
      apply elem_of_starts in Hx as [Hx Hne]. simpl in Hd.
      apply Z.eqb_eq in Hd. unfold pop_back in Heq. simpl in Heq.
      injection Heq as <- <-. rewrite <- Hd. by rewrite pop_back_snoc.
    + intros Hin. exists (k ++ [ch_dollar], r). split.
      * unfold pop_back. simpl. by rewrite take_snoc_pop.
      * apply elem_of_filter_list. split; [|simpl; by rewrite back_snoc].
        apply elem_of_starts. split; [done|]. by destruct k.
  - intros k r. rewrite Hs, elem_of_filter_list, elem_of_starts.
    simpl. rewrite negb_true_iff, Z.eqb_neq. tauto.
  - intros k r. rewrite He, elem_of_map_list. split.
    + intros ([x r'] & Heq & Hx).
      apply elem_of_filter_list in Hx as [Hx Hd].
      apply elem_of_rest in Hx as (Hx & Hne & Hc & Hd'). simpl in Hd.
      apply Z.eqb_eq in Hd. unfold pop_back in Heq. simpl in Heq.
      injection Heq as <- <-. rewrite <- Hd. rewrite pop_back_snoc by done.
      split; [done|]. destruct x as [|c [|c' x]]; [done| |done].
      unfold back in Hd. simpl in Hd. congruence.
    + intros (Hin & Hk & Hc). exists (k ++ [ch_dollar], r). split.
      * unfold pop_back. simpl. by rewrite take_snoc_pop.
      * apply elem_of_filter_list. split; [|simpl; by rewrite back_snoc].
        apply elem_of_rest. split_and!; auto; by destruct k as [|? [|? ?]].
  - intros k r. rewrite Ha, elem_of_filter_list, elem_of_rest.
    simpl. rewrite negb_true_iff, Z.eqb_neq. split; [tauto|].
    intros (Hin & Hk & Hc & Hd). split_and!; auto. by intros ->.
Qed.

End Replacement_Table.

Module Suggester.
Import Std.

Definition Flag_Set : Type := String_Set.String_Set.

(** The casing of a word, as the checker is told it: [enum class Casing]
    of structures.hxx, with its five values in the order of the source. *)
Inductive Casing := SMALL | INIT_CAPITAL | ALL_CAPITAL | CAMEL | PASCAL.

Record Similarity_Group := mk_group {
  chars : list Z;
  strings : list (list Z)
}.

(** The two strings the functions work on, [std::wstring& word] and
    [List_WStrings& out]. [fuel_ran_out] is set when a loop of this
    development stops for lack of fuel. *)
Record state := mk_state {
  word : list Z;
  out : list (list Z);
  fuel_ran_out : bool
}.

Definition set_word (w : list Z) (st : state) : state :=
  mk_state w (out st) (fuel_ran_out st).
Definition set_out (o : list (list Z)) (st : state) : state :=
  mk_state (word st) o (fuel_ran_out st).
Definition out_of_fuel (st : state) : state :=
  mk_state (word st) (out st) true.

Definition ch_space : Z := 32.
Definition ch_minus : Z := 45.
Definition ch_a : Z := 97.
Definition ch_bar : Z := 124.

(** [word[i]], [word[i] = c] and [swap(word[i], word[j])] for positions
    inside the string. *)
Definition at_ (w : list Z) (i : nat) : Z := default 0%Z (w !! i).
Definition assign_at (i : nat) (c : Z) (w : list Z) : list Z := <[i:=c]> w.
Definition swap (i j : nat) (w : list Z) : list Z :=
  <[j:=at_ w i]> (<[i:=at_ w j]> w).

(** [word.replace(pos, count, str)] for [pos <= word.size()] *)
Definition replace_at (pos count : nat) (str w : list Z) : list Z :=
  take pos w ++ str ++ drop (pos + count) w.

Section Suggester.
(** The checker: [check_word] and [check_simple_word] give the flags of the
    dictionary entry they find, or null. They take the string by reference
    and give it back as it was, so that they are functions of its contents
    here. [to_upper], [u_toupper] and [u_tolower] are those of ICU;
    [phonetic_table.replace] rewrites the string and tells whether it
    changed. *)
Variable check_word : list Z → Casing → option Flag_Set.
Variable check_simple_word : list Z → option Flag_Set.
Variable to_upper : list Z → list Z.
Variable u_toupper u_tolower : Z → Z.
Variable phonetic_table_replace : list Z → bool * list Z.
Variable forbiddenword_flag warn_flag : Z.
Variable forbid_warn : bool.
Variable replacements : Replacement_Table.Replacement_Table.
Variable similarities : list Similarity_Group.
Variable keyboard_closeness : list Z.
Variable try_chars : list Z.

Definition add_sug_if_correct (word : list Z) (out : list (list Z)) :
    bool * list (list Z) :=
  if bool_decide (word ∈ out) then (true, out)
  else
    match check_word word SMALL with
    | None => (false, out)
    | Some res =>
        if String_Set.contains forbiddenword_flag res then (false, out)
        else if forbid_warn && String_Set.contains warn_flag res then (false, out)
        else (true, out ++ [word])
    end.

(** [add_sug_if_correct(word, out)] as a statement, its result dropped. *)
Definition add_sug (st : state) : state :=
  set_out (add_sug_if_correct (word st) (out st)).2 st.

Definition uppercase_suggest (st : state) : state :=
  let word_upper := to_upper (word st) in
  set_out (add_sug_if_correct word_upper (out st)).2 st.

(** The loop of [try_rep_suggestion] over the parts of [word] that end at a
    space: [true] when the loop ends, [false] when it returns. *)
Fixpoint check_parts (fuel : nat) (word : list Z) (i : nat) (j : option nat) :
    option bool :=
  match j with
  | None => Some true
  | Some j =>
      match fuel with
      | 0 => None
      | S fuel' =>
          let part := substr i (j - i) word in
          match check_word part SMALL with
          | None => Some false
          | Some _ =>
              check_parts fuel' word (j + 1) (find_char_from ch_space (j + 1) word)
          end
      end
  end.

Definition try_rep_suggestion (st : state) : state :=
  let r := add_sug_if_correct (word st) (out st) in
  if r.1 then set_out r.2 st
  else
    let j := find_char_from ch_space 0 (word st) in
    match j with
    | None => st
    | Some _ =>
        match check_parts (length (word st)) (word st) 0 j with
        | Some true => set_out (out st ++ [word st]) st
        | Some false => st
        | None => out_of_fuel st
        end
    end.

(** The loop of [rep_suggest] over the places at which [from] occurs. *)
Fixpoint any_place_loop (fuel : nat) (from to : list Z) (i : option nat)
    (st : state) : state :=
  match i with
  | None => st
  | Some i =>
      match fuel with
      | 0 => out_of_fuel st
      | S fuel' =>
          let st := set_word (replace_at i (length from) to (word st)) st in
          let st := try_rep_suggestion st in
          let st := set_word (replace_at i (length to) from (word st)) st in
          any_place_loop fuel' from to (find_sub_from from (i + 1) (word st)) st
      end
  end.

Definition rep_suggest (st : state) : state :=
  let reps := replacements in
  let st := foldl (λ st r,
    let from := r.1 in let to := r.2 in
    if bool_decide (word st = from) then
      let st := set_word to st in
      let st := try_rep_suggestion st in
      set_word from st
    else st) st (Replacement_Table.whole_word_replacements reps) in
  let st := foldl (λ st r,
    let from := r.1 in let to := r.2 in
    if bool_decide (substr 0 (length from) (word st) = from) then
      let st := set_word (replace_at 0 (length from) to (word st)) st in
      let st := try_rep_suggestion st in
      set_word (replace_at 0 (length to) from (word st)) st
    else st) st (Replacement_Table.start_word_replacements reps) in
  let st := foldl (λ st r,
    let from := r.1 in let to := r.2 in
    let pos := length (word st) - length from in
    if (length from <=? length (word st)) &&
       bool_decide (drop pos (word st) = from) then
      let st := set_word (take pos (word st) ++ to) st in
      let st := try_rep_suggestion st in
      set_word (take pos (word st) ++ from) st
    else st) st (Replacement_Table.end_word_replacements reps) in
  foldl (λ st r,
    let from := r.1 in let to := r.2 in
    any_place_loop (S (length (word st))) from to
      (find_sub_from from 0 (word st)) st) st
    (Replacement_Table.any_place_replacements reps).

(** A change of the string in place. *)
Definition upd (f : list Z → list Z) (st : state) : state :=
  set_word (f (word st)) st.

(** The loops [for (size_t i = 0; i != word.size(); ++i)] of the functions
    below, and those with another bound taken from [word.size()], are folds
    over the positions of the string as it is when the loop is entered: the
    body of each of them changes the string and gives it back with the size
    it had. The loop of [map_suggest], whose body calls [map_suggest], and
    the loops that go from one place found by [find] to the next look at the
    string in each round, and have fuel. *)

(** The body of the loop of [map_suggest] over the similarity groups, at
    position [i]; [rec] is [map_suggest] itself. *)
Definition map_suggest_group (rec : nat → state → state) (i : nat)
    (e : Similarity_Group) (st : state) : state :=
  let st :=
    match find_char (at_ (word st) i) (chars e) with
    | None => st
    | Some j =>
        let st := foldl (λ st c,
          if (c =? at_ (chars e) j)%Z then st
          else
            let st := upd (assign_at i c) st in
            let st := add_sug st in
            let st := rec (i + 1) st in
            upd (assign_at i (at_ (chars e) j)) st) st (chars e) in
        foldl (λ st r,
          let st := upd (replace_at i 1 r) st in
          let st := add_sug st in
          let st := rec (i + length r) st in
          upd (replace_at i (length r) [at_ (chars e) j]) st) st (strings e)
    end in
  foldl (λ st f,
    if negb (bool_decide (substr i (length f) (word st) = f)) then st
    else
      let st := foldl (λ st c,
        let st := upd (replace_at i (length f) [c]) st in
        let st := add_sug st in
        let st := rec (i + 1) st in
        upd (replace_at i 1 f) st) st (chars e) in
      foldl (λ st r,
        if bool_decide (f = r) then st
        else
          let st := upd (replace_at i (length f) r) st in
          let st := add_sug st in
          let st := rec (i + length r) st in
          upd (replace_at i (length r) f) st) st (strings e)) st (strings e).

(** [map_suggest(word, out, i)]. The fuel bounds the iterations of the loop
    over [i] and the depth of the recursion together. *)
Fixpoint map_suggest (fuel : nat) (i : nat) (st : state) : state :=
  match fuel with
  | 0 => if i =? length (word st) then st else out_of_fuel st
  | S fuel' =>
      if i =? length (word st) then st
      else
        let st := foldl (λ st e, map_suggest_group (map_suggest fuel') i e st)
                    st similarities in
        map_suggest fuel' (i + 1) st
  end.

Definition adjacent_swap_suggest (st : state) : state :=
  if length (word st) =? 0 then st
  else
    let st := foldl (λ st i,
      let st := upd (swap i (i + 1)) st in
      let st := add_sug st in
      upd (swap i (i + 1)) st) st (seq 0 (length (word st) - 1)) in
    if length (word st) =? 4 then
      let st := upd (swap 0 1) st in
      let st := upd (swap 2 3) st in
      let st := add_sug st in
      let st := upd (swap 0 1) st in
      upd (swap 2 3) st
    else if length (word st) =? 5 then
      let st := upd (swap 0 1) st in
      let st := upd (swap 3 4) st in
      let st := add_sug st in
      let st := upd (swap 0 1) st in
      let st := upd (swap 1 2) st in
      let st := add_sug st in
      let st := upd (swap 1 2) st in
      upd (swap 3 4) st
    else st.

Definition distant_swap_suggest (st : state) : state :=
  if length (word st) <? 3 then st
  else
    foldl (λ st i,
      foldl (λ st j,
        let st := upd (swap i j) st in
        let st := add_sug st in
        upd (swap i j) st) st (seq (i + 2) (length (word st) - (i + 2))))
      st (seq 0 (length (word st) - 2)).

(** The loop of [keyboard_suggest] over the places of [c] in
    [keyboard_closeness]. *)
Fixpoint keyboard_loop (fuel : nat) (j : nat) (c : Z) (i : option nat)
    (st : state) : state :=
  match i with
  | None => st
  | Some i =>
      match fuel with
      | 0 => out_of_fuel st
      | S fuel' =>
          let kb := keyboard_closeness in
          let st :=
            if negb (i =? 0) && negb (at_ kb (i - 1) =? ch_bar)%Z then
              let st := upd (assign_at j (at_ kb (i - 1))) st in
              let st := add_sug st in
              upd (assign_at j c) st
            else st in
          let st :=
            if negb (i + 1 =? length kb) && negb (at_ kb (i + 1) =? ch_bar)%Z then
              let st := upd (assign_at j (at_ kb (i + 1))) st in
              let st := add_sug st in
              upd (assign_at j c) st
            else st in
          keyboard_loop fuel' j c (find_char_from c (i + 1) kb) st
      end
  end.

Definition keyboard_suggest (st : state) : state :=
  let kb := keyboard_closeness in
  foldl (λ st j,
    let c := at_ (word st) j in
    let upp_c := u_toupper c in
    let st :=
      if negb (upp_c =? c)%Z then
        let st := upd (assign_at j upp_c) st in
        let st := add_sug st in
        upd (assign_at j c) st
      else st in
    keyboard_loop (S (length kb)) j c (find_char_from c 0 kb) st)
    st (seq 0 (length (word st))).

Definition extra_char_suggest (st : state) : state :=
  foldl (λ st i,
    let c := at_ (word st) i in
    let st := upd (erase_range i 1) st in
    let st := add_sug st in
    upd (insert_at i c) st) st (rev (seq 0 (length (word st)))).

Definition forgotten_char_suggest (st : state) : state :=
  foldl (λ st new_c,
    foldl (λ st i,
      let st := upd (insert_at i new_c) st in
      let st := add_sug st in
      upd (erase_range i 1) st) st (rev (seq 0 (S (length (word st))))))
    st try_chars.

Definition move_char_suggest (st : state) : state :=
  if length (word st) <? 3 then st
  else
    let backup := word st in
    let st := foldl (λ st i,
      let st := upd (swap i (i + 1)) st in
      let st := foldl (λ st j,
        let st := upd (swap j (j + 1)) st in
        add_sug st) st (seq (i + 1) (length (word st) - 1 - (i + 1))) in
      set_word backup st) st (seq 0 (length (word st) - 2)) in
    foldl (λ st i,
      let st := upd (swap i (i - 1)) st in
      let st := foldl (λ st j,
        let st := upd (swap j (j - 1)) st in
        add_sug st) st (rev (seq 1 (i - 1))) in
      set_word backup st) st (rev (seq 2 (length (word st) - 2))).

Definition bad_char_suggest (st : state) : state :=
  foldl (λ st new_c,
    foldl (λ st i,
      let c := at_ (word st) i in
      if (c =? new_c)%Z then st
      else
        let st := upd (assign_at i new_c) st in
        let st := add_sug st in
        upd (assign_at i c) st) st (seq 0 (length (word st))))
    st try_chars.

Definition doubled_two_chars_suggest (st : state) : state :=
  if length (word st) <? 5 then st
  else
    foldl (λ st i,
      let w := word st in
      let two_chars := [at_ w i; at_ w (i + 1)] in
      if (at_ w i =? at_ w (i + 2))%Z && (at_ w (i + 1) =? at_ w (i + 3))%Z &&
         (at_ w i =? at_ w (i + 4))%Z then
        let st := upd (erase_range (i + 3) 2) st in
        let st := add_sug st in
        upd (λ w, take (i + 3) w ++ two_chars ++ drop (i + 3) w) st
      else st) st (seq 0 (length (word st) - 4)).

(** [if (find(begin(out), end(out), word) == end(out)) out.push_back(word)] *)
Definition push_if_absent (st : state) : state :=
  if bool_decide (word st ∈ out st) then st
  else set_out (out st ++ [word st]) st.

Definition two_words_suggest (st : state) : state :=
  if length (word st) <? 2 then st
  else
    let backup := word st in
    let st := set_word [] st in
    let st := foldl (λ st i,
      let st := upd (λ w, w ++ [at_ backup i]) st in
      match check_simple_word (word st) with
      | None => st
      | Some _ =>
          let sz1 := i + 1 in
          let sz2 := length backup - sz1 in
          let st := set_word (substr (i + 1) sz2 backup) st in
          let w2 := check_simple_word (word st) in
          let st := set_word (substr 0 sz1 backup) st in
          match w2 with
          | None => st
          | Some _ =>
              let st := upd (λ w, w ++ [ch_space]) st in
              let st := upd (λ w, w ++ substr (i + 1) sz2 backup) st in
              let st := push_if_absent st in
              let st :=
                if (1 <? sz1) && (1 <? sz2) && negb (length try_chars =? 0) &&
                   (bool_decide (is_Some (find_char ch_a try_chars)) ||
                    bool_decide (is_Some (find_char ch_minus try_chars)))
                then
                  let st := upd (assign_at (i + 1) ch_minus) st in
                  push_if_absent st
                else st in
              upd (take (i + 1)) st
          end
      end) st (seq 0 (length backup - 1)) in
    upd (λ w, w ++ [Replacement_Table.back backup]) st.

Definition phonetic_suggest (st : state) : state :=
  let backup := word st in
  let st := upd (map u_toupper) st in
  let changed := (phonetic_table_replace (word st)).1 in
  let st := set_word (phonetic_table_replace (word st)).2 st in
  let st :=
    if changed then
      let st := upd (map u_tolower) st in
      add_sug st
    else st in
  set_word backup st.

(** [suggest_priv(word, out)]. The call of [map_suggest] starts at position
    0; the fuel it gets is the size of the string and one more. *)
Definition suggest_priv (st : state) : state :=
  let st := uppercase_suggest st in
  let st := rep_suggest st in
  let st := map_suggest (S (length (word st))) 0 st in
  let st := adjacent_swap_suggest st in
  let st := distant_swap_suggest st in
  let st := keyboard_suggest st in
  let st := extra_char_suggest st in
  let st := forgotten_char_suggest st in
  let st := move_char_suggest st in
  let st := bad_char_suggest st in
  let st := doubled_two_chars_suggest st in
  let st := two_words_suggest st in
  phonetic_suggest st.

(** *** What every function keeps true of [out] *)

Section invariant.
(** A property of the list of suggestions that the three places at which
    the list grows keep. *)
Variable Inv : list (list Z) → Prop.
Hypothesis Inv_add_sug_if_correct :
  ∀ w o, Inv o → Inv (add_sug_if_correct w o).2.
Hypothesis Inv_try_rep_suggestion :
  ∀ st, Inv (out st) → Inv (out (try_rep_suggestion st)).
Hypothesis Inv_two_words_suggest :
  ∀ st, Inv (out st) → Inv (out (two_words_suggest st)).

Lemma Inv_add_sug st : Inv (out st) → Inv (out (add_sug st)).
Proof. intros H. unfold add_sug. simpl. by apply Inv_add_sug_if_correct. Qed.

Lemma Inv_foldl {A} (f : state → A → state) (l : list A) st :
  (∀ st x, Inv (out st) → Inv (out (f st x))) →
  Inv (out st) → Inv (out (foldl f st l)).
Proof.
  intros Hf. revert st. induction l as [|x l IH]; intros st H; simpl; [done|].
  apply IH. by apply Hf.
Qed.

Ltac inv_step :=
  lazymatch goal with
  | |- Inv (out (upd _ ?x)) => change (Inv (out x))
  | |- Inv (out (set_word _ ?x)) => change (Inv (out x))
  | |- Inv (out (out_of_fuel ?x)) => change (Inv (out x))
  | |- Inv (out (add_sug ?x)) => apply Inv_add_sug
  | |- Inv (out (try_rep_suggestion ?x)) => apply Inv_try_rep_suggestion
  | |- Inv (out (two_words_suggest ?x)) => apply Inv_two_words_suggest
  | |- Inv (out (foldl _ _ _)) => apply Inv_foldl; [intros ? ? ?|]
  | |- Inv (out (if ?b then _ else _)) => destruct b
  | |- Inv (out (match ?x with _ => _ end)) => destruct x
  | H : ∀ k st, Inv (out st) → Inv (out (?rec k st)) |- Inv (out (?rec _ _)) =>
      apply H
  | |- _ => first [assumption | solve [auto]]
  end.

Ltac inv_tac := repeat (cbv beta zeta; inv_step).

Lemma Inv_uppercase_suggest st :
  Inv (out st) → Inv (out (uppercase_suggest st)).
Proof. intros H. unfold uppercase_suggest. simpl. by apply Inv_add_sug_if_correct. Qed.

Lemma Inv_any_place_loop fuel from to i st :
  Inv (out st) → Inv (out (any_place_loop fuel from to i st)).
Proof.
  revert i st. induction fuel as [|fuel IH]; intros [i|] st H; simpl; try done.
  apply IH. inv_tac.
Qed.

Lemma Inv_rep_suggest st : Inv (out st) → Inv (out (rep_suggest st)).
Proof.
  intros H. unfold rep_suggest. cbv zeta.
  apply Inv_foldl; [intros; by apply Inv_any_place_loop|].
  inv_tac.
Qed.

Lemma Inv_map_suggest_group rec i e st :
  (∀ k st, Inv (out st) → Inv (out (rec k st))) →
  Inv (out st) → Inv (out (map_suggest_group rec i e st)).
Proof. intros Hrec H. unfold map_suggest_group. inv_tac. Qed.

Lemma Inv_map_suggest fuel i st :
  Inv (out st) → Inv (out (map_suggest fuel i st)).
Proof.
  revert i st. induction fuel as [|fuel IH]; intros i st H; simpl.
  - inv_tac.
  - destruct (i =? length (word st)); [done|].
    apply IH. apply Inv_foldl; [|done].
    intros st' e H'. by apply Inv_map_suggest_group.
Qed.

Lemma Inv_adjacent_swap_suggest st :
  Inv (out st) → Inv (out (adjacent_swap_suggest st)).
Proof. intros H. unfold adjacent_swap_suggest. inv_tac. Qed.

Lemma Inv_distant_swap_suggest st :
  Inv (out st) → Inv (out (distant_swap_suggest st)).
Proof. intros H. unfold distant_swap_suggest. inv_tac. Qed.

Lemma Inv_keyboard_loop fuel j c i st :
  Inv (out st) → Inv (out (keyboard_loop fuel j c i st)).
Proof.
  revert i st. induction fuel as [|fuel IH]; intros [i|] st H; simpl; try done.
  apply IH. inv_tac.
Qed.

Lemma Inv_keyboard_suggest st :
  Inv (out st) → Inv (out (keyboard_suggest st)).
Proof.
  intros H. unfold keyboard_suggest. cbv zeta.
  apply Inv_foldl; [|done]. intros st' j H'.
  apply Inv_keyboard_loop. inv_tac.
Qed.

Lemma Inv_extra_char_suggest st :
  Inv (out st) → Inv (out (extra_char_suggest st)).
Proof. intros H. unfold extra_char_suggest. inv_tac. Qed.

Lemma Inv_forgotten_char_suggest st :
  Inv (out st) → Inv (out (forgotten_char_suggest st)).
Proof. intros H. unfold forgotten_char_suggest. inv_tac. Qed.

Lemma Inv_move_char_suggest st :
  Inv (out st) → Inv (out (move_char_suggest st)).
Proof. intros H. unfold move_char_suggest. inv_tac. Qed.

Lemma Inv_bad_char_suggest st :
  Inv (out st) → Inv (out (bad_char_suggest st)).
Proof. intros H. unfold bad_char_suggest. inv_tac. Qed.

Lemma Inv_doubled_two_chars_suggest st :
  Inv (out st) → Inv (out (doubled_two_chars_suggest st)).
Proof. intros H. unfold doubled_two_chars_suggest. inv_tac. Qed.

Lemma Inv_phonetic_suggest st :
  Inv (out st) → Inv (out (phonetic_suggest st)).
Proof. intros H. unfold phonetic_suggest. inv_tac. Qed.

Lemma Inv_suggest_priv st : Inv (out st) → Inv (out (suggest_priv st)).
Proof.
  intros H. unfold suggest_priv. cbv zeta.
  apply Inv_phonetic_suggest, Inv_two_words_suggest,
    Inv_doubled_two_chars_suggest, Inv_bad_char_suggest,
    Inv_move_char_suggest, Inv_forgotten_char_suggest,
    Inv_extra_char_suggest, Inv_keyboard_suggest, Inv_distant_swap_suggest,
    Inv_adjacent_swap_suggest, Inv_map_suggest, Inv_rep_suggest,
    Inv_uppercase_suggest, H.
Qed.

End invariant.

(** *** No suggestion twice *)

Lemma add_sug_if_correct_false w o :
  (add_sug_if_correct w o).1 = false →
  (w ∉ o) ∧ (add_sug_if_correct w o).2 = o.
Proof.
  unfold add_sug_if_correct. destruct (bool_decide_reflect (w ∈ o)); [done|].
  destruct (check_word w SMALL) as [res|]; [|done].
  destruct (String_Set.contains forbiddenword_flag res); [done|].
  destruct (forbid_warn && String_Set.contains warn_flag res); done.
Qed.

Lemma NoDup_snoc_absent (w : list Z) o : NoDup o → w ∉ o → NoDup (o ++ [w]).
Proof.
  intros Ho Hw. apply NoDup_app. split_and!; [done| |apply NoDup_singleton].
  intros x Hx Hx'. apply list_elem_of_singleton in Hx' as ->. done.
Qed.

Lemma NoDup_add_sug_if_correct w o :
  NoDup o → NoDup (add_sug_if_correct w o).2.
Proof.
  intros Ho. unfold add_sug_if_correct.
  destruct (bool_decide_reflect (w ∈ o)); [done|].
  destruct (check_word w SMALL) as [res|]; [|done].
  destruct (String_Set.contains forbiddenword_flag res); [done|].
  destruct (forbid_warn && String_Set.contains warn_flag res); [done|].
  by apply NoDup_snoc_absent.
Qed.

Lemma NoDup_try_rep_suggestion st :
  NoDup (out st) → NoDup (out (try_rep_suggestion st)).
Proof.
  intros Ho. unfold try_rep_suggestion. cbv zeta.
  destruct ((add_sug_if_correct (word st) (out st)).1) eqn:Hadd.
  - simpl. by apply NoDup_add_sug_if_correct.
  - apply add_sug_if_correct_false in Hadd as [Hw _].
    destruct (find_char_from ch_space 0 (word st)); [|done].
    destruct (check_parts _ _ _ _) as [[|]|]; simpl; try done.
    by apply NoDup_snoc_absent.
Qed.

Lemma NoDup_push_if_absent st :
  NoDup (out st) → NoDup (out (push_if_absent st)).
Proof.
  intros Ho. unfold push_if_absent.
  destruct (bool_decide_reflect (word st ∈ out st)); [done|].
  simpl. by apply NoDup_snoc_absent.
Qed.

Lemma NoDup_two_words_suggest st :
  NoDup (out st) → NoDup (out (two_words_suggest st)).
Proof.
  intros Ho. unfold two_words_suggest.
  destruct (length (word st) <? 2); [done|]. cbv zeta.
  apply (Inv_foldl NoDup); [|done]. intros st' i Ho'.
  destruct (check_simple_word _); [|done].
  destruct (check_simple_word _); [|done].
  match goal with
  | |- NoDup (out (upd _ (if ?b then _ else _))) => destruct b
  end; simpl; repeat apply NoDup_push_if_absent; done.
Qed.

(** C4. For every dictionary and every input word, the list of suggestions
    that the suggestor produces, from the empty list that [suggest] hands
    to it, never contains the same string twice. *)
Theorem suggestions_no_duplicates (word : list Z) :
  NoDup (out (suggest_priv (mk_state word [] false))).
Proof.
  apply (Inv_suggest_priv NoDup).
  - apply NoDup_add_sug_if_correct.
  - apply NoDup_try_rep_suggestion.
  - apply NoDup_two_words_suggest.
  - apply NoDup_nil_2.
Qed.

(** *** What a suggestion is *)

(** The string passes the check of a word in small letters: it matches an
    entry of the dictionary that carries neither [forbiddenword_flag] nor,
    when [forbid_warn] is set, [warn_flag]. *)
Definition passes (s : list Z) : Prop :=
  ∃ res, check_word s SMALL = Some res ∧
    String_Set.contains forbiddenword_flag res = false ∧
    forbid_warn && String_Set.contains warn_flag res = false.

(** The string holds a space, and each of its parts that ends at a space
    passes [check_word]: what [try_rep_suggestion] accepts of the result of
    a replacement that is no word by itself. *)
Definition multi_word_replacement (s : list Z) : Prop :=
  ch_space ∈ s ∧
  ∀ pre part post,
    s = pre ++ part ++ ch_space :: post →
    pre = [] ∨ last pre = Some ch_space →
    ch_space ∉ part →
    is_Some (check_word part SMALL).

(** The string is two simple words of the dictionary with a space or a dash
    between them: what [two_words_suggest] adds. *)
Definition two_words (s : list Z) : Prop :=
  ∃ a b sep, s = a ++ sep :: b ∧ (sep = ch_space ∨ sep = ch_minus) ∧
    is_Some (check_simple_word a) ∧ is_Some (check_simple_word b).

Definition suggestion (s : list Z) : Prop :=
  passes s ∨ multi_word_replacement s ∨ two_words s.

(** The flags of an entry allow the word: neither [forbiddenword_flag] nor,
    when [forbid_warn] is set, [warn_flag]. *)
Definition acceptable (res : Flag_Set) : Prop :=
  String_Set.contains forbiddenword_flag res = false ∧
  forbid_warn && String_Set.contains warn_flag res = false.

(** As [passes], with the check of a simple word that [two_words_suggest]
    makes of the two halves. *)
Definition passes_simple (s : list Z) : Prop :=
  ∃ res, check_simple_word s = Some res ∧ acceptable res.

(** Two halves joined by a space or a dash, both of which spell. *)
Definition halves_pass (s : list Z) : Prop :=
  ∃ a b sep, s = a ++ sep :: b ∧ (sep = ch_space ∨ sep = ch_minus) ∧
    passes_simple a ∧ passes_simple b.

(** A part of [s]: what stands between two spaces, or between a space and
    an end of the string. *)
Definition part_of (s part : list Z) : Prop :=
  (ch_space ∉ part) ∧
  ∃ pre post, s = pre ++ part ++ post ∧
    (pre = [] ∨ last pre = Some ch_space) ∧
    (post = [] ∨ head post = Some ch_space).

(** The string holds a space and every part of it spells. *)
Definition parts_pass (s : list Z) : Prop :=
  ch_space ∈ s ∧ ∀ part, part_of s part → passes part.

(** The checks that the suggestor makes of the parts of a string of several
    words leave two things out: [try_rep_suggestion] never looks up the part
    after the last space, and neither it nor [two_words_suggest] tests the
    flags of the entries that the parts match. [last_part_found] and
    [flags_clear] describe the strings on which nothing hangs on either. *)

(** The part of [s] after its last space is a word; a string without space
    has the property for want of such a part. *)
Definition last_part_found (s : list Z) : Prop :=
  ∀ pre part, s = pre ++ ch_space :: part → ch_space ∉ part →
    is_Some (check_word part SMALL).

(** A piece of [s], and not all of it, that reaches on each side to a space,
    to a dash or to the end of the string. *)
Definition separator (c : Z) : Prop := c = ch_space ∨ c = ch_minus.

Definition piece_of (s piece : list Z) : Prop :=
  piece ≠ s ∧
  ∃ pre post, s = pre ++ piece ++ post ∧
    (pre = [] ∨ ∃ c, last pre = Some c ∧ separator c) ∧
    (post = [] ∨ ∃ c, head post = Some c ∧ separator c).

(** No piece of [s] matches an entry that carries one of the two flags. *)
Definition flags_clear (s : list Z) : Prop :=
  ∀ piece res, piece_of s piece →
    check_word piece SMALL = Some res ∨ check_simple_word piece = Some res →
    acceptable res.

(** What a string that the suggestor produces is: a word that passes the
    check, or a string that holds a space or a dash, of which every part
    spells wherever the checks of the parts look at all of it. *)
Definition checked_suggestion (s : list Z) : Prop :=
  passes s ∨
  ((ch_space ∈ s ∨ ch_minus ∈ s) ∧
   (last_part_found s → flags_clear s → halves_pass s ∨ parts_pass s)).

Lemma find_char_first c l k m :
  find_char c l = Some k → l !! m = Some c → k ≤ m.
Proof.
  revert k m. induction l as [|y l IH]; intros k m; simpl; [done|].
  destruct (Z.eqb_spec y c) as [->|Hne].
  - intros [= <-] _. lia.
  - destruct (find_char c l) as [k'|] eqn:Hk; simpl; [|done].
    intros [= <-]. destruct m as [|m]; simpl.
    + intros [= ->]. done.
    + intros Hm. specialize (IH k' m eq_refl Hm). lia.
Qed.

Lemma find_char_app_absent c (part post : list Z) :
  c ∉ part → find_char c (part ++ c :: post) = Some (length part).
Proof.
  induction part as [|y part IH]; simpl; intros Hc.
  - by rewrite Z.eqb_refl.
  - apply not_elem_of_cons in Hc as [Hne Hc].
    destruct (Z.eqb_spec y c) as [->|_]; [done|]. by rewrite IH.
Qed.

Lemma lookup_separator (pre part post : list Z) c :
  (pre ++ part ++ c :: post) !! (length pre + length part) = Some c.
Proof. rewrite app_assoc. apply list_lookup_middle. by rewrite length_app. Qed.

Lemma separator_after (pre part post : list Z) c i :
  i ≤ length pre → c ∈ drop i (pre ++ part ++ c :: post).
Proof.
  intros Hi. apply (list_elem_of_lookup_2 _ (length pre + length part - i)).
  rewrite lookup_drop.
  replace (i + (length pre + length part - i)) with (length pre + length part)
    by lia.
  apply lookup_separator.
Qed.

Lemma check_parts_spec fuel w i pre part post :
  check_parts fuel w i (find_char_from ch_space i w) = Some true →
  w = pre ++ part ++ ch_space :: post →
  i ≤ length pre →
  pre = [] ∨ last pre = Some ch_space →
  ch_space ∉ part →
  is_Some (check_word part SMALL).
Proof.
  revert i. induction fuel as [|fuel IH]; intros i Hrun Hw Hi Hpre Hpart.
  - unfold find_char_from in Hrun.
    destruct (find_char ch_space (drop i w)) as [k|] eqn:Hk; simpl in Hrun;
      [done|].
    apply find_char_None_not_in in Hk. exfalso. apply Hk.
    rewrite Hw. by apply separator_after.
  - unfold find_char_from in Hrun at 1.
    destruct (find_char ch_space (drop i w)) as [k|] eqn:Hk; simpl in Hrun.
    2:{ apply find_char_None_not_in in Hk. exfalso. apply Hk.
        rewrite Hw. by apply separator_after. }
    destruct (check_word (substr i (i + k - i) w) SMALL) as [res|] eqn:Hcheck;
      [|done].
    destruct (decide (length pre = i)) as [Heq|Hne].
    + assert (drop i w = part ++ ch_space :: post) as Hdrop.
      { rewrite Hw, <- Heq. by rewrite drop_app_length. }
      rewrite Hdrop, find_char_app_absent in Hk by done. injection Hk as <-.
      unfold substr in Hcheck. rewrite Hdrop in Hcheck.
      replace (i + length part - i) with (length part) in Hcheck by lia.
      rewrite take_app_length in Hcheck. by rewrite Hcheck.
    + destruct Hpre as [->|Hlast]; [simpl in *; lia|].
      apply last_Some in Hlast as [pre' ->]. rewrite length_app in *.
      simpl in *.
      assert (k ≤ length pre' - i) as Hle.
      { apply (find_char_first ch_space (drop i w)); [done|].
        rewrite lookup_drop, Hw.
        replace (i + (length pre' - i)) with (length pre') by lia.
        rewrite <- !app_assoc. by apply list_lookup_middle. }
      apply (IH (i + k + 1)); auto; [lia|].
      right. apply last_snoc.
Qed.

Lemma suggestions_add_sug_if_correct w o :
  Forall suggestion o → Forall suggestion (add_sug_if_correct w o).2.
Proof.
  intros Ho. unfold add_sug_if_correct.
  destruct (bool_decide (w ∈ o)); [done|].
  destruct (check_word w SMALL) as [res|] eqn:Hres; [|done].
  destruct (String_Set.contains forbiddenword_flag res) eqn:Hforbidden; [done|].
  destruct (forbid_warn && String_Set.contains warn_flag res) eqn:Hwarn; [done|].
  simpl. apply Forall_app. split; [done|]. apply Forall_singleton.
  left. by exists res.
Qed.

Lemma suggestions_try_rep_suggestion st :
  Forall suggestion (out st) → Forall suggestion (out (try_rep_suggestion st)).
Proof.
  intros Ho. unfold try_rep_suggestion. cbv zeta.
  destruct ((add_sug_if_correct (word st) (out st)).1).
  { simpl. by apply suggestions_add_sug_if_correct. }
  destruct (find_char_from ch_space 0 (word st)) as [j|] eqn:Hj; [|done].
  destruct (check_parts _ _ _ _) as [[|]|] eqn:Hparts; simpl; try done.
  apply Forall_app. split; [done|]. apply Forall_singleton.
  right. left. split.
  - unfold find_char_from in Hj. rewrite drop_0 in Hj.
    destruct (find_char ch_space (word st)) as [k|] eqn:Hk; [|done].
    apply find_char_Some in Hk. by eapply list_elem_of_lookup_2.
  - intros pre part post Hw Hpre Hpart. rewrite <- Hj in Hparts.
    apply (check_parts_spec _ _ 0 pre part post Hparts); auto. lia.
Qed.

Lemma foldl_seq_inv (P : nat → state → Prop) (f : state → nat → state) a n st :
  P a st →
  (∀ i st, a ≤ i → i < a + n → P i st → P (S i) (f st i)) →
  P (a + n) (foldl f st (seq a n)).
Proof.
  revert a st. induction n as [|n IH]; intros a st Ha Hf; simpl.
  - by rewrite Nat.add_0_r.
  - replace (a + S n) with (S a + n) by lia. apply IH.
    + apply Hf; [lia|lia|done].
    + intros i st' ? ? Hi. apply Hf; [lia|lia|done].
Qed.

Lemma suggestions_push_if_absent st :
  suggestion (word st) →
  Forall suggestion (out st) → Forall suggestion (out (push_if_absent st)).
Proof.
  intros Hw Ho. unfold push_if_absent.
  destruct (bool_decide (word st ∈ out st)); [done|].
  simpl. apply Forall_app. split; [done|]. by apply Forall_singleton.
Qed.

Lemma suggestions_two_words_suggest st :
  Forall suggestion (out st) → Forall suggestion (out (two_words_suggest st)).
Proof.
  intros Ho. unfold two_words_suggest.
  destruct (Nat.ltb_spec (length (word st)) 2) as [|Hlen]; [done|]. cbv zeta.
  set (backup := word st). change (2 ≤ length backup) in Hlen.
  change (Forall suggestion (out (foldl ?f ?s ?l)))
    with (Forall suggestion (out (foldl f s l))).
  match goal with
  | |- Forall suggestion (out (upd _ (foldl ?f ?s (seq 0 ?n)))) =>
      pose proof (foldl_seq_inv
        (λ i st', word st' = take i backup ∧ Forall suggestion (out st'))
        f 0 n s) as Hloop
  end.
  apply Hloop; [done|]. clear Hloop.
  intros i st' _ Hi [Hword Ho']. simpl in Hi.
  assert (take (S i) backup = take i backup ++ [at_ backup i]) as Htake.
  { destruct (lookup_lt_is_Some_2 backup i) as [c Hc]; [lia|].
    unfold at_. rewrite Hc. simpl. by apply take_S_r. }
  cbv zeta. cbn [word upd set_word out set_out].
  rewrite Hword, <- Htake.
  destruct (check_simple_word (take (S i) backup)) as [w1|] eqn:H1.
  2:{ cbn [word upd set_word out set_out]. by rewrite Hword, <- Htake. }
  destruct (check_simple_word (substr (i + 1) (length backup - (i + 1)) backup))
    as [w2|] eqn:H2.
  2:{ cbn [word upd set_word out set_out]. split; [|done].
      unfold substr. rewrite drop_0. by replace (i + 1) with (S i) by lia. }
  set (a := substr 0 (i + 1) backup).
  set (b := substr (i + 1) (length backup - (i + 1)) backup).
  assert (a = take (S i) backup) as Ha.
  { unfold a, substr. rewrite drop_0. by replace (i + 1) with (S i) by lia. }
  assert (length a = i + 1) as Hla.
  { rewrite Ha, length_take. lia. }
  assert (two_words ((a ++ [ch_space]) ++ b)) as Hspace.
  { exists a, b, ch_space. rewrite <- app_assoc. split_and!; [done|by left| |].
    - by rewrite Ha, H1.
    - unfold b. by rewrite H2. }
  assert (two_words (assign_at (i + 1) ch_minus ((a ++ [ch_space]) ++ b)))
    as Hminus.
  { exists a, b, ch_minus. split_and!; [|by right| |].
    - unfold assign_at. rewrite <- app_assoc, insert_app_r_alt by lia.
      by replace (i + 1 - length a) with 0 by lia.
    - by rewrite Ha, H1.
    - unfold b. by rewrite H2. }
  assert (∀ x, take (i + 1) ((a ++ [ch_space]) ++ x) = take (S i) backup) as Hback.
  { intros x. rewrite <- app_assoc, take_app_length' by lia. done. }
  assert (∀ st1, word (push_if_absent st1) = word st1) as Hpush.
  { intros st1. unfold push_if_absent. by destruct (bool_decide _). }
  match goal with
  | |- context [if ?c then _ else _] => destruct c
  end.
  - split.
    + cbn [word upd set_word]. rewrite Hpush. cbn [word upd set_word].
      rewrite Hpush. cbn [word upd set_word]. unfold assign_at.
      rewrite take_insert_ge by lia. apply Hback.
    + cbn [out upd set_word]. apply suggestions_push_if_absent.
      * right. right. cbn [word upd set_word]. rewrite Hpush.
        cbn [word upd set_word]. exact Hminus.
      * cbn [out upd set_word]. apply suggestions_push_if_absent; [|done].
        right. right. exact Hspace.
  - split.
    + cbn [word upd set_word]. rewrite Hpush. cbn [word upd set_word].
      apply Hback.
    + cbn [out upd set_word]. apply suggestions_push_if_absent; [|done].
      right. right. exact Hspace.
Qed.

(** What the three places at which the list grows put into it: a word that
    passes the check ([add_sug_if_correct]), the result of a replacement
    that holds a space, after the parts of it that end at a space were
    looked up ([try_rep_suggestion]), or two halves of the word that the
    check of a simple word finds, joined by a space or a dash
    ([two_words_suggest]). *)
Lemma suggestions_kinds (word : list Z) :
  Forall suggestion (out (suggest_priv (mk_state word [] false))).
Proof.
  apply (Inv_suggest_priv (Forall suggestion)).
  - apply suggestions_add_sug_if_correct.
  - apply suggestions_try_rep_suggestion.
  - apply suggestions_two_words_suggest.
  - apply Forall_nil_2.
Qed.

Lemma two_words_checked s : two_words s → checked_suggestion s.
Proof.
  intros (a & b & sep & -> & Hsep & [ra Ha] & [rb Hb]). right. split.
  - destruct Hsep as [->| ->]; [left|right];
      apply elem_of_app; right; left.
  - intros _ Hflags. left. exists a, b, sep. split_and!; [done|done| |].
    + exists ra. split; [done|]. apply (Hflags a ra); [|by right]. split.
      * intros Heq. apply (f_equal length) in Heq.
        rewrite length_app in Heq. simpl in Heq. lia.
      * exists [], (sep :: b). split_and!; [done|by left|].
        right. by exists sep.
    + exists rb. split; [done|]. apply (Hflags b rb); [|by right]. split.
      * intros Heq. apply (f_equal length) in Heq.
        rewrite length_app in Heq. simpl in Heq. lia.
      * exists (a ++ [sep]), []. split_and!; [|right|by left].
        -- by rewrite app_nil_r, <- app_assoc.
        -- exists sep. by rewrite last_snoc.
Qed.

Lemma multi_word_replacement_checked s :
  multi_word_replacement s → checked_suggestion s.
Proof.
  intros [Hspace Hparts]. right. split; [by left|].
  intros Hlast Hflags. right. split; [done|].
  intros part (Hpart & pre & post & -> & Hpre & Hpost).
  assert (Hfound : is_Some (check_word part SMALL)).
  { destruct post as [|c post].
    - rewrite app_nil_r in *. destruct Hpre as [->|Hpre].
      + exfalso. by rewrite app_nil_l in Hspace.
      + apply last_Some in Hpre as [pre' ->].
        apply (Hlast pre' part); [|done]. by rewrite <- app_assoc.
    - destruct Hpost as [|Hpost]; [done|]. simpl in Hpost.
      injection Hpost as ->. by apply (Hparts pre part post). }
  destruct Hfound as [res Hres]. exists res. split; [done|].
  apply (Hflags part res); [|by left]. split.
  - intros Heq. apply Hpart. by rewrite Heq.
  - exists pre, post. split_and!; [done| |].
    + destruct Hpre as [?|Hpre]; [by left|]. right. exists ch_space.
      split; [done|by left].
    + destruct Hpost as [?|Hpost]; [by left|]. right. exists ch_space.
      split; [done|by left].
Qed.

(** C3, as the code has it by design. For every dictionary and every input
    word, every string that the suggestor produces passes the check of a
    word in small letters, on an entry that carries neither
    [forbiddenword_flag] nor, when [forbid_warn] is set, [warn_flag], or it
    is a suggestion of several words: it holds a space or a dash, and every
    part of it spells in that sense, as two simple words joined by a space
    or a dash, or as the result of a replacement whose parts between spaces
    all pass the check. Of the suggestions of several words this is stated
    for those whose part after the last space is a word and whose parts
    match no entry with one of the two flags; nothing is stated of the
    others. *)
Theorem suggestions_pass_or_every_part_passes (word : list Z) :
  Forall checked_suggestion (out (suggest_priv (mk_state word [] false))).
Proof.
  eapply Forall_impl; [apply suggestions_kinds|].
  intros s [Hs|[Hs|Hs]].
  - by left.
  - by apply multi_word_replacement_checked.
  - by apply two_words_checked.
Qed.

(** *** The fuel of the loops is enough *)

(** The string and the fuel flag are as in [st0]. *)
Definition same_run (st0 st : state) : Prop :=
  word st = word st0 ∧ fuel_ran_out st = fuel_ran_out st0.

Lemma same_run_refl st : same_run st st.
Proof. done. Qed.

Lemma same_run_trans st0 st1 st2 :
  same_run st0 st1 → same_run st1 st2 → same_run st0 st2.
Proof. intros [? ?] [? ?]. split; congruence. Qed.

Lemma same_run_add_sug st : same_run st (add_sug st).
Proof. done. Qed.

Lemma same_run_foldl {A} (f : state → A → state) (l : list A) st0 st :
  (∀ st x, same_run st0 st → same_run st0 (f st x)) →
  same_run st0 st → same_run st0 (foldl f st l).
Proof.
  intros Hf. revert st. induction l as [|x l IH]; intros st H; simpl; [done|].
  apply IH. by apply Hf.
Qed.

Lemma find_char_from_spec c i w j :
  find_char_from c i w = Some j → i ≤ j ∧ j < length w.
Proof.
  unfold find_char_from.
  destruct (find_char c (drop i w)) as [k|] eqn:Hk; simpl; [|done].
  intros [= <-]. apply find_char_Some, lookup_lt_Some in Hk.
  rewrite length_drop in Hk. lia.
Qed.

Lemma check_parts_total fuel w i :
  length w - i ≤ fuel →
  check_parts fuel w i (find_char_from ch_space i w) ≠ None.
Proof.
  revert i. induction fuel as [|fuel IH]; intros i Hfuel;
    destruct (find_char_from ch_space i w) as [j|] eqn:Hj; simpl; try done.
  - apply find_char_from_spec in Hj. lia.
  - apply find_char_from_spec in Hj.
    destruct (check_word _ SMALL); [|done].
    replace (i + (j - i)) with j by lia. apply IH. lia.
Qed.

Lemma same_run_try_rep_suggestion st : same_run st (try_rep_suggestion st).
Proof.
  unfold try_rep_suggestion. cbv zeta.
  destruct ((add_sug_if_correct (word st) (out st)).1); [done|].
  destruct (find_char_from ch_space 0 (word st)) as [j|] eqn:Hj; [|done].
  rewrite <- Hj.
  pose proof (check_parts_total (length (word st)) (word st) 0) as Htotal.
  destruct (check_parts _ _ _ _) as [[|]|]; [done|done|].
  exfalso. apply Htotal; [lia|done].
Qed.

Lemma find_sub_spec pat s k :
  find_sub pat s = Some k → take (length pat) (drop k s) = pat ∧ k ≤ length s.
Proof.
  revert k. induction s as [|c s IH]; intros k; simpl.
  - destruct (decide (take (length pat) [] = pat)) as [Heq|]; [|done].
    intros [= <-]. split; [done|lia].
  - destruct (decide (take (length pat) (c :: s) = pat)) as [Heq|].
    + intros [= <-]. split; [done|lia].
    + destruct (find_sub pat s) as [k'|]; simpl; [|done].
      intros [= <-]. destruct (IH k' eq_refl). split; [done|lia].
Qed.

Lemma find_sub_from_spec pat pos s j :
  find_sub_from pat pos s = Some j →
  pos ≤ j ∧ j ≤ length s ∧ take (length pat) (drop j s) = pat.
Proof.
  unfold find_sub_from. destruct (Nat.ltb_spec (length s) pos); [done|].
  destruct (find_sub pat (drop pos s)) as [k|] eqn:Hk; simpl; [|done].
  intros [= <-]. apply find_sub_spec in Hk as [Hk Hle].
  rewrite length_drop in Hle. rewrite drop_drop in Hk. split_and!; [lia|lia|done].
Qed.

Lemma replace_at_length i n str (w : list Z) :
  i + n ≤ length w →
  length (replace_at i n str w) = length w - n + length str.
Proof.
  intros Hle. unfold replace_at.
  rewrite !length_app, length_take, length_drop. lia.
Qed.

Lemma occurs_length (a w : list Z) i :
  take (length a) (drop i w) = a → i ≤ length w → i + length a ≤ length w.
Proof.
  intros Ha Hi. apply (f_equal length) in Ha.
  rewrite length_take, length_drop in Ha. lia.
Qed.

Lemma replace_at_restore i (a b w : list Z) :
  take (length a) (drop i w) = a → i ≤ length w →
  replace_at i (length b) a (replace_at i (length a) b w) = w.
Proof.
  intros Ha Hi. pose proof (occurs_length a w i Ha Hi) as Hlen.
  unfold replace_at.
  rewrite take_app_length' by (rewrite length_take; lia).
  rewrite drop_app_add' by (rewrite length_take; lia).
  rewrite drop_app_length.
  rewrite <- (take_drop i w) at 3. f_equal.
  rewrite <- (take_drop (length a) (drop i w)) at 1.
  by rewrite Ha, drop_drop.
Qed.

Lemma same_run_any_place_loop fuel from to i st :
  (∀ k, i = Some k →
     k ≤ length (word st) ∧ take (length from) (drop k (word st)) = from ∧
     length (word st) - k < fuel) →
  same_run st (any_place_loop fuel from to i st).
Proof.
  revert i st. induction fuel as [|fuel IH]; intros [k|] st Hi; simpl; try done.
  { destruct (Hi k eq_refl) as (_ & _ & ?). lia. }
  destruct (Hi k eq_refl) as (Hk & Hocc & Hfuel).
  destruct (same_run_try_rep_suggestion
              (set_word (replace_at k (length from) to (word st)) st))
    as [Hw Hf].
  simpl in Hw, Hf. rewrite Hw, replace_at_restore by done.
  eapply same_run_trans; [|apply IH].
  - split; [done|]. simpl. exact Hf.
  - simpl. intros k' Hk'. apply find_sub_from_spec in Hk' as (? & ? & ?).
    split_and!; [done|done|lia].
Qed.

Lemma flag_rep_suggest st :
  fuel_ran_out (rep_suggest st) = fuel_ran_out st.
Proof.
  unfold rep_suggest. cbv zeta.
  set (P := λ st' : state, fuel_ran_out st' = fuel_ran_out st).
  assert (Hfold : ∀ {A} (f : state → A → state) l st',
    (∀ st x, P st → P (f st x)) → P st' → P (foldl f st' l)).
  { intros A f l. induction l as [|x l IHl]; intros st' Hf H; simpl; [done|].
    apply IHl; [done|]. by apply Hf. }
  assert (Htry : ∀ st', P st' → P (try_rep_suggestion st')).
  { intros st' H. unfold P.
    by rewrite (proj2 (same_run_try_rep_suggestion st')). }
  change (P (foldl ?f ?s ?l)) with (P (foldl f s l)).
  apply Hfold.
  { intros st' r H. unfold P. cbv zeta.
    destruct (same_run_any_place_loop (S (length (word st'))) r.1 r.2
                (find_sub_from r.1 0 (word st')) st') as [_ ->]; [|done].
    intros k Hk. apply find_sub_from_spec in Hk as (? & ? & ?).
    split_and!; [done|done|lia]. }
  apply Hfold.
  { intros st' r H. cbv zeta. destruct (_ && _); [|done].
    apply (Htry (set_word _ st')). exact H. }
  apply Hfold.
  { intros st' r H. cbv zeta. destruct (bool_decide _); [|done].
    apply (Htry (set_word _ st')). exact H. }
  apply Hfold; [|done].
  intros st' r H. cbv zeta. destruct (bool_decide _); [|done].
  apply (Htry (set_word _ st')). exact H.
Qed.

Lemma flag_keyboard_loop fuel j c i st :
  (∀ k, i = Some k →
     k < length keyboard_closeness ∧ length keyboard_closeness - k ≤ fuel) →
  fuel_ran_out (keyboard_loop fuel j c i st) = fuel_ran_out st.
Proof.
  revert i st. induction fuel as [|fuel IH]; intros [k|] st Hi; simpl; try done.
  { destruct (Hi k eq_refl). lia. }
  destruct (Hi k eq_refl) as [Hk Hfuel]. rewrite IH.
  - by repeat destruct (_ && _).
  - intros k' Hk'. apply find_char_from_spec in Hk'. lia.
Qed.

Section flag.
Variable b : bool.

Lemma flag_foldl {A} (f : state → A → state) (l : list A) st :
  (∀ st x, fuel_ran_out st = b → fuel_ran_out (f st x) = b) →
  fuel_ran_out st = b → fuel_ran_out (foldl f st l) = b.
Proof.
  intros Hf. revert st. induction l as [|x l IH]; intros st H; simpl; [done|].
  apply IH. by apply Hf.
Qed.

Ltac flag_step :=
  lazymatch goal with
  | |- fuel_ran_out (upd _ ?x) = b => change (fuel_ran_out x = b)
  | |- fuel_ran_out (set_word _ ?x) = b => change (fuel_ran_out x = b)
  | |- fuel_ran_out (set_out _ ?x) = b => change (fuel_ran_out x = b)
  | |- fuel_ran_out (add_sug ?x) = b => change (fuel_ran_out x = b)
  | |- fuel_ran_out (push_if_absent ?x) = b => unfold push_if_absent
  | |- fuel_ran_out (foldl _ _ _) = b => apply flag_foldl; [intros ? ? ?|]
  | |- fuel_ran_out (if ?c then _ else _) = b => destruct c
  | |- fuel_ran_out (match ?x with _ => _ end) = b => destruct x
  | |- _ => assumption
  end.

Ltac flag_tac := repeat (cbv beta zeta; flag_step).

Lemma flag_uppercase_suggest st :
  fuel_ran_out st = b → fuel_ran_out (uppercase_suggest st) = b.
Proof. intros H. unfold uppercase_suggest. flag_tac. Qed.

Lemma flag_adjacent_swap_suggest st :
  fuel_ran_out st = b → fuel_ran_out (adjacent_swap_suggest st) = b.
Proof. intros H. unfold adjacent_swap_suggest. flag_tac. Qed.

Lemma flag_distant_swap_suggest st :
  fuel_ran_out st = b → fuel_ran_out (distant_swap_suggest st) = b.
Proof. intros H. unfold distant_swap_suggest. flag_tac. Qed.

Lemma flag_keyboard_suggest st :
  fuel_ran_out st = b → fuel_ran_out (keyboard_suggest st) = b.
Proof.
  intros H. unfold keyboard_suggest. cbv zeta.
  apply flag_foldl; [|done]. intros st' j H'.
  rewrite flag_keyboard_loop.
  - flag_tac.
  - intros k Hk. apply find_char_from_spec in Hk. lia.
Qed.

Lemma flag_extra_char_suggest st :
  fuel_ran_out st = b → fuel_ran_out (extra_char_suggest st) = b.
Proof. intros H. unfold extra_char_suggest. flag_tac. Qed.

Lemma flag_forgotten_char_suggest st :
  fuel_ran_out st = b → fuel_ran_out (forgotten_char_suggest st) = b.
Proof. intros H. unfold forgotten_char_suggest. flag_tac. Qed.

Lemma flag_move_char_suggest st :
  fuel_ran_out st = b → fuel_ran_out (move_char_suggest st) = b.
Proof. intros H. unfold move_char_suggest. flag_tac. Qed.

Lemma flag_bad_char_suggest st :
  fuel_ran_out st = b → fuel_ran_out (bad_char_suggest st) = b.
Proof. intros H. unfold bad_char_suggest. flag_tac. Qed.

Lemma flag_doubled_two_chars_suggest st :
  fuel_ran_out st = b → fuel_ran_out (doubled_two_chars_suggest st) = b.
Proof. intros H. unfold doubled_two_chars_suggest. flag_tac. Qed.

Lemma flag_two_words_suggest st :
  fuel_ran_out st = b → fuel_ran_out (two_words_suggest st) = b.
Proof. intros H. unfold two_words_suggest. flag_tac. Qed.

Lemma flag_phonetic_suggest st :
  fuel_ran_out st = b → fuel_ran_out (phonetic_suggest st) = b.
Proof. intros H. unfold phonetic_suggest. flag_tac. Qed.

End flag.

(** The strings of a similarity group are not empty: [parse] keeps those of
    more than one character. *)
Definition group_ok (e : Similarity_Group) : Prop :=
  Forall (λ f, f ≠ []) (strings e).

Lemma same_run_foldl_Forall {A} (Q : A → Prop) (f : state → A → state)
    (l : list A) st0 st :
  Forall Q l →
  (∀ st x, Q x → same_run st0 st → same_run st0 (f st x)) →
  same_run st0 st → same_run st0 (foldl f st l).
Proof.
  intros Hl Hf. revert st. induction Hl as [|x l Hx Hl IH]; intros st H; simpl;
    [done|].
  apply IH. by apply Hf.
Qed.

(** One attempt of [map_suggest]: change the string, add it when it is a
    word, go on behind the change, and undo the change. *)
Lemma same_run_attempt (rec : nat → state → state) fuel st0 st
    (g h : list Z → list Z) k :
  (∀ k st', k ≤ length (word st') → length (word st') - k < fuel →
     same_run st' (rec k st')) →
  same_run st0 st →
  h (g (word st0)) = word st0 →
  k ≤ length (g (word st0)) →
  length (g (word st0)) - k < fuel →
  same_run st0 (upd h (rec k (add_sug (upd g st)))).
Proof.
  intros Hrec [Hw Hf] Hrestore Hk Hfuel.
  destruct (Hrec k (add_sug (upd g st))) as [Hw' Hf'].
  - simpl. by rewrite Hw.
  - simpl. by rewrite Hw.
  - simpl in Hw', Hf'. split; simpl.
    + by rewrite Hw', Hw.
    + by rewrite Hf'.
Qed.

Lemma take_1_drop (w : list Z) i :
  i < length w → take (length [at_ w i]) (drop i w) = [at_ w i].
Proof.
  intros Hi. destruct (lookup_lt_is_Some_2 w i Hi) as [c Hc].
  unfold at_. rewrite Hc. simpl.
  rewrite (drop_S _ _ _ Hc). done.
Qed.

Lemma same_run_map_suggest_group rec fuel i e st :
  group_ok e →
  (∀ k st', k ≤ length (word st') → length (word st') - k < fuel →
     same_run st' (rec k st')) →
  i < length (word st) → length (word st) - i ≤ fuel →
  same_run st (map_suggest_group rec i e st).
Proof.
  intros He Hrec Hi Hfuel. unfold map_suggest_group.
  set (w0 := word st) in *.
  assert (same_run st
    match find_char (at_ w0 i) (chars e) with
    | Some j =>
        foldl (λ st r,
          let st := upd (replace_at i 1 r) st in
          let st := add_sug st in
          let st := rec (i + length r) st in
          upd (replace_at i (length r) [at_ (chars e) j]) st)
          (foldl (λ st c,
             if (c =? at_ (chars e) j)%Z then st
             else
               let st := upd (assign_at i c) st in
               let st := add_sug st in
               let st := rec (i + 1) st in
               upd (assign_at i (at_ (chars e) j)) st) st (chars e))
          (strings e)
    | None => st
    end) as Hfirst.
  { destruct (find_char (at_ w0 i) (chars e)) as [j|] eqn:Hj; [|done].
    apply find_char_Some in Hj.
    assert (at_ (chars e) j = at_ w0 i) as Hcj by (unfold at_ at 1; by rewrite Hj).
    rewrite Hcj.
    apply same_run_foldl.
    - intros st' r Hst'. cbv zeta.
      apply (same_run_attempt rec fuel); auto; fold w0.
      + apply (replace_at_restore i [at_ w0 i] r w0); [|lia].
        by apply take_1_drop.
      + rewrite replace_at_length by lia. lia.
      + rewrite replace_at_length by lia. lia.
    - apply same_run_foldl; [|done]. intros st' c Hst'.
      destruct (c =? at_ w0 i)%Z; [done|]. cbv zeta.
      apply (same_run_attempt rec fuel); auto; fold w0.
      + unfold assign_at. rewrite list_insert_insert_eq.
        apply list_insert_id. unfold at_.
        by destruct (lookup_lt_is_Some_2 w0 i Hi) as [c' ->].
      + unfold assign_at. rewrite length_insert. lia.
      + unfold assign_at. rewrite length_insert. lia. }
  apply (same_run_foldl_Forall (λ f, f ≠ [])); [done| |done].
  intros st' f Hf Hst'.
  destruct (bool_decide_reflect (substr i (length f) (word st') = f)) as [Hocc|];
    [|done].
  simpl negb. cbv iota. destruct Hst' as [Hw' Hf'].
  rewrite Hw' in Hocc. fold w0 in Hocc. unfold substr in Hocc.
  pose proof (occurs_length f w0 i Hocc ltac:(lia)) as Hlen.
  assert (0 < length f) as Hpos by (destruct f; [done|simpl; lia]).
  apply same_run_foldl.
  - intros st'' r Hst''. destruct (bool_decide (f = r)); [done|]. cbv zeta.
    apply (same_run_attempt rec fuel); auto; fold w0.
    + apply replace_at_restore; [done|lia].
    + rewrite replace_at_length by lia. lia.
    + rewrite replace_at_length by lia. lia.
  - apply same_run_foldl; [|done]. intros st'' c Hst''. cbv zeta.
    apply (same_run_attempt rec fuel); auto; fold w0.
    + apply (replace_at_restore i f [c] w0); [done|lia].
    + rewrite replace_at_length by lia. simpl. lia.
    + rewrite replace_at_length by lia. simpl. lia.
Qed.

Lemma same_run_map_suggest fuel i st :
  Forall group_ok similarities →
  i ≤ length (word st) → length (word st) - i < fuel →
  same_run st (map_suggest fuel i st).
Proof.
  intros Hgroups. revert i st.
  induction fuel as [|fuel IH]; intros i st Hi Hfuel; [lia|].
  simpl. destruct (Nat.eqb_spec i (length (word st))) as [|Hne]; [done|].
  assert (same_run st
    (foldl (λ st e, map_suggest_group (map_suggest fuel) i e st) st similarities))
    as [Hw Hf].
  { apply (same_run_foldl_Forall group_ok); [done| |done].
    intros st' e He Hst'. eapply same_run_trans; [exact Hst'|].
    destruct Hst' as [Hw' _].
    apply (same_run_map_suggest_group _ fuel); auto; rewrite Hw'; lia. }
  eapply same_run_trans; [by split|]. apply IH; rewrite Hw; lia.
Qed.

(** No loop of [suggest_priv] stops for lack of fuel. *)
Lemma suggest_priv_fuel st :
  Forall group_ok similarities →
  fuel_ran_out (suggest_priv st) = fuel_ran_out st.
Proof.
  intros Hgroups. unfold suggest_priv. cbv zeta.
  apply flag_phonetic_suggest, flag_two_words_suggest,
    flag_doubled_two_chars_suggest, flag_bad_char_suggest,
    flag_move_char_suggest, flag_forgotten_char_suggest,
    flag_extra_char_suggest, flag_keyboard_suggest, flag_distant_swap_suggest,
    flag_adjacent_swap_suggest.
  destruct (same_run_map_suggest
              (S (length (word (rep_suggest (uppercase_suggest st))))) 0
              (rep_suggest (uppercase_suggest st)) Hgroups) as [_ ->]; [lia|lia|].
  rewrite flag_rep_suggest. by apply flag_uppercase_suggest.
Qed.

(** *** The string is given back as it was *)

Lemma at_lookup (w : list Z) i : i < length w → w !! i = Some (at_ w i).
Proof.
  intros Hi. unfold at_. destruct (lookup_lt_is_Some_2 w i Hi) as [c ->]. done.
Qed.

Lemma swap_swap i j (w : list Z) :
  i < length w → j < length w → swap i j (swap i j w) = w.
Proof.
  intros Hi Hj. pose proof (at_lookup w i Hi) as Hwi.
  pose proof (at_lookup w j Hj) as Hwj.
  unfold swap. apply list_eq. intros k.
  assert (Hi' : at_ (<[j:=at_ w i]> (<[i:=at_ w j]> w)) i = at_ w j).
  { unfold at_ at 1. rewrite list_lookup_insert.
    destruct (decide (j = i ∧ _)) as [[-> _]|Hn]; [done|].
    rewrite list_lookup_insert_eq by done. done. }
  assert (Hj' : at_ (<[j:=at_ w i]> (<[i:=at_ w j]> w)) j = at_ w i).
  { unfold at_ at 1. rewrite list_lookup_insert_eq; [done|].
    by rewrite length_insert. }
  rewrite Hi', Hj'.
  rewrite !list_lookup_insert, !length_insert.
  repeat destruct (decide _); try done; intuition (subst; try lia; try done).
Qed.

Lemma assign_at_restore i c (w : list Z) :
  assign_at i (at_ w i) (assign_at i c w) = w.
Proof.
  unfold assign_at. rewrite list_insert_insert_eq.
  apply list_insert_id'. intros Hi. by apply at_lookup.
Qed.

Lemma insert_at_erase i (w : list Z) :
  i < length w → insert_at i (at_ w i) (erase_range i 1 w) = w.
Proof.
  intros Hi. unfold insert_at, erase_range.
  rewrite take_app_length' by (rewrite length_take; lia).
  rewrite drop_app_length' by (rewrite length_take; lia).
  replace (i + 1) with (S i) by lia.
  apply take_drop_middle. by apply at_lookup.
Qed.

Lemma erase_insert_at_any i c (w : list Z) :
  i ≤ length w → erase_range i 1 (insert_at i c w) = w.
Proof.
  intros Hi. unfold insert_at, erase_range.
  rewrite take_app_length' by (rewrite length_take; lia).
  rewrite drop_app_add' by (rewrite length_take; lia).
  simpl. rewrite drop_0. apply take_drop.
Qed.

(** A loop whose body gives the string back gives it back. *)
Lemma word_foldl {A} (Q : A → Prop) (f : state → A → state) (l : list A)
    (w : list Z) st :
  Forall Q l →
  (∀ st x, Q x → word st = w → word (f st x) = w) →
  word st = w → word (foldl f st l) = w.
Proof.
  intros Hl Hf. revert st. induction Hl as [|x l Hx Hl IH]; intros st H; simpl;
    [done|].
  apply IH. by apply Hf.
Qed.

Lemma Forall_seq_lt a n : Forall (λ i, a ≤ i ∧ i < a + n) (seq a n).
Proof.
  apply Forall_forall. intros i Hi. apply elem_of_seq in Hi. lia.
Qed.

Lemma Forall_rev_seq_lt a n : Forall (λ i, a ≤ i ∧ i < a + n) (rev (seq a n)).
Proof.
  apply Forall_forall. intros i Hi.
  apply list_elem_of_In, in_rev, list_elem_of_In, elem_of_seq in Hi. lia.
Qed.

Lemma word_add_sug st : word (add_sug st) = word st.
Proof. done. Qed.

Lemma same_run_rep_suggest st : same_run st (rep_suggest st).
Proof.
  unfold rep_suggest. cbv zeta.
  apply same_run_foldl.
  { intros st' r H. eapply same_run_trans; [exact H|].
    apply same_run_any_place_loop.
    intros k Hk. apply find_sub_from_spec in Hk as (? & ? & ?).
    split_and!; [done|done|lia]. }
  apply same_run_foldl.
  { intros st' r H. cbv zeta.
    destruct (Nat.leb_spec (length r.1) (length (word st'))) as [Hle|]; [|done].
    simpl. destruct (bool_decide_reflect
                       (drop (length (word st') - length r.1) (word st') = r.1))
      as [Hfrom|]; [|done].
    eapply same_run_trans; [exact H|].
    destruct (same_run_try_rep_suggestion
                (set_word (take (length (word st') - length r.1) (word st') ++ r.2)
                   st')) as [Hw Hf].
    split; [|exact Hf]. cbn [word set_word] in Hw |- *. rewrite Hw.
    rewrite take_app_length' by (rewrite length_take; lia).
    rewrite <- Hfrom at 2. apply take_drop. }
  apply same_run_foldl.
  { intros st' r H. cbv zeta.
    destruct (bool_decide_reflect (substr 0 (length r.1) (word st') = r.1))
      as [Hfrom|]; [|done].
    eapply same_run_trans; [exact H|].
    destruct (same_run_try_rep_suggestion
                (set_word (replace_at 0 (length r.1) r.2 (word st')) st'))
      as [Hw Hf].
    split; [|exact Hf]. cbn [word set_word] in Hw |- *. rewrite Hw.
    apply replace_at_restore; [|lia]. by rewrite drop_0. }
  apply same_run_foldl; [|done].
  intros st' r H. cbv zeta.
  destruct (bool_decide_reflect (word st' = r.1)) as [Hfrom|]; [|done].
  eapply same_run_trans; [exact H|].
  destruct (same_run_try_rep_suggestion (set_word r.2 st')) as [Hw Hf].
  split; [|exact Hf]. done.
Qed.

Lemma word_adjacent_swap_suggest st :
  word (adjacent_swap_suggest st) = word st.
Proof.
  unfold adjacent_swap_suggest.
  destruct (Nat.eqb_spec (length (word st)) 0) as [|Hne]; [done|]. cbv zeta.
  set (st1 := foldl _ st _).
  assert (H1 : word st1 = word st).
  { apply (word_foldl (λ i, 0 ≤ i ∧ i < 0 + (length (word st) - 1)));
      [apply Forall_seq_lt| |done].
    intros st' i Hi Hw. cbn [word upd set_word add_sug set_out]. rewrite Hw.
    apply swap_swap; lia. }
  clearbody st1. rewrite H1.
  destruct (word st) as [|a [|b [|c [|d [|e [|? ?]]]]]] eqn:Hw;
    cbn [length Nat.eqb]; try done;
    cbn [word upd set_word add_sug set_out]; by rewrite H1.
Qed.

Lemma word_distant_swap_suggest st :
  word (distant_swap_suggest st) = word st.
Proof.
  unfold distant_swap_suggest.
  destruct (Nat.ltb_spec (length (word st)) 3) as [|Hlen]; [done|].
  apply (word_foldl (λ i, 0 ≤ i ∧ i < 0 + (length (word st) - 2)));
    [apply Forall_seq_lt| |done].
  intros st' i Hi Hw.
  apply (word_foldl (λ j, i + 2 ≤ j ∧ j < i + 2 + (length (word st') - (i + 2))));
    [apply Forall_seq_lt| |done].
  intros st'' j Hj Hw'. cbn [word upd set_word add_sug set_out]. rewrite Hw'.
  rewrite Hw in Hj. apply swap_swap; lia.
Qed.

Lemma word_keyboard_loop fuel j c i st :
  c = at_ (word st) j →
  word (keyboard_loop fuel j c i st) = word st.
Proof.
  revert i st. induction fuel as [|fuel IH]; intros [i|] st Hc; simpl; try done.
  set (st1 := if negb (i =? 0) && _ then _ else st).
  assert (H1 : word st1 = word st).
  { unfold st1. destruct (_ && _); [|done].
    cbn [word upd set_word add_sug set_out]. rewrite Hc.
    apply assign_at_restore. }
  clearbody st1.
  set (st2 := if negb (i + 1 =? _) && _ then _ else st1).
  assert (H2 : word st2 = word st).
  { unfold st2. destruct (_ && _); [|exact H1].
    cbn [word upd set_word add_sug set_out]. rewrite H1, Hc.
    apply assign_at_restore. }
  clearbody st2.
  rewrite IH; [done|]. by rewrite H2.
Qed.

Lemma word_keyboard_suggest st : word (keyboard_suggest st) = word st.
Proof.
  unfold keyboard_suggest. cbv zeta.
  apply (word_foldl (λ _, True)); [by apply Forall_forall| |done].
  intros st' j _ Hw.
  rewrite word_keyboard_loop.
  - destruct (negb _); [|done].
    cbn [word upd set_word add_sug set_out]. rewrite <- Hw.
    apply assign_at_restore.
  - destruct (negb _); [|done].
    cbn [word upd set_word add_sug set_out]. by rewrite assign_at_restore.
Qed.

Lemma word_extra_char_suggest st : word (extra_char_suggest st) = word st.
Proof.
  unfold extra_char_suggest.
  apply (word_foldl (λ i, 0 ≤ i ∧ i < 0 + length (word st)));
    [apply Forall_rev_seq_lt| |done].
  intros st' i Hi Hw. cbn [word upd set_word add_sug set_out]. rewrite Hw.
  apply insert_at_erase. lia.
Qed.

Lemma word_forgotten_char_suggest st :
  word (forgotten_char_suggest st) = word st.
Proof.
  unfold forgotten_char_suggest.
  apply (word_foldl (λ _, True)); [by apply Forall_forall| |done].
  intros st' new_c _ Hw.
  apply (word_foldl (λ i, 0 ≤ i ∧ i < 0 + S (length (word st'))));
    [apply Forall_rev_seq_lt| |done].
  intros st'' i Hi Hw'. cbn [word upd set_word add_sug set_out]. rewrite Hw'.
  rewrite Hw in Hi. apply erase_insert_at_any. lia.
Qed.

Lemma word_move_char_suggest st : word (move_char_suggest st) = word st.
Proof.
  unfold move_char_suggest.
  destruct (Nat.ltb_spec (length (word st)) 3) as [|Hlen]; [done|]. cbv zeta.
  apply (word_foldl (λ _, True)); [by apply Forall_forall|done|].
  apply (word_foldl (λ _, True)); [by apply Forall_forall|done|done].
Qed.

Lemma word_bad_char_suggest st : word (bad_char_suggest st) = word st.
Proof.
  unfold bad_char_suggest.
  apply (word_foldl (λ _, True)); [by apply Forall_forall| |done].
  intros st' new_c _ Hw.
  apply (word_foldl (λ _, True)); [by apply Forall_forall| |done].
  intros st'' i _ Hw'. cbv zeta. destruct (_ =? _)%Z; [done|].
  cbn [word upd set_word add_sug set_out]. rewrite <- Hw'.
  apply assign_at_restore.
Qed.

Lemma word_phonetic_suggest st : word (phonetic_suggest st) = word st.
Proof. done. Qed.

Lemma word_uppercase_suggest st : word (uppercase_suggest st) = word st.
Proof. done. Qed.

Lemma word_push_if_absent st : word (push_if_absent st) = word st.
Proof. unfold push_if_absent. by destruct (bool_decide _). Qed.

Lemma word_two_words_suggest st : word (two_words_suggest st) = word st.
Proof.
  unfold two_words_suggest.
  destruct (Nat.ltb_spec (length (word st)) 2) as [|Hlen]; [done|]. cbv zeta.
  set (backup := word st). change (2 ≤ length backup) in Hlen.
  match goal with
  | |- word (upd _ (foldl ?f ?s (seq 0 ?n))) = _ =>
      pose proof (foldl_seq_inv (λ i st', word st' = take i backup) f 0 n s)
        as Hloop
  end.
  cbn [word upd set_word]. rewrite Hloop.
  - simpl. apply Replacement_Table.pop_back_snoc.
    intros Hb. rewrite Hb in Hlen. simpl in Hlen. lia.
  - done.
  - clear Hloop. intros i st' _ Hi Hword. simpl in Hi.
    assert (take (S i) backup = take i backup ++ [at_ backup i]) as Htake.
    { destruct (lookup_lt_is_Some_2 backup i) as [c Hc]; [lia|].
      unfold at_. rewrite Hc. simpl. by apply take_S_r. }
    cbv zeta. cbn [word upd set_word out set_out].
    rewrite Hword, <- Htake.
    destruct (check_simple_word (take (S i) backup)) as [w1|].
    2:{ cbn [word upd set_word out set_out]. by rewrite Hword, <- Htake. }
    destruct (check_simple_word (substr (i + 1) (length backup - (i + 1)) backup))
      as [w2|].
    2:{ cbn [word upd set_word out set_out].
        unfold substr. rewrite drop_0. by replace (i + 1) with (S i) by lia. }
    set (a := substr 0 (i + 1) backup).
    set (b := substr (i + 1) (length backup - (i + 1)) backup).
    assert (a = take (S i) backup) as Ha.
    { unfold a, substr. rewrite drop_0. by replace (i + 1) with (S i) by lia. }
    assert (length a = i + 1) as Hla.
    { rewrite Ha, length_take. lia. }
    assert (∀ x, take (i + 1) ((a ++ [ch_space]) ++ x) = take (S i) backup)
      as Hback.
    { intros x. rewrite <- app_assoc, take_app_length' by lia. done. }
    match goal with
    | |- context [if ?c then _ else _] => destruct c
    end.
    + cbn [word upd set_word]. rewrite word_push_if_absent.
      cbn [word upd set_word]. rewrite word_push_if_absent.
      cbn [word upd set_word]. unfold assign_at.
      rewrite take_insert_ge by lia. apply Hback.
    + cbn [word upd set_word]. rewrite word_push_if_absent.
      cbn [word upd set_word]. apply Hback.
Qed.

(** [doubled_two_chars_suggest] takes the two characters out at [i + 3] and
    puts [w[i]], [w[i + 1]] in at that place: the characters that were
    there, in the other order. *)
Lemma doubled_two_chars_round (w : list Z) i :
  i + 4 < length w →
  at_ w (i + 1) = at_ w (i + 3) → at_ w i = at_ w (i + 4) →
  take (i + 3) (erase_range (i + 3) 2 w) ++ [at_ w i; at_ w (i + 1)] ++
    drop (i + 3) (erase_range (i + 3) 2 w)
  = take (i + 3) w ++ [at_ w (i + 4); at_ w (i + 3)] ++ drop (i + 5) w.
Proof.
  intros Hi H1 H2. unfold erase_range.
  rewrite take_app_length' by (rewrite length_take; lia).
  rewrite drop_app_length' by (rewrite length_take; lia).
  rewrite H1, H2. by replace (i + 3 + 2) with (i + 5) by lia.
Qed.

Lemma two_chars_split (w : list Z) i :
  i + 4 < length w →
  w = take (i + 3) w ++ [at_ w (i + 3); at_ w (i + 4)] ++ drop (i + 5) w.
Proof.
  intros Hi. rewrite <- (take_drop (i + 3) w) at 1. f_equal.
  rewrite (drop_S w (at_ w (i + 3)) (i + 3)) by (apply at_lookup; lia).
  rewrite (drop_S w (at_ w (i + 4)) (S (i + 3)))
    by (replace (S (i + 3)) with (i + 4) by lia; apply at_lookup; lia).
  simpl. do 3 f_equal. lia.
Qed.

(** A loop whose body keeps a property of the string keeps it. *)
Lemma word_foldl_inv {A} (Q : A → Prop) (P : list Z → Prop)
    (f : state → A → state) (l : list A) st :
  Forall Q l →
  (∀ st x, Q x → P (word st) → P (word (f st x))) →
  P (word st) → P (word (foldl f st l)).
Proof.
  intros Hl Hf. revert st. induction Hl as [|x l Hx Hl IH]; intros st H; simpl;
    [done|].
  apply IH. by apply Hf.
Qed.

Lemma doubled_two_chars_suggest_Permutation st :
  word (doubled_two_chars_suggest st) ≡ₚ word st.
Proof.
  unfold doubled_two_chars_suggest.
  destruct (Nat.ltb_spec (length (word st)) 5) as [|Hlen]; [done|].
  apply (word_foldl_inv (λ i, 0 ≤ i ∧ i < 0 + (length (word st) - 4))
           (λ w, w ≡ₚ word st)); [apply Forall_seq_lt| |done].
  intros st' i Hi Hw. cbv zeta.
  destruct (_ && _) eqn:Hc; [|done].
  cbn [word upd set_word add_sug set_out].
  apply andb_true_iff in Hc as [Hc H3].
  apply andb_true_iff in Hc as [_ H2].
  apply Z.eqb_eq in H2, H3.
  assert (Hi' : i + 4 < length (word st'))
    by (rewrite (Permutation_length Hw); lia).
  rewrite (doubled_two_chars_round (word st') i Hi' H2 H3).
  rewrite <- Hw. rewrite (two_chars_split (word st') i Hi') at 5.
  apply Permutation_app_head. simpl. apply perm_swap.
Qed.

(** The functions that [suggest_priv] calls before and after
    [doubled_two_chars_suggest], in the order of the calls. *)
Definition before_doubled_two_chars : list (state → state) :=
  [uppercase_suggest; rep_suggest;
   (λ st, map_suggest (S (length (word st))) 0 st);
   adjacent_swap_suggest; distant_swap_suggest; keyboard_suggest;
   extra_char_suggest; forgotten_char_suggest; move_char_suggest;
   bad_char_suggest].

Definition after_doubled_two_chars : list (state → state) :=
  [two_words_suggest; phonetic_suggest].

Lemma word_map_suggest st :
  Forall group_ok similarities →
  word (map_suggest (S (length (word st))) 0 st) = word st.
Proof.
  intros Hgroups.
  destruct (same_run_map_suggest (S (length (word st))) 0 st Hgroups) as [Hw _];
    [lia|lia|done].
Qed.

Lemma before_doubled_give_word_back :
  Forall group_ok similarities →
  Forall (λ f : state → state, ∀ st, word (f st) = word st)
    before_doubled_two_chars.
Proof.
  intros Hgroups. unfold before_doubled_two_chars.
  repeat (apply Forall_cons; split); try apply Forall_nil_2; intros st.
  - apply word_uppercase_suggest.
  - apply same_run_rep_suggest.
  - by apply word_map_suggest.
  - apply word_adjacent_swap_suggest.
  - apply word_distant_swap_suggest.
  - apply word_keyboard_suggest.
  - apply word_extra_char_suggest.
  - apply word_forgotten_char_suggest.
  - apply word_move_char_suggest.
  - apply word_bad_char_suggest.
Qed.

Lemma word_foldl_functions (fs : list (state → state)) st :
  Forall (λ f : state → state, ∀ st, word (f st) = word st) fs →
  word (foldl (λ st f, f st) st fs) = word st.
Proof.
  intros Hfs. revert st. induction Hfs as [|f fs Hf Hfs IH]; intros st; simpl;
    [done|].
  by rewrite IH, Hf.
Qed.

(** X17. Every function of the suggestor but one gives the string of the
    caller back as it was, when the strings of the similarity groups are not
    empty (as those of parsed groups are): [suggest_priv] is the sequence of
    the ten functions of [before_doubled_two_chars],
    [doubled_two_chars_suggest] and the two functions of
    [after_doubled_two_chars]; each of the twelve leaves the string as it
    found it, so that the string after [suggest_priv] is the one that
    [doubled_two_chars_suggest] leaves, which holds the same characters in
    another order. *)
Theorem suggest_functions_give_word_back (st : state) :
  Forall group_ok similarities →
  suggest_priv st
    = foldl (λ st f, f st) st
        (before_doubled_two_chars ++ [doubled_two_chars_suggest] ++
         after_doubled_two_chars) ∧
  Forall (λ f : state → state, ∀ st, word (f st) = word st)
    (before_doubled_two_chars ++ after_doubled_two_chars) ∧
  word (suggest_priv st)
    = word (doubled_two_chars_suggest
              (foldl (λ st f, f st) st before_doubled_two_chars)) ∧
  word (suggest_priv st) ≡ₚ word st.
Proof.
  intros Hgroups.
  pose proof (before_doubled_give_word_back Hgroups) as Hbefore.
  assert (Hafter : Forall (λ f : state → state, ∀ st, word (f st) = word st)
                     after_doubled_two_chars).
  { unfold after_doubled_two_chars.
    repeat (apply Forall_cons; split); try apply Forall_nil_2; intros st'.
    - apply word_two_words_suggest.
    - apply word_phonetic_suggest. }
  assert (Hword : word (suggest_priv st)
            = word (doubled_two_chars_suggest
                      (foldl (λ st f, f st) st before_doubled_two_chars))).
  { change (suggest_priv st)
      with (foldl (λ st f, f st)
              (doubled_two_chars_suggest
                 (foldl (λ st f, f st) st before_doubled_two_chars))
              after_doubled_two_chars).
    by apply word_foldl_functions. }
  split_and!.
  - reflexivity.
  - by apply Forall_app.
  - exact Hword.
  - rewrite Hword, doubled_two_chars_suggest_Permutation.
    by rewrite word_foldl_functions.
Qed.

(** X18. [doubled_two_chars_suggest] does not give the string back as it
    was: it leaves the same characters, and where it finds [x y x y x] it
    takes the last two characters out and puts [x y] in their place, so that
    the string becomes [x y x x y]. *)
Theorem doubled_two_chars_suggest_reorders (st : state) (x y : Z) :
  word (doubled_two_chars_suggest st) ≡ₚ word st ∧
  word (doubled_two_chars_suggest (set_word [x; y; x; y; x] st))
    = [x; y; x; x; y].
Proof.
  split; [apply doubled_two_chars_suggest_Permutation|].
  unfold doubled_two_chars_suggest. cbn. by rewrite !Z.eqb_refl.
Qed.

End Suggester.

(** *** [Similarity_Group::parse] of structures.hxx *)

Definition ch_lparen : Z := 40.
Definition ch_rparen : Z := 41.

(** The loop of [parse], from position [i] on. [chars.append(s, i, j - i)]
    with [j == npos] appends the rest of the string. The answer [None] is
    fuel that ran out. *)
Fixpoint parse_loop (fuel : nat) (s : list Z) (i : nat) (g : Similarity_Group) :
    option Similarity_Group :=
  match fuel with
  | 0 => None
  | S fuel' =>
      match find_char_from ch_lparen i s with
      | None => Some (mk_group (chars g ++ drop i s) (strings g))
      | Some j =>
          let g := mk_group (chars g ++ substr i (j - i) s) (strings g) in
          let i := j + 1 in
          match find_char_from ch_rparen i s with
          | None => Some g
          | Some j =>
              let len := j - i in
              let g :=
                if len =? 1 then mk_group (chars g ++ [at_ s i]) (strings g)
                else if 1 <? len
                     then mk_group (chars g) (strings g ++ [substr i len s])
                     else g in
              parse_loop fuel' s (j + 1) g
          end
      end
  end.

(** [parse(s)] on a group [g]; it adds to what the group holds. *)
Definition parse (s : list Z) (g : Similarity_Group) : option Similarity_Group :=
  parse_loop (S (length s)) s 0 g.

(** The constructor [Similarity_Group(const Str& s)]. *)
Definition Similarity_Group_of (s : list Z) : option Similarity_Group :=
  parse s (mk_group [] []).

(** The items of a line of the affix file: a character, or a string in
    parentheses. *)
Definition render_item (x : Z + list Z) : list Z :=
  match x with
  | inl c => [c]
  | inr f => ch_lparen :: f ++ [ch_rparen]
  end.

Definition render (items : list (Z + list Z)) : list Z :=
  concat (map render_item items).

Definition chars_of (items : list (Z + list Z)) : list Z :=
  omap (λ x, match x with inl c => Some c | inr _ => None end) items.

Definition strings_of (items : list (Z + list Z)) : list (list Z) :=
  omap (λ x, match x with inl _ => None | inr f => Some f end) items.

Definition item_ok (x : Z + list Z) : Prop :=
  match x with
  | inl c => c ≠ ch_lparen
  | inr f => 1 < length f ∧ ch_rparen ∉ f
  end.

Lemma find_char_from_here c i (s : list Z) :
  s !! i = Some c → find_char_from c i s = Some i.
Proof.
  intros Hi. unfold find_char_from.
  rewrite (drop_S _ _ _ Hi). simpl. rewrite Z.eqb_refl. simpl. f_equal. lia.
Qed.

Lemma find_char_from_skip c i x (s : list Z) :
  s !! i = Some x → x ≠ c → find_char_from c i s = find_char_from c (i + 1) s.
Proof.
  intros Hi Hx. unfold find_char_from.
  rewrite (drop_S _ _ _ Hi). simpl. destruct (Z.eqb_spec x c); [done|].
  replace (i + 1) with (S i) by lia.
  destruct (find_char c (drop (S i) s)); simpl; [|done]. f_equal. lia.
Qed.

Lemma find_char_from_skip_many c i (skipped : list Z) pre post :
  length pre = i → c ∉ skipped →
  find_char_from c i (pre ++ skipped ++ post)
  = find_char_from c (i + length skipped) (pre ++ skipped ++ post).
Proof.
  revert pre i. induction skipped as [|x skipped IH]; intros pre i Hi Hc; simpl.
  - by rewrite Nat.add_0_r.
  - apply not_elem_of_cons in Hc as [Hx Hc].
    rewrite (find_char_from_skip c i x); [|by apply list_lookup_middle|done].
    replace (pre ++ x :: skipped ++ post) with ((pre ++ [x]) ++ skipped ++ post)
      by (by rewrite <- app_assoc).
    rewrite (IH (pre ++ [x]) (i + 1)); [f_equal; lia| |done].
    rewrite length_app. simpl. lia.
Qed.

(** A character that is no opening parenthesis goes to [chars]. *)
Lemma parse_loop_char fuel s i c g :
  s !! i = Some c → c ≠ ch_lparen →
  parse_loop fuel s i g
  = parse_loop fuel s (i + 1) (mk_group (chars g ++ [c]) (strings g)).
Proof.
  intros Hi Hc. destruct fuel as [|fuel]; simpl; [done|].
  rewrite (find_char_from_skip ch_lparen i c s Hi Hc).
  destruct (find_char_from ch_lparen (i + 1) s) as [j|] eqn:Hj.
  - apply find_char_from_spec in Hj as Hj'. unfold substr.
    rewrite (drop_S _ _ _ Hi).
    replace (j - i) with (S (j - (i + 1))) by lia. simpl.
    replace (S i) with (i + 1) by lia. by rewrite <- !app_assoc.
  - rewrite (drop_S _ _ _ Hi). replace (S i) with (i + 1) by lia.
    by rewrite <- !app_assoc.
Qed.

(** A string of more than one character in parentheses goes to [strings]. *)
Lemma parse_loop_string fuel pre f post g :
  1 < length f → ch_rparen ∉ f →
  parse_loop (S fuel) (pre ++ (ch_lparen :: f ++ [ch_rparen]) ++ post) (length pre) g
  = parse_loop fuel (pre ++ (ch_lparen :: f ++ [ch_rparen]) ++ post)
      (length pre + length (ch_lparen :: f ++ [ch_rparen]))
      (mk_group (chars g) (strings g ++ [f])).
Proof.
  intros Hlen Hf. set (s := pre ++ _ ++ post). simpl.
  assert (Hs : s = (pre ++ [ch_lparen]) ++ f ++ ch_rparen :: post).
  { unfold s. simpl. by rewrite <- !app_assoc. }
  rewrite (find_char_from_here ch_lparen (length pre) s)
    by (unfold s; simpl; by apply list_lookup_middle).
  rewrite Nat.sub_diag. unfold substr at 1. rewrite take_0, app_nil_r.
  assert (Hclose : find_char_from ch_rparen (length pre + 1) s
                   = Some (length pre + 1 + length f)).
  { rewrite Hs.
    rewrite (find_char_from_skip_many ch_rparen (length pre + 1) f);
      [|rewrite length_app; simpl; lia|done].
    apply find_char_from_here. rewrite app_assoc.
    apply list_lookup_middle. rewrite !length_app. simpl. lia. }
  rewrite Hclose.
  replace (length pre + 1 + length f - (length pre + 1)) with (length f) by lia.
  destruct (Nat.eqb_spec (length f) 1); [lia|].
  destruct (Nat.ltb_spec 1 (length f)); [|lia].
  assert (Hsub : substr (length pre + 1) (length f) s = f).
  { unfold substr. rewrite Hs.
    rewrite drop_app_length' by (rewrite length_app; simpl; lia).
    by rewrite take_app_length. }
  rewrite Hsub. simpl. f_equal.
  - rewrite length_app. simpl. lia.
  - unfold substr. by rewrite take_0, app_nil_r.
Qed.

Lemma parse_loop_render fuel pre items g :
  Forall item_ok items → length items < fuel →
  parse_loop fuel (pre ++ render items) (length pre) g
  = Some (mk_group (chars g ++ chars_of items) (strings g ++ strings_of items)).
Proof.
  intros Hitems. revert fuel pre g.
  induction Hitems as [|x items Hx Hitems IH]; intros fuel pre g Hfuel.
  - destruct fuel as [|fuel]; [simpl in Hfuel; lia|]. simpl.
    unfold render. simpl. rewrite !app_nil_r.
    unfold find_char_from. rewrite !drop_all. simpl. by rewrite ?app_nil_r.
  - destruct x as [c|f]; simpl in Hx.
    + change (render (inl c :: items)) with ([c] ++ render items).
      rewrite (parse_loop_char fuel (pre ++ [c] ++ render items) (length pre) c);
        [|by apply list_lookup_middle|done].
      replace (pre ++ [c] ++ render items) with ((pre ++ [c]) ++ render items)
        by (by rewrite <- app_assoc).
      replace (length pre + 1) with (length (pre ++ [c]))
        by (rewrite length_app; simpl; lia).
      rewrite IH by (simpl in Hfuel; lia). simpl. by rewrite <- !app_assoc.
    + destruct Hx as [Hlen Hf].
      change (render (inr f :: items))
        with ((ch_lparen :: f ++ [ch_rparen]) ++ render items).
      destruct fuel as [|fuel]; [simpl in Hfuel; lia|].
      rewrite (parse_loop_string fuel pre f (render items) g Hlen Hf).
      replace (pre ++ (ch_lparen :: f ++ [ch_rparen]) ++ render items)
        with ((pre ++ ch_lparen :: f ++ [ch_rparen]) ++ render items)
        by (by rewrite <- !app_assoc).
      rewrite <- length_app.
      rewrite IH by (simpl in Hfuel; lia). simpl. by rewrite <- !app_assoc.
Qed.

Lemma render_length items : length items ≤ length (render items).
Proof.
  induction items as [|x items IH]; simpl; [lia|].
  unfold render in *. simpl. rewrite length_app.
  destruct x; simpl; lia.
Qed.

(** X14. [Similarity_Group::parse] reads a line of characters and strings
    in parentheses back: for a line written from a list of items, each a
    character other than the opening parenthesis or a string of two or
    more characters without closing parenthesis put in parentheses, the
    group gets the characters added to [chars] and the strings added to
    [strings], in their order. What the group held before stays in front:
    assignment does not clear the group. *)
Theorem parse_reads_rendered_line (items : list (Z + list Z)) (g : Similarity_Group) :
  Forall item_ok items →
  parse (render items) g
  = Some (mk_group (chars g ++ chars_of items) (strings g ++ strings_of items)).
Proof.
  intros Hitems. unfold parse.
  apply (parse_loop_render _ [] items g Hitems).
  pose proof (render_length items). lia.
Qed.

Lemma parse_reads_rendered_line_witness :
  Forall item_ok [inl 97; inr [115; 115]; inl 223; inr [122; 122; 122]]%Z ∧
  parse (render [inl 97; inr [115; 115]; inl 223; inr [122; 122; 122]]%Z)
    (mk_group [] [])
  = Some (mk_group
            ([] ++ chars_of [inl 97; inr [115; 115]; inl 223; inr [122; 122; 122]]%Z)
            ([] ++ strings_of [inl 97; inr [115; 115]; inl 223; inr [122; 122; 122]]%Z)).
Proof.
  assert (H : Forall item_ok [inl 97; inr [115; 115]; inl 223; inr [122; 122; 122]]%Z).
  { repeat constructor; simpl; try lia; try discriminate;
      rewrite ?elem_of_cons, elem_of_nil; unfold ch_rparen; intuition discriminate. }
  split; [exact H|].
  exact (parse_reads_rendered_line _ (mk_group [] []) H).
Defined.

(** The strings [parse] has added. *)
Definition string_ok (f : list Z) : Prop := 1 < length f ∧ ch_rparen ∉ f.

Lemma parse_loop_total fuel s i g :
  i ≤ length s → length s - i < fuel →
  Forall string_ok (strings g) →
  ∃ g', parse_loop fuel s i g = Some g' ∧
        chars g `prefix_of` chars g' ∧
        strings g `prefix_of` strings g' ∧
        Forall string_ok (strings g').
Proof.
  revert i g. induction fuel as [|fuel IH]; intros i g Hi Hfuel Hg; [lia|].
  simpl. destruct (find_char_from ch_lparen i s) as [j|] eqn:Hj.
  - apply find_char_from_spec in Hj as [Hij Hjs].
    destruct (find_char_from ch_rparen (j + 1) s) as [k|] eqn:Hk.
    + apply find_char_from_spec in Hk as Hk'. destruct Hk' as [Hjk Hks].
      set (g1 := if k - (j + 1) =? 1 then _ else _).
      assert (Hg1 : chars g `prefix_of` chars g1 ∧
                    strings g `prefix_of` strings g1 ∧
                    Forall string_ok (strings g1)).
      { unfold g1. destruct (Nat.eqb_spec (k - (j + 1)) 1).
        - simpl. split_and!; [|done|done].
          rewrite <- app_assoc. by apply prefix_app_r.
        - destruct (Nat.ltb_spec 1 (k - (j + 1))); simpl.
          + split_and!; [by apply prefix_app_r|by apply prefix_app_r|].
            apply Forall_app. split; [done|]. constructor; [|done].
            unfold string_ok, substr. split.
            * rewrite length_take, length_drop. lia.
            * intros Hin. unfold find_char_from in Hk.
              destruct (find_char ch_rparen (drop (j + 1) s)) as [m|] eqn:Hm;
                [|done].
              simpl in Hk. injection Hk as <-.
              apply String_Set.find_char_not_before in Hm.
              replace (j + 1 + m - (j + 1)) with m in Hin by lia. done.
          + split_and!; [by apply prefix_app_r|done|done]. }
      destruct Hg1 as (Hc1 & Hs1 & Hok1).
      destruct (IH (k + 1) g1) as (g' & -> & Hc' & Hs' & Hok'); [lia|lia|done|].
      exists g'. split_and!; auto; by etrans.
    + eexists. split; [done|]. simpl. split_and!; [by apply prefix_app_r|done|done].
  - eexists. split; [done|]. simpl. split_and!; [by apply prefix_app_r|done|done].
Qed.

Lemma Similarity_Group_of_total (s : list Z) :
  ∃ g, Similarity_Group_of s = Some g ∧
       Forall (λ f, 1 < length f ∧ ch_rparen ∉ f) (strings g).
Proof.
  destruct (parse_loop_total (S (length s)) s 0 (mk_group [] []))
    as (g & Hg & _ & _ & Hok); [lia|lia|done|].
  by exists g.
Qed.

(** X15. [Similarity_Group::parse] comes to its end on every line, and the
    group it builds from a line has only strings of two or more characters,
    none with a closing parenthesis in it: a string of one character in
    parentheses counts as a character, and an empty pair of parentheses adds
    nothing. *)
Theorem parse_strings_have_two_chars (s : list Z) :
  ∃ g, Similarity_Group_of s = Some g ∧
       Forall (λ f, 1 < length f ∧ ch_rparen ∉ f) (strings g).
Proof.
  destruct (parse_loop_total (S (length s)) s 0 (mk_group [] []))
    as (g & Hg & _ & _ & Hok); [lia|lia|done|].
  exists g. split; [exact Hg|exact Hok].
Qed.

Lemma Similarity_Group_of_group_ok s g :
  Similarity_Group_of s = Some g → group_ok g.
Proof.
  intros Hg. destruct (Similarity_Group_of_total s) as (g' & Hg' & Hok).
  rewrite Hg in Hg'. injection Hg' as <-. unfold group_ok.
  eapply Forall_impl; [exact Hok|]. simpl. intros f [Hlen _] ->.
  simpl in Hlen. lia.
Qed.

Section parsed_groups.
Variable check_word : list Z → Casing → option Flag_Set.
Variable check_simple_word : list Z → option Flag_Set.
Variable to_upper : list Z → list Z.
Variable u_toupper u_tolower : Z → Z.
Variable phonetic_table_replace : list Z → bool * list Z.
Variable forbiddenword_flag warn_flag : Z.
Variable forbid_warn : bool.
Variable replacements : Replacement_Table.Replacement_Table.
Variable keyboard_closeness : list Z.
Variable try_chars : list Z.

(** The similarity groups of the lines of the affix file. *)
Definition groups_of (lines : list (list Z)) : list Similarity_Group :=
  omap Similarity_Group_of lines.

(** X16. With the similarity groups that [parse] builds from the lines of
    the affix file, one group for each line, no loop of the suggestor runs
    without end: the strings of a parsed group have two characters or more,
    so that every call of [map_suggest] by itself is at a later place of the
    word. *)
Theorem suggest_priv_ends_with_parsed_groups (lines : list (list Z)) (word : list Z) :
  length (groups_of lines) = length lines ∧
  fuel_ran_out
    (suggest_priv check_word check_simple_word to_upper u_toupper u_tolower
       phonetic_table_replace forbiddenword_flag warn_flag forbid_warn
       replacements (groups_of lines) keyboard_closeness try_chars
       (mk_state word [] false)) = false.
Proof.
  split.
  - unfold groups_of. induction lines as [|l lines IH]; simpl; [done|].
    destruct (Similarity_Group_of_total l) as (g & -> & _). simpl.
    f_equal. exact IH.
  - rewrite suggest_priv_fuel; [done|].
    unfold groups_of. induction lines as [|l lines IH]; simpl; [constructor|].
    destruct (Similarity_Group_of l) as [g|] eqn:Hg; [|done].
    constructor; [|done]. by eapply Similarity_Group_of_group_ok.
Qed.

End parsed_groups.

(** A checker that knows the two words "a" and "lot", with no flags, no
    replacements, no similarity groups, no keyboard layout and no letters to
    try. For "alot" the suggestor finds "lot", by leaving out a letter, and
    "a lot", by splitting the word in two. *)
Definition example_words : list (list Z) := [[97]; [108; 111; 116]]%Z.

Definition example_check_word (s : list Z) (c : Casing) : option Flag_Set :=
  if bool_decide (s ∈ example_words) then Some (String_Set.of_str []) else None.

Definition example_toupper (c : Z) : Z :=
  if ((97 <=? c) && (c <=? 122))%Z then (c - 32)%Z else c.

Definition example_tolower (c : Z) : Z :=
  if ((65 <=? c) && (c <=? 90))%Z then (c + 32)%Z else c.

Definition example_suggest (reps : list (list Z * list Z)) (w : list Z) : state :=
  suggest_priv example_check_word (λ s, example_check_word s SMALL)
    (map example_toupper) example_toupper example_tolower (λ w, (false, w))
    1 2 false (Replacement_Table.order_entries reps) [] [] []
    (mk_state w [] false).

(** C3, as the specification states it, fails: "a lot" is suggested for
    "alot" and
    does not pass the check of a word in small letters. With the replacement
    of "alot" by "a lto" the string "a lto" is suggested as well; it does
    not pass the check either and is no pair of words of the dictionary:
    the loop of [try_rep_suggestion] checks "a", the part that ends at the
    space, and nothing after the last space. *)
Lemma suggestion_a_lot_fails_check :
  example_suggest [] [97; 108; 111; 116]%Z
    = mk_state [97; 108; 111; 116]%Z
        [[108; 111; 116]; [97; 32; 108; 111; 116]]%Z false ∧
  ¬ passes example_check_word 1 2 false [97; 32; 108; 111; 116]%Z ∧
  example_suggest [([97; 108; 111; 116], [97; 32; 108; 116; 111])]%Z
      [97; 108; 111; 116]%Z
    = mk_state [97; 108; 111; 116]%Z
        [[97; 32; 108; 116; 111]; [108; 111; 116]; [97; 32; 108; 111; 116]]%Z
        false ∧
  ¬ passes example_check_word 1 2 false [97; 32; 108; 116; 111]%Z ∧
  ¬ two_words (λ s, example_check_word s SMALL) [97; 32; 108; 116; 111]%Z.
Proof.
  split_and!.
  - vm_compute. reflexivity.
  - intros (res & Hres & _). vm_compute in Hres. discriminate.
  - vm_compute. reflexivity.
  - intros (res & Hres & _). vm_compute in Hres. discriminate.
  - intros (a & b & sep & Hs & Hsep & Ha & Hb).
    unfold ch_space, ch_minus in Hsep.
    destruct a as [|? a]; simpl in Hs; [injection Hs as ? ?; lia|].
    injection Hs as ? Hs.
    destruct a as [|? a]; simpl in Hs.
    { injection Hs as ? ?. subst. vm_compute in Hb. by destruct Hb. }
    injection Hs as ? Hs.
    destruct a as [|? a]; simpl in Hs; [injection Hs as ? ?; lia|].
    injection Hs as ? Hs.
    destruct a as [|? a]; simpl in Hs; [injection Hs as ? ?; lia|].
    injection Hs as ? Hs.
    destruct a as [|? a]; simpl in Hs; [injection Hs as ? ?; lia|].
    injection Hs as ? Hs.
    destruct a; discriminate.
Qed.

(** With the replacement of "alot" by "a lot" the string "a lot" comes from
    [try_rep_suggestion], and [two_words_suggest] does not add it a second
    time. *)
Example example_rep_a_lot :
  out (example_suggest [([97; 108; 111; 116], [97; 32; 108; 111; 116])]%Z
         [97; 108; 111; 116]%Z)
  = [[97; 32; 108; 111; 116]; [108; 111; 116]]%Z.
Proof. vm_compute. reflexivity. Qed.

(** Every entry that the example checker finds is without flags. *)
Lemma example_flags_clear (s : list Z) :
  flags_clear example_check_word (λ s, example_check_word s SMALL) 1 2 false s.
Proof.
  intros piece res _ Hres.
  assert (res = String_Set.of_str []) as ->.
  { unfold example_check_word in Hres.
    destruct (bool_decide (piece ∈ example_words));
      destruct Hres as [Hres|Hres]; congruence. }
  split; reflexivity.
Qed.

(** The strings that end with a space and a part without space, for the two
    strings of the examples. *)
Lemma example_last_part (tail pre part : list Z) :
  [97; 32]%Z ++ tail = pre ++ ch_space :: part →
  ch_space ∉ tail → ch_space ∉ part → part = tail.
Proof.
  unfold ch_space. intros Heq Htail Hpart.
  destruct pre as [|c0 [|c1 pre]]; simpl in Heq.
  - injection Heq as Hc _. lia.
  - by injection Heq as _ ->.
  - injection Heq as _ _ ->. exfalso. apply Htail.
    apply elem_of_app. right. left.
Qed.

(** C3 on the word "alot" and the words "a" and "lot": the suggestions are
    "lot", which passes the check, and "a lot", whose part after the space
    is a word and whose parts match entries without flags: both halves
    spell. *)
Lemma suggestions_pass_or_every_part_passes_witness :
  out (example_suggest [] [97; 108; 111; 116]%Z)
    = [[108; 111; 116]; [97; 32; 108; 111; 116]]%Z ∧
  passes example_check_word 1 2 false [108; 111; 116]%Z ∧
  last_part_found example_check_word [97; 32; 108; 111; 116]%Z ∧
  flags_clear example_check_word (λ s, example_check_word s SMALL) 1 2 false
    [97; 32; 108; 111; 116]%Z ∧
  (halves_pass (λ s, example_check_word s SMALL) 1 2 false
     [97; 32; 108; 111; 116]%Z ∨
   parts_pass example_check_word 1 2 false [97; 32; 108; 111; 116]%Z).
Proof.
  assert (Hout : out (example_suggest [] [97; 108; 111; 116]%Z)
                 = [[108; 111; 116]; [97; 32; 108; 111; 116]]%Z)
    by (vm_compute; reflexivity).
  assert (Hlast : last_part_found example_check_word [97; 32; 108; 111; 116]%Z).
  { intros pre part Heq Hpart.
    rewrite (example_last_part [108; 111; 116]%Z pre part Heq); [| |done].
    - vm_compute. eauto.
    - unfold ch_space. rewrite !elem_of_cons, elem_of_nil. lia. }
  pose proof (suggestions_pass_or_every_part_passes
                example_check_word (λ s, example_check_word s SMALL)
                (map example_toupper) example_toupper example_tolower
                (λ w, (false, w)) 1 2 false
                (Replacement_Table.order_entries []) [] [] []
                [97; 108; 111; 116]%Z) as Hall.
  fold (example_suggest [] [97; 108; 111; 116]%Z) in Hall.
  rewrite Hout in Hall.
  apply Forall_cons in Hall as [Hlot Hall].
  apply Forall_cons in Hall as [Halot _].
  split_and!; [done| |done|apply example_flags_clear|].
  - destruct Hlot as [Hlot|[Hsep _]]; [done|].
    exfalso. unfold ch_space, ch_minus in Hsep.
    rewrite !elem_of_cons, !elem_of_nil in Hsep. lia.
  - destruct Halot as [(res & Hres & _)|[_ Hparts]].
    + vm_compute in Hres. discriminate.
    + apply Hparts; [done|apply example_flags_clear].
Defined.

(** With the replacement of "alot" by "a lto" the string "a lto" is
    suggested. Its part after the space, "lto", is no word and was never
    looked up: the string is one of those of which C3 states nothing. *)
Example example_last_part_not_looked_up :
  [97; 32; 108; 116; 111]%Z
    ∈ out (example_suggest [([97; 108; 111; 116], [97; 32; 108; 116; 111])]%Z
             [97; 108; 111; 116]%Z) ∧
  ¬ last_part_found example_check_word [97; 32; 108; 116; 111]%Z.
Proof.
  split.
  - vm_compute. left.
  - intros Hlast.
    destruct (Hlast [97]%Z [108; 116; 111]%Z) as [res Hres]; [done| |].
    + unfold ch_space. rewrite !elem_of_cons, elem_of_nil. lia.
    + vm_compute in Hres. discriminate.
Qed.

(** X17 on the example checker, with a similarity group of the characters
    "ae" and the string "ss", for the word "ababa". *)
Lemma suggest_functions_give_word_back_witness :
  Forall group_ok [mk_group [97; 101] [[115; 115]]]%Z ∧
  word (suggest_priv example_check_word (λ s, example_check_word s SMALL)
          (map example_toupper) example_toupper example_tolower
          (λ w, (false, w)) 1 2 false (Replacement_Table.order_entries [])
          [mk_group [97; 101] [[115; 115]]]%Z [] []
          (mk_state [97; 98; 97; 98; 97]%Z [] false))
    ≡ₚ [97; 98; 97; 98; 97]%Z.
Proof.
  assert (H : Forall group_ok [mk_group [97; 101] [[115; 115]]]%Z).
  { repeat constructor. discriminate. }
  split; [exact H|].
  exact (proj2 (proj2 (proj2
    (suggest_functions_give_word_back
       example_check_word (λ s, example_check_word s SMALL)
       (map example_toupper) example_toupper example_tolower
       (λ w, (false, w)) 1 2 false (Replacement_Table.order_entries [])
       [mk_group [97; 101] [[115; 115]]]%Z [] []
       (mk_state [97; 98; 97; 98; 97]%Z [] false) H)))).
Defined.

(** The string that [suggest_priv] leaves for "ababa" is "abaab". *)
Example example_word_after_suggest_priv :
  word (suggest_priv example_check_word (λ s, example_check_word s SMALL)
          (map example_toupper) example_toupper example_tolower
          (λ w, (false, w)) 1 2 false (Replacement_Table.order_entries [])
          [] [] [] (mk_state [97; 98; 97; 98; 97]%Z [] false))
  = [97; 98; 97; 97; 98]%Z.
Proof. vm_compute. reflexivity. Qed.

End Suggester.

(** ** German sharp s: [Dict_Base::spell_sharps] of dictionary.cxx *)

Module Spell_Sharps.
Import Std.

Definition Flag_Set : Type := String_Set.String_Set.

Definition ch_s : Z := 115.
Definition ch_sharp_s : Z := 223.
Definition MAX_SHARPS : nat := 5.

Section Spell_Sharps.
(** [check_word(base, Casing::ALL_CAPITAL)]: the flags of the entry it
    finds, or null. It gives its argument back as it was. *)
Variable check_word : list Z → option Flag_Set.

(** [spell_sharps(base, pos, n, rep)], returning the result and the string
    [base], which it takes by reference. The answer [None] is fuel that ran
    out. *)
Fixpoint spell_sharps (fuel : nat) (base : list Z) (pos n rep : nat) :
    option (option Flag_Set * list Z) :=
  match fuel with
  | 0 => None
  | S fuel' =>
      let after_else :=
        if 0 <? rep then (check_word base, base) else (None, base) in
      match find_sub_from [ch_s; ch_s] pos base with
      | Some pos =>
          if n <? MAX_SHARPS then
            let base := <[pos:=ch_sharp_s]> base in
            let base := erase_range (pos + 1) 1 base in
            match spell_sharps fuel' base (pos + 1) (n + 1) (rep + 1) with
            | None => None
            | Some (res, base) =>
                let base := <[pos:=ch_s]> base in
                let base := insert_at (pos + 1) ch_s base in
                match res with
                | Some r => Some (Some r, base)
                | None => spell_sharps fuel' base (pos + 2) (n + 1) rep
                end
            end
          else Some after_else
      | None => Some after_else
      end
  end.

(** [v] is [base] with [k] of its pairs "ss" turned into a sharp s. *)
Inductive sharpened : nat → list Z → list Z → Prop :=
| sharpened_0 base : sharpened 0 base base
| sharpened_S k pre post v :
    sharpened k (pre ++ [ch_sharp_s] ++ post) v →
    sharpened (S k) (pre ++ [ch_s; ch_s] ++ post) v.

Lemma sharpened_length k base v : sharpened k base v → length v + k = length base.
Proof.
  induction 1 as [|k pre post v H IH]; [lia|].
  rewrite !length_app in *. simpl in *. lia.
Qed.

(** The two changes of the string around the first recursive call. *)
Lemma to_sharp (base : list Z) pos :
  pos ≤ length base → take 2 (drop pos base) = [ch_s; ch_s] →
  base = take pos base ++ [ch_s; ch_s] ++ drop (pos + 2) base ∧
  erase_range (pos + 1) 1 (<[pos:=ch_sharp_s]> base)
  = take pos base ++ [ch_sharp_s] ++ drop (pos + 2) base.
Proof.
  intros Hpos Hss.
  assert (Hbase : base = take pos base ++ [ch_s; ch_s] ++ drop (pos + 2) base).
  { rewrite <- (take_drop pos base) at 1. f_equal.
    rewrite <- (take_drop 2 (drop pos base)) at 1.
    by rewrite Hss, drop_drop. }
  split; [exact Hbase|].
  assert (Hlen : length (take pos base) = pos) by (rewrite length_take; lia).
  rewrite Hbase at 1.
  rewrite insert_app_r_alt by lia. rewrite Hlen, Nat.sub_diag. simpl.
  unfold erase_range. replace (pos + 1 + 1) with (pos + 2) by lia.
  rewrite take_app_add' by lia. rewrite drop_app_add' by lia.
  simpl. rewrite drop_0. by rewrite <- app_assoc.
Qed.

Lemma from_sharp (l1 l2 : list Z) :
  insert_at (length l1 + 1) ch_s (<[length l1:=ch_s]> (l1 ++ [ch_sharp_s] ++ l2))
  = l1 ++ [ch_s; ch_s] ++ l2.
Proof.
  rewrite insert_app_r_alt by lia. rewrite Nat.sub_diag. simpl.
  unfold insert_at.
  rewrite take_app_add' by lia. rewrite drop_app_add' by lia.
  simpl. rewrite drop_0. by rewrite <- app_assoc.
Qed.

(** The string comes back as it was, and a result that is not null is the
    result of [check_word] on the string with some of its pairs "ss" turned
    into a sharp s: as many as the depth allows, and one at least unless
    [rep] counts one already. *)
Lemma spell_sharps_spec fuel base pos n rep res base' :
  n ≤ MAX_SHARPS →
  spell_sharps fuel base pos n rep = Some (res, base') →
  base' = base ∧
  ∀ r, res = Some r →
    ∃ k v, 0 < rep + k ∧ n + k ≤ MAX_SHARPS ∧ sharpened k base v ∧
           check_word v = Some r.
Proof.
  revert base pos n rep res base'.
  induction fuel as [|fuel IH]; intros base pos n rep res base' Hn; [done|].
  cbn [spell_sharps]. cbv zeta.
  assert (Helse : Some (if 0 <? rep then (check_word base, base) else (None, base))
                  = Some (res, base') →
                  base' = base ∧
                  ∀ r, res = Some r →
                    ∃ k v, 0 < rep + k ∧ n + k ≤ MAX_SHARPS ∧
                           sharpened k base v ∧ check_word v = Some r).
  { intros Heq. destruct (Nat.ltb_spec 0 rep); injection Heq as <- <-;
      (split; [done|]); intros r Hr; [|done].
    exists 0, base. split_and!; [lia|lia|constructor|done]. }
  destruct (find_sub_from [ch_s; ch_s] pos base) as [p|] eqn:Hp; [|exact Helse].
  destruct (Nat.ltb_spec n MAX_SHARPS) as [Hlt|]; [|exact Helse].
  apply Suggester.find_sub_from_spec in Hp as (_ & Hp & Hss). simpl in Hss.
  destruct (to_sharp base p Hp Hss) as [Hbase ->].
  destruct (spell_sharps fuel _ (p + 1) (n + 1) (rep + 1))
    as [[res1 base1]|] eqn:H1; [|done].
  apply IH in H1 as [-> Hres1]; [|lia].
  assert (Hlen : length (take p base) = p) by (rewrite length_take; lia).
  pose proof (from_sharp (take p base) (drop (p + 2) base)) as Hback.
  rewrite Hlen, <- Hbase in Hback. rewrite Hback.
  destruct res1 as [r1|].
  - intros [= <- <-]. split; [done|]. intros r [= <-].
    destruct (Hres1 r1 eq_refl) as (k & v & Hk & Hnk & Hsh & Hc).
    exists (S k), v. split_and!; [lia|lia| |done].
    rewrite Hbase. by constructor.
  - intros H2. apply IH in H2 as [-> Hres2]; [|lia]. split; [done|].
    intros r Hr. destruct (Hres2 r Hr) as (k & v & Hk & Hnk & Hsh & Hc).
    exists k, v. split_and!; [lia|lia|done|done].
Qed.

(** The depth of the recursion is bounded by [MAX_SHARPS]. *)
Lemma spell_sharps_is_Some fuel base pos n rep :
  n ≤ MAX_SHARPS → MAX_SHARPS - n < fuel →
  is_Some (spell_sharps fuel base pos n rep).
Proof.
  revert base pos n rep.
  induction fuel as [|fuel IH]; intros base pos n rep Hn Hfuel; [lia|].
  cbn [spell_sharps]. cbv zeta.
  destruct (find_sub_from [ch_s; ch_s] pos base) as [p|]; [|done].
  destruct (Nat.ltb_spec n MAX_SHARPS) as [Hlt|]; [|done].
  destruct (IH (erase_range (p + 1) 1 (<[p:=ch_sharp_s]> base)) (p + 1) (n + 1)
              (rep + 1)) as [[res1 base1] ->]; [lia|lia|].
  destruct res1; [done|]. apply IH; lia.
Qed.

Lemma spell_sharps_S fuel base pos n rep :
  spell_sharps (S fuel) base pos n rep =
  let after_else :=
    if 0 <? rep then (check_word base, base) else (None, base) in
  match find_sub_from [ch_s; ch_s] pos base with
  | Some pos =>
      if n <? MAX_SHARPS then
        match
          spell_sharps fuel (erase_range (pos + 1) 1 (<[pos:=ch_sharp_s]> base))
            (pos + 1) (n + 1) (rep + 1)
        with
        | None => None
        | Some (res, base) =>
            match res with
            | Some r => Some (Some r, insert_at (pos + 1) ch_s (<[pos:=ch_s]> base))
            | None =>
                spell_sharps fuel (insert_at (pos + 1) ch_s (<[pos:=ch_s]> base))
                  (pos + 2) (n + 1) rep
            end
        end
      else Some after_else
  | None => Some after_else
  end.
Proof. reflexivity. Qed.

Lemma spell_sharps_more_fuel fuel base pos n rep x :
  spell_sharps fuel base pos n rep = Some x →
  spell_sharps (S fuel) base pos n rep = Some x.
Proof.
  revert base pos n rep x.
  induction fuel as [|fuel IH]; intros base pos n rep x; [done|].
  intros H. rewrite spell_sharps_S in H. rewrite (spell_sharps_S (S fuel)).
  cbv zeta in H |- *.
  destruct (find_sub_from [ch_s; ch_s] pos base) as [p|]; [|done].
  destruct (n <? MAX_SHARPS); [|done].
  destruct (spell_sharps fuel _ (p + 1) (n + 1) (rep + 1))
    as [[res1 base1]|] eqn:H1; [|done].
  rewrite (IH _ _ _ _ _ H1). destruct res1; [done|]. by apply IH.
Qed.

Lemma spell_sharps_fuel fuel fuel' base pos n rep x :
  fuel ≤ fuel' →
  spell_sharps fuel base pos n rep = Some x →
  spell_sharps fuel' base pos n rep = Some x.
Proof.
  induction 1 as [|fuel' Hle IH]; [done|].
  intros H. by apply spell_sharps_more_fuel, IH.
Qed.

(** X19. [spell_sharps(base)] comes to its end within a nesting of
    [MAX_SHARPS] and one more, and gives the string back as it was. A result
    that is not null is the result of [check_word] on the string with at
    least one and at most [MAX_SHARPS] of its pairs "ss" turned into a sharp
    s: the string itself is never looked up, and a string without "ss" gets
    null. *)
Theorem spell_sharps_checks_sharpened_words (base : list Z) :
  ∃ res,
    (∀ fuel, MAX_SHARPS < fuel →
       spell_sharps fuel base 0 0 0 = Some (res, base)) ∧
    (∀ r, res = Some r →
       ∃ k v, 1 ≤ k ∧ k ≤ MAX_SHARPS ∧ sharpened k base v ∧
              check_word v = Some r) ∧
    (find_sub_from [ch_s; ch_s] 0 base = None → res = None).
Proof.
  destruct (spell_sharps_is_Some (S MAX_SHARPS) base 0 0 0)
    as [[res base'] Hrun]; [unfold MAX_SHARPS; lia|lia|].
  pose proof Hrun as Hspec.
  apply spell_sharps_spec in Hspec as [-> Hres]; [|unfold MAX_SHARPS; lia].
  exists res. split_and!.
  - intros fuel Hfuel. eapply spell_sharps_fuel; [|exact Hrun]. lia.
  - intros r Hr. destruct (Hres r Hr) as (k & v & Hk & Hnk & Hsh & Hc).
    exists k, v. split_and!; [lia|lia|done|done].
  - intros Hnone. cbn [spell_sharps] in Hrun. cbv zeta in Hrun.
    rewrite Hnone in Hrun. simpl in Hrun. by injection Hrun as <-.
Qed.

End Spell_Sharps.

(** The word "strasse" with a checker that knows "straße" only. *)
Example example_spell_sharps :
  spell_sharps
    (λ s, if bool_decide (s = [115; 116; 114; 97; 223; 101]%Z)
          then Some (String_Set.of_str []) else None)
    6 [115; 116; 114; 97; 115; 115; 101]%Z 0 0 0
  = Some (Some (String_Set.of_str []), [115; 116; 114; 97; 115; 115; 101]%Z).
Proof. vm_compute. reflexivity. Qed.

End Spell_Sharps.

(** ** Input and output conversion: [Substr_Replacer<CharT>] of structures.hxx *)

Module Substr_Replacer.
Import Std.

Definition Pair_Str : Type := list Z * list Z.

(** [basic_string::compare]: negative, zero or positive. *)
Fixpoint compare (a b : list Z) : comparison :=
  match a, b with
  | [], [] => Eq
  | [], _ :: _ => Lt
  | _ :: _, [] => Gt
  | x :: a', y :: b' =>
      match (x ?= y)%Z with
      | Eq => compare a' b'
      | c => c
      end
  end.

(** The comparator of [std::sort] in [sort_uniq], [a.first < b.first], as
    "does not come after". *)
Definition key_le (a b : Pair_Str) : Prop :=
  Prefix_Multiset.lex_lt b.1 a.1 = false.

Global Instance pair_key_le_dec a b : Decision (key_le a b).
Proof. unfold key_le. apply _. Defined.

(** [std::unique] with the predicate [a.first == b.first], followed by the
    erase of the tail: the first pair of every run of equal keys stays. *)
Fixpoint unique_from (prev : list Z) (l : list Pair_Str) : list Pair_Str :=
  match l with
  | [] => []
  | y :: l' =>
      if decide (prev = y.1) then unique_from prev l'
      else y :: unique_from y.1 l'
  end.

Definition unique (l : list Pair_Str) : list Pair_Str :=
  match l with
  | [] => []
  | x :: l' => x :: unique_from x.1 l'
  end.

(** [sort_uniq()]. [std::sort] leaves the order of pairs with equal keys
    open, and with it the pair that [std::unique] keeps of them; the stable
    merge sort stands for it. *)
Definition sort_uniq (table : list Pair_Str) : list Pair_Str :=
  let table := unique (merge_sort key_le table) in
  match table with
  | x :: table' => if length x.1 =? 0 then table' else table
  | [] => table
  end.

(** The constructors and assignment operators: copy, then [sort_uniq]. *)
Definition of_table (v : list Pair_Str) : list Pair_Str := sort_uniq v.

(** [Comparer_Str_Rep::cmp_prefix_of(p, of)]:
    [p.compare(0, npos, of.data(), min(p.size(), of.size()))]. *)
Definition cmp_prefix_of (p of_ : list Z) : comparison :=
  compare p (take (length p `min` length of_) of_).

Definition key_at (t : list Pair_Str) (i : nat) : list Z :=
  match t !! i with
  | Some x => x.1
  | None => []
  end.

Definition is_Gt (c : comparison) : bool :=
  match c with Gt => true | _ => false end.

Definition is_Eq (c : comparison) : bool :=
  match c with Eq => true | _ => false end.

(** The loop of [find_match]: [it] and [last_match] are indices into the
    table, [None] for [end(t)]. The outer [None] is fuel that ran out. *)
Fixpoint find_match_loop (fuel : nat) (t : list Pair_Str) (s : list Z)
    (it : nat) (last_match : option nat) : option (option nat) :=
  match fuel with
  | 0 => None
  | S fuel' =>
      let it2 :=
        partition_point (λ m, negb (is_Gt (cmp_prefix_of (key_at t m) s)))
          it (length t) in
      if it2 =? it then Some last_match
      else
        let it2 := it2 - 1 in
        if is_Eq (cmp_prefix_of (key_at t it2) s)
        then find_match_loop fuel' t s (it2 + 1) (Some it2)
        else Some last_match
  end.

Definition find_match (t : list Pair_Str) (s : list Z) : option (option nat) :=
  find_match_loop (S (length t)) t s 0 None.

(** The loop of [replace], from position [i] on. *)
Fixpoint replace_loop (fuel : nat) (t : list Pair_Str) (s : list Z) (i : nat) :
    option (list Z) :=
  match fuel with
  | 0 => None
  | S fuel' =>
      if i <? length s then
        match find_match t (drop i s) with
        | None => None
        | Some (Some it) =>
            match t !! it with
            | Some match_ =>
                replace_loop fuel' t
                  (take i s ++ match_.2 ++ drop (i + length match_.1) s)
                  (i + length match_.2)
            | None => None
            end
        | Some None => replace_loop fuel' t s (i + 1)
        end
      else Some s
  end.

(** [replace(s)]; [None] is fuel that ran out. *)
Definition replace (t : list Pair_Str) (s : list Z) : option (list Z) :=
  if length t =? 0 then Some s
  else replace_loop (S (length s)) t s 0.

(** *** The order of strings *)

Lemma compare_lex_lt a b :
  (compare a b = Lt ↔ Prefix_Multiset.lex_lt a b = true) ∧
  (compare a b = Gt ↔ Prefix_Multiset.lex_lt b a = true) ∧
  (compare a b = Eq ↔ a = b).
Proof.
  revert b. induction a as [|x a IH]; intros [|y b]; simpl; try done.
  destruct (Z.compare_spec x y) as [->|Hlt|Hgt].
  - rewrite Z.ltb_irrefl. destruct (IH b) as (H1 & H2 & H3).
    split_and!; [done|done|]. rewrite H3. split; [by intros ->|by intros [= ->]].
  - destruct (Z.ltb_spec x y); [|lia]. destruct (Z.ltb_spec y x); [lia|].
    split_and!; try done. split; [done|]. intros [= -> _]. lia.
  - destruct (Z.ltb_spec x y); [lia|]. destruct (Z.ltb_spec y x); [|lia].
    split_and!; try done. split; [done|]. intros [= -> _]. lia.
Qed.

(** The key is not above the string. *)
Lemma cmp_prefix_of_not_Gt k s :
  is_Gt (cmp_prefix_of k s) = false ↔ Prefix_Multiset.lex_lt s k = false.
Proof.
  unfold cmp_prefix_of. revert s. induction k as [|x k IH]; intros [|y s];
    simpl; try done.
  destruct (Z.compare_spec x y) as [->|Hlt|Hgt].
  - rewrite Z.ltb_irrefl. apply IH.
  - destruct (Z.ltb_spec y x); [lia|]. by destruct (Z.ltb_spec x y); [|lia].
  - by destruct (Z.ltb_spec y x); [|lia].
Qed.

(** The key is a prefix of the string. *)
Lemma cmp_prefix_of_Eq k s :
  is_Eq (cmp_prefix_of k s) = true ↔ k `prefix_of` s.
Proof.
  unfold cmp_prefix_of. revert s. induction k as [|x k IH]; intros [|y s];
    simpl.
  - split; [intros _; by exists []|done].
  - split; [intros _; by eexists|done].
  - split; [done|]. intros [r Hr]. done.
  - destruct (Z.compare_spec x y) as [->|Hlt|Hgt].
    + rewrite IH. split.
      * intros [r ->]. by exists r.
      * intros [r [= ->]]. by exists r.
    + split; [done|]. intros [r [= -> _]]. lia.
    + split; [done|]. intros [r [= -> _]]. lia.
Qed.

Lemma prefix_lex_le (k s : list Z) :
  k `prefix_of` s → Prefix_Multiset.lex_lt s k = false.
Proof.
  intros [r ->]. induction k as [|x k IH]; simpl; [by destruct r|].
  by rewrite Z.ltb_irrefl.
Qed.

Lemma lex_lt_total a b :
  Prefix_Multiset.lex_lt b a = false → a ≠ b → Prefix_Multiset.lex_lt a b = true.
Proof.
  intros Hba Hne. destruct (compare_lex_lt a b) as (H1 & H2 & H3).
  destruct (compare a b); [by destruct (Hne (proj1 H3 eq_refl))|by apply H1|].
  rewrite (proj1 H2 eq_refl) in Hba. done.
Qed.

Global Instance pair_key_le_trans : Transitive key_le.
Proof. intros a b c. unfold key_le. apply Prefix_Multiset.lex_le_trans. Qed.

Global Instance pair_key_le_total : Total key_le.
Proof.
  intros a b. unfold key_le.
  destruct (Prefix_Multiset.lex_lt b.1 a.1) eqn:H; [|by left].
  right. by apply Prefix_Multiset.lex_lt_asym.
Qed.

(** *** The table that [sort_uniq] leaves *)

(** The keys stand in strictly ascending order. *)
Definition key_lt (a b : Pair_Str) : Prop :=
  Prefix_Multiset.lex_lt a.1 b.1 = true.

Definition sorted_keys (t : list Pair_Str) : Prop := StronglySorted key_lt t.

Lemma unique_from_sorted prev l :
  StronglySorted key_le l →
  Forall (λ y, Prefix_Multiset.lex_lt y.1 prev = false) l →
  sorted_keys (unique_from prev l) ∧
  Forall (λ y, Prefix_Multiset.lex_lt prev y.1 = true) (unique_from prev l).
Proof.
  intros Hl. revert prev.
  induction Hl as [|y l Hl IH Hy]; intros prev Hprev; simpl.
  - split; constructor.
  - apply Forall_cons in Hprev as [Hpy Hprev].
    destruct (decide (prev = y.1)) as [->|Hne].
    + by apply IH.
    + destruct (IH y.1 Hy) as [IH1 IH2]. split.
      * by constructor.
      * constructor; [by apply lex_lt_total|].
        eapply Forall_impl; [exact IH2|]. simpl. intros z Hz.
        apply lex_lt_total.
        -- apply (Prefix_Multiset.lex_le_trans prev y.1 z.1); [exact Hpy|].
           by apply Prefix_Multiset.lex_lt_asym.
        -- intros Heq. rewrite Heq in Hpy. by rewrite Hz in Hpy.
Qed.

Lemma unique_sorted l : StronglySorted key_le l → sorted_keys (unique l).
Proof.
  intros Hl. destruct l as [|x l]; simpl; [constructor|].
  apply StronglySorted_inv in Hl as [Hl Hx].
  destruct (unique_from_sorted x.1 l Hl Hx). by constructor.
Qed.

Lemma sorted_keys_tail x t : sorted_keys (x :: t) → sorted_keys t.
Proof. intros H. by apply StronglySorted_inv in H as [? _]. Qed.

Lemma elem_of_unique_keys prev l y : y ∈ unique_from prev l → y ∈ l.
Proof.
  revert prev. induction l as [|z l IH]; intros prev; simpl; [done|].
  destruct (decide (prev = z.1)).
  - intros H. right. by eapply IH.
  - rewrite !elem_of_cons. intros [->|H]; [by left|]. right. by eapply IH.
Qed.

Lemma key_in_unique_from prev l y :
  y ∈ l → y.1 = prev ∨ ∃ z, z ∈ unique_from prev l ∧ z.1 = y.1.
Proof.
  revert prev. induction l as [|z l IH]; intros prev; simpl.
  - intros H. by apply elem_of_nil in H.
  - rewrite elem_of_cons. destruct (decide (prev = z.1)) as [->|Hne].
    + intros [->|H]; [by left|]. by apply IH.
    + intros [->|H]; [right; exists z; split; [left|done]|].
      destruct (IH z.1 H) as [Heq|(w & Hw & Heq)]; right.
      * exists z. split; [left|done].
      * exists w. split; [by right|done].
Qed.

Lemma sort_uniq_spec (v : list Pair_Str) :
  sorted_keys (sort_uniq v) ∧
  Forall (λ x, x.1 ≠ []) (sort_uniq v) ∧
  Forall (λ x, x ∈ v) (sort_uniq v) ∧
  (∀ y, y ∈ v → y.1 ≠ [] → ∃ z, z ∈ sort_uniq v ∧ z.1 = y.1).
Proof.
  pose proof (StronglySorted_merge_sort key_le v) as Hs.
  pose proof (merge_sort_Permutation key_le v) as Hperm.
  assert (Hin : ∀ y, y ∈ unique (merge_sort key_le v) → y ∈ v).
  { intros y Hy. rewrite <- Hperm.
    destruct (merge_sort key_le v) as [|x l]; [done|]. simpl in Hy.
    apply elem_of_cons in Hy as [->|Hy]; [left|]. right.
    by eapply elem_of_unique_keys. }
  assert (Hkey : ∀ y, y ∈ v → ∃ z, z ∈ unique (merge_sort key_le v) ∧ z.1 = y.1).
  { intros y Hy. rewrite <- Hperm in Hy.
    destruct (merge_sort key_le v) as [|x l]; [by apply elem_of_nil in Hy|].
    simpl. apply elem_of_cons in Hy as [->|Hy]; [exists x; split; [left|done]|].
    destruct (key_in_unique_from x.1 l y Hy) as [Heq|(w & Hw & Heq)].
    - exists x. split; [left|done].
    - exists w. split; [by right|done]. }
  pose proof (unique_sorted _ Hs) as Hu.
  unfold sort_uniq. cbv zeta.
  destruct (unique (merge_sort key_le v)) as [|x t] eqn:Ht.
  { split_and!; try constructor. intros y Hy _.
    destruct (Hkey y Hy) as (z & Hz & _). by apply elem_of_nil in Hz. }
  assert (Htail : Forall (λ y, y.1 ≠ []) t).
  { apply StronglySorted_inv in Hu as [_ Hx].
    eapply Forall_impl; [exact Hx|]. simpl. intros y Hy Hnil.
    unfold key_lt in Hy. rewrite Hnil in Hy. by destruct x.1. }
  destruct (Nat.eqb_spec (length x.1) 0) as [Hx0|Hx0].
  - split_and!.
    + by eapply sorted_keys_tail.
    + done.
    + apply Forall_forall. intros y Hy. apply Hin. by right.
    + intros y Hy Hne. destruct (Hkey y Hy) as (z & Hz & Heq).
      apply elem_of_cons in Hz as [->|Hz]; [|by exists z].
      exfalso. apply Hne. rewrite <- Heq. by apply length_zero_iff_nil.
  - split_and!.
    + done.
    + constructor; [|done]. intros Hnil. by rewrite Hnil in Hx0.
    + apply Forall_forall. intros y Hy. by apply Hin.
    + intros y Hy _. by apply Hkey.
Qed.

(** *** What [find_match] finds *)

Lemma key_at_lookup t i x : t !! i = Some x → key_at t i = x.1.
Proof. intros H. unfold key_at. by rewrite H. Qed.

Lemma sorted_keys_lookup t i j x y :
  sorted_keys t → i < j → t !! i = Some x → t !! j = Some y →
  Prefix_Multiset.lex_lt x.1 y.1 = true.
Proof.
  intros Ht. revert i j. induction Ht as [|z t Ht IH Hz]; intros i j Hij Hi Hj;
    [done|].
  destruct j as [|j]; [lia|]. destruct i as [|i]; simpl in *.
  - injection Hi as ->. rewrite Forall_forall in Hz. apply Hz.
    by eapply list_elem_of_lookup_2.
  - apply (IH i j); [lia|done|done].
Qed.

(** The test of the binary search: the key is not above the string. *)
Definition not_above (t : list Pair_Str) (s : list Z) (m : nat) : bool :=
  negb (is_Gt (cmp_prefix_of (key_at t m) s)).

Lemma not_above_true t s m x :
  t !! m = Some x →
  not_above t s m = true ↔ Prefix_Multiset.lex_lt s x.1 = false.
Proof.
  intros Hm. unfold not_above. rewrite (key_at_lookup t m x Hm), negb_true_iff.
  apply cmp_prefix_of_not_Gt.
Qed.

Lemma not_above_partitioned t s first :
  sorted_keys t → partitioned (not_above t s) first (length t).
Proof.
  intros Ht i j _ Hij Hj Hpj.
  destruct (lookup_lt_is_Some_2 t j Hj) as [y Hy].
  destruct (lookup_lt_is_Some_2 t i) as [x Hx]; [lia|].
  apply (not_above_true t s j y Hy) in Hpj. apply (not_above_true t s i x Hx).
  destruct (decide (i = j)) as [->|Hne];
    [rewrite Hy in Hx; by injection Hx as <-|].
  apply (Prefix_Multiset.lex_le_trans x.1 y.1 s); [|done].
  apply Prefix_Multiset.lex_lt_asym.
  apply (sorted_keys_lookup t i j x y); auto. lia.
Qed.

(** [find_match] returns the greatest key that is not above the string, if
    that key is a prefix of the string, and nothing otherwise. *)
Lemma find_match_spec t s :
  sorted_keys t →
  ∃ res, find_match t s = Some res ∧
    (∀ m, res = Some m → m < length t) ∧
    ∀ m x, t !! m = Some x →
      res = Some m ↔
      x.1 `prefix_of` s ∧
      ∀ y, y ∈ t → Prefix_Multiset.lex_lt s y.1 = false →
           Prefix_Multiset.lex_lt x.1 y.1 = false.
Proof.
  intros Ht. unfold find_match. cbn [find_match_loop]. cbv zeta.
  fold (not_above t s).
  destruct (partition_point_spec (not_above t s) 0 (length t))
    as (Hr & Hlo & Hhi); [lia|by apply not_above_partitioned|].
  set (r := partition_point (not_above t s) 0 (length t)) in *.
  assert (Hbelow : ∀ m x, t !! m = Some x →
            Prefix_Multiset.lex_lt s x.1 = false → m < r).
  { intros m x Hm Hx. apply (not_above_true t s m x Hm) in Hx.
    destruct (decide (m < r)); [done|].
    pose proof (lookup_lt_Some _ _ _ Hm). rewrite Hhi in Hx; [done|lia|done]. }
  destruct (Nat.eqb_spec r 0) as [Hr0|Hr0].
  { exists None. split; [done|]. split; [done|]. intros m x Hm. split; [done|].
    intros [Hpre _]. apply prefix_lex_le in Hpre.
    specialize (Hbelow m x Hm Hpre). lia. }
  destruct (lookup_lt_is_Some_2 t (r - 0 - 1)) as [g Hg]; [lia|].
  replace (r - 0 - 1) with (r - 1) in * by lia. unfold Pair_Str in *.
  assert (Hg_le : Prefix_Multiset.lex_lt s g.1 = false).
  { apply (not_above_true t s (r - 1) g Hg). apply Hlo; lia. }
  assert (Hgreatest : ∀ y, y ∈ t → Prefix_Multiset.lex_lt s y.1 = false →
            Prefix_Multiset.lex_lt g.1 y.1 = false).
  { intros y Hy Hys. apply list_elem_of_lookup in Hy as [j Hj].
    pose proof (Hbelow j y Hj Hys) as Hjr.
    destruct (decide (j = r - 1)) as [Hjeq|Hne].
    - assert (y = g) as -> by congruence.
      apply Prefix_Multiset.lex_lt_irrefl.
    - apply Prefix_Multiset.lex_lt_asym.
      apply (sorted_keys_lookup t j (r - 1) y g); auto. lia. }
  assert (Honly : ∀ m x, t !! m = Some x →
            (∀ y, y ∈ t → Prefix_Multiset.lex_lt s y.1 = false →
                  Prefix_Multiset.lex_lt x.1 y.1 = false) →
            Prefix_Multiset.lex_lt s x.1 = false → m = r - 1).
  { intros m x Hm Hmax Hxs. pose proof (Hbelow m x Hm Hxs) as Hmr.
    destruct (decide (m = r - 1)) as [|Hne]; [done|]. exfalso.
    assert (Hlt : Prefix_Multiset.lex_lt x.1 g.1 = true)
      by (apply (sorted_keys_lookup t m (r - 1) x g); auto; lia).
    rewrite (Hmax g) in Hlt; [done| |done]. by eapply list_elem_of_lookup_2. }
  rewrite (key_at_lookup t (r - 1) g Hg).
  destruct (is_Eq (cmp_prefix_of g.1 s)) eqn:Heq.
  - apply cmp_prefix_of_Eq in Heq.
    destruct (length t) as [|n] eqn:Hn; [lia|]. cbn [find_match_loop]. cbv zeta.
    fold (not_above t s).
    assert (Hagain : partition_point (not_above t s) (r - 1 + 1) (length t)
                     = r - 1 + 1).
    { destruct (partition_point_spec (not_above t s) (r - 1 + 1) (length t))
        as (Hr' & Hlo' & _); [lia|by apply not_above_partitioned|].
      set (r' := partition_point (not_above t s) (r - 1 + 1) (length t)) in *.
      destruct (decide (r' = r - 1 + 1)) as [|Hne]; [done|]. exfalso.
      specialize (Hlo' (r - 1 + 1)). rewrite Hhi in Hlo'; [|lia|lia].
      assert (false = true) by (apply Hlo'; lia). done. }
    unfold Pair_Str in *. rewrite Hagain, Nat.eqb_refl.
    exists (Some (r - 1)). split; [done|]. split; [intros m [= <-]; lia|].
    intros m x Hm. split.
    + intros [= <-]. assert (x = g) as -> by congruence. done.
    + intros [Hpre Hmax]. f_equal. symmetry.
      apply (Honly m x Hm Hmax). by apply prefix_lex_le.
  - exists None. split; [done|]. split; [done|]. intros m x Hm. split; [done|].
    intros [Hpre Hmax].
    assert (m = r - 1) as Hmeq
      by (apply (Honly m x Hm Hmax); by apply prefix_lex_le).
    assert (x = g) as -> by congruence.
    apply cmp_prefix_of_Eq in Hpre. by rewrite Hpre in Heq.
Qed.

(** *** [replace] comes to its end *)

Lemma replace_loop_is_Some fuel t s i :
  sorted_keys t → Forall (λ x, x.1 ≠ []) t →
  length s - i < fuel → is_Some (replace_loop fuel t s i).
Proof.
  intros Ht Hne. revert s i.
  induction fuel as [|fuel IH]; intros s i Hfuel; [lia|].
  cbn [replace_loop].
  destruct (Nat.ltb_spec i (length s)) as [Hi|]; [|done].
  destruct (find_match_spec t (drop i s) Ht) as (res & -> & Hlt & Hres).
  destruct res as [m|]; [|apply IH; lia].
  destruct (lookup_lt_is_Some_2 t m (Hlt m eq_refl)) as [x Hm].
  unfold Pair_Str in *. rewrite Hm.
  destruct (proj1 (Hres m x Hm) eq_refl) as [[rest Hpre] _].
  apply IH. apply (f_equal length) in Hpre.
  rewrite length_drop, length_app in Hpre.
  rewrite Forall_forall in Hne.
  assert (x.1 ≠ []) as Hx by (apply Hne; by eapply list_elem_of_lookup_2).
  assert (0 < length x.1) by (destruct x.1; [done|simpl; lia]).
  rewrite !length_app, length_take, length_drop. lia.
Qed.

(** Without a key that stands somewhere in the string, the string stays. *)
Lemma replace_loop_no_key fuel t s i s' :
  sorted_keys t →
  (∀ x pre post, x ∈ t → s ≠ pre ++ x.1 ++ post) →
  replace_loop fuel t s i = Some s' → s' = s.
Proof.
  intros Ht Hno. revert i.
  induction fuel as [|fuel IH]; intros i; [done|]. cbn [replace_loop].
  destruct (Nat.ltb_spec i (length s)) as [Hi|]; [|by intros [= <-]].
  destruct (find_match_spec t (drop i s) Ht) as (res & -> & Hlt & Hres).
  destruct res as [m|]; [|apply IH].
  destruct (lookup_lt_is_Some_2 t m (Hlt m eq_refl)) as [x Hm].
  unfold Pair_Str in *. rewrite Hm.
  destruct (proj1 (Hres m x Hm) eq_refl) as [[rest Hpre] _].
  exfalso. apply (Hno x (take i s) rest); [by eapply list_elem_of_lookup_2|].
  by rewrite <- Hpre, take_drop.
Qed.

(** X20. The table that the constructor of [Substr_Replacer] builds from a
    vector of pairs has its keys in strictly ascending order, so that no key
    stands twice, and no empty key; its pairs are pairs of the vector, and
    every key of the vector that is not empty is a key of the table. *)
Theorem of_table_keys_ascending (v : list Pair_Str) :
  StronglySorted (λ a b, Prefix_Multiset.lex_lt a.1 b.1 = true) (of_table v) ∧
  Forall (λ x, x.1 ≠ []) (of_table v) ∧
  Forall (λ x, x ∈ v) (of_table v) ∧
  (∀ y, y ∈ v → y.1 ≠ [] → ∃ z, z ∈ of_table v ∧ z.1 = y.1).
Proof. exact (sort_uniq_spec v). Qed.

(** X21. [find_match(s)] on the table of a [Substr_Replacer] returns the
    greatest key of the table that is not above [s] in the order of
    strings, if that key is a prefix of [s], and [end(table)] otherwise.
    The key it returns is the longest key that is a prefix of [s]; it
    returns none, although a key is a prefix of [s], when a greater key
    that is no prefix of [s] is not above [s] either. *)
Theorem find_match_greatest_key (v : list Pair_Str) (s : list Z) :
  ∃ res, find_match (of_table v) s = Some res ∧
    (∀ m x, of_table v !! m = Some x →
       res = Some m ↔
       x.1 `prefix_of` s ∧
       ∀ y, y ∈ of_table v → Prefix_Multiset.lex_lt s y.1 = false →
            Prefix_Multiset.lex_lt x.1 y.1 = false) ∧
    (∀ m x, of_table v !! m = Some x → res = Some m →
       ∀ y, y ∈ of_table v → y.1 `prefix_of` s → length y.1 ≤ length x.1) ∧
    (∀ x y, x ∈ of_table v → y ∈ of_table v →
       x.1 `prefix_of` s → Prefix_Multiset.lex_lt x.1 y.1 = true →
       Prefix_Multiset.lex_lt s y.1 = false → ¬ y.1 `prefix_of` s →
       (∀ z, z ∈ of_table v → Prefix_Multiset.lex_lt y.1 z.1 = true →
             Prefix_Multiset.lex_lt s z.1 = true) →
       res = None).
Proof.
  destruct (sort_uniq_spec v) as (Ht & _).
  destruct (find_match_spec (of_table v) s Ht) as (res & Hrun & Hlt & Hres).
  exists res. split_and!; [done|done| |].
  - intros m x Hm Hm' y Hy [ry Hpre].
    destruct (proj1 (Hres m x Hm) Hm') as [[rx Hx] Hmax].
    assert (Hyx : Prefix_Multiset.lex_lt x.1 y.1 = false).
    { apply Hmax; [done|]. apply prefix_lex_le. by exists ry. }
    destruct (decide (length y.1 ≤ length x.1)) as [|Hlen]; [done|]. exfalso.
    assert (Hxy : x.1 `prefix_of` y.1).
    { destruct (prefix_weak_total x.1 y.1 s) as [H|H];
        [by exists rx|by exists ry|done|].
      apply prefix_length in H. lia. }
    destruct Hxy as [r Hr]. rewrite Hr in Hyx.
    rewrite <- (app_nil_r x.1) in Hyx at 1.
    rewrite Prefix_Multiset.lex_lt_app in Hyx.
    destruct r; [|done]. rewrite app_nil_r in Hr. rewrite Hr in Hlen. lia.
  - intros x y Hx Hy Hxpre Hxy Hys Hynot Hgreatest.
    destruct res as [m|]; [|done]. exfalso.
    destruct (lookup_lt_is_Some_2 _ m (Hlt m eq_refl)) as [g Hg].
    destruct (proj1 (Hres m g Hg) eq_refl) as [Hgpre Hmax].
    pose proof (Hmax y Hy Hys) as Hgy.
    destruct (decide (g.1 = y.1)) as [Heq|Hne]; [by rewrite Heq in Hgpre|].
    pose proof (lex_lt_total y.1 g.1 Hgy (λ H, Hne (eq_sym H))) as Hlt'.
    pose proof (Hgreatest g (list_elem_of_lookup_2 _ _ _ Hg) Hlt') as Hsg.
    by rewrite (prefix_lex_le g.1 s Hgpre) in Hsg.
Qed.

(** X22. [replace(s)] with the table of a [Substr_Replacer] comes to its end
    on every string: a key that is found is not empty, so that every round
    leaves less of the string to look at. With an empty table, and with a
    table of which no key stands anywhere in the string, the string stays
    as it is. *)
Theorem replace_comes_to_an_end (v : list Pair_Str) (s : list Z) :
  ∃ s', replace (of_table v) s = Some s' ∧
    (of_table v = [] → s' = s) ∧
    ((∀ x pre post, x ∈ of_table v → s ≠ pre ++ x.1 ++ post) → s' = s).
Proof.
  destruct (sort_uniq_spec v) as (Ht & Hne & _).
  unfold replace.
  destruct (Nat.eqb_spec (length (of_table v)) 0) as [Hz|Hnz].
  - exists s. split_and!; done.
  - destruct (replace_loop_is_Some (S (length s)) (of_table v) s 0 Ht Hne)
      as [s' Hs']; [lia|].
    exists s'. split_and!; [done| |].
    + intros Hnil. by rewrite Hnil in Hnz.
    + intros Hno. by eapply replace_loop_no_key.
Qed.

(** The table of the pairs ("a", "X") and ("ab", "Y"): "abc" becomes "Yc"
    and "a" becomes "X", but "ac" stays, though "a" is a prefix of it: the
    greatest key not above "ac" is "ab". *)
Example example_replace :
  of_table [([97], [88]); ([97; 98], [89])]%Z
    = [([97], [88]); ([97; 98], [89])]%Z ∧
  replace (of_table [([97], [88]); ([97; 98], [89])]%Z) [97; 98; 99]%Z
    = Some [89; 99]%Z ∧
  replace (of_table [([97], [88]); ([97; 98], [89])]%Z) [97]%Z
    = Some [88]%Z ∧
  find_match (of_table [([97], [88]); ([97; 98], [89])]%Z) [97; 99]%Z
    = Some None ∧
  replace (of_table [([97], [88]); ([97; 98], [89])]%Z) [97; 99]%Z
    = Some [97; 99]%Z.
Proof. vm_compute. repeat split. Qed.

End Substr_Replacer.
